(** * Kernel::Tree — hash-consed expression DAG (ao/src/tree/tree.cpp)

    A shallow embedding of [tree.cpp]: the [Tree] constructors with their
    assertions, the node destructor, [Tree::ordered], [Tree::serialize],
    [Tree::serializeString] and [Tree::remap].  The interning [Cache], the
    opcode table, the declaration of the node with the type of its value
    and the template [serializeBytes] live in headers that are not part of
    the translation unit; they are modelled from the documentation and
    every such definition says so. *)

From stdpp Require Import gmap gmultiset list sorting strings.
From Stdlib Require Import ZArith Lia.

Open Scope Z_scope.
Open Scope nat_scope.

(* ================================================================== *)
(** ** Opcodes *)

Module Opcode.

(** The operations that [tree.cpp] names.  ([LAST_OP] is the end marker
    of the enumeration and never the opcode of a node.) *)
Inductive Opcode : Set :=
| CONST | VAR
| SQUARE | SQRT | NEG | SIN | COS | TAN | ASIN | ACOS | ATAN | EXP
| ADD | MUL | MIN | MAX | SUB | DIV | ATAN2 | POW | NTH_ROOT | MOD
| NANFILL.

(** Modelled from the spec: [Opcode::args] is the table of operand
    counts, declared in the opcode header.  Constants and free variables
    are nullary; the unary and binary groups are those of the
    construction surface ([OP_UNARY] and [OP_BINARY] in [tree.cpp]). *)
Definition args (op : Opcode) : nat :=
  match op with
  | CONST | VAR => 0
  | SQUARE | SQRT | NEG | SIN | COS | TAN | ASIN | ACOS | ATAN | EXP => 1
  | ADD | MUL | MIN | MAX | SUB | DIV | ATAN2 | POW | NTH_ROOT | MOD
  | NANFILL => 2
  end.

(** Position of an opcode in the listing above; used to count the type
    and as a sample numbering of the enumeration. *)
Definition index (op : Opcode) : nat :=
  match op with
  | CONST => 0 | VAR => 1
  | SQUARE => 2 | SQRT => 3 | NEG => 4 | SIN => 5 | COS => 6 | TAN => 7
  | ASIN => 8 | ACOS => 9 | ATAN => 10 | EXP => 11
  | ADD => 12 | MUL => 13 | MIN => 14 | MAX => 15 | SUB => 16 | DIV => 17
  | ATAN2 => 18 | POW => 19 | NTH_ROOT => 20 | MOD => 21 | NANFILL => 22
  end.

Definition all : list Opcode :=
  [CONST; VAR; SQUARE; SQRT; NEG; SIN; COS; TAN; ASIN; ACOS; ATAN; EXP;
   ADD; MUL; MIN; MAX; SUB; DIV; ATAN2; POW; NTH_ROOT; MOD; NANFILL].

Definition of_index (i : nat) : option Opcode := all !! i.

#[export] Instance eq_dec : EqDecision Opcode.
Proof. solve_decision. Defined.

#[export] Instance countable : Countable Opcode.
Proof. refine (inj_countable index of_index _). by intros []. Defined.

End Opcode.

Export (hints) Opcode.

Abbreviation Opcode := Opcode.Opcode.

(* ================================================================== *)
(** ** Single-precision values

    [Tree::Tree(float v)] takes a C++ [float], so every constant is an
    IEEE 754 binary32 number; a node is given its value as the 32-bit
    pattern of that number, which is also what the cache keys a constant
    by.  Only what the constructor's assertions need is decoded:
    comparison with the rounded value and with zero. *)

Module Float32.

Inductive fval : Set :=
| FNaN
| FInf (neg : bool)
| FFin (neg : bool) (m : Z) (e : Z).   (* (-1)^neg * m * 2^e, 0 <= m *)

Definition wrap (bits : Z) : Z := (bits mod 2 ^ 32)%Z.

Definition decode (bits : Z) : fval :=
  let b := wrap bits in
  let neg := Z.testbit b 31 in
  let e := Z.land (Z.shiftr b 23) 255 in
  let f := Z.land b (2 ^ 23 - 1) in
  if (e =? 255)%Z then (if (f =? 0)%Z then FInf neg else FNaN)
  else if (e =? 0)%Z then FFin neg f (-149)
  else FFin neg (2 ^ 23 + f) (e - 150).

(** [std::round]: to the nearest integer, halfway cases away from zero. *)
Definition round (x : fval) : fval :=
  match x with
  | FFin neg m e =>
      if (0 <=? e)%Z then x
      else FFin neg ((m + 2 ^ (- e - 1)) / 2 ^ (- e)) 0
  | _ => x
  end.

(** [operator==] on floats: a NaN equals nothing, the two zeros are
    equal. *)
Definition eqb (x y : fval) : bool :=
  match x, y with
  | FInf s, FInf s' => bool_decide (s = s')
  | FFin s m e, FFin s' m' e' =>
      if ((m =? 0) && (m' =? 0))%Z then true
      else bool_decide (s = s') &&
           let k := Z.min e e' in
           (m * 2 ^ (e - k) =? m' * 2 ^ (e' - k))%Z
  | _, _ => false
  end.

(** [x > 0]. *)
Definition positive (x : fval) : bool :=
  match x with
  | FNaN => false
  | FInf neg => negb neg
  | FFin neg m _ => negb neg && (0 <? m)%Z
  end.

(** [v == std::round(v)] on a bit pattern. *)
Definition integral (bits : Z) : bool :=
  eqb (decode bits) (round (decode bits)).

Definition is_nan (bits : Z) : bool :=
  match decode bits with FNaN => true | _ => false end.

(** Some values used below, as bit patterns. *)
Definition one : Z := 0x3F800000%Z.
Definition two : Z := 0x40000000%Z.
Definition two_and_a_half : Z := 0x40200000%Z.
Definition three : Z := 0x40400000%Z.
Definition five : Z := 0x40A00000%Z.
Definition minus_two : Z := 0xC0000000%Z.
Definition quiet_nan : Z := 0x7FC00000%Z.
Definition infinity : Z := 0x7F800000%Z.

End Float32.

(* ================================================================== *)
(** ** The member that holds the value

    The member [Tree_::value] is declared in the header of the node,
    which is not part of the translation unit; [tree.cpp] only passes
    the [float] of the constructor to the cache and hands [n->value] to
    [serializeBytes].  The documentation gives the member as a [float64],
    written as 8 raw bytes. *)

Module Float64.

(** Modelled from the spec: the declaration of [Tree_::value] is missing;
    the documentation has it a [float64].  This is the binary64 pattern
    that the member holds for the number with the binary32 pattern
    [bits]: the sign is kept, the exponent is rebiased from 127 to 1023
    and the 23 fraction bits become the highest of the 52.  A subnormal
    [f * 2^-149] is a normal binary64 number, the highest set bit of [f]
    being the implicit one.  An infinity stays one and a NaN keeps its
    fraction bits.  Every binary32 number is a binary64 number, so the
    member holds the very number that the constructor was given. *)
Definition of_float (bits : Z) : Z :=
  let b := Float32.wrap bits in
  let s := (b / 2 ^ 31)%Z in
  let e := ((b / 2 ^ 23) mod 2 ^ 8)%Z in
  let f := (b mod 2 ^ 23)%Z in
  (s * 2 ^ 63 +
   if (e =? 255)%Z then 2047 * 2 ^ 52 + f * 2 ^ 29
   else if (e =? 0)%Z then
     if (f =? 0)%Z then 0
     else let k := Z.log2 f in (k + 874) * 2 ^ 52 + (f - 2 ^ k) * 2 ^ (52 - k)
   else (e + 896) * 2 ^ 52 + f * 2 ^ 29)%Z.

(** 3.0 in binary64: sign 0, exponent 1024 = 1023 + 1, fraction 1/2,
    that is 1.5 * 2^1. *)
Definition three : Z := 0x4008000000000000%Z.

End Float64.

(* ================================================================== *)
(** ** Nodes and handles *)

(** [Tree::Id]: the address of a node.  [nullptr] is the empty handle. *)
Abbreviation Id := nat (only parsing).
Definition nullptr : Id := 0.

(** [Tree::Tree_]: an immutable node.  [value] is the pattern of the
    [float] that a constant was built from; [Float64.of_float] gives the
    member that holds it. *)
Record Tree_ : Set := mkTree_ {
  op : Opcode;
  rank : nat;
  value : Z;
  lhs : Id;
  rhs : Id
}.

#[export] Instance Tree__eq_dec : EqDecision Tree_.
Proof. solve_decision. Defined.

(** Key of the cache's table of operations. *)
Abbreviation Key := (Opcode * Id * Id)%type (only parsing).

Definition key_of (n : Tree_) : Key := (op n, lhs n, rhs n).

(** The process state that [tree.cpp] reads and writes through
    [Cache::instance()] and through [std::shared_ptr]:
    - [heap]: the live nodes;
    - [uses]: the strong count of every live node;
    - [constants], [ops]: the cache's two tables (weak references);
    - [axes]: the three canonical free variables behind [Tree::X()],
      [Tree::Y()] and [Tree::Z()]. *)
Record Cache : Type := mkCache {
  heap : gmap Id Tree_;
  uses : gmap Id nat;
  constants : gmap Z Id;
  ops : gmap Key Id;
  axes : Id * Id * Id
}.

Definition with_uses (u : gmap Id nat) (c : Cache) : Cache :=
  mkCache (heap c) u (constants c) (ops c) (axes c).

Definition with_constants (k : gmap Z Id) (c : Cache) : Cache :=
  mkCache (heap c) (uses c) k (ops c) (axes c).

Definition with_ops (o : gmap Key Id) (c : Cache) : Cache :=
  mkCache (heap c) (uses c) (constants c) o (axes c).

Definition with_axes (a : Id * Id * Id) (c : Cache) : Cache :=
  mkCache (heap c) (uses c) (constants c) (ops c) a.

(** A new owner of [p] (copying a [shared_ptr]); the empty handle owns
    nothing. *)
Definition acquire (p : Id) (u : gmap Id nat) : gmap Id nat :=
  if decide (p = nullptr) then u else <[p := S (default 0 (u !! p))]> u.

(** What a parent adds to the rank: one more than a present child's rank,
    nothing for an absent child. *)
Definition rank_above (h : gmap Id Tree_) (p : Id) : nat :=
  if decide (p = nullptr) then 0
  else match h !! p with
       | Some n => S (rank n)
       | None => 0
       end.

(** The result of a constructor that asserts: the handle and the state,
    or the state in which the assertion failed. *)
Inductive result (A : Type) : Type :=
| Ok (a : A) (c : Cache)
| Abort (c : Cache).
Arguments Ok {A} a c.
Arguments Abort {A} c.

Section Kernel.

(** The allocator's choice of an address for a new node, given the live
    nodes.  Any function will do: a choice that is null or taken is
    replaced by an unused address, so every allocation policy (reusing
    storage or not) is an instance. *)
Variable alloc : gmap Id Tree_ → Id.

Definition new_addr (h : gmap Id Tree_) : Id :=
  let p := alloc h in
  if decide (p ≠ nullptr ∧ h !! p = None) then p
  else fresh ({[nullptr]} ∪ dom h).

(** *** The interning cache *)

(** Modelled from the spec: [Cache::constant] returns the canonical node
    of a value, keyed on the bit pattern, and creates it with rank 0 when
    absent. *)
Definition Cache_constant (v : Z) (c : Cache) : Id * Cache :=
  match constants c !! v with
  | Some p => (p, with_uses (acquire p (uses c)) c)
  | None =>
      let p := new_addr (heap c) in
      (p, mkCache (<[p := mkTree_ Opcode.CONST 0 v nullptr nullptr]> (heap c))
                  (<[p := 1]> (uses c))
                  (<[v := p]> (constants c))
                  (ops c) (axes c))
  end.

(** Modelled from the spec: [Cache::var] always builds a new rank-0
    [VAR] node and registers it nowhere. *)
Definition Cache_var (c : Cache) : Id * Cache :=
  let p := new_addr (heap c) in
  (p, mkCache (<[p := mkTree_ Opcode.VAR 0 0 nullptr nullptr]> (heap c))
              (<[p := 1]> (uses c))
              (constants c) (ops c) (axes c)).

(** Modelled from the spec: [Cache::operation] looks the key
    [(op, lhs, rhs)] up and returns the canonical node; otherwise it
    builds a node one rank above its present operands, registers it and
    returns it.  The new node owns its operands. *)
Definition Cache_operation (o : Opcode) (l r : Id) (c : Cache) : Id * Cache :=
  match ops c !! (o, l, r) with
  | Some p => (p, with_uses (acquire p (uses c)) c)
  | None =>
      let p := new_addr (heap c) in
      let rk := rank_above (heap c) l `max` rank_above (heap c) r in
      (p, mkCache (<[p := mkTree_ o rk 0 l r]> (heap c))
                  (<[p := 1]> (acquire r (acquire l (uses c))))
                  (constants c)
                  (<[(o, l, r) := p]> (ops c)) (axes c))
  end.

(** Modelled from the spec: [Cache::del(value)] retires the entry of a
    constant only if it still maps to the node being destroyed ([self],
    the receiver of the destructor that calls it). *)
Definition Cache_del_constant (self : Id) (v : Z) (c : Cache) : Cache :=
  match constants c !! v with
  | Some p => if decide (p = self) then with_constants (delete v (constants c)) c
              else c
  | None => c
  end.

(** Modelled from the spec: [Cache::del(op, lhs, rhs)], likewise. *)
Definition Cache_del_operation (self : Id) (o : Opcode) (l r : Id) (c : Cache)
  : Cache :=
  match ops c !! (o, l, r) with
  | Some p => if decide (p = self) then with_ops (delete (o, l, r) (ops c)) c
              else c
  | None => c
  end.

(** *** Constructors of [Tree] *)

(** [Tree::Tree()] *)
Definition Tree_empty : Id := nullptr.

(** [Tree::Tree(float v)] *)
Definition Tree_constant (v : Z) (c : Cache) : Id * Cache :=
  Cache_constant (Float32.wrap v) c.

(** [Tree::var()] *)
Definition Tree_var (c : Cache) : Id * Cache := Cache_var c.

(** The first assertion of [Tree::Tree(Opcode, Tree, Tree)]. *)
Definition assert_args (o : Opcode) (a b : Id) : bool :=
  bool_decide (Opcode.args o = 0 ∧ a = nullptr ∧ b = nullptr) ||
  bool_decide (Opcode.args o = 1 ∧ a ≠ nullptr ∧ b = nullptr) ||
  bool_decide (Opcode.args o = 2 ∧ a ≠ nullptr ∧ b ≠ nullptr).

(** [b->op == Opcode::CONST && b->value == std::round(b->value)] *)
Definition assert_pow (h : gmap Id Tree_) (b : Id) : bool :=
  match h !! b with
  | Some n => bool_decide (op n = Opcode.CONST) && Float32.integral (value n)
  | None => false
  end.

(** The same, and [b->value > 0]. *)
Definition assert_nth_root (h : gmap Id Tree_) (b : Id) : bool :=
  match h !! b with
  | Some n => bool_decide (op n = Opcode.CONST) && Float32.integral (value n)
              && Float32.positive (Float32.decode (value n))
  | None => false
  end.

(** [Tree::Tree(Opcode op, Tree a, Tree b)]: the member initialiser
    calls the cache, then the body asserts. *)
Definition Tree_operation (o : Opcode) (a b : Id) (c : Cache) : result Id :=
  let '(p, c') := Cache_operation o a b c in
  if negb (assert_args o a b) then Abort c'
  else if decide (o = Opcode.POW) then
    if assert_pow (heap c') b then Ok p c' else Abort c'
  else if decide (o = Opcode.NTH_ROOT) then
    if assert_nth_root (heap c') b then Ok p c' else Abort c'
  else Ok p c'.

(** *** Teardown *)

(** [Tree::Tree_::~Tree_()], run on the node [n] at address [self]. *)
Definition Tree__dtor (self : Id) (n : Tree_) (c : Cache) : Cache :=
  if decide (op n = Opcode.CONST) then Cache_del_constant self (value n) c
  else if decide (op n ≠ Opcode.VAR) then
    Cache_del_operation self (op n) (lhs n) (rhs n) c
  else c.

(** Dropping one owner of [p] ([std::shared_ptr]'s destructor).  The last
    owner tears the node down: the count is gone (the cache's weak
    reference has expired), the destructor body runs, then the members
    [rhs] and [lhs] are released in turn.  [fuel] bounds the depth of the
    cascade; a handle that owns nothing is left alone. *)
Fixpoint release (fuel : nat) (p : Id) (c : Cache) : Cache :=
  match fuel with
  | 0 => c
  | S fuel' =>
      if decide (p = nullptr) then c
      else match uses c !! p with
           | Some (S (S k)) => with_uses (<[p := S k]> (uses c)) c
           | Some 1 =>
               match heap c !! p with
               | Some n =>
                   let c1 := mkCache (delete p (heap c)) (delete p (uses c))
                                     (constants c) (ops c) (axes c) in
                   let c2 := Tree__dtor p n c1 in
                   release fuel' (lhs n) (release fuel' (rhs n) c2)
               | None => c
               end
           | _ => c
           end
  end.

(** A handle going out of scope.  A node's rank bounds the depth of the
    graph below it. *)
Definition Tree_release (p : Id) (c : Cache) : Cache :=
  release (rank_above (heap c) p) p c.

(** *** Process start *)

Definition Cache_empty : Cache :=
  mkCache ∅ ∅ ∅ ∅ (nullptr, nullptr, nullptr).

(** Modelled from the spec: the three canonical free variables are created
    once, when the process starts, and owned by the process from then on. *)
Definition Cache_init : Cache :=
  let '(x, c1) := Cache_var Cache_empty in
  let '(y, c2) := Cache_var c1 in
  let '(z, c3) := Cache_var c2 in
  with_axes (x, y, z) c3.

(** [Tree::X()], [Tree::Y()], [Tree::Z()] *)
Definition Tree_X (c : Cache) : Id := (axes c).1.1.
Definition Tree_Y (c : Cache) : Id := (axes c).1.2.
Definition Tree_Z (c : Cache) : Id := (axes c).2.

(** *** [Tree::ordered] *)

(** [std::map<unsigned, std::list<...>> ranks]: buckets in ascending order
    of rank.  [ranks_push r t ranks] is [ranks[r].push_back(t)]. *)
Fixpoint ranks_push (r : nat) (t : Id) (ranks : list (nat * list Id))
  : list (nat * list Id) :=
  match ranks with
  | [] => [(r, [t])]
  | (r', ts) :: rest =>
      if decide (r < r') then (r, [t]) :: ranks
      else if decide (r = r') then (r', ts ++ [t]) :: rest
      else (r', ts) :: ranks_push r t rest
  end.

(** The [while (todo.size())] loop.  Every round takes the front of
    [todo]; a node not yet found has its two operands queued, is marked
    found and is appended to the bucket of its rank.  [None] when [fuel]
    rounds do not empty the queue, or when a handle owns no live node. *)
Fixpoint ordered_loop (fuel : nat) (h : gmap Id Tree_) (todo : list Id)
  (found : gset Id) (ranks : list (nat * list Id))
  : option (list (nat * list Id)) :=
  match fuel with
  | 0 => None
  | S fuel' =>
      match todo with
      | [] => Some ranks
      | t :: todo' =>
          if decide (t ∈ found) then ordered_loop fuel' h todo' found ranks
          else match h !! t with
               | Some n =>
                   ordered_loop fuel' h (todo' ++ [lhs n; rhs n])
                     ({[t]} ∪ found) (ranks_push (rank n) t ranks)
               | None => None
               end
      end
  end.

(** The final loops: the buckets in ascending rank, each in order. *)
Definition ranks_flatten (ranks : list (nat * list Id)) : list Id :=
  concat (map snd ranks).

(** [Tree::ordered()] of the handle [root].  Each live node is found at
    most once and queues two handles, so [2 * size h + 2] rounds empty the
    queue. *)
Definition ordered (h : gmap Id Tree_) (root : Id) : option (list Id) :=
  ranks_flatten <$> ordered_loop (2 * size h + 2) h [root] {[nullptr]} [].

(** *** [Tree::serialize] *)

(** [Template]: a root with a name, a documentation string and the names
    and documentation of its variables. *)
Record Template : Type := mkTemplate {
  tree : Id;
  name : string;
  doc : string;
  var_names : gmap Id string;
  var_docs : gmap Id string
}.

(** The conversion of a [Tree] to a [Template] that [Tree::serialize()]
    relies on: no name, no documentation. *)
Definition Template_of_Tree (t : Id) : Template :=
  mkTemplate t EmptyString EmptyString ∅ ∅.

Definition byte_of_ascii (a : Ascii.ascii) : Z := Z.of_N (Ascii.N_of_ascii a).

Definition QUOTE : Z := 34.
Definition BACKSLASH : Z := 92.
Definition TAG : Z := 84.   (* 'T' *)

(** The body of the loop of [serializeString]. *)
Fixpoint escape (s : string) : list Z :=
  match s with
  | EmptyString => []
  | String a s' =>
      let ch := byte_of_ascii a in
      (if decide (ch = QUOTE ∨ ch = BACKSLASH) then [BACKSLASH; ch] else [ch])
      ++ escape s'
  end.

(** [Tree::serializeString(s, out)] *)
Definition serializeString (s : string) (out : list Z) : list Z :=
  out ++ [QUOTE] ++ escape s ++ [QUOTE].

(** Modelled from the spec: the template [serializeBytes] of the header
    appends the [width] raw bytes of a value, lowest byte first. *)
Fixpoint raw_bytes (width : nat) (v : Z) : list Z :=
  match width with
  | 0 => []
  | S w => (v mod 256)%Z :: raw_bytes w (v / 256)%Z
  end.

Definition serializeBytes (width : nat) (v : Z) (out : list Z) : list Z :=
  out ++ raw_bytes width v.

(** Modelled from the spec: the size of the member [Tree_::value], whose
    declaration is missing; the documentation has a constant written as
    8 raw value bytes. *)
Definition sizeof_value : nat := 8.

(** [sizeof(uint32_t)], the type of the ids. *)
Definition sizeof_uint32 : nat := 4.

Definition uint32 (n : nat) : Z := (Z.of_nat n mod 2 ^ 32)%Z.

Section Serialize.

(** The numeric value of each enumerator, declared in the opcode header. *)
Variable opnum : Opcode → Z.

(** One round of the loop of [Tree::serialize(const Template&)] on the
    node at [p].  [ids.insert] keeps an id that is already there; [ids.at]
    throws on a handle without an id, which is [None] here.
    [serializeBytes(n->value, out)] writes the member that holds the
    value, 8 bytes in the documentation. *)
Definition serialize_node (t : Template) (h : gmap Id Tree_)
  (out : list Z) (ids : gmap Id Z) (p : Id) : option (list Z * gmap Id Z) :=
  n ← h !! p;
  let out := out ++ [(opnum (op n) mod 256)%Z] in
  let ids := match ids !! p with
             | Some _ => ids
             | None => <[p := uint32 (size ids)]> ids
             end in
  let out :=
    if decide (op n = Opcode.CONST) then
      serializeBytes sizeof_value (Float64.of_float (value n)) out
    else if decide (op n = Opcode.VAR) then
      serializeString (default EmptyString (var_docs t !! p))
        (serializeString (default EmptyString (var_names t !! p)) out)
    else out in
  match Opcode.args (op n) with
  | 2 =>
      r ← ids !! rhs n;
      l ← ids !! lhs n;
      Some (serializeBytes sizeof_uint32 l (serializeBytes sizeof_uint32 r out),
            ids)
  | 1 =>
      l ← ids !! lhs n;
      Some (serializeBytes sizeof_uint32 l out, ids)
  | _ => Some (out, ids)
  end.

(** The loop over [ordered()]; its state is the output and the ids. *)
Fixpoint serialize_loop (t : Template) (h : gmap Id Tree_)
  (out : list Z) (ids : gmap Id Z) (nodes : list Id)
  : option (list Z * gmap Id Z) :=
  match nodes with
  | [] => Some (out, ids)
  | p :: rest =>
      '(out', ids') ← serialize_node t h out ids p;
      serialize_loop t h out' ids' rest
  end.

(** [Tree::serialize(const Template& t)] *)
Definition serialize_template (t : Template) (h : gmap Id Tree_)
  : option (list Z) :=
  nodes ← ordered h (tree t);
  fst <$> serialize_loop t h
            (serializeString (doc t) (serializeString (name t) [TAG]))
            ∅ nodes.

(** [Tree::serialize()] *)
Definition serialize (root : Id) (h : gmap Id Tree_) : option (list Z) :=
  serialize_template (Template_of_Tree root) h.

End Serialize.

(** *** [Tree::remap] *)

(** [std::map::insert]: an existing key keeps its value. *)
Definition map_insert_new (k v : Id) (m : gmap Id Id) : gmap Id Id :=
  match m !! k with
  | Some _ => m
  | None => <[k := v]> m
  end.

(** The body of the loop of [Tree::remap] on the node [n] at [t].  The map
    owns what it holds; a pair that is not inserted is dropped at once. *)
Definition remap_step (t : Id) (n : Tree_) (m : gmap Id Id) (c : Cache)
  : gmap Id Id * Cache :=
  if decide (1 ≤ Opcode.args (op n)) then
    let l := default (lhs n) (m !! lhs n) in
    let r := default (rhs n) (m !! rhs n) in
    let '(p, c') := Cache_operation (op n) l r c in
    match m !! t with
    | Some _ => (m, Tree_release p c')
    | None => (<[t := p]> m, c')
    end
  else (m, c).

(** The loop over [ordered()].  The list owns its nodes, which are
    immutable: they are read from the heap [h] the list was built on. *)
Fixpoint remap_loop (h : gmap Id Tree_) (nodes : list Id)
  (m : gmap Id Id) (c : Cache) : gmap Id Id * Cache :=
  match nodes with
  | [] => (m, c)
  | t :: rest =>
      match h !! t with
      | Some n => let '(m', c') := remap_step t n m c in remap_loop h rest m' c'
      | None => remap_loop h rest m c
      end
  end.

(** The substitution map that [remap] starts from; it owns the three
    replacements. *)
Definition remap_seed (X_ Y_ Z_ : Id) (c : Cache) : gmap Id Id * Cache :=
  let m0 := map_insert_new (Tree_Z c) Z_
              (map_insert_new (Tree_Y c) Y_
                 (map_insert_new (Tree_X c) X_ ∅)) in
  (m0, with_uses (map_fold (λ _ v u, acquire v u) (uses c) m0) c).

(** The substitution map and the state when the loop of [remap] is over. *)
Definition remap_pass (X_ Y_ Z_ root : Id) (c : Cache)
  : option (gmap Id Id * Cache) :=
  nodes ← ordered (heap c) root;
  let '(m0, c0) := remap_seed X_ Y_ Z_ c in
  Some (remap_loop (heap c) nodes m0 c0).

(** [Tree::remap(X_, Y_, Z_)] of the handle [root]: the image of the root,
    or the root itself, as a new owner; the map is destroyed on return. *)
Definition remap (X_ Y_ Z_ root : Id) (c : Cache) : option (Id * Cache) :=
  '(m, c1) ← remap_pass X_ Y_ Z_ root c;
  let out := default root (m !! root) in
  let c2 := with_uses (acquire out (uses c1)) c1 in
  Some (out, map_fold (λ _ v c', Tree_release v c') c2 m).

End Kernel.

(* ================================================================== *)
(** ** Well-formed states *)

(** A handle is valid when it is empty or owns a live node. *)
Definition valid (h : gmap Id Tree_) (p : Id) : Prop :=
  p = nullptr ∨ is_Some (h !! p).

(** The shape of the graph: no node lives at the null address, operands
    are valid, and every rank is one above the present operands. *)
Record heap_wf (h : gmap Id Tree_) : Prop := mk_heap_wf {
  wf_null : h !! nullptr = None;
  wf_lhs : ∀ p n, h !! p = Some n → valid h (lhs n);
  wf_rhs : ∀ p n, h !! p = Some n → valid h (rhs n);
  wf_rank : ∀ p n, h !! p = Some n →
            rank n = rank_above h (lhs n) `max` rank_above h (rhs n)
}.

(** The cache agrees with the heap: the operands of a node are those its
    opcode takes, every entry of a table leads to a live node with that
    key, every operation node is entered under its own key (and nothing
    else is), every constant under its value, and exactly the live nodes
    are counted. *)
Record cache_wf (c : Cache) : Prop := mk_cache_wf {
  wf_heap : heap_wf (heap c);
  wf_shape : ∀ p n, heap c !! p = Some n →
             assert_args (op n) (lhs n) (rhs n) = true;
  wf_constants : ∀ v p, constants c !! v = Some p →
                 heap c !! p = Some (mkTree_ Opcode.CONST 0 v nullptr nullptr);
  wf_ops : ∀ k p, ops c !! k = Some p →
           ∃ n, heap c !! p = Some n ∧ key_of n = k;
  wf_interned : ∀ p n, heap c !! p = Some n → 1 ≤ Opcode.args (op n) →
                ops c !! key_of n = Some p;
  wf_ops_arity : ∀ k p, ops c !! k = Some p → 1 ≤ Opcode.args k.1.1;
  wf_const_interned : ∀ p n, heap c !! p = Some n → op n = Opcode.CONST →
                      constants c !! value n = Some p;
  wf_uses_dead : ∀ p, heap c !! p = None → uses c !! p = None;
  wf_uses_live : ∀ p, is_Some (heap c !! p) → ∃ k, uses c !! p = Some (S k)
}.


(** The counts agree with the heap: dead nodes have none, live nodes have
    at least one owner. *)
Definition uses_wf (h : gmap Id Tree_) (u : gmap Id nat) : Prop :=
  (∀ p, h !! p = None → u !! p = None) ∧
  (∀ p, is_Some (h !! p) → ∃ k, u !! p = Some (S k)).

(* ================================================================== *)
(** ** Preconditions of [Tree(op, a, b)] *)

Definition aborted {A} (r : result A) : Prop :=
  match r with
  | Abort _ => True
  | Ok _ _ => False
  end.

(** The number of non-empty handles among the two operands. *)
Definition operand_count (a b : Id) : nat :=
  (if decide (a = nullptr) then 0 else 1) +
  (if decide (b = nullptr) then 0 else 1).

(** [b] is a [CONST] node whose value equals its rounded value. *)
Definition integral_constant (h : gmap Id Tree_) (b : Id) : Prop :=
  ∃ n, h !! b = Some n ∧ op n = Opcode.CONST ∧
       Float32.integral (value n) = true.

(** ... and is strictly positive. *)
Definition positive_integral_constant (h : gmap Id Tree_) (b : Id) : Prop :=
  ∃ n, h !! b = Some n ∧ op n = Opcode.CONST ∧
       Float32.integral (value n) = true ∧
       Float32.positive (Float32.decode (value n)) = true.

(** The preconditions as the documentation words them: as many non-empty
    operands as the arity, an integral constant exponent for [POW], a
    positive integral constant degree for [NTH_ROOT]. *)
Definition stated_precondition (h : gmap Id Tree_) (o : Opcode) (a b : Id)
  : Prop :=
  operand_count a b = Opcode.args o ∧
  (o = Opcode.POW → integral_constant h b) ∧
  (o = Opcode.NTH_ROOT → positive_integral_constant h b).

(** Operands fill [lhs] first: no operand follows an empty one. *)
Definition lhs_first (a b : Id) : Prop := a = nullptr → b = nullptr.

(** Everything of [c] is still in [c']: nodes and the entries of both
    tables. *)
Definition grows (c c' : Cache) : Prop :=
  (∀ p n, heap c !! p = Some n → heap c' !! p = Some n) ∧
  (∀ v p, constants c !! v = Some p → constants c' !! v = Some p) ∧
  (∀ k p, ops c !! k = Some p → ops c' !! k = Some p).

(** An allocator without a preference: the address is the first one the
    model finds unused. *)
Definition no_hint : gmap Id Tree_ → Id := λ _, nullptr.

(* ================================================================== *)
(** ** What [ordered] is to compute *)

(** The rank of the node at [p]. *)
Definition rank_of (h : gmap Id Tree_) (p : Id) : nat :=
  default 0 (rank <$> h !! p).

#[export] Instance rank_le_dec h :
  RelDecision (λ p q : Id, rank_of h p ≤ rank_of h q).
Proof. intros p q. apply _. Defined.

(** [q] is a present operand of the node at [p]. *)
Definition child (h : gmap Id Tree_) (p q : Id) : Prop :=
  q ≠ nullptr ∧ ∃ n, h !! p = Some n ∧ (lhs n = q ∨ rhs n = q).

(** The nodes reachable from [root], the root included. *)
Definition reaches (h : gmap Id Tree_) (root p : Id) : Prop :=
  rtc (child h) root p.

(** The bucket of rank [r]. *)
Fixpoint bucket (r : nat) (ranks : list (nat * list Id)) : list Id :=
  match ranks with
  | [] => []
  | (r', ts) :: rest => if decide (r = r') then ts else bucket r rest
  end.

(** Breadth-first discovery in the documentation's words: the queue starts
    with the root, the empty handle counts as visited from the start, and
    a node visited for the first time is recorded and has its [lhs], then
    its [rhs], queued. *)
Fixpoint discovery_loop (fuel : nat) (h : gmap Id Tree_) (todo : list Id)
  (visited : gset Id) (seen : list Id) : option (list Id) :=
  match fuel with
  | 0 => None
  | S fuel' =>
      match todo with
      | [] => Some seen
      | t :: todo' =>
          if decide (t ∈ visited) then discovery_loop fuel' h todo' visited seen
          else match h !! t with
               | Some n =>
                   discovery_loop fuel' h (todo' ++ [lhs n; rhs n])
                     ({[t]} ∪ visited) (seen ++ [t])
               | None => None
               end
      end
  end.

Definition discovery (h : gmap Id Tree_) (root : Id) : option (list Id) :=
  discovery_loop (2 * size h + 2) h [root] {[nullptr]} [].

(** What the buckets are, once [seen] has been discovered: ascending
    keys, each bucket holding the nodes of its rank in the order of
    discovery. *)
Definition buckets_of (rk : Id → nat) (ranks : list (nat * list Id))
  (seen : list Id) : Prop :=
  StronglySorted lt (map fst ranks) ∧
  Forall (λ b, Forall (λ p, rk p = b.1) b.2) ranks ∧
  (∀ r, bucket r ranks = filter (λ p, rk p = r) seen) ∧
  ranks_flatten ranks ≡ₚ seen.

(** The state of the breadth-first loop: what has been visited is what
    has been recorded, once each and reachable; the queue holds reachable
    handles; and every operand of a recorded node is visited or queued. *)
Record bfs_inv (h : gmap Id Tree_) (root : Id) (todo : list Id)
  (visited : gset Id) (seen : list Id) : Prop := mk_bfs_inv {
  bi_visited : visited = {[nullptr]} ∪ list_to_set seen;
  bi_nodup : NoDup seen;
  bi_seen : ∀ p, p ∈ seen → reaches h root p;
  bi_todo : ∀ t, t ∈ todo → t = nullptr ∨ reaches h root t;
  bi_closed : ∀ p q, p ∈ seen → child h p q → q ∈ visited ∨ q ∈ todo;
  bi_root : root ∈ visited ∨ root ∈ todo
}.

(* ================================================================== *)
(** ** Owners and reachable states *)

(** The operands of all live nodes, with multiplicity: the owners that are
    nodes. *)
Definition edges (h : gmap Id Tree_) : gmultiset Id :=
  map_fold (λ _ n acc, {[+ lhs n; rhs n +]} ⊎ acc) ∅ h.

(** One more handle on [p]; an empty handle holds nothing. *)
Definition hold (p : Id) (held : gmultiset Id) : gmultiset Id :=
  if decide (p = nullptr) then held else {[+ p +]} ⊎ held.

(** The handles of the process on the three canonical variables. *)
Definition axes_held (c : Cache) : gmultiset Id :=
  {[+ Tree_X c; Tree_Y c; Tree_Z c +]}.

Definition is_var (h : gmap Id Tree_) (p : Id) : Prop :=
  ∃ n, h !! p = Some n ∧ op n = Opcode.VAR.

(** The canonical variables are live [VAR] nodes. *)
Definition axes_wf (c : Cache) : Prop :=
  is_var (heap c) (Tree_X c) ∧ is_var (heap c) (Tree_Y c) ∧
  is_var (heap c) (Tree_Z c).

(** The handles in [own] own live nodes, and the count of a live node is
    the number of its owners: the nodes of which it is an operand and the
    handles on it. *)
Record owned_wf (c : Cache) (own : gmultiset Id) : Prop := mk_owned_wf {
  own_live : ∀ p, p ∈ own → is_Some (heap c !! p);
  own_count : ∀ p n, heap c !! p = Some n →
              uses c !! p
              = Some (multiplicity p (edges (heap c)) + multiplicity p own)
}.

(** A state of the process and the handles the program holds. *)
Definition state_wf (c : Cache) (held : gmultiset Id) : Prop :=
  cache_wf c ∧ axes_wf c ∧ owned_wf c (axes_held c ⊎ held).

(** A handle the program can pass: empty, one it holds, or a canonical
    variable. *)
Definition handle (c : Cache) (held : gmultiset Id) (p : Id) : Prop :=
  p = nullptr ∨ p ∈ axes_held c ⊎ held.

(** The states a program can bring about and the handles it then holds.
    It starts with the canonical variables and no handle; it builds
    constants and variables, and operations that take operands (unary
    and binary opcodes, as the operators of the header do) from handles
    it has, where the assertions of the constructor pass, under any
    allocator; it drops handles it holds; it remaps a tree it holds by
    trees it holds, none of them empty. *)
Inductive reachable : Cache → gmultiset Id → Prop :=
| reach_start alloc :
    reachable (Cache_init alloc) ∅
| reach_constant alloc v c held :
    reachable c held →
    reachable (Tree_constant alloc v c).2
              ({[+ (Tree_constant alloc v c).1 +]} ⊎ held)
| reach_var alloc c held :
    reachable c held →
    reachable (Tree_var alloc c).2 ({[+ (Tree_var alloc c).1 +]} ⊎ held)
| reach_operation alloc o a b c held p c' :
    reachable c held →
    1 ≤ Opcode.args o → handle c held a → handle c held b →
    Tree_operation alloc o a b c = Ok p c' →
    reachable c' ({[+ p +]} ⊎ held)
| reach_release p c held :
    reachable c ({[+ p +]} ⊎ held) →
    reachable (Tree_release p c) held
| reach_remap alloc X_ Y_ Z_ root c held r c' :
    reachable c held →
    X_ ∈ axes_held c ⊎ held → Y_ ∈ axes_held c ⊎ held →
    Z_ ∈ axes_held c ⊎ held → handle c held root →
    remap alloc X_ Y_ Z_ root c = Some (r, c') →
    reachable c' (hold r held).

(** The handles a substitution map holds. *)
Definition vals (m : gmap Id Id) : gmultiset Id :=
  list_to_set_disj (map_to_list m).*2.

(** The state of the loop of [remap], started in [c] with owners [own],
    when the nodes in [done_] have been treated: the state is well formed
    with the map among the owners, nothing of [c] is lost, and the keys of
    the map are canonical variables or treated nodes. *)
Record remap_inv (c : Cache) (own : gmultiset Id) (done_ : list Id)
  (m : gmap Id Id) (c' : Cache) : Prop := mk_remap_inv {
  ri_wf : cache_wf c';
  ri_own : owned_wf c' (vals m ⊎ own);
  ri_grows : grows c c';
  ri_axes : axes c' = axes c;
  ri_keys : ∀ k, is_Some (m !! k) → k ∈ axes_held c ∨ k ∈ done_
}.

(** The operands of a node that are present. *)
Definition present_operands (n : Tree_) : list Id :=
  filter (λ q, q ≠ nullptr) [lhs n; rhs n].

(** The rank as the documentation states it: 0 for an opcode without
    operands, else one more than the largest rank of a present operand. *)
Definition stated_rank (h : gmap Id Tree_) (n : Tree_) : nat :=
  if decide (Opcode.args (op n) = 0) then 0
  else S (max_list (rank_of h <$> present_operands n)).

(* ================================================================== *)
(** ** A sample program *)

(** [X + 1], built at process start. *)
Definition sample_one : Id * Cache :=
  Tree_constant no_hint Float32.one (Cache_init no_hint).

Definition sample_built : result Id :=
  Tree_operation no_hint Opcode.ADD (Tree_X sample_one.2) sample_one.1
    sample_one.2.

Definition sample_root : Id :=
  match sample_built with
  | Ok p _ => p
  | Abort _ => nullptr
  end.

Definition sample_cache : Cache :=
  match sample_built with
  | Ok _ c => c
  | Abort c => c
  end.

(* ================================================================== *)
(** ** What [serialize] is to write *)

(** The position of [p] in a list. *)
Fixpoint index_of (p : Id) (l : list Id) : nat :=
  match l with
  | [] => 0
  | q :: l' => if decide (q = p) then 0 else S (index_of p l')
  end.

(** A string between quotes. *)
Definition quoted (s : string) : list Z := [QUOTE] ++ escape s ++ [QUOTE].

Section Encoding.

Variable opnum : Opcode → Z.

(** The tag, the name and the documentation of the template. *)
Definition template_header (t : Template) : list Z :=
  [TAG] ++ quoted (name t) ++ quoted (doc t).

(** What a record holds besides the opcode and the operands. *)
Definition node_payload (t : Template) (p : Id) (n : Tree_) : list Z :=
  if decide (op n = Opcode.CONST)
  then raw_bytes sizeof_value (Float64.of_float (value n))
  else if decide (op n = Opcode.VAR) then
    quoted (default EmptyString (var_names t !! p)) ++
    quoted (default EmptyString (var_docs t !! p))
  else [].

(** The ids of the operands: [rhs] before [lhs] for two operands, [lhs]
    for one; the id of a node is its position in [nodes]. *)
Definition node_operands (nodes : list Id) (n : Tree_) : list Z :=
  match Opcode.args (op n) with
  | 2 => raw_bytes sizeof_uint32 (uint32 (index_of (rhs n) nodes)) ++
         raw_bytes sizeof_uint32 (uint32 (index_of (lhs n) nodes))
  | 1 => raw_bytes sizeof_uint32 (uint32 (index_of (lhs n) nodes))
  | _ => []
  end.

Definition node_record (t : Template) (h : gmap Id Tree_) (nodes : list Id)
  (p : Id) : list Z :=
  match h !! p with
  | Some n => [(opnum (op n) mod 256)%Z] ++ node_payload t p n
              ++ node_operands nodes n
  | None => []
  end.

(** The stream: the header, then one record per node of [nodes]. *)
Definition stated_encoding (t : Template) (h : gmap Id Tree_)
  (nodes : list Id) : list Z :=
  template_header t ++ concat (map (node_record t h nodes) nodes).

End Encoding.

(** The operands whose ids a record holds. *)
Definition written_operand (n : Tree_) (q : Id) : Prop :=
  (Opcode.args (op n) = 2 ∧ (q = lhs n ∨ q = rhs n)) ∨
  (Opcode.args (op n) = 1 ∧ q = lhs n).

(** The ids when the nodes of [pre] have been written: each node has its
    position. *)
Definition ids_of (pre : list Id) (ids : gmap Id Z) : Prop :=
  size ids = length pre ∧
  ∀ p, ids !! p = if decide (p ∈ pre) then Some (uint32 (index_of p pre))
                  else None.

(* ================================================================== *)
(** ** What [remap] is to compute *)

(** An operand seen through the substitution map: its image, or itself
    when it has none. *)
Definition resolve (m : gmap Id Id) (q : Id) : Id := default q (m !! q).

(** The state of the loop of [remap] on a list of nodes, started from the
    map [seed] in a state [c], when the nodes of [pre] have been treated:
    nothing of [c] is lost; the keys outside [pre] are as in [seed]; a
    treated node with operands is mapped to the node registered under its
    opcode and its resolved operands; any other treated node is as in
    [seed]. *)
Record remap_done (c : Cache) (seed : gmap Id Id) (pre : list Id)
  (m : gmap Id Id) (c' : Cache) : Prop := mk_remap_done {
  rd_grows : grows c c';
  rd_rest : ∀ k, k ∉ pre → m !! k = seed !! k;
  rd_node : ∀ t n, t ∈ pre → heap c !! t = Some n → 1 ≤ Opcode.args (op n) →
            ∃ p, m !! t = Some p ∧
                 ops c' !! (op n, resolve m (lhs n), resolve m (rhs n)) = Some p;
  rd_leaf : ∀ t n, t ∈ pre → heap c !! t = Some n → Opcode.args (op n) = 0 →
            m !! t = seed !! t
}.

(** The numbering of the opcodes by position. *)
Definition sample_opnum : Opcode → Z := λ o, Z.of_nat (Opcode.index o).

(** [1 + 1], built at process start: a tree without variables. *)
Definition sample_closed : result Id :=
  Tree_operation no_hint Opcode.ADD sample_one.1 sample_one.1 sample_one.2.

Definition closed_root : Id :=
  match sample_closed with
  | Ok p _ => p
  | Abort _ => nullptr
  end.

Definition closed_cache : Cache :=
  match sample_closed with
  | Ok _ c => c
  | Abort c => c
  end.

(* ================================================================== *)
(** ** Building and dropping [1 + 2] *)

Section Build_sum.

Variable alloc : gmap Id Tree_ → Id.

(** [Tree(1.0f) + Tree(2.0f)]: the two constants are temporaries, dropped
    in reverse order once the sum is built. *)
Definition build_sum (c : Cache) : result Id :=
  let '(k1, c1) := Tree_constant alloc Float32.one c in
  let '(k2, c2) := Tree_constant alloc Float32.two c1 in
  match Tree_operation alloc Opcode.ADD k1 k2 c2 with
  | Ok t c3 => Ok t (Tree_release k1 (Tree_release k2 c3))
  | Abort c3 => Abort c3
  end.

End Build_sum.

(** The stream of [1 + 2]: the header of an unnamed template, the two
    constants, and the sum with the ids of [rhs] and [lhs]. *)
Definition sum_bytes (opnum : Opcode → Z) : list Z :=
  [TAG; QUOTE; QUOTE; QUOTE; QUOTE;
   opnum Opcode.CONST mod 256; 0; 0; 0; 0; 0; 0; 240; 63;
   opnum Opcode.CONST mod 256; 0; 0; 0; 0; 0; 0; 0; 64;
   opnum Opcode.ADD mod 256; 1; 0; 0; 0; 0; 0; 0; 0]%Z.

(** An allocator that never takes an address again: every new node is
    placed far above the live ones. *)
Definition far_hint : gmap Id Tree_ → Id := λ h, 1000 + size h.

(* ================================================================== *)
(** ** The construction surface

    The free functions and operators at the end of [tree.cpp], produced
    by the macros [OP_UNARY] and [OP_BINARY]. *)

Module Surface.

Section Operators.

Variable alloc : gmap Id Tree_ → Id.

(** [OP_UNARY(name, opcode)]: [Tree(opcode, a)].  The call leaves the
    third parameter of the constructor to its default, which the header
    declares: an empty tree, the only value with which the assertion on a
    unary opcode can pass. *)
Definition OP_UNARY (opcode : Opcode) (a : Id) (c : Cache) : result Id :=
  Tree_operation alloc opcode a Tree_empty c.

(** [OP_BINARY(name, opcode)]: [Tree(opcode, a, b)]. *)
Definition OP_BINARY (opcode : Opcode) (a b : Id) (c : Cache) : result Id :=
  Tree_operation alloc opcode a b c.

Definition square := OP_UNARY Opcode.SQUARE.
Definition sqrt := OP_UNARY Opcode.SQRT.

(** [Tree::operator-() const] *)
Definition neg (a : Id) (c : Cache) : result Id :=
  Tree_operation alloc Opcode.NEG a Tree_empty c.

Definition sin := OP_UNARY Opcode.SIN.
Definition cos := OP_UNARY Opcode.COS.
Definition tan := OP_UNARY Opcode.TAN.
Definition asin := OP_UNARY Opcode.ASIN.
Definition acos := OP_UNARY Opcode.ACOS.
Definition atan := OP_UNARY Opcode.ATAN.
Definition exp := OP_UNARY Opcode.EXP.

Definition add := OP_BINARY Opcode.ADD.            (* operator+ *)
Definition mul := OP_BINARY Opcode.MUL.            (* operator* *)
Definition min := OP_BINARY Opcode.MIN.
Definition max := OP_BINARY Opcode.MAX.
Definition sub := OP_BINARY Opcode.SUB.            (* operator- *)
Definition div := OP_BINARY Opcode.DIV.            (* operator/ *)
Definition atan2 := OP_BINARY Opcode.ATAN2.
Definition pow := OP_BINARY Opcode.POW.
Definition nth_root := OP_BINARY Opcode.NTH_ROOT.
Definition mod_ := OP_BINARY Opcode.MOD.           (* mod *)
Definition nanfill := OP_BINARY Opcode.NANFILL.

(** [abs(a)]: [max(a, -a)].  The negation is a temporary: it is built
    first and dropped when the maximum has been built. *)
Definition abs (a : Id) (c : Cache) : result Id :=
  match neg a c with
  | Ok m c1 =>
      match max a m c1 with
      | Ok t c2 => Ok t (Tree_release m c2)
      | Abort c2 => Abort c2
      end
  | Abort c1 => Abort c1
  end.

End Operators.

(** The opcodes behind the unary and the binary functions. *)
Definition unary : list Opcode :=
  [Opcode.SQUARE; Opcode.SQRT; Opcode.NEG; Opcode.SIN; Opcode.COS;
   Opcode.TAN; Opcode.ASIN; Opcode.ACOS; Opcode.ATAN; Opcode.EXP].

Definition binary : list Opcode :=
  [Opcode.ADD; Opcode.MUL; Opcode.MIN; Opcode.MAX; Opcode.SUB; Opcode.DIV;
   Opcode.ATAN2; Opcode.POW; Opcode.NTH_ROOT; Opcode.MOD; Opcode.NANFILL].

End Surface.

(* ================================================================== *)
(** ** Strings on the wire *)

(** The number of characters that [serializeString] escapes: the quotes
    and the backslashes. *)
Fixpoint specials (s : string) : nat :=
  match s with
  | EmptyString => 0
  | String a s' =>
      (if decide (byte_of_ascii a = QUOTE ∨ byte_of_ascii a = BACKSLASH)
       then 1 else 0) + specials s'
  end.

(* ================================================================== *)
(** ** The expression a handle stands for *)

(** Expressions as trees: what a handle denotes once sharing is
    forgotten.  A variable is known by its node. *)
Inductive Expr : Set :=
| ENull
| EConst (v : Z)
| EVar (x : Id)
| EOp (o : Opcode) (l r : Expr).

#[export] Instance Expr_eq_dec : EqDecision Expr.
Proof. solve_decision. Defined.

(** The expression below the handle [p], read off the heap; [fuel] bounds
    the depth. *)
Fixpoint expr_of (fuel : nat) (h : gmap Id Tree_) (p : Id) : Expr :=
  match fuel with
  | 0 => ENull
  | S fuel' =>
      if decide (p = nullptr) then ENull
      else match h !! p with
           | Some n =>
               if decide (op n = Opcode.CONST) then EConst (value n)
               else if decide (op n = Opcode.VAR) then EVar p
               else EOp (op n) (expr_of fuel' h (lhs n)) (expr_of fuel' h (rhs n))
           | None => ENull
           end
  end.

(** A node's rank bounds the depth of the graph below it. *)
Definition Tree_expr (h : gmap Id Tree_) (p : Id) : Expr :=
  expr_of (rank_above h p) h p.

(** Simultaneous substitution of expressions for variables. *)
Fixpoint subst (σ : Id → option Expr) (e : Expr) : Expr :=
  match e with
  | EVar x => default (EVar x) (σ x)
  | EOp o l r => EOp o (subst σ l) (subst σ r)
  | _ => e
  end.

(** The substitution that [remap] is to perform in a state [c]: the
    three replacements for the three canonical variables.  The first
    entry of a variable counts, as in the initialiser of the map. *)
Definition remap_subst (c : Cache) (X_ Y_ Z_ : Id) : Id → option Expr :=
  λ x, if decide (x = Tree_X c) then Some (Tree_expr (heap c) X_)
       else if decide (x = Tree_Y c) then Some (Tree_expr (heap c) Y_)
       else if decide (x = Tree_Z c) then Some (Tree_expr (heap c) Z_)
       else None.

(* ================================================================== *)
(** ** The assertions, as a property of nodes *)

(** What the body of [Tree(op, a, b)] asserts, read as a property of the
    node at [p]. *)
Definition asserted (h : gmap Id Tree_) (n : Tree_) : Prop :=
  assert_args (op n) (lhs n) (rhs n) = true ∧
  (op n = Opcode.POW → integral_constant h (rhs n)) ∧
  (op n = Opcode.NTH_ROOT → positive_integral_constant h (rhs n)).

(** The operand conditions of [POW] and [NTH_ROOT] hold of every node. *)
Definition exponent_wf (h : gmap Id Tree_) : Prop :=
  ∀ p n, h !! p = Some n →
    (op n = Opcode.POW → integral_constant h (rhs n)) ∧
    (op n = Opcode.NTH_ROOT → positive_integral_constant h (rhs n)).

(** The keys of a substitution map are canonical variables or nodes with
    operands. *)
Definition keys_ok (c : Cache) (m : gmap Id Id) : Prop :=
  ∀ k, is_Some (m !! k) →
       k ∈ axes_held c ∨ ∃ n, heap c !! k = Some n ∧ 1 ≤ Opcode.args (op n).

(* ================================================================== *)
(** ** Whole numbers *)

(** A value without a fractional part: an infinity, or a finite value
    [m * 2^e] that is an integer.  A NaN is none. *)
Definition whole_number (x : Float32.fval) : bool :=
  match x with
  | Float32.FNaN => false
  | Float32.FInf _ => true
  | Float32.FFin _ m e => (0 <=? e)%Z || (m mod 2 ^ (- e) =? 0)%Z
  end.

(* ================================================================== *)
(** ** More of the sample program *)

(** The state at process start, and the three canonical variables. *)
Definition start : Cache := Cache_init no_hint.

(** The handles held when [X + 1] has been built: the sum and the
    constant. *)
Definition sample_held : gmultiset Id :=
  {[+ sample_root +]} ⊎ ({[+ sample_one.1 +]} ⊎ ∅).

(* ================================================================== *)
(** ** Variables on the wire *)

(** The bytes of a binary operation on two variables, in an unnamed
    template: the header, two [VAR] records with empty strings, and the
    operation with the ids 1 and 0. *)
Definition binary_of_variables (opnum : Opcode → Z) (o : Opcode) : list Z :=
  [TAG; QUOTE; QUOTE; QUOTE; QUOTE;
   opnum Opcode.VAR mod 256; QUOTE; QUOTE; QUOTE; QUOTE;
   opnum Opcode.VAR mod 256; QUOTE; QUOTE; QUOTE; QUOTE;
   opnum o mod 256; 1; 0; 0; 0; 0; 0; 0; 0]%Z.

(* ================================================================== *)
(** ** Reading a stream back *)

(** The enumerators are distinct and fit a byte
    ([static_assert(Opcode::LAST_OP <= 255)]). *)
Definition opnum_distinct (opnum : Opcode → Z) : Prop :=
  ∀ o o', (opnum o mod 256 = opnum o' mod 256)%Z → o = o'.

(** Every value is a 32-bit pattern. *)
Definition value_wf (h : gmap Id Tree_) : Prop :=
  ∀ p n, h !! p = Some n → (0 ≤ value n < 2 ^ 32)%Z.

(** The exponent [E] and the fraction [F] of the binary64 pattern of a
    number whose binary32 pattern has the exponent [e] and the fraction
    [f]: a NaN or an infinity, a zero, a subnormal, a normal number. *)
Definition widened (e f E F : Z) : Prop :=
  (e = 255 ∧ E = 2047 ∧ F = f * 2 ^ 29)%Z ∨
  (e = 0 ∧ f = 0 ∧ E = 0 ∧ F = 0)%Z ∨
  (e = 0%Z ∧ ∃ k, 0 ≤ k ≤ 22 ∧ 2 ^ k ≤ f < 2 ^ (k + 1) ∧
                  E = k + 874 ∧ F = (f - 2 ^ k) * 2 ^ (52 - k))%Z ∨
  (1 ≤ e ≤ 254 ∧ E = e + 896 ∧ F = f * 2 ^ 29)%Z.

(** The two strings that [serialize] writes for a variable. *)
Definition var_label (vn vd : gmap Id string) (a : Id) : string * string :=
  (default EmptyString (vn !! a), default EmptyString (vd !! a)).

(** The template tells the variables below [p] and [q] apart. *)
Definition labels_distinct (vn vd : gmap Id string) (h : gmap Id Tree_)
  (p q : Id) : Prop :=
  ∀ a b, is_var h a → is_var h b →
         reaches h p a ∨ reaches h q a → reaches h p b ∨ reaches h q b →
         var_label vn vd a = var_label vn vd b → a = b.

(* ================================================================== *)
(** ** An empty replacement *)

(** [(X + 1).remap(Tree(), Y, Z)]: the sample tree, remapped with the
    empty tree for [X]. *)
Definition sample_emptied : option (Id * Cache) :=
  remap no_hint Tree_empty (Tree_Y sample_cache) (Tree_Z sample_cache)
    sample_root sample_cache.
(* ================================================================== *)
(** ** Allocation and the shape of the heap *)

Section Allocation.

Variable alloc : gmap Id Tree_ → Id.

Lemma new_addr_not_null h : new_addr alloc h ≠ nullptr.
Proof.
  unfold new_addr. case_decide as Hd; [tauto|].
  intros Heq. pose proof (is_fresh ({[nullptr]} ∪ dom h)) as Hf.
  rewrite Heq in Hf. set_solver.
Qed.

Lemma new_addr_free h : h !! new_addr alloc h = None.
Proof.
  unfold new_addr. case_decide as Hd; [tauto|].
  pose proof (is_fresh ({[nullptr]} ∪ dom h)) as Hf.
  apply not_elem_of_dom. set_solver.
Qed.

End Allocation.

Lemma rank_above_null h : rank_above h nullptr = 0.
Proof. unfold rank_above. by rewrite decide_True. Qed.

Lemma rank_above_live h p n :
  p ≠ nullptr → h !! p = Some n → rank_above h p = S (rank n).
Proof. intros Hp Hn. unfold rank_above. by rewrite decide_False, Hn. Qed.

Lemma rank_above_insert h q m p :
  h !! q = None → valid h p → rank_above (<[q := m]> h) p = rank_above h p.
Proof.
  intros Hq Hp. unfold rank_above. case_decide; [done|].
  destruct Hp as [|[n Hn]]; [done|].
  rewrite lookup_insert_ne by congruence. done.
Qed.

Lemma valid_insert h q m p : h !! q = None → valid h p → valid (<[q := m]> h) p.
Proof.
  intros Hq [->|[n Hn]]; [by left|right].
  rewrite lookup_insert_ne by congruence. eauto.
Qed.

(** Adding a node at an unused address, with valid operands and the rank
    they call for, keeps the heap well formed. *)
Lemma heap_wf_insert h q m :
  heap_wf h → q ≠ nullptr → h !! q = None →
  valid h (lhs m) → valid h (rhs m) →
  rank m = rank_above h (lhs m) `max` rank_above h (rhs m) →
  heap_wf (<[q := m]> h).
Proof.
  intros [Hnull Hl Hr Hrk] Hq Hfree Hvl Hvr Hrank. split.
  - rewrite lookup_insert_ne by done. done.
  - intros p n. rewrite lookup_insert. case_decide; intros Hn; simplify_eq.
    + by apply valid_insert.
    + apply valid_insert; eauto.
  - intros p n. rewrite lookup_insert. case_decide; intros Hn; simplify_eq.
    + by apply valid_insert.
    + apply valid_insert; eauto.
  - intros p n. rewrite lookup_insert. case_decide; intros Hn; simplify_eq.
    + rewrite !rank_above_insert by done. done.
    + rewrite !rank_above_insert by eauto. eauto.
Qed.

Lemma heap_wf_empty : heap_wf ∅.
Proof. split; intros *; rewrite ?lookup_empty; done. Qed.

(** In a well-formed heap the rank of an operand is below its parent's. *)
Lemma heap_wf_rank_lhs h p n c :
  heap_wf h → h !! p = Some n → h !! lhs n = Some c → rank c < rank n.
Proof.
  intros Hwf Hn Hc. rewrite (wf_rank _ Hwf _ _ Hn).
  assert (lhs n ≠ nullptr) by (intros E; rewrite E, (wf_null _ Hwf) in Hc; done).
  rewrite (rank_above_live _ _ _ H Hc). lia.
Qed.

Lemma heap_wf_rank_rhs h p n c :
  heap_wf h → h !! p = Some n → h !! rhs n = Some c → rank c < rank n.
Proof.
  intros Hwf Hn Hc. rewrite (wf_rank _ Hwf _ _ Hn).
  assert (rhs n ≠ nullptr) by (intros E; rewrite E, (wf_null _ Hwf) in Hc; done).
  rewrite (rank_above_live _ _ _ H Hc). lia.
Qed.

(* ================================================================== *)
(** ** Reference counts *)

Lemma acquire_null u : acquire nullptr u = u.
Proof. unfold acquire. by rewrite decide_True. Qed.

Lemma acquire_lookup_ne p q u : p ≠ q → acquire q u !! p = u !! p.
Proof.
  intros Hne. unfold acquire. case_decide; [done|].
  by rewrite lookup_insert_ne.
Qed.

Lemma acquire_lookup_eq q u :
  q ≠ nullptr → acquire q u !! q = Some (S (default 0 (u !! q))).
Proof. intros Hq. unfold acquire. by rewrite decide_False, lookup_insert_eq. Qed.

Lemma uses_wf_acquire h u q : uses_wf h u → valid h q → uses_wf h (acquire q u).
Proof.
  intros [Hd Hl] [->|Hq]; [by rewrite acquire_null|].
  destruct (decide (q = nullptr)) as [->|Hnull]; [by rewrite acquire_null|].
  split.
  - intros p Hp. rewrite acquire_lookup_ne; [by apply Hd|].
    intros ->. rewrite Hp in Hq. by destruct Hq.
  - intros p Hp. destruct (decide (p = q)) as [->|Hne].
    + rewrite acquire_lookup_eq by done. eauto.
    + rewrite acquire_lookup_ne by done. by apply Hl.
Qed.

Lemma uses_wf_insert h u q n :
  uses_wf h u → uses_wf (<[q := n]> h) (<[q := 1]> u).
Proof.
  intros [Hd Hl]. split.
  - intros p. rewrite !lookup_insert. case_decide; [done|]. apply Hd.
  - intros p. rewrite !lookup_insert. case_decide; [eauto|]. apply Hl.
Qed.

Lemma cache_wf_uses c : cache_wf c → uses_wf (heap c) (uses c).
Proof. intros Hwf. split; [apply (wf_uses_dead _ Hwf)|apply (wf_uses_live _ Hwf)]. Qed.

(* ================================================================== *)
(** ** The cache keeps the state well formed *)

Section Cache_wf.

Variable alloc : gmap Id Tree_ → Id.

Lemma assert_args_leaf : assert_args Opcode.CONST nullptr nullptr = true.
Proof. done. Qed.

(** A live node is not at the address of a new one. *)
Lemma live_ne_new (h : gmap Id Tree_) p n :
  h !! p = Some n → p ≠ new_addr alloc h.
Proof. intros Hp ->. by rewrite new_addr_free in Hp. Qed.

Lemma Cache_constant_wf v c : cache_wf c → cache_wf (Cache_constant alloc v c).2.
Proof.
  intros Hwf. unfold Cache_constant.
  destruct (constants c !! v) as [p|] eqn:Hv; simpl.
  - pose proof (wf_constants _ Hwf _ _ Hv) as Hp.
    destruct Hwf. split; simpl; try done;
      apply uses_wf_acquire; try (by split); right; eauto.
  - set (q := new_addr alloc (heap c)).
    assert (Hq : heap c !! q = None) by apply new_addr_free.
    assert (Hq0 : q ≠ nullptr) by apply new_addr_not_null.
    pose proof (cache_wf_uses _ Hwf) as Hu.
    destruct Hwf as [Hh Hshape Hconst Hops Hint Hoa Hci Hud Hul].
    split; simpl.
    + apply heap_wf_insert; simpl; try done; by left.
    + intros p n. rewrite lookup_insert. case_decide; intros; simplify_eq; eauto.
    + intros v' p. rewrite lookup_insert. case_decide; intros; simplify_eq.
      * by rewrite lookup_insert_eq.
      * rewrite lookup_insert_ne; [eauto|].
        intros ->. erewrite Hconst in Hq by done. done.
    + intros k p Hk. destruct (Hops _ _ Hk) as (n & Hn & Hkey).
      exists n. split; [|done]. rewrite lookup_insert_ne; [done|].
      intros ->. congruence.
    + intros p n. rewrite lookup_insert. case_decide; intros; simplify_eq; eauto.
      simpl in *. lia.
    + done.
    + intros p n. rewrite lookup_insert. case_decide; intros Hn Hop; simplify_eq.
      * simpl. by rewrite lookup_insert_eq.
      * rewrite lookup_insert_ne; [eauto|].
        intros Heq. rewrite Heq, (Hci _ _ Hn Hop) in Hv. done.
    + apply (uses_wf_insert _ _ q (mkTree_ Opcode.CONST 0 v nullptr nullptr) Hu).
    + apply (uses_wf_insert _ _ q (mkTree_ Opcode.CONST 0 v nullptr nullptr) Hu).
Qed.

Lemma Cache_var_wf c : cache_wf c → cache_wf (Cache_var alloc c).2.
Proof.
  intros Hwf. unfold Cache_var. simpl.
  set (q := new_addr alloc (heap c)).
  assert (Hq : heap c !! q = None) by apply new_addr_free.
  assert (Hq0 : q ≠ nullptr) by apply new_addr_not_null.
  pose proof (cache_wf_uses _ Hwf) as Hu.
  destruct Hwf as [Hh Hshape Hconst Hops Hint Hoa Hci Hud Hul].
  split; simpl.
  - apply heap_wf_insert; simpl; try done; by left.
  - intros p n. rewrite lookup_insert. case_decide; intros; simplify_eq; eauto.
  - intros v' p Hv. rewrite lookup_insert_ne; [eauto|].
    intros ->. erewrite Hconst in Hq by done. done.
  - intros k p Hk. destruct (Hops _ _ Hk) as (n & Hn & Hkey).
    exists n. split; [|done]. rewrite lookup_insert_ne; [done|].
    intros ->. congruence.
  - intros p n. rewrite lookup_insert. case_decide; intros; simplify_eq; eauto.
    simpl in *. lia.
  - done.
  - intros p n. rewrite lookup_insert. case_decide; intros Hn Hop; simplify_eq; eauto.
  - apply (uses_wf_insert _ _ q (mkTree_ Opcode.VAR 0 0 nullptr nullptr) Hu).
  - apply (uses_wf_insert _ _ q (mkTree_ Opcode.VAR 0 0 nullptr nullptr) Hu).
Qed.

Lemma Cache_operation_wf o l r c :
  cache_wf c → valid (heap c) l → valid (heap c) r →
  assert_args o l r = true → 1 ≤ Opcode.args o →
  cache_wf (Cache_operation alloc o l r c).2.
Proof.
  intros Hwf Hl Hr Hargs Harity. unfold Cache_operation.
  destruct (ops c !! (o, l, r)) as [p|] eqn:Hk; simpl.
  - destruct (wf_ops _ Hwf _ _ Hk) as (n & Hn & _).
    destruct Hwf. split; simpl; try done;
      apply uses_wf_acquire; try (by split); right; eauto.
  - set (q := new_addr alloc (heap c)).
    assert (Hq : heap c !! q = None) by apply new_addr_free.
    assert (Hq0 : q ≠ nullptr) by apply new_addr_not_null.
    pose proof (cache_wf_uses _ Hwf) as Hu.
    destruct Hwf as [Hh Hshape Hconst Hops Hint Hoa Hci Hud Hul].
    set (m := mkTree_ o _ 0 l r).
    assert (Hu' : uses_wf (<[q := m]> (heap c))
                    (<[q := 1]> (acquire r (acquire l (uses c))))).
    { apply uses_wf_insert. by do 2 (apply uses_wf_acquire; [|done]). }
    split; simpl.
    + apply heap_wf_insert; simpl; done.
    + intros p n. rewrite lookup_insert. case_decide; intros; simplify_eq; eauto.
    + intros v' p Hv. rewrite lookup_insert_ne; [eauto|].
      intros ->. erewrite Hconst in Hq by done. done.
    + intros k p. rewrite lookup_insert. case_decide; intros Hp; simplify_eq.
      * exists m. by rewrite lookup_insert_eq.
      * destruct (Hops _ _ Hp) as (n & Hn & Hkey).
        exists n. split; [|done]. rewrite lookup_insert_ne; [done|].
        intros ->. congruence.
    + intros p n. rewrite lookup_insert. case_decide; intros Hn Har; simplify_eq.
      * unfold key_of; simpl. by rewrite lookup_insert_eq.
      * rewrite lookup_insert_ne; [eauto|].
        intros Heq. specialize (Hint _ _ Hn Har). congruence.
    + intros k p. rewrite lookup_insert. case_decide; intros Hp; simplify_eq; eauto.
    + intros p n. rewrite lookup_insert. case_decide; intros Hn Hop; simplify_eq; eauto.
      simpl in Hop. subst o. simpl in Harity. lia.
    + apply Hu'.
    + apply Hu'.
Qed.

Lemma Cache_empty_wf : cache_wf Cache_empty.
Proof.
  split; simpl; try (intros *; rewrite ?lookup_empty; done).
Qed.

Lemma with_axes_wf a c : cache_wf c → cache_wf (with_axes a c).
Proof. by intros []. Qed.

Lemma Cache_init_wf : cache_wf (Cache_init alloc).
Proof.
  unfold Cache_init.
  destruct (Cache_var alloc Cache_empty) as [x c1] eqn:H1.
  destruct (Cache_var alloc c1) as [y c2] eqn:H2.
  destruct (Cache_var alloc c2) as [z c3] eqn:H3.
  apply with_axes_wf.
  replace c3 with (Cache_var alloc c2).2 by by rewrite H3.
  apply Cache_var_wf.
  replace c2 with (Cache_var alloc c1).2 by by rewrite H2.
  apply Cache_var_wf.
  replace c1 with (Cache_var alloc Cache_empty).2 by by rewrite H1.
  apply Cache_var_wf, Cache_empty_wf.
Qed.

End Cache_wf.

(* ================================================================== *)
(** ** The constructor [Tree(op, a, b)] and its assertions *)

Section Constructor.

Variable alloc : gmap Id Tree_ → Id.

(** The cache leaves every live node where it is. *)
Lemma Cache_operation_heap o l r c p n :
  heap c !! p = Some n → heap (Cache_operation alloc o l r c).2 !! p = Some n.
Proof.
  intros Hp. unfold Cache_operation. destruct (ops c !! (o, l, r)); simpl; [done|].
  rewrite lookup_insert_ne; [done|]. by apply not_eq_sym, (live_ne_new alloc _ _ n).
Qed.

(** What the cache returns is registered under the key it was asked for. *)
Lemma Cache_operation_ops o l r c :
  ops (Cache_operation alloc o l r c).2 !! (o, l, r)
  = Some (Cache_operation alloc o l r c).1.
Proof.
  unfold Cache_operation. destruct (ops c !! (o, l, r)) eqn:Hk; simpl; [done|].
  by rewrite lookup_insert_eq.
Qed.

(** A handle that owned nothing before the call owns, at most, the node
    the call has just made, which is no constant. *)
Lemma Cache_operation_heap_new o l r c b n :
  heap c !! b = None → heap (Cache_operation alloc o l r c).2 !! b = Some n →
  op n = o.
Proof.
  intros Hb. unfold Cache_operation. destruct (ops c !! (o, l, r)); simpl.
  - congruence.
  - rewrite lookup_insert. case_decide; [|congruence]. by intros [= <-].
Qed.

Lemma assert_args_count o a b :
  assert_args o a b = true ↔ operand_count a b = Opcode.args o ∧ lhs_first a b.
Proof.
  unfold assert_args, operand_count, lhs_first.
  rewrite !orb_true_iff, !bool_decide_eq_true.
  destruct (Opcode.args o) as [|[|[|k]]] eqn:Ho;
    repeat case_decide; simpl; split; try naive_solver lia.
  all: destruct o; simpl in Ho; lia.
Qed.

Lemma assert_pow_spec o l r c b :
  assert_pow (heap (Cache_operation alloc o l r c).2) b = true →
  o ≠ Opcode.CONST → integral_constant (heap c) b.
Proof.
  unfold assert_pow.
  destruct (heap (Cache_operation alloc o l r c).2 !! b) as [n|] eqn:Hn; [|done].
  rewrite andb_true_iff, bool_decide_eq_true. intros [Hop Hint] Ho.
  destruct (heap c !! b) as [n'|] eqn:Hb.
  - erewrite Cache_operation_heap in Hn by done. simplify_eq. by exists n.
  - apply Cache_operation_heap_new in Hn; [congruence|done].
Qed.

Lemma assert_pow_complete o l r c b :
  integral_constant (heap c) b →
  assert_pow (heap (Cache_operation alloc o l r c).2) b = true.
Proof.
  intros (n & Hn & Hop & Hint). unfold assert_pow.
  erewrite Cache_operation_heap by done.
  by rewrite andb_true_iff, bool_decide_eq_true.
Qed.

Lemma assert_nth_root_spec o l r c b :
  assert_nth_root (heap (Cache_operation alloc o l r c).2) b = true →
  o ≠ Opcode.CONST → positive_integral_constant (heap c) b.
Proof.
  unfold assert_nth_root.
  destruct (heap (Cache_operation alloc o l r c).2 !! b) as [n|] eqn:Hn; [|done].
  rewrite !andb_true_iff, bool_decide_eq_true. intros [[Hop Hint] Hpos] Ho.
  destruct (heap c !! b) as [n'|] eqn:Hb.
  - erewrite Cache_operation_heap in Hn by done. simplify_eq. by exists n.
  - apply Cache_operation_heap_new in Hn; [congruence|done].
Qed.

Lemma assert_nth_root_complete o l r c b :
  positive_integral_constant (heap c) b →
  assert_nth_root (heap (Cache_operation alloc o l r c).2) b = true.
Proof.
  intros (n & Hn & Hop & Hint & Hpos). unfold assert_nth_root.
  erewrite Cache_operation_heap by done.
  by rewrite !andb_true_iff, bool_decide_eq_true.
Qed.

(** The constructor returns exactly when the three assertions hold, and
    then it returns what the cache returned. *)
Lemma Tree_operation_Ok o a b c p c' :
  Tree_operation alloc o a b c = Ok p c' ↔
  Cache_operation alloc o a b c = (p, c') ∧
  operand_count a b = Opcode.args o ∧ lhs_first a b ∧
  (o = Opcode.POW → integral_constant (heap c) b) ∧
  (o = Opcode.NTH_ROOT → positive_integral_constant (heap c) b).
Proof.
  unfold Tree_operation.
  destruct (Cache_operation alloc o a b c) as [q c1] eqn:Hc.
  assert (Hc1 : c1 = (Cache_operation alloc o a b c).2) by by rewrite Hc.
  destruct (assert_args o a b) eqn:Hargs; simpl.
  - apply assert_args_count in Hargs as [Hcount Hfirst].
    case_decide as Hpow; [|case_decide as Hroot].
    + destruct (assert_pow (heap c1) b) eqn:Hp; rewrite Hc1 in Hp.
      * apply assert_pow_spec in Hp; [|by subst o].
        split; [intros [= -> ->]|intros ([= -> ->] & _)]; [|done].
        repeat split; try done. by intros ->.
      * split; [done|]. intros (_ & _ & _ & Hi & _).
        rewrite assert_pow_complete in Hp by auto. done.
    + destruct (assert_nth_root (heap c1) b) eqn:Hp; rewrite Hc1 in Hp.
      * apply assert_nth_root_spec in Hp; [|by subst o].
        split; [intros [= -> ->]|intros ([= -> ->] & _)]; [|done].
        repeat split; done.
      * split; [done|]. intros (_ & _ & _ & _ & Hi).
        rewrite assert_nth_root_complete in Hp by auto. done.
    + split; [intros [= -> ->]|intros ([= -> ->] & _)]; [|done].
      repeat split; done.
  - split; [done|]. intros (_ & Hcount & Hfirst & _).
    assert (assert_args o a b = true) by by apply assert_args_count.
    congruence.
Qed.

(** Otherwise it aborts, in the state the cache has left. *)
Lemma Tree_operation_cases o a b c :
  Tree_operation alloc o a b c
    = Ok (Cache_operation alloc o a b c).1 (Cache_operation alloc o a b c).2 ∨
  Tree_operation alloc o a b c = Abort (Cache_operation alloc o a b c).2.
Proof.
  unfold Tree_operation. destruct (Cache_operation alloc o a b c) as [q c1]; simpl.
  repeat (case_match; auto).
Qed.

Lemma Tree_operation_aborted o a b c :
  aborted (Tree_operation alloc o a b c) ↔
  ¬ (operand_count a b = Opcode.args o ∧ lhs_first a b ∧
     (o = Opcode.POW → integral_constant (heap c) b) ∧
     (o = Opcode.NTH_ROOT → positive_integral_constant (heap c) b)).
Proof.
  destruct (Tree_operation_cases o a b c) as [Hok|Hab].
  - rewrite Hok. simpl. apply Tree_operation_Ok in Hok. tauto.
  - rewrite Hab. simpl. split; [|done]. intros _ Hpre.
    assert (Tree_operation alloc o a b c
            = Ok (Cache_operation alloc o a b c).1 (Cache_operation alloc o a b c).2)
      as Hok; [|congruence].
    apply Tree_operation_Ok. split; [by destruct (Cache_operation _ _ _ _ _)|done].
Qed.

End Constructor.

(* ================================================================== *)
(** ** Growth of the cache under construction *)

Section Growth.

Variable alloc : gmap Id Tree_ → Id.

Lemma grows_refl c : grows c c.
Proof. by repeat split. Qed.

Lemma grows_trans c1 c2 c3 : grows c1 c2 → grows c2 c3 → grows c1 c3.
Proof. intros (?&?&?) (?&?&?). repeat split; eauto. Qed.

Lemma Cache_constant_grows v c : grows c (Cache_constant alloc v c).2.
Proof.
  unfold Cache_constant. destruct (constants c !! v) eqn:Hv; simpl.
  - by repeat split.
  - repeat split; simpl; [| |done].
    + intros p n Hp. rewrite lookup_insert_ne; [done|].
      by apply not_eq_sym, (live_ne_new alloc _ _ n).
    + intros v' p Hp. rewrite lookup_insert_ne; [done|]. congruence.
Qed.

Lemma Cache_var_grows c : grows c (Cache_var alloc c).2.
Proof.
  repeat split; simpl; [|done|done].
  intros p n Hp. rewrite lookup_insert_ne; [done|].
  by apply not_eq_sym, (live_ne_new alloc _ _ n).
Qed.

Lemma Cache_operation_grows o l r c : grows c (Cache_operation alloc o l r c).2.
Proof.
  repeat split; [by apply Cache_operation_heap| |].
  - unfold Cache_operation. by destruct (ops c !! (o, l, r)).
  - unfold Cache_operation. destruct (ops c !! (o, l, r)) eqn:Hk; simpl; [done|].
    intros k p Hp. rewrite lookup_insert_ne; [done|]. congruence.
Qed.

Lemma Cache_constant_entry v c :
  constants (Cache_constant alloc v c).2 !! v = Some (Cache_constant alloc v c).1.
Proof.
  unfold Cache_constant. destruct (constants c !! v) eqn:Hv; simpl; [done|].
  by rewrite lookup_insert_eq.
Qed.

End Growth.

Lemma grows_integral_constant c c' b :
  grows c c' → integral_constant (heap c) b → integral_constant (heap c') b.
Proof. intros (Hh & _) (n & Hn & ?). exists n. split; [by apply Hh|done]. Qed.

Lemma grows_positive_integral_constant c c' b :
  grows c c' → positive_integral_constant (heap c) b →
  positive_integral_constant (heap c') b.
Proof. intros (Hh & _) (n & Hn & ?). exists n. split; [by apply Hh|done]. Qed.

(* ================================================================== *)
(** ** Claims about construction *)

(** C7 (as amended).  A count of non-empty operands other than the arity,
    a [POW] whose second operand is not an integral constant and an
    [NTH_ROOT] whose second operand is not a positive integral constant
    all abort the constructor.  It returns under the stated preconditions
    when, moreover, no operand follows an empty one. *)
Theorem operation_preconditions_enforced (alloc : gmap Id Tree_ → Id) o a b c :
  (operand_count a b ≠ Opcode.args o →
   aborted (Tree_operation alloc o a b c)) ∧
  (o = Opcode.POW → ¬ integral_constant (heap c) b →
   aborted (Tree_operation alloc o a b c)) ∧
  (o = Opcode.NTH_ROOT → ¬ positive_integral_constant (heap c) b →
   aborted (Tree_operation alloc o a b c)) ∧
  (stated_precondition (heap c) o a b → lhs_first a b →
   ∃ p c', Tree_operation alloc o a b c = Ok p c').
Proof.
  repeat split.
  - intros Hc. apply Tree_operation_aborted. tauto.
  - intros Ho Hi. apply Tree_operation_aborted. tauto.
  - intros Ho Hi. apply Tree_operation_aborted. tauto.
  - intros (Hcount & Hpow & Hroot) Hfirst.
    exists (Cache_operation alloc o a b c).1, (Cache_operation alloc o a b c).2.
    apply Tree_operation_Ok.
    split; [by destruct (Cache_operation _ _ _ _ _)|done].
Qed.

(** C10.  When the constructor aborts, the state is the one the cache has
    left: the key is registered, and if it was not registered before, the
    node under it is new, live and has the offending operands. *)
Theorem operation_interned_before_assertions
  (alloc : gmap Id Tree_ → Id) o a b c c' :
  Tree_operation alloc o a b c = Abort c' →
  c' = (Cache_operation alloc o a b c).2 ∧
  ∃ p, ops c' !! (o, a, b) = Some p ∧
       (ops c !! (o, a, b) = None →
        heap c !! p = None ∧ c' ≠ c ∧
        ∃ n, heap c' !! p = Some n ∧ key_of n = (o, a, b)).
Proof.
  intros Hab.
  destruct (Tree_operation_cases alloc o a b c) as [Hok|Hab']; [congruence|].
  assert (c' = (Cache_operation alloc o a b c).2) as -> by congruence.
  split; [done|]. exists (Cache_operation alloc o a b c).1.
  split; [apply Cache_operation_ops|].
  intros Hk. unfold Cache_operation. rewrite Hk. simpl.
  pose proof (new_addr_free alloc (heap c)) as Hfree.
  split; [done|]. split.
  - intros Heq.
    apply (f_equal (λ s, heap s !! new_addr alloc (heap c))) in Heq.
    simpl in Heq. rewrite lookup_insert_eq, Hfree in Heq. done.
  - eexists. by rewrite lookup_insert_eq.
Qed.

(** C7 as stated fails: a unary operation given its one operand as [b]
    meets the stated preconditions, and the constructor aborts. *)
Lemma stated_preconditions_do_not_suffice :
  let c := Cache_init no_hint in
  stated_precondition (heap c) Opcode.NEG nullptr (Tree_X c) ∧
  aborted (Tree_operation no_hint Opcode.NEG nullptr (Tree_X c) c).
Proof.
  split.
  - split; [done|]. split; intros; discriminate.
  - by vm_compute.
Qed.

(** Runs of C7: [pow(X, 2.5)] and [nth_root(X, -2)] abort, [pow(X, 2)]
    returns. *)
Lemma operation_preconditions_witness :
  let c0 := Cache_init no_hint in
  let x := Tree_X c0 in
  let '(k, c) := Tree_constant no_hint Float32.two_and_a_half c0 in
  let '(m, c') := Tree_constant no_hint Float32.minus_two c0 in
  let '(t, c'') := Tree_constant no_hint Float32.two c0 in
  (¬ integral_constant (heap c) k ∧
   aborted (Tree_operation no_hint Opcode.POW x k c)) ∧
  (¬ positive_integral_constant (heap c') m ∧
   aborted (Tree_operation no_hint Opcode.NTH_ROOT x m c')) ∧
  (stated_precondition (heap c'') Opcode.POW x t ∧ lhs_first x t ∧
   ∃ p c3, Tree_operation no_hint Opcode.POW x t c'' = Ok p c3).
Proof.
  intros c0 x.
  destruct (Tree_constant no_hint Float32.two_and_a_half c0) as [k c] eqn:Hk.
  destruct (Tree_constant no_hint Float32.minus_two c0) as [m c'] eqn:Hm.
  destruct (Tree_constant no_hint Float32.two c0) as [t c''] eqn:Ht.
  vm_compute in Hk, Hm, Ht. simplify_eq.
  assert (H1 : ¬ integral_constant
                 (heap (Tree_constant no_hint Float32.two_and_a_half c0).2)
                 (Tree_constant no_hint Float32.two_and_a_half c0).1).
  { intros (n & Hn & _ & Hi). vm_compute in Hn. injection Hn as <-.
    vm_compute in Hi. discriminate Hi. }
  assert (H2 : ¬ positive_integral_constant
                 (heap (Tree_constant no_hint Float32.minus_two c0).2)
                 (Tree_constant no_hint Float32.minus_two c0).1).
  { intros (n & Hn & _ & _ & Hi). vm_compute in Hn. injection Hn as <-.
    vm_compute in Hi. discriminate Hi. }
  assert (H3 : stated_precondition
                 (heap (Tree_constant no_hint Float32.two c0).2) Opcode.POW x
                 (Tree_constant no_hint Float32.two c0).1).
  { split; [done|]. split; [|intros; discriminate].
    intros _. eexists. split; [by vm_compute|]. by vm_compute. }
  assert (H4 : lhs_first x (Tree_constant no_hint Float32.two c0).1).
  { intros Hx. by vm_compute in Hx. }
  split; [split; [exact H1|]|split; [split; [exact H2|]|split; [exact H3|split; [exact H4|]]]].
  - exact (proj1 (proj2 (operation_preconditions_enforced no_hint Opcode.POW x _ _))
                 eq_refl H1).
  - exact (proj1 (proj2 (proj2 (operation_preconditions_enforced no_hint
                                  Opcode.NTH_ROOT x _ _))) eq_refl H2).
  - exact (proj2 (proj2 (proj2 (operation_preconditions_enforced no_hint
                                  Opcode.POW x _ _))) H3 H4).
Defined.

(** A run of C10: [pow(X, 2.5)] aborts with the node already in the
    cache. *)
Lemma operation_interned_before_assertions_witness :
  let c0 := Cache_init no_hint in
  let '(k, c) := Tree_constant no_hint Float32.two_and_a_half c0 in
  ∃ c', Tree_operation no_hint Opcode.POW (Tree_X c) k c = Abort c' ∧
        ops c !! (Opcode.POW, Tree_X c, k) = None ∧
        ∃ p, ops c' !! (Opcode.POW, Tree_X c, k) = Some p ∧ heap c !! p = None ∧
             c' ≠ c ∧
             ∃ n, heap c' !! p = Some n ∧ key_of n = (Opcode.POW, Tree_X c, k).
Proof.
  intros c0.
  destruct (Tree_constant no_hint Float32.two_and_a_half c0) as [k c] eqn:Hk.
  destruct (Tree_operation no_hint Opcode.POW (Tree_X c) k c) as [p c'|c'] eqn:Hr.
  { vm_compute in Hk. injection Hk as <- <-. vm_compute in Hr. discriminate Hr. }
  assert (Hnone : ops c !! (Opcode.POW, Tree_X c, k) = None).
  { vm_compute in Hk. injection Hk as <- <-. vm_compute. reflexivity. }
  exists c'. split; [done|]. split; [done|].
  destruct (operation_interned_before_assertions no_hint _ _ _ _ _ Hr)
    as (_ & p & Hp & Hnew).
  exists p. split; [done|]. by apply Hnew.
Defined.

(* ================================================================== *)
(** ** The buckets of [ordered] *)

Section Buckets.

Variable rk : Id → nat.

Lemma bucket_below r ranks :
  Forall (lt r) (map fst ranks) → bucket r ranks = [].
Proof.
  induction ranks as [|[r' ts] rest IH]; [done|].
  simpl. intros Hall. apply Forall_cons in Hall as [Hlt Hall].
  rewrite decide_False by lia. auto.
Qed.

Lemma ranks_push_keys r t ranks k :
  k ∈ map fst (ranks_push r t ranks) → k = r ∨ k ∈ map fst ranks.
Proof.
  induction ranks as [|[r' ts] rest IH]; simpl.
  - set_solver.
  - repeat case_decide; simpl; set_solver.
Qed.

Lemma ranks_push_sorted r t ranks :
  StronglySorted lt (map fst ranks) →
  StronglySorted lt (map fst (ranks_push r t ranks)).
Proof.
  induction ranks as [|[r' ts] rest IH]; simpl; intros Hs.
  - repeat constructor.
  - apply StronglySorted_inv in Hs as [Hs Hall]. repeat case_decide; simpl.
    + constructor; [by constructor|].
      constructor; [done|]. eapply Forall_impl; [done|]. simpl. lia.
    + by constructor.
    + constructor; [auto|]. apply Forall_forall. intros k Hk.
      apply ranks_push_keys in Hk as [->|Hk]; [lia|].
      by eapply Forall_forall in Hall.
Qed.

Lemma ranks_push_bucket r t ranks r' :
  StronglySorted lt (map fst ranks) →
  bucket r' (ranks_push r t ranks)
  = bucket r' ranks ++ (if decide (r' = r) then [t] else []).
Proof.
  induction ranks as [|[r'' ts] rest IH]; simpl; intros Hs.
  - by case_decide.
  - apply StronglySorted_inv in Hs as [Hs Hall].
    destruct (decide (r < r'')) as [Hlt|Hge]; simpl.
    + destruct (decide (r' = r)) as [->|Hne].
      * rewrite decide_False by lia. rewrite bucket_below; [done|].
        eapply Forall_impl; [done|]. simpl. lia.
      * by rewrite app_nil_r.
    + destruct (decide (r = r'')) as [->|Hne]; simpl.
      * destruct (decide (r' = r'')); [done|]. by rewrite app_nil_r.
      * destruct (decide (r' = r'')) as [->|Hne'].
        -- rewrite decide_False by done. by rewrite app_nil_r.
        -- auto.
Qed.

Lemma ranks_push_ranked r t ranks :
  rk t = r →
  Forall (λ b, Forall (λ p, rk p = b.1) b.2) ranks →
  Forall (λ b, Forall (λ p, rk p = b.1) b.2) (ranks_push r t ranks).
Proof.
  intros Ht. induction 1 as [|[r' ts] rest Hb Hrest IH]; simpl.
  - repeat constructor. done.
  - repeat case_decide; simpl.
    + repeat constructor; done.
    + constructor; [|done]. simpl in *. apply Forall_app. split; [done|].
      repeat constructor. congruence.
    + by constructor.
Qed.

Lemma ranks_push_flatten r t ranks :
  ranks_flatten (ranks_push r t ranks) ≡ₚ ranks_flatten ranks ++ [t].
Proof.
  unfold ranks_flatten. induction ranks as [|[r' ts] rest IH]; simpl; [done|].
  repeat case_decide; simpl.
  - by rewrite (Permutation_app_comm _ [t]).
  - by rewrite <- !app_assoc, (Permutation_app_comm [t]).
  - by rewrite IH, app_assoc.
Qed.

Lemma buckets_of_nil : buckets_of rk [] [].
Proof. repeat split; by constructor. Qed.

(** One more node discovered, and pushed into its bucket. *)
Lemma buckets_of_push ranks seen t :
  buckets_of rk ranks seen →
  buckets_of rk (ranks_push (rk t) t ranks) (seen ++ [t]).
Proof.
  intros (Hs & Hr & Hb & Hp). repeat split.
  - by apply ranks_push_sorted.
  - by apply ranks_push_ranked.
  - intros r. rewrite ranks_push_bucket, Hb, filter_app by done.
    f_equal. rewrite filter_cons, filter_nil. by repeat case_decide.
  - by rewrite ranks_push_flatten, Hp.
Qed.

(** The output of [ordered] is in ascending order of rank. *)
Lemma buckets_of_sorted ranks seen :
  buckets_of rk ranks seen →
  StronglySorted (λ p q, rk p ≤ rk q) (ranks_flatten ranks).
Proof.
  intros (Hs & Hr & _ & _). unfold ranks_flatten.
  induction ranks as [|[r ts] rest IH]; simpl; [constructor|].
  apply StronglySorted_inv in Hs as [Hs Hall].
  apply Forall_cons in Hr as [Hts Hr]. simpl in *.
  specialize (IH Hs Hr).
  assert (Hrest : Forall (λ q, r < rk q) (concat (map snd rest))).
  { clear IH Hs. induction rest as [|[r' ts'] rest IH]; simpl; [constructor|].
    apply Forall_cons in Hall as [Hlt Hall].
    apply Forall_cons in Hr as [Hts' Hr]. simpl in *.
    apply Forall_app. split; [|auto].
    eapply Forall_impl; [done|]. simpl. lia. }
  clear Hall Hr. induction Hts as [|p ts Hp Hts IHts]; simpl; [done|].
  constructor; [done|]. apply Forall_app. split.
  - eapply Forall_impl; [done|]. simpl. lia.
  - eapply Forall_impl; [done|]. simpl. lia.
Qed.

(** Among nodes of one rank, the output keeps the order of discovery. *)
Lemma buckets_of_stable ranks seen r :
  buckets_of rk ranks seen →
  filter (λ p, rk p = r) (ranks_flatten ranks) = filter (λ p, rk p = r) seen.
Proof.
  intros (Hs & Hr & Hb & _). rewrite <- Hb. clear Hb. unfold ranks_flatten.
  induction ranks as [|[r' ts] rest IH]; simpl; [done|].
  apply StronglySorted_inv in Hs as [Hs Hall].
  apply Forall_cons in Hr as [Hts Hr]. simpl in *.
  rewrite filter_app, (IH Hs Hr). case_decide as Heq.
  - subst r'. rewrite bucket_below by done. rewrite app_nil_r.
    clear -Hts. induction Hts as [|p ts Hp Hts IH]; [done|].
    rewrite filter_cons, decide_True by done. by f_equal.
  - replace (filter (λ p, rk p = r) ts) with (@nil Id); [done|].
    clear -Hts Heq. induction Hts as [|p ts Hp Hts IH]; [done|].
    rewrite filter_cons, decide_False by congruence. done.
Qed.

End Buckets.

(* ================================================================== *)
(** ** The breadth-first loop *)

Lemma rank_of_lookup h p n : h !! p = Some n → rank_of h p = rank n.
Proof. intros Hp. unfold rank_of. by rewrite Hp. Qed.

(** The loop of [ordered] runs in step with the discovery loop and files
    what is discovered into buckets. *)
Lemma ordered_loop_discovery fuel h : ∀ todo found ranks seen,
  buckets_of (rank_of h) ranks seen →
  match discovery_loop fuel h todo found seen with
  | Some d => ∃ ranks', ordered_loop fuel h todo found ranks = Some ranks' ∧
                        buckets_of (rank_of h) ranks' d
  | None => ordered_loop fuel h todo found ranks = None
  end.
Proof.
  induction fuel as [|fuel IH]; intros todo found ranks seen Hb; simpl; [done|].
  destruct todo as [|t todo]; [eauto|].
  case_decide; [by apply IH|].
  destruct (h !! t) as [n|] eqn:Ht; [|done].
  apply IH. rewrite <- (rank_of_lookup h t n Ht). by apply buckets_of_push.
Qed.

Lemma child_live h p q : heap_wf h → child h p q → is_Some (h !! p) ∧ is_Some (h !! q).
Proof.
  intros Hwf (Hq & n & Hn & Hc). split; [eauto|].
  destruct Hc as [<-|<-].
  - by destruct (wf_lhs _ Hwf _ _ Hn).
  - by destruct (wf_rhs _ Hwf _ _ Hn).
Qed.

Lemma reaches_live h root p :
  heap_wf h → is_Some (h !! root) → reaches h root p → is_Some (h !! p).
Proof.
  intros Hwf Hroot Hr. induction Hr as [|x y z Hxy Hyz IH]; [done|].
  apply IH. by eapply child_live.
Qed.

Lemma live_not_null h p : heap_wf h → is_Some (h !! p) → p ≠ nullptr.
Proof. intros Hwf [n Hn] ->. by rewrite (wf_null _ Hwf) in Hn. Qed.

Lemma unvisited_size (h : gmap Id Tree_) (found : gset Id) t :
  is_Some (h !! t) → t ∉ found →
  size (dom h ∖ found) = S (size (dom h ∖ ({[t]} ∪ found))).
Proof.
  intros Ht Hf.
  assert (dom h ∖ found = {[t]} ∪ dom h ∖ ({[t]} ∪ found)) as ->.
  { apply set_eq. intros x. apply elem_of_dom in Ht.
    destruct (decide (x = t)) as [->|]; set_solver. }
  rewrite size_union by set_solver. by rewrite size_singleton.
Qed.

Lemma bfs_inv_start h root : bfs_inv h root [root] {[nullptr]} [].
Proof.
  split; try set_solver.
  - constructor.
  - intros t Ht. apply list_elem_of_singleton in Ht as ->. right. constructor.
Qed.

Lemma bfs_inv_skip h root t todo found seen :
  t ∈ found → bfs_inv h root (t :: todo) found seen →
  bfs_inv h root todo found seen.
Proof.
  intros Ht [Hf Hnd Hs Htd Hcl Hr]. split; try done.
  - intros t' Ht'. apply Htd. by right.
  - intros p q Hp Hc. destruct (Hcl _ _ Hp Hc) as [|Hq]; [by left|].
    apply elem_of_cons in Hq as [->|]; [by left|by right].
  - destruct Hr as [|Hr]; [by left|].
    apply elem_of_cons in Hr as [->|]; [by left|by right].
Qed.

Lemma bfs_inv_visit h root t n todo found seen :
  t ∉ found → h !! t = Some n → bfs_inv h root (t :: todo) found seen →
  bfs_inv h root (todo ++ [lhs n; rhs n]) ({[t]} ∪ found) (seen ++ [t]).
Proof.
  intros Ht Hn [Hf Hnd Hs Htd Hcl Hr].
  assert (Hreach : reaches h root t).
  { destruct (Htd t) as [->|]; [by left| |done]. set_solver. }
  split.
  - rewrite list_to_set_app_L. set_solver.
  - apply NoDup_app. split; [done|]. split; [|apply NoDup_singleton].
    intros p Hp Hp'. apply list_elem_of_singleton in Hp' as ->. set_solver.
  - intros p Hp. apply elem_of_app in Hp as [Hp|Hp]; [auto|].
    by apply list_elem_of_singleton in Hp as ->.
  - intros q Hq. apply elem_of_app in Hq as [Hq|Hq].
    { apply Htd. by right. }
    destruct (decide (q = nullptr)) as [|Hq0]; [by left|right].
    eapply rtc_r; [done|]. split; [done|]. exists n. split; [done|].
    set_solver.
  - intros p q Hp Hc. apply elem_of_app in Hp as [Hp|Hp].
    + destruct (Hcl _ _ Hp Hc) as [|Hq]; [left; set_solver|].
      apply elem_of_cons in Hq as [->|]; [left; set_solver|].
      right. apply elem_of_app. by left.
    + apply list_elem_of_singleton in Hp as ->.
      destruct Hc as (_ & n' & Hn' & Hc). simplify_eq.
      right. apply elem_of_app. right. set_solver.
  - destruct Hr as [|Hr]; [left; set_solver|].
    apply elem_of_cons in Hr as [->|]; [left; set_solver|].
    right. apply elem_of_app. by left.
Qed.

(** When the queue is empty, everything reachable has been recorded. *)
Lemma bfs_inv_done h root found seen p :
  heap_wf h → is_Some (h !! root) → bfs_inv h root [] found seen →
  p ∈ seen ↔ reaches h root p.
Proof.
  intros Hwf Hroot [Hf Hnd Hs Htd Hcl Hr]. split; [auto|]. intros Hp.
  assert (Hin : p ∈ found).
  { revert p Hp. apply (rtc_ind_r (λ p, p ∈ found)).
    - destruct Hr as [|Hr]; [done|]. by apply elem_of_nil in Hr.
    - intros y z Hxy Hyz IH. assert (y ∈ seen) as Hy.
      { pose proof (reaches_live _ _ _ Hwf Hroot Hxy) as Hl.
        apply (live_not_null _ _ Hwf) in Hl. set_solver. }
      destruct (Hcl _ _ Hy Hyz) as [|Hq]; [done|]. by apply elem_of_nil in Hq. }
  pose proof (reaches_live _ _ _ Hwf Hroot Hp) as Hl.
  apply (live_not_null _ _ Hwf) in Hl. set_solver.
Qed.

(** The discovery loop ends when given a round for every handle it can
    still queue, and records the reachable nodes, once each. *)
Lemma discovery_loop_spec h root fuel : ∀ todo found seen,
  heap_wf h → is_Some (h !! root) → bfs_inv h root todo found seen →
  2 * size (dom h ∖ found) + length todo < fuel →
  ∃ d, discovery_loop fuel h todo found seen = Some d ∧
       NoDup d ∧ (∀ p, p ∈ d ↔ reaches h root p).
Proof.
  induction fuel as [|fuel IH]; intros todo found seen Hwf Hroot Hinv Hfuel;
    [lia|].
  simpl. destruct todo as [|t todo].
  - exists seen. split; [done|]. split; [apply Hinv|].
    intros p. by eapply bfs_inv_done.
  - simpl in Hfuel. case_decide as Ht.
    + apply IH; try done; [by eapply bfs_inv_skip|lia].
    + assert (Hlive : is_Some (h !! t)).
      { destruct (bi_todo _ _ _ _ _ Hinv t) as [->|Hr]; [by left| |].
        - destruct Ht. rewrite (bi_visited _ _ _ _ _ Hinv). set_solver.
        - by eapply reaches_live. }
      destruct Hlive as [n Hn]. rewrite Hn.
      apply IH; try done; [by apply bfs_inv_visit|].
      rewrite length_app. simpl.
      rewrite (unvisited_size h found t) in Hfuel by eauto. lia.
Qed.

(* ================================================================== *)
(** ** [Tree::ordered] *)

Lemma ordered_fuel (h : gmap Id Tree_) (found : gset Id) :
  2 * size (dom h ∖ found) + 1 < 2 * size h + 2.
Proof.
  assert (size (dom h ∖ found) ≤ size (dom h)) by (apply subseteq_size; set_solver).
  rewrite size_dom in *. lia.
Qed.

(** [ordered] and [discovery] both return, and the first is the second
    filed by rank. *)
Lemma ordered_discovery h root :
  heap_wf h → is_Some (h !! root) →
  ∃ ranks d, ordered h root = Some (ranks_flatten ranks) ∧
             discovery h root = Some d ∧
             buckets_of (rank_of h) ranks d ∧
             NoDup d ∧ (∀ p, p ∈ d ↔ reaches h root p).
Proof.
  intros Hwf Hroot.
  destruct (discovery_loop_spec h root (2 * size h + 2) [root] {[nullptr]} [])
    as (d & Hd & Hnd & Hreach); try done;
    [apply bfs_inv_start|apply ordered_fuel|].
  pose proof (ordered_loop_discovery (2 * size h + 2) h [root] {[nullptr]} [] []
                (buckets_of_nil _)) as Hl.
  rewrite Hd in Hl. destruct Hl as (ranks & Hranks & Hb).
  exists ranks, d. unfold ordered, discovery. rewrite Hranks. done.
Qed.

(** A sorted list without repetition has every node after the nodes of
    lower rank. *)
Lemma sorted_by_rank_positions (rk : Id → nat) l i j p q :
  StronglySorted (λ p q, rk p ≤ rk q) l →
  l !! i = Some p → l !! j = Some q → rk q < rk p → j < i.
Proof.
  intros Hs. revert i j. induction Hs as [|x l Hs IH Hall]; intros i j Hi Hj Hlt.
  - by rewrite lookup_nil in Hi.
  - destruct i as [|i], j as [|j]; simpl in *; simplify_eq; try lia.
    + apply list_elem_of_lookup_2 in Hj.
      rewrite Forall_forall in Hall. specialize (Hall _ Hj). lia.
    + specialize (IH _ _ Hi Hj Hlt). lia.
Qed.

Lemma child_rank h p q : heap_wf h → child h p q → rank_of h q < rank_of h p.
Proof.
  intros Hwf Hc. destruct (child_live _ _ _ Hwf Hc) as [_ [m Hm]].
  destruct Hc as (Hq & n & Hn & Hc).
  rewrite (rank_of_lookup _ _ _ Hn), (rank_of_lookup _ _ _ Hm).
  destruct Hc as [<-|<-].
  - by eapply heap_wf_rank_lhs.
  - by eapply heap_wf_rank_rhs.
Qed.

(** C3.  On a non-empty root, [ordered] returns the nodes reachable from
    the root, each exactly once, in ascending order of rank, nodes of one
    rank in the order in which the breadth-first traversal ([lhs] queued
    before [rhs], empty operands skipped) first discovers them; no node
    comes before one of its operands. *)
Theorem ordered_spec h root :
  heap_wf h → is_Some (h !! root) →
  ∃ l d, ordered h root = Some l ∧ discovery h root = Some d ∧
    NoDup l ∧
    (∀ p, p ∈ l ↔ reaches h root p) ∧
    StronglySorted (λ p q, rank_of h p ≤ rank_of h q) l ∧
    (∀ r, filter (λ p, rank_of h p = r) l = filter (λ p, rank_of h p = r) d) ∧
    (∀ i j p q, l !! i = Some p → l !! j = Some q → child h p q → j < i).
Proof.
  intros Hwf Hroot.
  destruct (ordered_discovery h root Hwf Hroot)
    as (ranks & d & Hl & Hd & Hb & Hnd & Hreach).
  assert (Hperm : ranks_flatten ranks ≡ₚ d) by apply Hb.
  exists (ranks_flatten ranks), d. repeat split; try done.
  - by rewrite Hperm.
  - rewrite Hperm. apply Hreach.
  - rewrite Hperm. apply Hreach.
  - by eapply buckets_of_sorted.
  - intros r. by apply buckets_of_stable.
  - intros i j p q Hi Hj Hc.
    eapply (sorted_by_rank_positions (rank_of h)); try done.
    + by eapply buckets_of_sorted.
    + by apply child_rank.
Qed.

(* ================================================================== *)
(** ** Counting owners *)

Lemma edges_empty : edges ∅ = ∅.
Proof. apply map_fold_empty. Qed.

Lemma edges_insert h q n :
  h !! q = None → edges (<[q := n]> h) = {[+ lhs n; rhs n +]} ⊎ edges h.
Proof.
  intros Hq. unfold edges. rewrite map_fold_insert_L; [done| |done].
  intros. multiset_solver.
Qed.

Lemma edges_delete h q n :
  h !! q = Some n → edges h = {[+ lhs n; rhs n +]} ⊎ edges (delete q h).
Proof.
  intros Hq. rewrite <- (insert_delete_id h q n) at 1 by done.
  apply edges_insert, lookup_delete_eq.
Qed.

(** An operand is the operand of some live node. *)
Lemma edges_elem h p :
  p ∈ edges h → ∃ q n, h !! q = Some n ∧ (lhs n = p ∨ rhs n = p).
Proof.
  induction h as [|q n h Hq IH] using map_ind.
  - rewrite edges_empty. multiset_solver.
  - rewrite edges_insert by done. intros Hp.
    assert (p = lhs n ∨ p = rhs n ∨ p ∈ edges h) as [->|[->|Hin]]
      by multiset_solver.
    + exists q, n. rewrite lookup_insert_eq. auto.
    + exists q, n. rewrite lookup_insert_eq. auto.
    + destruct (IH Hin) as (q' & n' & Hn' & Hc). exists q', n'.
      split; [|done]. rewrite lookup_insert_ne; [done|]. congruence.
Qed.

Lemma edges_parent h q n :
  h !! q = Some n → lhs n ∈ edges h ∧ rhs n ∈ edges h.
Proof. intros Hq. rewrite (edges_delete h q n Hq). multiset_solver. Qed.

(** Nothing points to a dead address. *)
Lemma edges_dead h p :
  heap_wf h → p ≠ nullptr → h !! p = None → multiplicity p (edges h) = 0.
Proof.
  intros Hwf Hp Hdead.
  destruct (decide (p ∈ edges h)) as [Hin|Hout].
  - apply edges_elem in Hin as (q & n & Hn & [<-|<-]).
    + destruct (wf_lhs _ Hwf _ _ Hn) as [|[? ?]]; congruence.
    + destruct (wf_rhs _ Hwf _ _ Hn) as [|[? ?]]; congruence.
  - by apply not_elem_of_multiplicity.
Qed.

Lemma own_dead c own p :
  owned_wf c own → heap c !! p = None → multiplicity p own = 0.
Proof.
  intros Hown Hdead. apply not_elem_of_multiplicity. intros Hin.
  apply (own_live _ _ Hown) in Hin as [n Hn]. congruence.
Qed.

Lemma acquire_count p u x k :
  u !! x = Some k → x ≠ nullptr →
  acquire p u !! x = Some (k + multiplicity x ({[+ p +]} : gmultiset Id)).
Proof.
  intros Hx Hx0. destruct (decide (x = p)) as [->|Hne].
  - rewrite acquire_lookup_eq, Hx, multiplicity_singleton_eq by done.
    simpl. f_equal. lia.
  - rewrite acquire_lookup_ne, Hx, multiplicity_singleton_ne by done.
    f_equal. lia.
Qed.

(** A new handle on a live node. *)
Lemma owned_wf_acquire c own p :
  cache_wf c → owned_wf c own → is_Some (heap c !! p) →
  owned_wf (with_uses (acquire p (uses c)) c) ({[+ p +]} ⊎ own).
Proof.
  intros Hwf [Hlive Hcount] Hp. split; simpl.
  - intros x Hx. apply gmultiset_elem_of_disj_union in Hx as [Hx|Hx]; [|auto].
    by apply gmultiset_elem_of_singleton in Hx as ->.
  - intros x n Hx.
    pose proof (live_not_null _ _ (wf_heap _ Hwf) (mk_is_Some _ _ Hx)) as Hx0.
    rewrite (acquire_count p _ x _ (Hcount _ _ Hx) Hx0).
    rewrite multiplicity_disj_union. f_equal. lia.
Qed.

(** A new node at an unused address, owning its operands, and the handle
    on it. *)
Lemma owned_wf_new c own q n k o a :
  cache_wf c → owned_wf c own →
  q ≠ nullptr → heap c !! q = None →
  valid (heap c) (lhs n) → valid (heap c) (rhs n) →
  owned_wf (mkCache (<[q := n]> (heap c))
                    (<[q := 1]> (acquire (rhs n) (acquire (lhs n) (uses c))))
                    k o a)
           ({[+ q +]} ⊎ own).
Proof.
  intros Hwf Hown Hq0 Hq Hl Hr.
  pose proof (wf_heap _ Hwf) as Hh. split; simpl.
  - intros x Hx. apply gmultiset_elem_of_disj_union in Hx as [Hx|Hx].
    + apply gmultiset_elem_of_singleton in Hx as ->. by rewrite lookup_insert_eq.
    + destruct (own_live _ _ Hown _ Hx) as [m Hm].
      rewrite lookup_insert_ne by congruence. eauto.
  - intros x m. rewrite edges_insert by done.
    rewrite !multiplicity_disj_union. rewrite !lookup_insert.
    case_decide as Hxq; intros Hm; simplify_eq.
    + rewrite multiplicity_singleton_eq, (edges_dead _ _ Hh Hq0 Hq),
        (own_dead _ _ _ Hown Hq).
      rewrite !multiplicity_singleton_ne; [done| |].
      * intros ->. destruct Hr as [|[? ?]]; congruence.
      * intros ->. destruct Hl as [|[? ?]]; congruence.
    + assert (Hx0 : x ≠ nullptr).
      { apply (live_not_null _ _ Hh). eauto. }
      pose proof (own_count _ _ Hown _ _ Hm) as Hc.
      pose proof (acquire_count (lhs n) _ x _ Hc Hx0) as Hc1.
      rewrite (acquire_count (rhs n) _ x _ Hc1 Hx0).
      rewrite (multiplicity_singleton_ne x q) by done. f_equal. lia.
Qed.

Lemma handle_valid c held p :
  owned_wf c (axes_held c ⊎ held) → handle c held p → valid (heap c) p.
Proof. intros Hown [->|Hp]; [by left|right]. by apply (own_live _ _ Hown). Qed.

Lemma grows_axes_wf c c' : grows c c' → axes c' = axes c → axes_wf c → axes_wf c'.
Proof.
  intros (Hh & _) Hax (Hx & Hy & Hz). unfold axes_wf, Tree_X, Tree_Y, Tree_Z.
  rewrite Hax. repeat split.
  - destruct Hx as (n & Hn & ?). exists n. split; [by apply Hh|done].
  - destruct Hy as (n & Hn & ?). exists n. split; [by apply Hh|done].
  - destruct Hz as (n & Hn & ?). exists n. split; [by apply Hh|done].
Qed.

Section Construction_owned.

Variable alloc : gmap Id Tree_ → Id.

Lemma Cache_constant_axes v c : axes (Cache_constant alloc v c).2 = axes c.
Proof. unfold Cache_constant. by destruct (constants c !! v). Qed.

Lemma Cache_operation_axes o l r c : axes (Cache_operation alloc o l r c).2 = axes c.
Proof. unfold Cache_operation. by destruct (ops c !! (o, l, r)). Qed.

Lemma Cache_constant_owned v c own :
  cache_wf c → owned_wf c own →
  owned_wf (Cache_constant alloc v c).2
           ({[+ (Cache_constant alloc v c).1 +]} ⊎ own).
Proof.
  intros Hwf Hown. unfold Cache_constant.
  destruct (constants c !! v) as [p|] eqn:Hv; simpl.
  - apply owned_wf_acquire; [done..|]. rewrite (wf_constants _ Hwf _ _ Hv). eauto.
  - apply (owned_wf_new c own _ (mkTree_ Opcode.CONST 0 v nullptr nullptr));
      try done; [apply new_addr_not_null|apply new_addr_free|by left|by left].
Qed.

Lemma Cache_var_owned c own :
  cache_wf c → owned_wf c own →
  owned_wf (Cache_var alloc c).2 ({[+ (Cache_var alloc c).1 +]} ⊎ own).
Proof.
  intros Hwf Hown. unfold Cache_var. simpl.
  apply (owned_wf_new c own _ (mkTree_ Opcode.VAR 0 0 nullptr nullptr));
    try done; [apply new_addr_not_null|apply new_addr_free|by left|by left].
Qed.

Lemma Cache_operation_owned o l r c own :
  cache_wf c → owned_wf c own → valid (heap c) l → valid (heap c) r →
  owned_wf (Cache_operation alloc o l r c).2
           ({[+ (Cache_operation alloc o l r c).1 +]} ⊎ own).
Proof.
  intros Hwf Hown Hl Hr. unfold Cache_operation.
  destruct (ops c !! (o, l, r)) as [p|] eqn:Hk; simpl.
  - apply owned_wf_acquire; [done..|].
    destruct (wf_ops _ Hwf _ _ Hk) as (n & Hn & _). eauto.
  - apply (owned_wf_new c own _ (mkTree_ o _ 0 l r));
      try done; [apply new_addr_not_null|apply new_addr_free].
Qed.

Lemma state_wf_constant v c held :
  state_wf c held →
  state_wf (Tree_constant alloc v c).2 ({[+ (Tree_constant alloc v c).1 +]} ⊎ held).
Proof.
  intros (Hwf & Hax & Hown). unfold Tree_constant. split; [|split].
  - by apply Cache_constant_wf.
  - eapply grows_axes_wf; [apply Cache_constant_grows|apply Cache_constant_axes|done].
  - unfold axes_held, Tree_X, Tree_Y, Tree_Z in *. rewrite Cache_constant_axes.
    pose proof (Cache_constant_owned (Float32.wrap v) c _ Hwf Hown) as H.
    eapply eq_ind; [exact H|]. multiset_solver.
Qed.

Lemma state_wf_var c held :
  state_wf c held →
  state_wf (Tree_var alloc c).2 ({[+ (Tree_var alloc c).1 +]} ⊎ held).
Proof.
  intros (Hwf & Hax & Hown). unfold Tree_var. split; [|split].
  - by apply Cache_var_wf.
  - eapply grows_axes_wf; [apply Cache_var_grows|done|done].
  - pose proof (Cache_var_owned c _ Hwf Hown) as H.
    eapply eq_ind; [exact H|]. unfold axes_held, Tree_X, Tree_Y, Tree_Z. simpl.
    multiset_solver.
Qed.

Lemma state_wf_operation o a b c held p c' :
  state_wf c held → 1 ≤ Opcode.args o → handle c held a → handle c held b →
  Tree_operation alloc o a b c = Ok p c' →
  state_wf c' ({[+ p +]} ⊎ held).
Proof.
  intros (Hwf & Hax & Hown) Har Ha Hb Hok.
  apply Tree_operation_Ok in Hok as (Hc & Hcount & Hfirst & _).
  pose proof (handle_valid _ _ _ Hown Ha) as Hva.
  pose proof (handle_valid _ _ _ Hown Hb) as Hvb.
  assert (Hargs : assert_args o a b = true) by by apply assert_args_count.
  assert (c' = (Cache_operation alloc o a b c).2) as -> by by rewrite Hc.
  assert (p = (Cache_operation alloc o a b c).1) as -> by by rewrite Hc.
  split; [|split].
  - by apply Cache_operation_wf.
  - eapply grows_axes_wf;
      [apply Cache_operation_grows|apply Cache_operation_axes|done].
  - unfold axes_held, Tree_X, Tree_Y, Tree_Z in *. rewrite Cache_operation_axes.
    pose proof (Cache_operation_owned o a b c _ Hwf Hown Hva Hvb) as H.
    eapply eq_ind; [exact H|]. multiset_solver.
Qed.

End Construction_owned.

(* ================================================================== *)
(** ** Teardown keeps the state well formed *)

Lemma hold_null own : hold nullptr own = own.
Proof. unfold hold. by rewrite decide_True. Qed.

Lemma hold_live p own : p ≠ nullptr → hold p own = {[+ p +]} ⊎ own.
Proof. intros Hp. unfold hold. by rewrite decide_False. Qed.

Lemma hold_comm p q own : hold p (hold q own) = hold q (hold p own).
Proof. unfold hold. repeat case_decide; multiset_solver. Qed.

Lemma multiplicity_hold x q own :
  x ≠ nullptr →
  multiplicity x (hold q own) = multiplicity x ({[+ q +]} : gmultiset Id)
                                + multiplicity x own.
Proof.
  intros Hx. unfold hold. case_decide as Hq.
  - subst q. rewrite multiplicity_singleton_ne by done. done.
  - by rewrite multiplicity_disj_union.
Qed.

Lemma elem_of_hold x q own : x ∈ hold q own → (x = q ∧ q ≠ nullptr) ∨ x ∈ own.
Proof. unfold hold. case_decide; multiset_solver. Qed.

Lemma rank_above_delete h p x :
  x ≠ p → rank_above (delete p h) x = rank_above h x.
Proof. intros Hx. unfold rank_above. by rewrite lookup_delete_ne. Qed.

Lemma valid_delete h p x : valid h x → x ≠ p → valid (delete p h) x.
Proof. intros [->|Hx] Hne; [by left|right]. by rewrite lookup_delete_ne. Qed.

(** *** The destructor body *)

Lemma Tree__dtor_heap p n c : heap (Tree__dtor p n c) = heap c.
Proof.
  unfold Tree__dtor, Cache_del_constant, Cache_del_operation.
  repeat case_match; done.
Qed.

Lemma Tree__dtor_uses p n c : uses (Tree__dtor p n c) = uses c.
Proof.
  unfold Tree__dtor, Cache_del_constant, Cache_del_operation.
  repeat case_match; done.
Qed.

Lemma Tree__dtor_axes p n c : axes (Tree__dtor p n c) = axes c.
Proof.
  unfold Tree__dtor, Cache_del_constant, Cache_del_operation.
  repeat case_match; done.
Qed.

(** The destructor only removes entries, and only entries that lead to
    the node being destroyed. *)
Lemma Tree__dtor_constants p n c v q :
  constants (Tree__dtor p n c) !! v = Some q → constants c !! v = Some q.
Proof.
  unfold Tree__dtor, Cache_del_constant, Cache_del_operation.
  repeat case_match; simpl; try done.
  all: intros Hv; by apply lookup_delete_Some in Hv as [_ Hv].
Qed.

Lemma Tree__dtor_ops p n c k q :
  ops (Tree__dtor p n c) !! k = Some q → ops c !! k = Some q.
Proof.
  unfold Tree__dtor, Cache_del_constant, Cache_del_operation.
  repeat case_match; simpl; try done.
  all: intros Hv; by apply lookup_delete_Some in Hv as [_ Hv].
Qed.

Lemma Tree__dtor_constants_keep p n c v q :
  q ≠ p → constants c !! v = Some q → constants (Tree__dtor p n c) !! v = Some q.
Proof.
  intros Hq Hv. unfold Tree__dtor, Cache_del_constant, Cache_del_operation.
  repeat case_match; simpl; try done.
  all: subst; rewrite lookup_delete_ne; [done|congruence].
Qed.

Lemma Tree__dtor_ops_keep p n c k q :
  q ≠ p → ops c !! k = Some q → ops (Tree__dtor p n c) !! k = Some q.
Proof.
  intros Hq Hv. unfold Tree__dtor, Cache_del_constant, Cache_del_operation.
  repeat case_match; simpl; try done.
  all: subst; rewrite lookup_delete_ne; [done|congruence].
Qed.

(** The entry of a constant that leads to the node being destroyed is
    retired. *)
Lemma Tree__dtor_constants_self p n c :
  op n = Opcode.CONST → constants c !! value n = Some p →
  constants (Tree__dtor p n c) !! value n = None.
Proof.
  intros Hop Hv. unfold Tree__dtor, Cache_del_constant.
  rewrite decide_True by done. rewrite Hv, decide_True by done. simpl.
  apply lookup_delete_eq.
Qed.

Lemma Tree__dtor_ops_self p n c :
  op n ≠ Opcode.CONST → op n ≠ Opcode.VAR → ops c !! key_of n = Some p →
  ops (Tree__dtor p n c) !! key_of n = None.
Proof.
  intros Hop Hop' Hk. unfold Tree__dtor, Cache_del_operation.
  rewrite decide_False by done. rewrite decide_True by done.
  unfold key_of in Hk. rewrite Hk, decide_True by done. simpl.
  apply lookup_delete_eq.
Qed.

(** *** The last owner is gone *)

Lemma last_owner c own p n :
  owned_wf c ({[+ p +]} ⊎ own) → heap c !! p = Some n → uses c !! p = Some 1 →
  multiplicity p (edges (heap c)) = 0 ∧ multiplicity p own = 0.
Proof.
  intros Hown Hn Hu. pose proof (own_count _ _ Hown _ _ Hn) as Hc.
  rewrite Hu, multiplicity_disj_union, multiplicity_singleton_eq in Hc.
  injection Hc. lia.
Qed.

Lemma no_parent h p q m :
  multiplicity p (edges h) = 0 → h !! q = Some m → lhs m ≠ p ∧ rhs m ≠ p.
Proof.
  intros Hp Hm. apply not_elem_of_multiplicity in Hp.
  destruct (edges_parent _ _ _ Hm). split; congruence.
Qed.

Lemma teardown_wf c own p n :
  cache_wf c → owned_wf c ({[+ p +]} ⊎ own) →
  heap c !! p = Some n → uses c !! p = Some 1 →
  let c2 := Tree__dtor p n (mkCache (delete p (heap c)) (delete p (uses c))
                              (constants c) (ops c) (axes c)) in
  cache_wf c2 ∧ owned_wf c2 (hold (lhs n) (hold (rhs n) own)).
Proof.
  intros Hwf Hown Hn Hu c2.
  destruct (last_owner _ _ _ _ Hown Hn Hu) as [He Ho].
  pose proof (wf_heap _ Hwf) as Hh.
  assert (Hp0 : p ≠ nullptr) by (apply (live_not_null _ _ Hh); eauto).
  assert (Hheap : heap c2 = delete p (heap c)) by apply Tree__dtor_heap.
  assert (Huses : uses c2 = delete p (uses c)) by apply Tree__dtor_uses.
  assert (Hconst : ∀ v q, constants c2 !! v = Some q →
                          constants c !! v = Some q ∧ q ≠ p).
  { intros v q Hv. pose proof (Tree__dtor_constants _ _ _ _ _ Hv) as Hv'.
    simpl in Hv'. split; [done|]. intros ->.
    pose proof (wf_constants _ Hwf _ _ Hv') as Hleaf. simplify_eq.
    unfold c2 in Hv.
    rewrite (Tree__dtor_constants_self p (mkTree_ Opcode.CONST 0 v nullptr nullptr))
      in Hv; done. }
  assert (Hops : ∀ k q, ops c2 !! k = Some q → ops c !! k = Some q ∧ q ≠ p).
  { intros k q Hk. pose proof (Tree__dtor_ops _ _ _ _ _ Hk) as Hk'.
    simpl in Hk'. split; [done|]. intros ->.
    destruct (wf_ops _ Hwf _ _ Hk') as (n' & Hn' & Hkey). simplify_eq.
    pose proof (wf_ops_arity _ Hwf _ _ Hk') as Har. simpl in Har.
    unfold c2 in Hk. rewrite Tree__dtor_ops_self in Hk; try done.
    - intros E. rewrite E in Har. simpl in Har. lia.
    - intros E. rewrite E in Har. simpl in Har. lia. }
  split.
  - split; rewrite ?Hheap, ?Huses.
    + split.
      * rewrite lookup_delete_ne by done. apply Hh.
      * intros q m Hm. apply lookup_delete_Some in Hm as [Hq Hm].
        apply valid_delete; [by eapply wf_lhs|]. by eapply no_parent.
      * intros q m Hm. apply lookup_delete_Some in Hm as [Hq Hm].
        apply valid_delete; [by eapply wf_rhs|]. by eapply no_parent.
      * intros q m Hm. apply lookup_delete_Some in Hm as [Hq Hm].
        destruct (no_parent _ _ _ _ He Hm).
        rewrite !rank_above_delete by done. by eapply wf_rank.
    + intros q m Hm. apply lookup_delete_Some in Hm as [Hq Hm].
      by eapply wf_shape.
    + intros v q Hv. destruct (Hconst _ _ Hv) as [Hv' Hq].
      rewrite lookup_delete_ne by done. by eapply wf_constants.
    + intros k q Hk. destruct (Hops _ _ Hk) as [Hk' Hq].
      rewrite lookup_delete_ne by done. by eapply wf_ops.
    + intros q m Hm Har. apply lookup_delete_Some in Hm as [Hq Hm].
      apply Tree__dtor_ops_keep; [done|]. simpl. by eapply wf_interned.
    + intros k q Hk. destruct (Hops _ _ Hk) as [Hk' Hq]. by eapply wf_ops_arity.
    + intros q m Hm Hop. apply lookup_delete_Some in Hm as [Hq Hm].
      apply Tree__dtor_constants_keep; [done|]. simpl. by eapply wf_const_interned.
    + intros q. rewrite !lookup_delete. case_decide; [done|]. apply (wf_uses_dead _ Hwf).
    + intros q. rewrite !lookup_delete. case_decide; [by intros [? ?]|].
      apply (wf_uses_live _ Hwf).
  - split; rewrite ?Hheap, ?Huses.
    + intros x Hx. assert (x ≠ p ∧ is_Some (heap c !! x)) as [Hxp Hlive].
      { apply elem_of_hold in Hx as [[-> Hl]|Hx];
          [|apply elem_of_hold in Hx as [[-> Hr]|Hx]].
        - destruct (no_parent _ _ _ _ He Hn). split; [done|].
          destruct (wf_lhs _ Hh _ _ Hn); done.
        - destruct (no_parent _ _ _ _ He Hn). split; [done|].
          destruct (wf_rhs _ Hh _ _ Hn); done.
        - split.
          + intros ->. by apply not_elem_of_multiplicity in Ho.
          + apply (own_live _ _ Hown). multiset_solver. }
      by rewrite lookup_delete_ne.
    + intros x m Hm. apply lookup_delete_Some in Hm as [Hxp Hm].
      assert (Hx0 : x ≠ nullptr) by (apply (live_not_null _ _ Hh); eauto).
      rewrite lookup_delete_ne by done.
      rewrite (own_count _ _ Hown _ _ Hm). f_equal.
      rewrite (edges_delete _ _ _ Hn), !multiplicity_disj_union.
      rewrite !multiplicity_hold by done.
      rewrite (multiplicity_singleton_ne x p) by done. lia.
Qed.

(** *** Dropping a handle *)

Lemma owned_wf_drop c own p k :
  cache_wf c → owned_wf c ({[+ p +]} ⊎ own) → uses c !! p = Some (S (S k)) →
  cache_wf (with_uses (<[p := S k]> (uses c)) c) ∧
  owned_wf (with_uses (<[p := S k]> (uses c)) c) own.
Proof.
  intros Hwf Hown Hu.
  assert (Hlive : is_Some (heap c !! p)).
  { apply (own_live _ _ Hown). multiset_solver. }
  split.
  - destruct Hwf as [Hh Hshape Hconst Hops Hint Hoa Hci Hud Hul]. split; simpl; try done.
    + intros q Hq. rewrite lookup_insert_ne; [auto|].
      intros ->. rewrite Hq in Hlive. by destruct Hlive.
    + intros q Hq. rewrite lookup_insert. case_decide; eauto.
  - split; simpl.
    + intros x Hx. apply (own_live _ _ Hown). multiset_solver.
    + intros x m Hm. pose proof (own_count _ _ Hown _ _ Hm) as Hc.
      rewrite multiplicity_disj_union in Hc. rewrite lookup_insert.
      case_decide as Hxp.
      * subst x. rewrite Hu, multiplicity_singleton_eq in Hc.
        injection Hc as Hc. f_equal. lia.
      * rewrite multiplicity_singleton_ne in Hc by done. by rewrite Hc.
Qed.

Lemma release_heap fuel : ∀ p c x n,
  heap (release fuel p c) !! x = Some n → heap c !! x = Some n.
Proof.
  induction fuel as [|fuel IH]; intros p c x n; simpl; [done|].
  case_decide; [done|].
  destruct (uses c !! p) as [[|[|k]]|]; try done.
  destruct (heap c !! p) as [m|] eqn:Hm; [|done].
  intros Hx. apply IH, IH in Hx. rewrite Tree__dtor_heap in Hx. simpl in Hx.
  by apply lookup_delete_Some in Hx as [_ Hx].
Qed.

Lemma release_axes fuel : ∀ p c, axes (release fuel p c) = axes c.
Proof.
  induction fuel as [|fuel IH]; intros p c; simpl; [done|].
  case_decide; [done|].
  destruct (uses c !! p) as [[|[|k]]|]; try done.
  destruct (heap c !! p) as [m|] eqn:Hm; [|done].
  by rewrite !IH, Tree__dtor_axes.
Qed.

Lemma rank_above_mono (h h' : gmap Id Tree_) x :
  (∀ y n, h' !! y = Some n → h !! y = Some n) →
  rank_above h' x ≤ rank_above h x.
Proof.
  intros Hsub. unfold rank_above. case_decide; [done|].
  destruct (h' !! x) as [n|] eqn:Hx; [|lia]. by rewrite (Hsub _ _ Hx).
Qed.

(** Dropping a handle, with a round of teardown for every rank below
    it, leaves a well-formed state in which the handle is gone. *)
Lemma release_wf fuel : ∀ p c own,
  cache_wf c → owned_wf c (hold p own) → rank_above (heap c) p ≤ fuel →
  cache_wf (release fuel p c) ∧ owned_wf (release fuel p c) own.
Proof.
  induction fuel as [|fuel IH]; intros p c own Hwf Hown Hfuel.
  - simpl. destruct (decide (p = nullptr)) as [->|Hp].
    + by rewrite hold_null in Hown.
    + rewrite hold_live in Hown by done.
      destruct (own_live _ _ Hown p) as [n Hn]; [multiset_solver|].
      rewrite (rank_above_live _ _ _ Hp Hn) in Hfuel. lia.
  - simpl. case_decide as Hp.
    { subst p. by rewrite hold_null in Hown. }
    rewrite hold_live in Hown by done.
    destruct (own_live _ _ Hown p) as [n Hn]; [multiset_solver|].
    pose proof (own_count _ _ Hown _ _ Hn) as Hc.
    rewrite multiplicity_disj_union, multiplicity_singleton_eq in Hc.
    destruct (uses c !! p) as [[|[|k]]|] eqn:Hu;
      try done; try (injection Hc; lia).
    + rewrite Hn.
      destruct (teardown_wf _ _ _ _ Hwf Hown Hn Hu) as [Hwf2 Hown2].
      set (c2 := Tree__dtor p n _) in *.
      pose proof (wf_heap _ Hwf) as Hh.
      rewrite (rank_above_live _ _ _ Hp Hn) in Hfuel.
      assert (Hsub2 : ∀ y m, heap c2 !! y = Some m → heap c !! y = Some m).
      { intros y m. unfold c2. rewrite Tree__dtor_heap. simpl.
        intros Hy. by apply lookup_delete_Some in Hy as [_ Hy]. }
      assert (Hrl : rank_above (heap c) (lhs n) ≤ fuel).
      { rewrite (wf_rank _ Hh _ _ Hn) in Hfuel. lia. }
      assert (Hrr : rank_above (heap c) (rhs n) ≤ fuel).
      { rewrite (wf_rank _ Hh _ _ Hn) in Hfuel. lia. }
      rewrite hold_comm in Hown2.
      destruct (IH (rhs n) c2 _ Hwf2 Hown2) as [Hwf3 Hown3].
      { etrans; [by apply rank_above_mono|done]. }
      apply IH; [done..|].
      etrans; [|exact Hrl]. apply rank_above_mono.
      intros y m Hy. by apply Hsub2, (release_heap fuel (rhs n)).
    + by eapply owned_wf_drop.
Qed.

Lemma state_wf_release p c held :
  state_wf c ({[+ p +]} ⊎ held) → state_wf (Tree_release p c) held.
Proof.
  intros (Hwf & Hax & Hown). unfold Tree_release.
  assert (Hp : p ≠ nullptr).
  { apply (live_not_null _ _ (wf_heap _ Hwf)), (own_live _ _ Hown).
    multiset_solver. }
  destruct (release_wf (rank_above (heap c) p) p c (axes_held c ⊎ held))
    as [Hwf' Hown']; [done| |done|].
  { rewrite hold_live by done. eapply eq_ind; [exact Hown|]. multiset_solver. }
  assert (Haxes : axes_held (release (rank_above (heap c) p) p c) = axes_held c).
  { unfold axes_held, Tree_X, Tree_Y, Tree_Z. by rewrite release_axes. }
  rewrite <- Haxes in Hown'.
  split; [done|]. split; [|done].
  assert (Hvar : ∀ a, a ∈ axes_held c → is_var (heap c) a →
                      is_var (heap (release (rank_above (heap c) p) p c)) a).
  { intros a Ha (m & Hm & Hop).
    destruct (own_live _ _ Hown' a) as [m' Hm']; [rewrite Haxes; multiset_solver|].
    pose proof (release_heap _ _ _ _ _ Hm') as Hm''.
    exists m'. split; [done|]. congruence. }
  destruct Hax as (Hx & Hy & Hz). unfold axes_wf, Tree_X, Tree_Y, Tree_Z.
  rewrite release_axes.
  repeat split; apply Hvar; try done; unfold axes_held; multiset_solver.
Qed.

(* ================================================================== *)
(** ** [remap] keeps the state well formed *)

Lemma ordered_null h : ordered h nullptr = Some [].
Proof.
  unfold ordered. replace (2 * size h + 2) with (S (S (2 * size h))) by lia.
  simpl. rewrite decide_True by set_solver. done.
Qed.

(** [ordered] returns on every valid handle: live nodes, once each. *)
Lemma ordered_total h root :
  heap_wf h → valid h root →
  ∃ l, ordered h root = Some l ∧ NoDup l ∧
       (∀ p, p ∈ l → is_Some (h !! p)) ∧
       (∀ i j p q, l !! i = Some p → l !! j = Some q → child h p q → j < i) ∧
       (∀ p, p ∈ l ↔ root ≠ nullptr ∧ reaches h root p).
Proof.
  intros Hwf [->|Hroot].
  - exists []. rewrite ordered_null. split_and!; try done.
    + constructor.
    + intros p Hp. by apply elem_of_nil in Hp.
    + intros p. split; [intros Hp; by apply elem_of_nil in Hp|by intros [? _]].
  - destruct (ordered_discovery h root Hwf Hroot)
      as (ranks & d & Hl & _ & Hb & Hnd & Hreach).
    assert (Hperm : ranks_flatten ranks ≡ₚ d) by apply Hb.
    exists (ranks_flatten ranks). split_and!; try done.
    + by rewrite Hperm.
    + intros p Hp. eapply reaches_live; [done..|]. apply Hreach. by rewrite <- Hperm.
    + intros i j p q Hi Hj Hc.
      eapply (sorted_by_rank_positions (rank_of h)); try done.
      * by eapply buckets_of_sorted.
      * by apply child_rank.
    + intros p. rewrite Hperm, Hreach.
      pose proof (live_not_null _ _ Hwf Hroot). tauto.
Qed.

Lemma vals_empty : vals ∅ = ∅.
Proof. unfold vals. by rewrite map_to_list_empty. Qed.

Lemma vals_insert m k v : m !! k = None → vals (<[k := v]> m) = {[+ v +]} ⊎ vals m.
Proof. intros Hk. unfold vals. by rewrite map_to_list_insert. Qed.

Lemma elem_of_vals m v : v ∈ vals m ↔ ∃ k, m !! k = Some v.
Proof.
  unfold vals. rewrite elem_of_list_to_set_disj, list_elem_of_fmap. split.
  - intros [[k v'] [-> Hin]]. exists k. by apply elem_of_map_to_list.
  - intros [k Hk]. exists (k, v). split; [done|]. by apply elem_of_map_to_list.
Qed.

(** *** Handles taken and dropped in a row *)

Lemma acquire_list_wf c own (l : list (Id * Id)) :
  cache_wf c → owned_wf c own →
  (∀ kv, kv ∈ l → is_Some (heap c !! kv.2)) →
  let c' := with_uses (foldr (λ kv u, acquire kv.2 u) (uses c) l) c in
  cache_wf c' ∧ owned_wf c' (list_to_set_disj l.*2 ⊎ own).
Proof.
  intros Hwf Hown. induction l as [|[k v] l IH]; intros Hlive; simpl.
  - split.
    + by destruct Hwf.
    + assert (owned_wf (with_uses (uses c) c) own) as H by by destruct Hown.
      eapply eq_ind; [exact H|]. multiset_solver.
  - destruct IH as [Hwf' Hown']. { intros kv Hkv. apply Hlive. by right. }
    assert (Hv : is_Some (heap c !! v)). { apply (Hlive (k, v)). by left. }
    split.
    + pose proof (cache_wf_uses _ Hwf') as Hu.
      destruct Hwf'. split; simpl in *; try done;
        apply (uses_wf_acquire (heap c)); try done; by right.
    + pose proof (owned_wf_acquire _ _ v Hwf' Hown' Hv) as H.
      eapply eq_ind; [exact H|]. multiset_solver.
Qed.

Lemma release_list_wf (l : list (Id * Id)) : ∀ c own,
  cache_wf c → owned_wf c (list_to_set_disj l.*2 ⊎ own) →
  let c' := foldr (λ kv c', Tree_release kv.2 c') c l in
  cache_wf c' ∧ owned_wf c' own ∧ axes c' = axes c ∧
  (∀ x n, heap c' !! x = Some n → heap c !! x = Some n).
Proof.
  induction l as [|[k v] l IH]; intros c own Hwf Hown; simpl.
  - split_and!; try done.
    eapply eq_ind; [exact Hown|]. multiset_solver.
  - simpl in Hown.
    destruct (IH c ({[+ v +]} ⊎ own)) as (Hwf' & Hown' & Hax & Hsub); [done| |].
    { eapply eq_ind; [exact Hown|]. multiset_solver. }
    assert (Hv : v ≠ nullptr).
    { apply (live_not_null _ _ (wf_heap _ Hwf')), (own_live _ _ Hown').
      multiset_solver. }
    rewrite <- hold_live in Hown' by done.
    destruct (release_wf _ _ _ _ Hwf' Hown' (le_n _)) as [Hwf'' Hown''].
    unfold Tree_release. split_and!; try done.
    + by rewrite release_axes.
    + intros x n Hx. apply Hsub. by eapply release_heap.
Qed.

(** *** The substitution map *)

Lemma map_insert_new_lookup k v m k' v' :
  map_insert_new k v m !! k' = Some v' → (k' = k ∧ v' = v) ∨ m !! k' = Some v'.
Proof.
  unfold map_insert_new. destruct (m !! k) eqn:Hk; [auto|].
  rewrite lookup_insert. case_decide; [|auto]. intros [= <-]. auto.
Qed.

Lemma remap_seed_lookup X_ Y_ Z_ c k v :
  (remap_seed X_ Y_ Z_ c).1 !! k = Some v →
  k ∈ axes_held c ∧ (v = X_ ∨ v = Y_ ∨ v = Z_).
Proof.
  unfold remap_seed, axes_held. simpl. intros Hk.
  apply map_insert_new_lookup in Hk as [ [-> ->] | Hk ]; [split; [multiset_solver|auto]|].
  apply map_insert_new_lookup in Hk as [ [-> ->] | Hk ]; [split; [multiset_solver|auto]|].
  apply map_insert_new_lookup in Hk as [ [-> ->] | Hk ]; [split; [multiset_solver|auto]|].
  by rewrite lookup_empty in Hk.
Qed.

Lemma map_fold_acquire (m : gmap Id Id) u :
  map_fold (λ _ v u, acquire v u) u m
  = foldr (λ kv u, acquire kv.2 u) u (map_to_list m).
Proof. rewrite map_fold_foldr. apply foldr_ext; [|done..]. by intros [? ?]. Qed.

Lemma map_fold_release (m : gmap Id Id) c :
  map_fold (λ _ v c', Tree_release v c') c m
  = foldr (λ kv c', Tree_release kv.2 c') c (map_to_list m).
Proof. rewrite map_fold_foldr. apply foldr_ext; [|done..]. by intros [? ?]. Qed.

Lemma remap_seed_inv X_ Y_ Z_ c own :
  cache_wf c → owned_wf c own →
  X_ ∈ own → Y_ ∈ own → Z_ ∈ own →
  remap_inv c own [] (remap_seed X_ Y_ Z_ c).1 (remap_seed X_ Y_ Z_ c).2.
Proof.
  intros Hwf Hown HX HY HZ.
  set (m0 := (remap_seed X_ Y_ Z_ c).1).
  assert (Heq : (remap_seed X_ Y_ Z_ c).2
                = with_uses (foldr (λ kv u, acquire kv.2 u) (uses c)
                               (map_to_list m0)) c).
  { unfold remap_seed. simpl. by rewrite map_fold_acquire. }
  rewrite Heq.
  destruct (acquire_list_wf c own (map_to_list m0) Hwf Hown) as [Hwf' Hown'].
  { intros [k v] Hkv. apply elem_of_map_to_list in Hkv.
    apply remap_seed_lookup in Hkv as [_ [ -> | [ -> | -> ] ] ];
      by apply (own_live _ _ Hown). }
  split.
  - exact Hwf'.
  - exact Hown'.
  - by repeat split.
  - done.
  - intros k [v Hk]. left. by apply remap_seed_lookup in Hk as [? _].
Qed.

Lemma assert_args_present o a b a' b' :
  (a = nullptr ↔ a' = nullptr) → (b = nullptr ↔ b' = nullptr) →
  assert_args o a b = assert_args o a' b'.
Proof.
  intros Ha Hb. unfold assert_args.
  f_equal; [f_equal|]; apply bool_decide_ext; tauto.
Qed.

Lemma axes_held_is_var c a : axes_wf c → a ∈ axes_held c → is_var (heap c) a.
Proof.
  intros (Hx & Hy & Hz) Ha. unfold axes_held in Ha.
  assert (a = Tree_X c ∨ a = Tree_Y c ∨ a = Tree_Z c) as [ -> | [ -> | -> ] ]
    by multiset_solver; done.
Qed.

Section Remap_wf.

Variable alloc : gmap Id Tree_ → Id.

(** What the map gives for an operand is valid, and present exactly when
    the operand is. *)
Lemma remap_inv_resolve c own done_ m c' q :
  cache_wf c → axes_wf c → remap_inv c own done_ m c' →
  (∀ t, t ∈ done_ → is_Some (heap c !! t)) → valid (heap c) q →
  valid (heap c') (default q (m !! q)) ∧
  (default q (m !! q) = nullptr ↔ q = nullptr).
Proof.
  intros Hwf Hax Hinv Hdone Hq.
  pose proof (wf_heap _ Hwf) as Hh.
  destruct (m !! q) as [v|] eqn:Hm; simpl.
  - assert (Hv : is_Some (heap c' !! v)).
    { apply (own_live _ _ (ri_own _ _ _ _ _ Hinv)).
      apply gmultiset_elem_of_disj_union. left. apply elem_of_vals. eauto. }
    assert (Hq' : is_Some (heap c !! q)).
    { destruct (ri_keys _ _ _ _ _ Hinv q) as [Hk|Hk]; [eauto| |auto].
      destruct (axes_held_is_var _ _ Hax Hk) as (n & Hn & _). eauto. }
    split; [by right|].
    pose proof (live_not_null _ _ (wf_heap _ (ri_wf _ _ _ _ _ Hinv)) Hv).
    pose proof (live_not_null _ _ Hh Hq'). tauto.
  - split; [|done]. destruct Hq as [->|[n Hn]]; [by left|right].
    rewrite (proj1 (ri_grows _ _ _ _ _ Hinv) _ _ Hn). eauto.
Qed.

Lemma remap_step_inv c own done_ m c' t n :
  cache_wf c → axes_wf c → remap_inv c own done_ m c' →
  (∀ t, t ∈ done_ → is_Some (heap c !! t)) →
  heap c !! t = Some n → t ∉ done_ →
  remap_inv c own (done_ ++ [t]) (remap_step alloc t n m c').1
                                 (remap_step alloc t n m c').2.
Proof.
  intros Hwf Hax Hinv Hdone Hn Ht. unfold remap_step.
  pose proof (wf_heap _ Hwf) as Hh.
  case_decide as Har; simpl.
  2:{ destruct Hinv as [? ? ? ? Hkeys]. split; try done.
      intros k Hk. destruct (Hkeys k Hk); [by left|right].
      apply elem_of_app. by left. }
  destruct (remap_inv_resolve c own done_ m c' (lhs n) Hwf Hax Hinv Hdone)
    as [Hvl Hnl]; [by eapply wf_lhs|].
  destruct (remap_inv_resolve c own done_ m c' (rhs n) Hwf Hax Hinv Hdone)
    as [Hvr Hnr]; [by eapply wf_rhs|].
  set (l := default (lhs n) (m !! lhs n)) in *.
  set (r := default (rhs n) (m !! rhs n)) in *.
  assert (Hargs : assert_args (op n) l r = true).
  { rewrite (assert_args_present _ l r (lhs n) (rhs n)) by done.
    by eapply wf_shape. }
  assert (Hm : m !! t = None).
  { destruct (m !! t) eqn:Hmt; [|done].
    destruct (ri_keys _ _ _ _ _ Hinv t) as [Hk|Hk]; [eauto| |done].
    destruct (axes_held_is_var _ _ Hax Hk) as (n' & Hn' & Hop).
    simplify_eq. rewrite Hop in Har. simpl in Har. lia. }
  destruct (Cache_operation alloc (op n) l r c') as [p c''] eqn:Hc.
  rewrite Hm. simpl.
  assert (c'' = (Cache_operation alloc (op n) l r c').2) as -> by by rewrite Hc.
  assert (p = (Cache_operation alloc (op n) l r c').1) as -> by by rewrite Hc.
  destruct Hinv as [Hwf' Hown' Hg Haxes Hkeys]. split.
  - by apply Cache_operation_wf.
  - rewrite vals_insert by done.
    pose proof (Cache_operation_owned alloc (op n) l r c' _ Hwf' Hown' Hvl Hvr) as H.
    eapply eq_ind; [exact H|]. multiset_solver.
  - eapply grows_trans; [done|]. apply Cache_operation_grows.
  - by rewrite Cache_operation_axes.
  - intros k. rewrite lookup_insert. case_decide as Hk.
    + subst k. intros _. right. apply elem_of_app. right. by left.
    + intros Hk'. destruct (Hkeys k Hk'); [by left|right].
      apply elem_of_app. by left.
Qed.

Lemma remap_loop_inv c own : cache_wf c → axes_wf c →
  ∀ nodes done_ m c',
    remap_inv c own done_ m c' →
    (∀ t, t ∈ done_ → is_Some (heap c !! t)) →
    (∀ t, t ∈ nodes → is_Some (heap c !! t)) →
    NoDup nodes → (∀ t, t ∈ nodes → t ∉ done_) →
    remap_inv c own (done_ ++ nodes) (remap_loop alloc (heap c) nodes m c').1
                                     (remap_loop alloc (heap c) nodes m c').2.
Proof.
  intros Hwf Hax nodes.
  induction nodes as [|t nodes IH]; intros done_ m c' Hinv Hdone Hlive Hnd Hnew;
    simpl.
  - by rewrite app_nil_r.
  - apply NoDup_cons in Hnd as [Ht Hnd].
    replace (done_ ++ t :: nodes) with ((done_ ++ [t]) ++ nodes)
      by by rewrite <- app_assoc.
    destruct (Hlive t) as [n Hn]; [by left|]. rewrite Hn.
    pose proof (remap_step_inv c own done_ m c' t n Hwf Hax Hinv Hdone Hn) as Hs.
    destruct (remap_step alloc t n m c') as [m' c'']. apply IH; try done.
    + apply Hs, Hnew. by left.
    + intros t' Ht'. apply elem_of_app in Ht' as [|Ht']; [auto|].
      apply list_elem_of_singleton in Ht' as ->. eauto.
    + intros t' Ht'. apply Hlive. by right.
    + intros t' Ht' Hin. apply elem_of_app in Hin as [Hin|Hin].
      * by apply (Hnew t'); [right|].
      * apply list_elem_of_singleton in Hin as ->. done.
Qed.

End Remap_wf.

Lemma hold_disj_union p (A B : gmultiset Id) : hold p (A ⊎ B) = A ⊎ hold p B.
Proof. unfold hold. case_decide; multiset_solver. Qed.

Lemma with_uses_acquire_wf c own p :
  cache_wf c → owned_wf c own → valid (heap c) p →
  cache_wf (with_uses (acquire p (uses c)) c) ∧
  owned_wf (with_uses (acquire p (uses c)) c) (hold p own).
Proof.
  intros Hwf Hown Hp.
  assert (Hcw : cache_wf (with_uses (acquire p (uses c)) c)).
  { pose proof (cache_wf_uses _ Hwf) as Hu.
    destruct Hwf. split; simpl; try done; by apply uses_wf_acquire. }
  split; [done|].
  destruct (decide (p = nullptr)) as [->|Hp0].
  - rewrite hold_null, acquire_null. by destruct Hown.
  - rewrite hold_live by done. apply owned_wf_acquire; [done..|].
    by destruct Hp.
Qed.

Section Reachable_wf.

Variable alloc : gmap Id Tree_ → Id.

Lemma state_wf_remap X_ Y_ Z_ root c held r c' :
  state_wf c held →
  X_ ∈ axes_held c ⊎ held → Y_ ∈ axes_held c ⊎ held →
  Z_ ∈ axes_held c ⊎ held → handle c held root →
  remap alloc X_ Y_ Z_ root c = Some (r, c') →
  state_wf c' (hold r held).
Proof.
  intros (Hwf & Hax & Hown) HX HY HZ Hroot Hremap.
  pose proof (wf_heap _ Hwf) as Hh.
  pose proof (handle_valid _ _ _ Hown Hroot) as Hvroot.
  destruct (ordered_total _ _ Hh Hvroot) as (nodes & Hnodes & Hnd & Hlive & _).
  unfold remap, remap_pass in Hremap. rewrite Hnodes in Hremap.
  pose proof (remap_seed_inv X_ Y_ Z_ c _ Hwf Hown HX HY HZ) as Hseed.
  destruct (remap_seed X_ Y_ Z_ c) as [m0 c0]. simpl in Hseed, Hremap.
  pose proof (remap_loop_inv alloc c _ Hwf Hax nodes [] m0 c0 Hseed) as Hloop.
  destruct (remap_loop alloc (heap c) nodes m0 c0) as [m c1].
  simpl in Hloop, Hremap. injection Hremap as <- <-.
  destruct Hloop as [Hwf1 Hown1 Hg Haxes Hkeys]; try done.
  { intros t Ht. by apply elem_of_nil in Ht. }
  { intros t _ Ht. by apply elem_of_nil in Ht. }
  set (out := default root (m !! root)).
  assert (Hout : valid (heap c1) out).
  { unfold out. destruct (m !! root) as [v|] eqn:Hm; simpl.
    - right. apply (own_live _ _ Hown1).
      apply gmultiset_elem_of_disj_union. left. apply elem_of_vals. eauto.
    - destruct Hvroot as [->|[n Hn]]; [by left|right].
      rewrite (proj1 Hg _ _ Hn). eauto. }
  destruct (with_uses_acquire_wf c1 _ out Hwf1 Hown1 Hout) as [Hwf2 Hown2].
  rewrite map_fold_release.
  destruct (release_list_wf (map_to_list m) _ (hold out (axes_held c ⊎ held)) Hwf2)
    as (Hwf3 & Hown3 & Hax3 & Hsub).
  { eapply eq_ind; [exact Hown2|]. unfold vals. by rewrite hold_disj_union. }
  simpl in Hax3. rewrite Haxes in Hax3.
  set (c3 := foldr _ _ _) in *.
  assert (Hheld : axes_held c3 = axes_held c).
  { unfold axes_held, Tree_X, Tree_Y, Tree_Z. by rewrite Hax3. }
  rewrite hold_disj_union in Hown3.
  split; [done|]. split; [|by rewrite Hheld].
  assert (Hvar : ∀ a, a ∈ axes_held c → is_var (heap c) a → is_var (heap c3) a).
  { intros a Ha (n & Hn & Hop).
    destruct (own_live _ _ Hown3 a) as [n' Hn']; [multiset_solver|].
    pose proof (Hsub _ _ Hn') as Hn''. simpl in Hn''.
    rewrite (proj1 Hg _ _ Hn) in Hn''. exists n'. split; [done|]. congruence. }
  destruct Hax as (Hx & Hy & Hz). unfold axes_wf, Tree_X, Tree_Y, Tree_Z.
  rewrite Hax3.
  repeat split; apply Hvar; try done; unfold axes_held; multiset_solver.
Qed.

Lemma Cache_var_lookup c :
  heap (Cache_var alloc c).2 !! (Cache_var alloc c).1
  = Some (mkTree_ Opcode.VAR 0 0 nullptr nullptr).
Proof. unfold Cache_var. simpl. apply lookup_insert_eq. Qed.

End Reachable_wf.

Lemma owned_wf_empty : owned_wf Cache_empty ∅.
Proof.
  split; simpl.
  - intros p Hp. multiset_solver.
  - intros p n Hp. by rewrite lookup_empty in Hp.
Qed.

Lemma Cache_init_state_wf alloc : state_wf (Cache_init alloc) ∅.
Proof.
  split; [apply Cache_init_wf|].
  unfold Cache_init.
  pose proof (Cache_var_wf alloc _ Cache_empty_wf) as Hwf1.
  pose proof (Cache_var_owned alloc _ _ Cache_empty_wf owned_wf_empty) as Ho1.
  pose proof (Cache_var_lookup alloc Cache_empty) as Hl1.
  destruct (Cache_var alloc Cache_empty) as [x c1].
  simpl in Hwf1, Ho1, Hl1. lazy beta iota.
  pose proof (Cache_var_wf alloc _ Hwf1) as Hwf2.
  pose proof (Cache_var_owned alloc _ _ Hwf1 Ho1) as Ho2.
  pose proof (Cache_var_lookup alloc c1) as Hl2.
  pose proof (Cache_var_grows alloc c1) as Hg2.
  destruct (Cache_var alloc c1) as [y c2].
  simpl in Hwf2, Ho2, Hl2, Hg2. lazy beta iota.
  pose proof (Cache_var_owned alloc _ _ Hwf2 Ho2) as Ho3.
  pose proof (Cache_var_lookup alloc c2) as Hl3.
  pose proof (Cache_var_grows alloc c2) as Hg3.
  destruct (Cache_var alloc c2) as [z c3].
  simpl in Ho3, Hl3, Hg3. lazy beta iota.
  split.
  - unfold axes_wf, is_var, Tree_X, Tree_Y, Tree_Z. simpl. split_and!.
    + eexists. split; [by apply (proj1 Hg3), (proj1 Hg2)|done].
    + eexists. split; [by apply (proj1 Hg3)|done].
    + eexists. split; [done|done].
  - assert (owned_wf (with_axes (x, y, z) c3) ({[+ z +]} ⊎ ({[+ y +]} ⊎ ({[+ x +]} ⊎ ∅))))
      as H by by destruct Ho3.
    eapply eq_ind; [exact H|].
    unfold axes_held, Tree_X, Tree_Y, Tree_Z. simpl. multiset_solver.
Qed.

(** Every state a program can bring about is well formed. *)
Lemma reachable_wf c held : reachable c held → state_wf c held.
Proof.
  induction 1 as [alloc|alloc v c held _ IH|alloc c held _ IH
                  |alloc o a b c held p c' _ IH Har Ha Hb Hok
                  |p c held _ IH
                  |alloc X_ Y_ Z_ root c held r c' _ IH HX HY HZ Hroot Hr].
  - apply Cache_init_state_wf.
  - exact (state_wf_constant alloc v c held IH).
  - exact (state_wf_var alloc c held IH).
  - exact (state_wf_operation alloc o a b c held p c' IH Har Ha Hb Hok).
  - exact (state_wf_release p c held IH).
  - exact (state_wf_remap alloc X_ Y_ Z_ root c held r c' IH HX HY HZ Hroot Hr).
Qed.

(* ================================================================== *)
(** ** Ranks *)

Lemma rank_above_valid h q :
  heap_wf h → valid h q →
  rank_above h q = if decide (q = nullptr) then 0 else S (rank_of h q).
Proof.
  intros Hwf Hq. unfold rank_above, rank_of. case_decide; [done|].
  destruct Hq as [|[n Hn]]; [done|]. by rewrite Hn.
Qed.

Lemma stated_rank_correct c p n :
  cache_wf c → heap c !! p = Some n → rank n = stated_rank (heap c) n.
Proof.
  intros Hwf Hn. pose proof (wf_heap _ Hwf) as Hh.
  rewrite (wf_rank _ Hh _ _ Hn).
  rewrite (rank_above_valid _ _ Hh (wf_lhs _ Hh _ _ Hn)).
  rewrite (rank_above_valid _ _ Hh (wf_rhs _ Hh _ _ Hn)).
  pose proof (wf_shape _ Hwf _ _ Hn) as Hs.
  apply assert_args_count in Hs as [Hcount Hfirst].
  unfold stated_rank, present_operands, operand_count, lhs_first in *.
  rewrite !filter_cons, filter_nil.
  repeat case_decide; simpl; lia || tauto.
Qed.

Lemma tc_child_rank h p q :
  heap_wf h → tc (child h) p q → rank_of h q < rank_of h p.
Proof.
  intros Hwf. induction 1 as [p q Hc|p q r Hc _ IH].
  - by apply child_rank.
  - pose proof (child_rank _ _ _ Hwf Hc). lia.
Qed.

(** The live nodes in ascending order of rank form a topological order. *)
Lemma topological_order_exists h :
  heap_wf h →
  ∃ order, NoDup order ∧ (∀ p, p ∈ order ↔ is_Some (h !! p)) ∧
    ∀ i j p q, order !! i = Some p → order !! j = Some q → child h p q → j < i.
Proof.
  intros Hwf.
  set (R := λ p q : Id, rank_of h p ≤ rank_of h q).
  exists (merge_sort R (elements (dom h))).
  assert (Hperm : merge_sort R (elements (dom h)) ≡ₚ elements (dom h))
    by apply merge_sort_Permutation.
  split_and!.
  - rewrite Hperm. apply NoDup_elements.
  - intros p. rewrite Hperm, elem_of_elements. apply elem_of_dom.
  - intros i j p q Hi Hj Hc.
    eapply (sorted_by_rank_positions (rank_of h)); try done.
    + assert (Transitive R) by (intros x y z; unfold R; lia).
      assert (Total R) by (intros x y; unfold R; lia).
      by apply (StronglySorted_merge_sort R).
    + by apply child_rank.
Qed.

(** C2.  In every state a program can bring about, the rank of a node is
    0 when its opcode takes no operand and otherwise one more than the
    largest rank among its present operands; so the rank of an operand is
    below its parent's, no node is below itself, and the live nodes can
    be listed operands first. *)
Theorem rank_invariant c held :
  reachable c held →
  (∀ p n, heap c !! p = Some n → rank n = stated_rank (heap c) n) ∧
  (∀ p q, child (heap c) p q → rank_of (heap c) q < rank_of (heap c) p) ∧
  (∀ p, ¬ tc (child (heap c)) p p) ∧
  (∃ order, NoDup order ∧ (∀ p, p ∈ order ↔ is_Some (heap c !! p)) ∧
     ∀ i j p q, order !! i = Some p → order !! j = Some q →
                child (heap c) p q → j < i).
Proof.
  intros Hr. apply reachable_wf in Hr as (Hwf & _ & _).
  pose proof (wf_heap _ Hwf) as Hh. split_and!.
  - intros p n. by apply stated_rank_correct.
  - intros p q. by apply child_rank.
  - intros p Hp. apply (tc_child_rank _ _ _ Hh) in Hp. lia.
  - by apply topological_order_exists.
Qed.

(* ================================================================== *)
(** ** The sample program *)

Lemma sample_built_Ok : sample_built = Ok sample_root sample_cache.
Proof.
  unfold sample_root, sample_cache.
  destruct sample_built as [p c|c] eqn:H; [done|].
  vm_compute in H. discriminate H.
Qed.

Lemma sample_reachable :
  reachable sample_cache ({[+ sample_root +]} ⊎ ({[+ sample_one.1 +]} ⊎ ∅)).
Proof.
  eapply (reach_operation no_hint Opcode.ADD (Tree_X sample_one.2) sample_one.1
            sample_one.2).
  - apply reach_constant, reach_start.
  - simpl. lia.
  - right. unfold axes_held. multiset_solver.
  - right. multiset_solver.
  - apply sample_built_Ok.
Qed.

Lemma sample_cache_wf : cache_wf sample_cache.
Proof. apply (reachable_wf _ _ sample_reachable). Qed.

Lemma sample_root_live : is_Some (heap sample_cache !! sample_root).
Proof. vm_compute. eauto. Qed.

(** A run of C2 on the sample program. *)
Lemma rank_invariant_witness :
  reachable sample_cache ({[+ sample_root +]} ⊎ ({[+ sample_one.1 +]} ⊎ ∅)) ∧
  ∀ p q, child (heap sample_cache) p q →
         rank_of (heap sample_cache) q < rank_of (heap sample_cache) p.
Proof.
  split; [exact sample_reachable|].
  exact (proj1 (proj2 (rank_invariant _ _ sample_reachable))).
Defined.

(** A run of C3 on the sample program. *)
Lemma ordered_spec_witness :
  heap_wf (heap sample_cache) ∧ is_Some (heap sample_cache !! sample_root) ∧
  ∃ l, ordered (heap sample_cache) sample_root = Some l ∧ NoDup l ∧
       ∀ p, p ∈ l ↔ reaches (heap sample_cache) sample_root p.
Proof.
  pose proof (wf_heap _ sample_cache_wf) as Hh.
  pose proof sample_root_live as Hl.
  split; [done|]. split; [done|].
  destruct (ordered_spec _ _ Hh Hl) as (l & d & Hord & _ & Hnd & Hreach & _).
  by exists l.
Defined.

(* ================================================================== *)
(** ** [Tree::serialize] *)

Lemma index_of_lookup l : ∀ i p, NoDup l → l !! i = Some p → index_of p l = i.
Proof.
  induction l as [|q l IH]; intros i p Hnd Hi; [by rewrite lookup_nil in Hi|].
  apply NoDup_cons in Hnd as [Hq Hnd]. simpl. destruct i as [|i]; simpl in Hi.
  - simplify_eq. by rewrite decide_True.
  - rewrite decide_False; [by rewrite (IH i p)|].
    intros ->. apply Hq. by eapply list_elem_of_lookup_2.
Qed.

Lemma index_of_app_l p pre rest :
  p ∈ pre → index_of p (pre ++ rest) = index_of p pre.
Proof.
  induction pre as [|q pre IH]; intros Hp; [by apply elem_of_nil in Hp|].
  simpl. case_decide; [done|]. f_equal. apply IH.
  apply elem_of_cons in Hp as [->|]; done.
Qed.

Lemma index_of_app_r p pre rest :
  p ∉ pre → index_of p (pre ++ p :: rest) = length pre.
Proof.
  induction pre as [|q pre IH]; intros Hp; simpl.
  - by rewrite decide_True.
  - rewrite decide_False by set_solver. f_equal. apply IH. set_solver.
Qed.

Lemma index_of_lt p l : p ∈ l → index_of p l < length l.
Proof.
  induction l as [|q l IH]; intros Hp; [by apply elem_of_nil in Hp|].
  simpl. case_decide; [lia|].
  apply elem_of_cons in Hp as [->|Hp]; [done|]. specialize (IH Hp). lia.
Qed.

Lemma ids_of_nil : ids_of [] ∅.
Proof.
  split; [done|]. intros p. rewrite lookup_empty, decide_False; [done|].
  apply not_elem_of_nil.
Qed.

Lemma ids_of_snoc pre ids p :
  ids_of pre ids → p ∉ pre →
  ids_of (pre ++ [p]) (<[p := uint32 (size ids)]> ids).
Proof.
  intros [Hsize Hids] Hp. split.
  - rewrite map_size_insert_None, length_app; [simpl; lia|].
    by rewrite Hids, decide_False.
  - intros q. rewrite lookup_insert. case_decide as Hq.
    + subst q. rewrite decide_True by set_solver.
      rewrite (index_of_app_r p pre []) by done. by rewrite Hsize.
    + rewrite Hids. destruct (decide (q ∈ pre)) as [Hin|Hout].
      * rewrite decide_True by set_solver. by rewrite index_of_app_l.
      * rewrite decide_False; [done|]. set_solver.
Qed.

Lemma serializeString_quoted s out : serializeString s out = out ++ quoted s.
Proof. done. Qed.

Section Serialize_proofs.

Variable opnum : Opcode → Z.

(** One round of the loop writes the record of its node. *)
Lemma serialize_node_spec t h l pre rest out ids p n :
  l = pre ++ p :: rest → ids_of pre ids → p ∉ pre → h !! p = Some n →
  (∀ q, written_operand n q → q ∈ pre) →
  serialize_node opnum t h out ids p
  = Some (out ++ node_record opnum t h l p,
          <[p := uint32 (size ids)]> ids).
Proof.
  intros Hl Hids Hp Hn Hops. unfold serialize_node, node_record. rewrite Hn. simpl.
  rewrite (proj2 Hids p), (decide_False (P := p ∈ pre)) by done.
  pose proof (ids_of_snoc _ _ _ Hids Hp) as [_ Hids'].
  assert (Hid : ∀ q, q ∈ pre →
            <[p := uint32 (size ids)]> ids !! q = Some (uint32 (index_of q l))).
  { intros q Hq. rewrite Hids', decide_True by set_solver.
    by rewrite Hl, (index_of_app_l q pre [p]),
      (index_of_app_l q pre (p :: rest)) by done. }
  assert (Hpay : (if decide (op n = Opcode.CONST)
                  then serializeBytes sizeof_value (Float64.of_float (value n))
                         (out ++ [(opnum (op n) mod 256)%Z])
                  else if decide (op n = Opcode.VAR)
                  then serializeString (default EmptyString (var_docs t !! p))
                         (serializeString (default EmptyString (var_names t !! p))
                            (out ++ [(opnum (op n) mod 256)%Z]))
                  else out ++ [(opnum (op n) mod 256)%Z])
                 = out ++ [(opnum (op n) mod 256)%Z] ++ node_payload t p n).
  { unfold node_payload, serializeBytes. repeat case_decide.
    - by rewrite <- app_assoc.
    - rewrite !serializeString_quoted. by rewrite <- !app_assoc.
    - by rewrite app_nil_r. }
  rewrite Hpay. unfold node_operands, written_operand, serializeBytes in *.
  destruct (Opcode.args (op n)) as [|[|[|k]]] eqn:Har; simpl.
  - by rewrite app_nil_r.
  - rewrite Hid by (apply Hops; auto). simpl. by rewrite <- !app_assoc.
  - rewrite !Hid by (apply Hops; auto). simpl. by rewrite <- !app_assoc.
  - by rewrite app_nil_r.
Qed.

(** The loop writes the records of its nodes in turn and numbers them by
    position. *)
Lemma serialize_loop_spec t h l :
  NoDup l → (∀ p, p ∈ l → is_Some (h !! p)) →
  (∀ i p n q, l !! i = Some p → h !! p = Some n → written_operand n q →
              ∃ j, l !! j = Some q ∧ j < i) →
  ∀ rest pre out ids,
    l = pre ++ rest → ids_of pre ids →
    ∃ ids', serialize_loop opnum t h out ids rest
            = Some (out ++ concat (map (node_record opnum t h l) rest), ids') ∧
            ids_of l ids'.
Proof.
  intros Hnd Hlive Htopo rest.
  induction rest as [|p rest IH]; intros pre out ids Hl Hids; simpl.
  - exists ids. rewrite !app_nil_r in *. by subst.
  - assert (Hp : p ∉ pre).
    { rewrite Hl in Hnd. apply NoDup_app in Hnd as (_ & Hdisj & _).
      intros Hin. apply (Hdisj _ Hin). by left. }
    destruct (Hlive p) as [n Hn]; [rewrite Hl; set_solver|].
    assert (Hi : l !! length pre = Some p).
    { rewrite Hl. by rewrite list_lookup_middle. }
    rewrite (serialize_node_spec t h l pre rest out ids p n); try done.
    + simpl. destruct (IH (pre ++ [p]) (out ++ node_record opnum t h l p)
                         (<[p := uint32 (size ids)]> ids)) as (ids' & Hloop & Hids').
      * by rewrite <- app_assoc.
      * by apply ids_of_snoc.
      * exists ids'. rewrite Hloop. by rewrite <- app_assoc.
    + intros q Hq. destruct (Htopo _ _ _ _ Hi Hn Hq) as (j & Hj & Hlt).
      rewrite Hl, lookup_app_l in Hj by done. by eapply list_elem_of_lookup_2.
Qed.

End Serialize_proofs.

(** The operands whose ids are written come earlier in [ordered]. *)
Lemma ordered_written_operand c root l :
  cache_wf c → valid (heap c) root → ordered (heap c) root = Some l →
  ∀ i p n q, l !! i = Some p → heap c !! p = Some n → written_operand n q →
             ∃ j, l !! j = Some q ∧ j < i.
Proof.
  intros Hwf Hroot Hl i p n q Hi Hn Hq.
  pose proof (wf_heap _ Hwf) as Hh.
  destruct (ordered_total _ _ Hh Hroot) as (l' & Hl' & Hnd & Hlive & Htopo & Hreach).
  assert (l' = l) as -> by congruence.
  pose proof (wf_shape _ Hwf _ _ Hn) as Hs.
  apply assert_args_count in Hs as [Hcount Hfirst].
  assert (Hc : child (heap c) p q).
  { unfold operand_count, lhs_first, written_operand in *.
    split; [|exists n; split; [done|]; naive_solver].
    repeat case_decide; destruct Hq as [[? [-> | ->]]|[? ->]]; try done; lia. }
  assert (Hin : q ∈ l).
  { apply Hreach. apply list_elem_of_lookup_2 in Hi. apply Hreach in Hi as [? Hr].
    split; [done|]. by eapply rtc_r. }
  apply list_elem_of_lookup_1 in Hin as [j Hj]. exists j. split; [done|].
  by eapply Htopo.
Qed.

Lemma ordered_length h root l :
  heap_wf h → valid h root → ordered h root = Some l → length l ≤ size h.
Proof.
  intros Hwf Hroot Hl.
  destruct (ordered_total _ _ Hwf Hroot) as (l' & Hl' & Hnd & Hlive & _).
  assert (l' = l) as -> by congruence.
  rewrite <- (size_list_to_set (C := gset Id) l), <- size_dom by done.
  apply subseteq_size. intros p Hp. apply elem_of_list_to_set in Hp.
  by apply elem_of_dom, Hlive.
Qed.

Lemma uint32_small n : (Z.of_nat n < 2 ^ 32)%Z → uint32 n = Z.of_nat n.
Proof. intros Hn. unfold uint32. apply Z.mod_small. lia. Qed.

(** C4.  [serialize] numbers the nodes from 0 in the order of [ordered]
    and writes one record per node in that order: the opcode, the value
    or the two strings, then the id of [rhs] followed by the id of [lhs]
    for two operands, the id of [lhs] alone for one, nothing for none;
    every id written in a record is lower than the id of its node. *)
Theorem serialize_spec (opnum : Opcode → Z) (t : Template) (c : Cache) :
  cache_wf c → valid (heap c) (tree t) →
  (Z.of_nat (size (heap c)) < 2 ^ 32)%Z →
  ∃ nodes out ids,
    ordered (heap c) (tree t) = Some nodes ∧
    serialize_loop opnum t (heap c)
      (serializeString (doc t) (serializeString (name t) [TAG])) ∅ nodes
      = Some (out, ids) ∧
    serialize_template opnum t (heap c) = Some out ∧
    out = stated_encoding opnum t (heap c) nodes ∧
    (∀ i p, nodes !! i = Some p → ids !! p = Some (Z.of_nat i)) ∧
    (∀ p n q, p ∈ nodes → heap c !! p = Some n → written_operand n q →
       ∃ i j, ids !! p = Some i ∧ ids !! q = Some j ∧ (j < i)%Z).
Proof.
  intros Hwf Hroot Hsize. pose proof (wf_heap _ Hwf) as Hh.
  destruct (ordered_total _ _ Hh Hroot) as (l & Hl & Hnd & Hlive & _).
  pose proof (ordered_written_operand c _ l Hwf Hroot Hl) as Htopo.
  pose proof (ordered_length _ _ _ Hh Hroot Hl) as Hlen.
  destruct (serialize_loop_spec opnum t (heap c) l Hnd Hlive Htopo l []
              (serializeString (doc t) (serializeString (name t) [TAG])) ∅)
    as (ids & Hloop & Hsz & Hids); [done|apply ids_of_nil|].
  assert (Hpos : ∀ i p, l !! i = Some p → ids !! p = Some (Z.of_nat i)).
  { intros i p Hi. rewrite Hids, decide_True by by eapply list_elem_of_lookup_2.
    rewrite (index_of_lookup l i p) by done.
    rewrite uint32_small; [done|]. apply lookup_lt_Some in Hi. lia. }
  eexists l, _, ids. split_and!; try done.
  - unfold serialize_template. rewrite Hl. simpl. by rewrite Hloop.
  - intros p n q Hp Hn Hq.
    apply list_elem_of_lookup_1 in Hp as [i Hi].
    destruct (Htopo _ _ _ _ Hi Hn Hq) as (j & Hj & Hlt).
    exists (Z.of_nat i), (Z.of_nat j). split_and!; [by apply Hpos..|lia].
Qed.

(* ================================================================== *)
(** ** Serializing a constant *)

Lemma NoDup_only (l : list Id) k : NoDup l → (∀ p, p ∈ l ↔ p = k) → l = [k].
Proof.
  intros Hnd Hl. destruct l as [|a l].
  - assert (k ∈ @nil Id) as Hk by by apply Hl. by apply elem_of_nil in Hk.
  - assert (a = k) as -> by (apply Hl; by left). f_equal.
    apply NoDup_cons in Hnd as [Hk Hnd]. destruct l as [|b l]; [done|].
    assert (b = k) as -> by (apply Hl; right; by left).
    destruct Hk. by left.
Qed.

(** A node without operands is all that [ordered] lists from it. *)
Lemma ordered_leaf h k n :
  heap_wf h → h !! k = Some n → lhs n = nullptr → rhs n = nullptr →
  ordered h k = Some [k].
Proof.
  intros Hwf Hn Hl Hr.
  destruct (ordered_total h k Hwf) as (l & Hord & Hnd & _ & _ & Hreach);
    [right; eauto|].
  rewrite Hord. f_equal. apply NoDup_only; [done|]. intros p. rewrite Hreach.
  pose proof (live_not_null _ _ Hwf (mk_is_Some _ _ Hn)) as Hk. split.
  - intros [_ Hp]. destruct Hp as [|x y z Hxy _]; [done|].
    destruct Hxy as (Hy & n' & Hn' & Hc). simplify_eq.
    destruct Hc; congruence.
  - intros ->. split; [done|]. constructor.
Qed.

(** C8.  The template named "t", without documentation, of the constant
    3.0 is written as the tag, the quoted name, the quoted empty string,
    and one record: the opcode of [CONST] and the 8 raw bytes of 3.0, the
    member that holds the value being a [float64], lowest byte first. *)
Theorem constant_serialization (alloc : gmap Id Tree_ → Id)
  (opnum : Opcode → Z) (c : Cache) :
  cache_wf c →
  Float32.decode Float32.three = Float32.FFin false (3 * 2 ^ 22) (-22) ∧
  Float64.of_float Float32.three = Float64.three ∧
  raw_bytes sizeof_value Float64.three = [0; 0; 0; 0; 0; 0; 8; 64]%Z ∧
  serialize_template opnum
    (mkTemplate (Tree_constant alloc Float32.three c).1 "t" EmptyString ∅ ∅)
    (heap (Tree_constant alloc Float32.three c).2)
  = Some [TAG; QUOTE; 116; QUOTE; QUOTE; QUOTE;
          opnum Opcode.CONST mod 256; 0; 0; 0; 0; 0; 0; 8; 64]%Z.
Proof.
  intros Hwf. split; [done|]. split; [done|]. split; [done|].
  unfold Tree_constant.
  change (Float32.wrap Float32.three) with Float32.three.
  pose proof (Cache_constant_wf alloc Float32.three c Hwf) as Hwf'.
  pose proof (Cache_constant_entry alloc Float32.three c) as Hk.
  apply (wf_constants _ Hwf') in Hk.
  set (k := (Cache_constant alloc Float32.three c).1) in *.
  set (c' := (Cache_constant alloc Float32.three c).2) in *.
  pose proof (wf_heap _ Hwf') as Hh.
  pose proof (ordered_leaf _ _ _ Hh Hk eq_refl eq_refl) as Hord.
  set (t := mkTemplate k "t" EmptyString ∅ ∅).
  destruct (serialize_loop_spec opnum t (heap c') [k]) with
    (rest := [k]) (pre := @nil Id)
    (out := serializeString (doc t) (serializeString (name t) [TAG]))
    (ids := (∅ : gmap Id Z)) as (ids & Hloop & _); try done.
  - apply NoDup_singleton.
  - intros p Hp. apply list_elem_of_singleton in Hp as ->. eauto.
  - intros i p n q Hi Hn [[Har _]|[Har _]];
      destruct i; simpl in Hi; simplify_eq; try (simpl in Har; lia).
  - unfold serialize_template. change (tree t) with k. rewrite Hord.
    change (Some [k] ≫= ?f) with (f [k]). cbv beta. rewrite Hloop.
    simpl. unfold node_record. rewrite Hk. done.
Qed.

(* ================================================================== *)
(** ** [Tree::remap] *)

Section Remap.

Variable alloc : gmap Id Tree_ → Id.

Lemma remap_done_start c seed : remap_done c seed [] seed c.
Proof.
  split; [apply grows_refl|done|..]; intros t n Ht; by apply elem_of_nil in Ht.
Qed.

(** One round of the loop. *)
Lemma remap_step_done c seed pre t n m c' :
  remap_done c seed pre m c' →
  heap c !! t = Some n → t ∉ pre → t ≠ nullptr →
  (∀ q, child (heap c) t q → q ∈ pre) →
  (∀ t0 n0 q, t0 ∈ pre → heap c !! t0 = Some n0 → child (heap c) t0 q → q ∈ pre) →
  (1 ≤ Opcode.args (op n) → seed !! t = None) →
  remap_done c seed (pre ++ [t]) (remap_step alloc t n m c').1
                                 (remap_step alloc t n m c').2.
Proof.
  intros [Hg Hrest Hnode Hleaf] Hn Ht Ht0 Hops Hclosed Hseed. unfold remap_step.
  case_decide as Har; simpl.
  2:{ split; [done|..].
      - intros k Hk. apply Hrest. set_solver.
      - intros t0 n0 Ht0' Hn0 Har0. apply elem_of_app in Ht0' as [Hin|Hin];
          [eauto|]. apply list_elem_of_singleton in Hin as ->. simplify_eq; try lia.
      - intros t0 n0 Ht0' Hn0 Har0. apply elem_of_app in Ht0' as [Hin|Hin];
          [eauto|]. apply list_elem_of_singleton in Hin as ->. by apply Hrest. }
  assert (Hm : m !! t = None) by (rewrite Hrest by done; auto).
  destruct (Cache_operation alloc (op n) (default (lhs n) (m !! lhs n))
              (default (rhs n) (m !! rhs n)) c') as [p c''] eqn:Hc.
  rewrite Hm. simpl.
  assert (Hother : ∀ t0 n0, (t0 ∈ pre ∨ t0 = t) → heap c !! t0 = Some n0 →
            resolve (<[t := p]> m) (lhs n0) = resolve m (lhs n0) ∧
            resolve (<[t := p]> m) (rhs n0) = resolve m (rhs n0)).
  { intros t0 n0 Hin Hn0.
    assert (∀ q, (q = lhs n0 ∨ q = rhs n0) → q ≠ t) as Hne.
    { intros q Hq ->.
      assert (child (heap c) t0 t) as Hc0 by (split; [done|]; naive_solver).
      destruct Hin as [Hin| ->]; [|by apply Ht, Hops].
      by apply Ht, (Hclosed t0 n0). }
    unfold resolve. rewrite !lookup_insert_ne; [done|..];
      apply not_eq_sym, Hne; auto. }
  pose proof (Cache_operation_grows alloc (op n) (default (lhs n) (m !! lhs n))
                (default (rhs n) (m !! rhs n)) c') as Hg'.
  pose proof (Cache_operation_ops alloc (op n) (default (lhs n) (m !! lhs n))
                (default (rhs n) (m !! rhs n)) c') as Hk.
  rewrite Hc in Hg', Hk. simpl in Hg', Hk.
  split.
  - by eapply grows_trans.
  - intros k Hk'. rewrite lookup_insert_ne by set_solver. apply Hrest. set_solver.
  - intros t0 n0 Hin Hn0 Har0.
    destruct (Hother t0 n0) as [-> ->]; [set_solver|done|].
    apply elem_of_app in Hin as [Hin|Hin].
    + destruct (Hnode _ _ Hin Hn0 Har0) as (p0 & Hp0 & Hops0).
      exists p0. rewrite lookup_insert_ne by congruence.
      split; [done|]. by apply (proj2 (proj2 Hg')).
    + apply list_elem_of_singleton in Hin as ->. simplify_eq.
      exists p. by rewrite lookup_insert_eq.
  - intros t0 n0 Hin Hn0 Har0. apply elem_of_app in Hin as [Hin|Hin].
    + rewrite lookup_insert_ne by congruence. eauto.
    + apply list_elem_of_singleton in Hin as ->. simplify_eq; try lia.
Qed.

(** The loop over a list in which operands come before their parents. *)
Lemma remap_loop_done c seed l :
  NoDup l → (∀ t, t ∈ l → is_Some (heap c !! t) ∧ t ≠ nullptr) →
  (∀ pre t rest q, l = pre ++ t :: rest → child (heap c) t q → q ∈ pre) →
  (∀ t n, t ∈ l → heap c !! t = Some n → 1 ≤ Opcode.args (op n) →
          seed !! t = None) →
  ∀ rest pre m c',
    l = pre ++ rest → remap_done c seed pre m c' →
    remap_done c seed l (remap_loop alloc (heap c) rest m c').1
                        (remap_loop alloc (heap c) rest m c').2.
Proof.
  intros Hnd Hlive Htopo Hseed rest.
  induction rest as [|t rest IH]; intros pre m c' Hl Hdone; simpl.
  - rewrite app_nil_r in Hl. by subst.
  - assert (Ht : t ∉ pre).
    { rewrite Hl in Hnd. apply NoDup_app in Hnd as (_ & Hdisj & _).
      intros Hin. apply (Hdisj _ Hin). by left. }
    destruct (Hlive t) as [[n Hn] Ht0]; [rewrite Hl; set_solver|]. rewrite Hn.
    pose proof (remap_step_done c seed pre t n m c' Hdone Hn Ht Ht0) as Hs.
    destruct (remap_step alloc t n m c') as [m' c'']. apply (IH (pre ++ [t])).
    + by rewrite <- app_assoc.
    + apply Hs.
      * intros q Hq. by eapply Htopo.
      * intros t0 n0 q Hin Hn0 Hq.
        apply list_elem_of_split in Hin as (pre1 & pre2 & ->).
        eapply (Htopo pre1 t0 (pre2 ++ t :: rest)) in Hq;
          [set_solver|by rewrite Hl, <- app_assoc].
      * intros Har. eapply Hseed; [|done..]. rewrite Hl. set_solver.
Qed.

End Remap.

(** In the list of [ordered], operands come before their parents. *)
Lemma ordered_operands_first h root l :
  heap_wf h → valid h root → ordered h root = Some l →
  ∀ pre t rest q, l = pre ++ t :: rest → child h t q → q ∈ pre.
Proof.
  intros Hwf Hroot Hl pre t rest q Heq Hc.
  destruct (ordered_total _ _ Hwf Hroot) as (l' & Hl' & Hnd & Hlive & Htopo & Hreach).
  assert (l' = l) as -> by congruence.
  assert (Hi : l !! length pre = Some t) by by rewrite Heq, list_lookup_middle.
  assert (Hin : q ∈ l).
  { apply Hreach. apply list_elem_of_lookup_2 in Hi. apply Hreach in Hi as [? Hr].
    split; [done|]. by eapply rtc_r. }
  apply list_elem_of_lookup_1 in Hin as [j Hj].
  pose proof (Htopo _ _ _ _ Hi Hj Hc) as Hlt.
  rewrite Heq, lookup_app_l in Hj by done. by eapply list_elem_of_lookup_2.
Qed.

(* ================================================================== *)
(** ** What [remap] returns *)

Lemma map_insert_new_keep k v m k' v' :
  m !! k = Some v → map_insert_new k' v' m !! k = Some v.
Proof.
  intros Hk. unfold map_insert_new. destruct (m !! k') eqn:Hk'; [done|].
  rewrite lookup_insert_ne; [done|]. congruence.
Qed.

Lemma remap_seed_X X_ Y_ Z_ c : (remap_seed X_ Y_ Z_ c).1 !! Tree_X c = Some X_.
Proof.
  unfold remap_seed. simpl. do 2 apply map_insert_new_keep.
  unfold map_insert_new. by rewrite lookup_empty, lookup_insert_eq.
Qed.

Lemma remap_seed_grows X_ Y_ Z_ c : grows c (remap_seed X_ Y_ Z_ c).2.
Proof. by repeat split. Qed.

Lemma remap_seed_not_axis X_ Y_ Z_ c k :
  k ∉ axes_held c → (remap_seed X_ Y_ Z_ c).1 !! k = None.
Proof.
  intros Hk. destruct (_ !! k) eqn:Hs; [|done].
  by apply remap_seed_lookup in Hs as [? _].
Qed.

Lemma release_list_heap (l : list (Id * Id)) c x n :
  heap (foldr (λ kv c', Tree_release kv.2 c') c l) !! x = Some n →
  heap c !! x = Some n.
Proof.
  induction l as [|[k v] l IH]; simpl; [done|].
  intros Hx. apply IH. unfold Tree_release in Hx. by eapply release_heap.
Qed.

Section Remap_spec.

Variable alloc : gmap Id Tree_ → Id.

(** The pass of [remap] over a well-formed state. *)
Lemma remap_pass_spec X_ Y_ Z_ root c :
  cache_wf c → axes_wf c → valid (heap c) root →
  ∃ nodes m c1,
    ordered (heap c) root = Some nodes ∧
    remap_pass alloc X_ Y_ Z_ root c = Some (m, c1) ∧
    remap_done c (remap_seed X_ Y_ Z_ c).1 nodes m c1 ∧
    (∀ p, p ∈ nodes ↔ root ≠ nullptr ∧ reaches (heap c) root p) ∧
    (∀ pre t rest q, nodes = pre ++ t :: rest → child (heap c) t q → q ∈ pre).
Proof.
  intros Hwf Hax Hroot. pose proof (wf_heap _ Hwf) as Hh.
  destruct (ordered_total _ _ Hh Hroot) as (l & Hl & Hnd & Hlive & Htopo & Hreach).
  pose proof (ordered_operands_first _ _ _ Hh Hroot Hl) as Hfirst.
  unfold remap_pass. rewrite Hl. change (Some l ≫= ?f) with (f l). cbv beta.
  pose proof (remap_seed_grows X_ Y_ Z_ c) as Hg.
  pose proof (remap_loop_done alloc c (remap_seed X_ Y_ Z_ c).1 l Hnd
                (λ t Ht, conj (Hlive t Ht) (live_not_null _ _ Hh (Hlive t Ht)))
                Hfirst) as Hloop.
  assert (Hkeys : ∀ t n, t ∈ l → heap c !! t = Some n → 1 ≤ Opcode.args (op n) →
                         (remap_seed X_ Y_ Z_ c).1 !! t = None).
  { intros t n Ht Hn Har.
    destruct ((remap_seed X_ Y_ Z_ c).1 !! t) as [v|] eqn:Hm; [|done].
    apply remap_seed_lookup in Hm as [Hk _].
    destruct (axes_held_is_var _ _ Hax Hk) as (n' & Hn' & Hop).
    simplify_eq. rewrite Hop in Har. simpl in Har. lia. }
  specialize (Hloop Hkeys l [] (remap_seed X_ Y_ Z_ c).1 (remap_seed X_ Y_ Z_ c).2
                eq_refl).
  destruct (remap_seed X_ Y_ Z_ c) as [m0 c0]. simpl in Hloop, Hg.
  destruct (remap_loop alloc (heap c) l m0 c0) as [m c1].
  exists l, m, c1. split_and!; try done.
  apply Hloop.
  split; [done|done|..]; intros t n Ht; by apply elem_of_nil in Ht.
Qed.

Lemma remap_of_pass X_ Y_ Z_ root c m c1 :
  remap_pass alloc X_ Y_ Z_ root c = Some (m, c1) →
  ∃ c', remap alloc X_ Y_ Z_ root c = Some (resolve m root, c') ∧
        ∀ x n, heap c' !! x = Some n → heap c1 !! x = Some n.
Proof.
  intros Hpass. unfold remap. rewrite Hpass. simpl. eexists. split; [done|].
  intros x n. rewrite map_fold_release. intros Hx.
  by apply release_list_heap in Hx.
Qed.

Lemma remap_done_null X_ Y_ Z_ c nodes m c1 :
  cache_wf c → axes_wf c →
  remap_done c (remap_seed X_ Y_ Z_ c).1 nodes m c1 →
  (∀ p, p ∈ nodes → is_Some (heap c !! p)) →
  m !! nullptr = None.
Proof.
  intros Hwf Hax Hdone Hlive. pose proof (wf_heap _ Hwf) as Hh.
  rewrite (rd_rest _ _ _ _ _ Hdone).
  - apply remap_seed_not_axis. intros Hk.
    destruct (axes_held_is_var _ _ Hax Hk) as (n & Hn & _).
    by rewrite (wf_null _ Hh) in Hn.
  - intros Hin. apply Hlive in Hin as [n Hn]. by rewrite (wf_null _ Hh) in Hn.
Qed.

(** In a tree that holds none of the canonical variables, every node
    resolves to itself. *)
Lemma remap_done_noop X_ Y_ Z_ root c nodes m c1 :
  cache_wf c → axes_wf c →
  remap_done c (remap_seed X_ Y_ Z_ c).1 nodes m c1 →
  (∀ p, p ∈ nodes → is_Some (heap c !! p)) →
  (∀ p, p ∈ nodes → reaches (heap c) root p) →
  (∀ pre t rest q, nodes = pre ++ t :: rest → child (heap c) t q → q ∈ pre) →
  (∀ a, a ∈ axes_held c → ¬ reaches (heap c) root a) →
  ∀ k pre t rest, length pre = k → nodes = pre ++ t :: rest → resolve m t = t.
Proof.
  intros Hwf Hax Hdone Hlive Hreach Hfirst Hfree k.
  pose proof (wf_heap _ Hwf) as Hh.
  pose proof (remap_done_null _ _ _ _ _ _ _ Hwf Hax Hdone Hlive) as Hnull.
  induction k as [k IH] using lt_wf_ind. intros pre t rest Hk Hl.
  assert (Ht : t ∈ nodes) by (rewrite Hl; set_solver).
  destruct (Hlive t Ht) as [n Hn].
  assert (Hoperand : ∀ q, (q = lhs n ∨ q = rhs n) → resolve m q = q).
  { intros q Hq. destruct (decide (q = nullptr)) as [->|Hq0].
    { unfold resolve. by rewrite Hnull. }
    assert (Hc : child (heap c) t q) by (split; [done|]; naive_solver).
    pose proof (Hfirst _ _ _ _ Hl Hc) as Hin.
    apply list_elem_of_split in Hin as (pre1 & pre2 & ->).
    eapply (IH (length pre1)); [|done|].
    - rewrite <- Hk, length_app. simpl. lia.
    - rewrite Hl, <- app_assoc. done. }
  destruct (decide (1 ≤ Opcode.args (op n))) as [Har|Har].
  - destruct (rd_node _ _ _ _ _ Hdone t n Ht Hn Har) as (p & Hp & Hops).
    rewrite !Hoperand in Hops by auto.
    pose proof (wf_interned _ Hwf _ _ Hn Har) as Hint.
    apply (proj2 (proj2 (rd_grows _ _ _ _ _ Hdone))) in Hint.
    unfold key_of in Hint. unfold resolve. rewrite Hp. simpl. congruence.
  - unfold resolve. rewrite (rd_leaf _ _ _ _ _ Hdone t n Ht Hn) by lia.
    rewrite remap_seed_not_axis; [done|]. intros Hk'. by apply (Hfree t), Hreach.
Qed.

(** C6.  On a tree from which none of the three canonical variables can
    be reached, [remap] returns the handle it was called on, whatever the
    replacements. *)
Theorem remap_noop X_ Y_ Z_ root c :
  cache_wf c → axes_wf c → valid (heap c) root →
  (∀ a, a ∈ axes_held c → ¬ reaches (heap c) root a) →
  ∃ c', remap alloc X_ Y_ Z_ root c = Some (root, c').
Proof.
  intros Hwf Hax Hroot Hfree. pose proof (wf_heap _ Hwf) as Hh.
  destruct (remap_pass_spec X_ Y_ Z_ root c Hwf Hax Hroot)
    as (nodes & m & c1 & Hord & Hpass & Hdone & Hreach & Hfirst).
  destruct (remap_of_pass _ _ _ _ _ _ _ Hpass) as (c' & Hremap & _).
  exists c'. rewrite Hremap. f_equal. f_equal.
  destruct (ordered_total _ _ Hh Hroot) as (l & Hl & _ & Hlive & _).
  assert (l = nodes) as -> by congruence.
  destruct Hroot as [->|Hroot].
  - unfold resolve.
    by rewrite (remap_done_null _ _ _ _ _ _ _ Hwf Hax Hdone Hlive).
  - assert (Hin : root ∈ nodes).
    { apply Hreach. split; [by apply (live_not_null _ _ Hh)|]. constructor. }
    apply list_elem_of_split in Hin as (pre & rest & Heq).
    eapply (remap_done_noop X_ Y_ Z_ root c nodes m c1); try done.
    intros p Hp. by apply Hreach.
Qed.

End Remap_spec.

(* ================================================================== *)
(** ** [X + 1] with 5 for [X] *)

Lemma serialize_total (opnum : Opcode → Z) t c :
  cache_wf c → valid (heap c) (tree t) →
  ∃ out, serialize_template opnum t (heap c) = Some out.
Proof.
  intros Hwf Hroot. pose proof (wf_heap _ Hwf) as Hh.
  destruct (ordered_total _ _ Hh Hroot) as (l & Hl & Hnd & Hlive & _).
  pose proof (ordered_written_operand c _ l Hwf Hroot Hl) as Htopo.
  destruct (serialize_loop_spec opnum t (heap c) l Hnd Hlive Htopo l []
              (serializeString (doc t) (serializeString (name t) [TAG])) ∅)
    as (ids & Hloop & _); [done|apply ids_of_nil|].
  eexists. unfold serialize_template. rewrite Hl.
  change (Some l ≫= ?f) with (f l). cbv beta. by rewrite Hloop.
Qed.

Section Found.

Variable alloc : gmap Id Tree_ → Id.

Lemma Cache_constant_found v c p :
  constants c !! v = Some p →
  Cache_constant alloc v c = (p, with_uses (acquire p (uses c)) c).
Proof. intros Hv. unfold Cache_constant. by rewrite Hv. Qed.

Lemma Cache_operation_found o l r c p :
  ops c !! (o, l, r) = Some p →
  Cache_operation alloc o l r c = (p, with_uses (acquire p (uses c)) c).
Proof. intros Hk. unfold Cache_operation. by rewrite Hk. Qed.

(** The state after the pass of [remap] is well formed. *)
Lemma remap_pass_wf X_ Y_ Z_ root c held m c1 :
  state_wf c held →
  X_ ∈ axes_held c ⊎ held → Y_ ∈ axes_held c ⊎ held →
  Z_ ∈ axes_held c ⊎ held → handle c held root →
  remap_pass alloc X_ Y_ Z_ root c = Some (m, c1) →
  cache_wf c1.
Proof.
  intros (Hwf & Hax & Hown) HX HY HZ Hroot Hpass.
  pose proof (wf_heap _ Hwf) as Hh.
  pose proof (handle_valid _ _ _ Hown Hroot) as Hvroot.
  destruct (ordered_total _ _ Hh Hvroot) as (nodes & Hnodes & Hnd & Hlive & _).
  unfold remap_pass in Hpass. rewrite Hnodes in Hpass.
  change (Some nodes ≫= ?f) with (f nodes) in Hpass. cbv beta in Hpass.
  pose proof (remap_seed_inv X_ Y_ Z_ c _ Hwf Hown HX HY HZ) as Hseed.
  destruct (remap_seed X_ Y_ Z_ c) as [m0 c0]. simpl in Hseed.
  pose proof (remap_loop_inv alloc c _ Hwf Hax nodes [] m0 c0 Hseed) as Hloop.
  injection Hpass as Hpass. rewrite Hpass in Hloop. simpl in Hloop.
  apply Hloop; try done.
  - intros t Ht. by apply elem_of_nil in Ht.
  - intros t _ Ht. by apply elem_of_nil in Ht.
Qed.

End Found.

Lemma state_wf_live c held p :
  state_wf c held → p ∈ held → is_Some (heap c !! p) ∧ p ≠ nullptr.
Proof.
  intros (Hwf & _ & Hown) Hp.
  assert (Hl : is_Some (heap c !! p)).
  { apply (own_live _ _ Hown). multiset_solver. }
  split; [done|]. by apply (live_not_null _ _ (wf_heap _ Hwf)).
Qed.

Lemma Tree_constant_node alloc v c :
  cache_wf c →
  heap (Tree_constant alloc v c).2 !! (Tree_constant alloc v c).1
  = Some (mkTree_ Opcode.CONST 0 (Float32.wrap v) nullptr nullptr).
Proof.
  intros Hwf. unfold Tree_constant.
  apply (wf_constants _ (Cache_constant_wf alloc _ _ Hwf)), Cache_constant_entry.
Qed.

(** [X + 1] with 5 for [X] is the node of [5 + 1]. *)
Lemma remap_example (alloc : gmap Id Tree_ → Id) (opnum : Opcode → Z) :
  let c0 := Cache_init alloc in
  let k1 := Tree_constant alloc Float32.one c0 in
  ∃ t c2,
    Tree_operation alloc Opcode.ADD (Tree_X k1.2) k1.1 k1.2 = Ok t c2 ∧
    let k5 := Tree_constant alloc Float32.five c2 in
    ∃ r c4,
      remap alloc k5.1 (Tree_Y k5.2) (Tree_Z k5.2) t k5.2 = Some (r, c4) ∧
      let a := Tree_constant alloc Float32.five c4 in
      let b := Tree_constant alloc Float32.one a.2 in
      ∃ c7 out,
        Tree_operation alloc Opcode.ADD a.1 b.1 b.2 = Ok r c7 ∧
        serialize opnum r (heap c4) = Some out ∧
        serialize opnum r (heap c7) = Some out.
Proof.
  intros c0 k1.
  (* the constant 1 *)
  pose proof (Cache_init_state_wf alloc) as S0. fold c0 in S0.
  pose proof (state_wf_constant alloc Float32.one c0 ∅ S0) as S1. fold k1 in S1.
  destruct S0 as (Hwf0 & _).
  pose proof (Tree_constant_node alloc Float32.one c0 Hwf0) as Hk1.
  fold k1 in Hk1. change (Float32.wrap Float32.one) with Float32.one in Hk1.
  destruct k1 as [k1 c1]. simpl in S1, Hk1 |- *.
  destruct (state_wf_live _ _ k1 S1) as [_ Hk1n]; [multiset_solver|].
  pose proof S1 as (Hwf1 & Hax1 & Hown1).
  destruct Hax1 as ((nx & Hnx & Hopx) & _).
  assert (HX0 : Tree_X c1 ≠ nullptr).
  { apply (live_not_null _ _ (wf_heap _ Hwf1)). eauto. }
  (* the sum *)
  destruct (Cache_operation alloc Opcode.ADD (Tree_X c1) k1 c1) as [t c2] eqn:Hc2.
  assert (Hok : Tree_operation alloc Opcode.ADD (Tree_X c1) k1 c1 = Ok t c2).
  { apply Tree_operation_Ok. split; [done|]. split_and!; try done.
    - unfold operand_count. by rewrite !decide_False.
    - by intros ?. }
  exists t, c2. split; [done|].
  assert (S2 : state_wf c2 ({[+ t +]} ⊎ ({[+ k1 +]} ⊎ ∅))).
  { eapply (state_wf_operation alloc Opcode.ADD (Tree_X c1) k1 c1); try done.
    - simpl. lia.
    - right. unfold axes_held. multiset_solver.
    - right. multiset_solver. }
  pose proof S2 as (Hwf2 & Hax2 & Hown2).
  assert (Haxes2 : axes c2 = axes c1).
  { pose proof (Cache_operation_axes alloc Opcode.ADD (Tree_X c1) k1 c1) as H.
    by rewrite Hc2 in H. }
  assert (Ht2 : ∃ nt, heap c2 !! t = Some nt ∧
                      key_of nt = (Opcode.ADD, Tree_X c1, k1)).
  { apply (wf_ops _ Hwf2).
    pose proof (Cache_operation_ops alloc Opcode.ADD (Tree_X c1) k1 c1) as H.
    by rewrite Hc2 in H. }
  destruct Ht2 as (nt & Hnt & Hkt).
  assert (Hg12 : grows c1 c2).
  { pose proof (Cache_operation_grows alloc Opcode.ADD (Tree_X c1) k1 c1) as H.
    by rewrite Hc2 in H. }
  (* the constant 5 *)
  pose proof (state_wf_constant alloc Float32.five c2 _ S2) as S3.
  pose proof (Tree_constant_node alloc Float32.five c2 Hwf2) as Hk5.
  change (Float32.wrap Float32.five) with Float32.five in Hk5.
  assert (Hg23 : grows c2 (Tree_constant alloc Float32.five c2).2)
    by apply Cache_constant_grows.
  assert (Haxes3 : axes (Tree_constant alloc Float32.five c2).2 = axes c2)
    by apply Cache_constant_axes.
  destruct (Tree_constant alloc Float32.five c2) as [k5 c3].
  simpl in S3, Hk5, Hg23, Haxes3 |- *.
  pose proof S3 as (Hwf3 & Hax3 & Hown3).
  set (held3 := {[+ k5 +]} ⊎ ({[+ t +]} ⊎ ({[+ k1 +]} ⊎ ∅))) in *.
  assert (HX3 : Tree_X c3 = Tree_X c1).
  { unfold Tree_X. by rewrite Haxes3, Haxes2. }
  (* the pass *)
  assert (Hvt : valid (heap c3) t).
  { right. rewrite (proj1 Hg23 _ _ Hnt). eauto. }
  destruct (remap_pass_spec alloc k5 (Tree_Y c3) (Tree_Z c3) t c3 Hwf3 Hax3 Hvt)
    as (nodes & m & cp & Hord & Hpass & Hdone & Hreach & Hfirst).
  destruct (remap_of_pass alloc _ _ _ _ _ _ _ Hpass) as (c4 & Hremap & Hsub).
  exists (resolve m t), c4. split; [done|].
  assert (Hwfp : cache_wf cp).
  { eapply (remap_pass_wf alloc k5 (Tree_Y c3) (Tree_Z c3) t c3 held3); try done.
    - unfold held3. multiset_solver.
    - unfold axes_held. multiset_solver.
    - unfold axes_held. multiset_solver.
    - right. unfold held3. multiset_solver. }
  assert (S4 : state_wf c4 (hold (resolve m t) held3)).
  { eapply (state_wf_remap alloc k5 (Tree_Y c3) (Tree_Z c3) t c3 held3); try done.
    - unfold held3. multiset_solver.
    - unfold axes_held. multiset_solver.
    - unfold axes_held. multiset_solver.
    - right. unfold held3. multiset_solver. }
  (* what the map holds *)
  pose proof (wf_heap _ Hwf3) as Hh3.
  assert (Hnt3 : heap c3 !! t = Some nt) by by apply (proj1 Hg23).
  assert (Hk13 : heap c3 !! k1
                 = Some (mkTree_ Opcode.CONST 0 Float32.one nullptr nullptr))
    by by apply (proj1 Hg23), (proj1 Hg12).
  assert (Hnx3 : heap c3 !! Tree_X c1 = Some nx)
    by by apply (proj1 Hg23), (proj1 Hg12).
  injection Hkt as Hopt Hlt Hrt.
  assert (Ht0 : t ≠ nullptr) by (apply (live_not_null _ _ Hh3); eauto).
  assert (Htin : t ∈ nodes) by (apply Hreach; split; [done|constructor]).
  assert (Hchild : ∀ q, (q = Tree_X c1 ∨ q = k1) → q ∈ nodes).
  { intros q Hq. apply Hreach. split; [done|].
    eapply rtc_r; [constructor|]. split; [by destruct Hq as [->| ->]|].
    exists nt. split; [done|]. rewrite Hlt, Hrt. naive_solver. }
  assert (HmX : resolve m (Tree_X c1) = k5).
  { unfold resolve.
    rewrite (rd_leaf _ _ _ _ _ Hdone _ nx); [|auto|done|by rewrite Hopx].
    by rewrite <- HX3, remap_seed_X. }
  assert (Hmk1 : resolve m k1 = k1).
  { unfold resolve. rewrite (rd_leaf _ _ _ _ _ Hdone _ _ (Hchild k1 (or_intror eq_refl))
                               Hk13 eq_refl).
    rewrite remap_seed_not_axis; [done|]. intros Hk.
    destruct (axes_held_is_var _ _ Hax3 Hk) as (n' & Hn' & Hop').
    rewrite Hk13 in Hn'. by injection Hn' as <-. }
  destruct (rd_node _ _ _ _ _ Hdone t nt Htin Hnt3) as (p & Hp & Hops).
  { rewrite Hopt. simpl. lia. }
  rewrite Hopt, Hlt, Hrt, HmX, Hmk1 in Hops.
  assert (Hr : resolve m t = p) by (unfold resolve; by rewrite Hp).
  rewrite Hr in *. clear Hr.
  (* the image is live and registered after the map is gone *)
  destruct (wf_ops _ Hwfp _ _ Hops) as (np & Hnp & Hkp).
  assert (Hp0 : p ≠ nullptr) by (apply (live_not_null _ _ (wf_heap _ Hwfp)); eauto).
  rewrite hold_live in S4 by done.
  pose proof S4 as (Hwf4 & _ & _).
  assert (Hlive4 : ∀ q n, q ∈ {[+ p +]} ⊎ held3 → heap cp !! q = Some n →
                          heap c4 !! q = Some n).
  { intros q n Hq Hn. destruct (state_wf_live _ _ q S4 Hq) as [[n' Hn'] _].
    rewrite Hn'. f_equal. apply Hsub in Hn'. congruence. }
  assert (Hops4 : ops c4 !! (Opcode.ADD, k5, k1) = Some p).
  { rewrite <- Hkp. apply (wf_interned _ Hwf4).
    - apply Hlive4; [multiset_solver|done].
    - injection Hkp as -> _ _. simpl. lia. }
  pose proof (rd_grows _ _ _ _ _ Hdone) as Hg3p.
  assert (Hc5 : constants c4 !! Float32.five = Some k5).
  { apply (wf_const_interned _ Hwf4 k5
             (mkTree_ Opcode.CONST 0 Float32.five nullptr nullptr)); [|done].
    apply Hlive4; [unfold held3; multiset_solver|]. by apply (proj1 Hg3p). }
  assert (Hc1 : constants c4 !! Float32.one = Some k1).
  { apply (wf_const_interned _ Hwf4 k1
             (mkTree_ Opcode.CONST 0 Float32.one nullptr nullptr)); [|done].
    apply Hlive4; [unfold held3; multiset_solver|]. by apply (proj1 Hg3p). }
  (* building 5 + 1 *)
  cbv zeta. unfold Tree_constant.
  change (Float32.wrap Float32.five) with Float32.five.
  change (Float32.wrap Float32.one) with Float32.one.
  rewrite (Cache_constant_found alloc _ _ _ Hc5). simpl.
  rewrite (Cache_constant_found alloc _ (with_uses _ c4) k1 Hc1). simpl.
  destruct (state_wf_live _ _ k5 S3) as [_ Hk50]; [unfold held3; multiset_solver|].
  destruct (serialize_total opnum (Template_of_Tree p) c4 Hwf4) as [out Hout].
  { right. simpl. exists np. apply Hlive4; [multiset_solver|done]. }
  eexists _, out. split; [|split; [exact Hout|]].
  - apply Tree_operation_Ok. split; [by apply Cache_operation_found|].
    split_and!; try done.
    + unfold operand_count. by rewrite !decide_False.
    + by intros ?.
  - exact Hout.
Qed.

(** C5.  [X + 1] remapped with the constant 5 for [X] is the very node
    that [5 + 1] builds, so the two serialize alike.  In general [remap]
    goes through the nodes of [ordered], operands first; a node with
    operands is mapped to the node the cache holds for its opcode and its
    operands seen through the map (an operand without an image stands for
    itself); the other keys are as in the initial map; and the result is
    the root seen through the map. *)
Theorem remap_substitutes :
  (∀ (alloc : gmap Id Tree_ → Id) (opnum : Opcode → Z),
     let c0 := Cache_init alloc in
     let k1 := Tree_constant alloc Float32.one c0 in
     ∃ t c2,
       Tree_operation alloc Opcode.ADD (Tree_X k1.2) k1.1 k1.2 = Ok t c2 ∧
       let k5 := Tree_constant alloc Float32.five c2 in
       ∃ r c4,
         remap alloc k5.1 (Tree_Y k5.2) (Tree_Z k5.2) t k5.2 = Some (r, c4) ∧
         let a := Tree_constant alloc Float32.five c4 in
         let b := Tree_constant alloc Float32.one a.2 in
         ∃ c7 out,
           Tree_operation alloc Opcode.ADD a.1 b.1 b.2 = Ok r c7 ∧
           serialize opnum r (heap c4) = Some out ∧
           serialize opnum r (heap c7) = Some out) ∧
  (∀ (alloc : gmap Id Tree_ → Id) X_ Y_ Z_ root c,
     cache_wf c → axes_wf c → valid (heap c) root →
     ∃ nodes m c1 c',
       ordered (heap c) root = Some nodes ∧
       (∀ pre t rest q, nodes = pre ++ t :: rest → child (heap c) t q →
                        q ∈ pre) ∧
       remap_pass alloc X_ Y_ Z_ root c = Some (m, c1) ∧
       remap alloc X_ Y_ Z_ root c = Some (resolve m root, c') ∧
       (∀ t n, t ∈ nodes → heap c !! t = Some n → 1 ≤ Opcode.args (op n) →
          ∃ p, m !! t = Some p ∧
               ops c1 !! (op n, resolve m (lhs n), resolve m (rhs n)) = Some p) ∧
       (∀ k, (∀ n, k ∈ nodes → heap c !! k = Some n → Opcode.args (op n) = 0) →
             m !! k = (remap_seed X_ Y_ Z_ c).1 !! k)).
Proof.
  split; [exact remap_example|].
  intros alloc X_ Y_ Z_ root c Hwf Hax Hroot.
  destruct (remap_pass_spec alloc X_ Y_ Z_ root c Hwf Hax Hroot)
    as (nodes & m & c1 & Hord & Hpass & Hdone & Hreach & Hfirst).
  destruct (remap_of_pass alloc _ _ _ _ _ _ _ Hpass) as (c' & Hremap & _).
  exists nodes, m, c1, c'. split_and!; try done.
  - apply (rd_node _ _ _ _ _ Hdone).
  - intros k Hk. destruct (decide (k ∈ nodes)) as [Hin|Hout].
    + destruct (ordered_total _ _ (wf_heap _ Hwf) Hroot) as (l & Hl & _ & Hlive & _).
      assert (l = nodes) as -> by congruence.
      destruct (Hlive k Hin) as [n Hn].
      by apply (rd_leaf _ _ _ _ _ Hdone k n Hin Hn), Hk.
    + by apply (rd_rest _ _ _ _ _ Hdone).
Qed.

(* ================================================================== *)
(** ** [ordered] on a sum of two leaves *)

Lemma ordered_loop_visit f h t todo found ranks n :
  t ∉ found → h !! t = Some n →
  ordered_loop (S f) h (t :: todo) found ranks
  = ordered_loop f h (todo ++ [lhs n; rhs n]) ({[t]} ∪ found)
      (ranks_push (rank n) t ranks).
Proof. intros Ht Hn. simpl. by rewrite decide_False, Hn. Qed.

Lemma ordered_loop_skip f h t todo found ranks :
  t ∈ found →
  ordered_loop (S f) h (t :: todo) found ranks = ordered_loop f h todo found ranks.
Proof. intros Ht. simpl. by rewrite decide_True. Qed.

(** Two runs that both end give the same buckets, whatever their fuel. *)
Lemma ordered_loop_agree h f : ∀ f' todo found ranks r r',
  ordered_loop f h todo found ranks = Some r →
  ordered_loop f' h todo found ranks = Some r' → r = r'.
Proof.
  induction f as [|f IH]; intros f' todo found ranks r r'; [done|].
  destruct f' as [|f']; [done|]. simpl.
  destruct todo as [|t todo]; [congruence|].
  case_decide; [apply IH|]. destruct (h !! t); [apply IH|done].
Qed.

Lemma ordered_binary h t nt a b na nb :
  heap_wf h →
  h !! t = Some nt → lhs nt = a → rhs nt = b →
  h !! a = Some na → lhs na = nullptr → rhs na = nullptr → rank na = 0 →
  h !! b = Some nb → lhs nb = nullptr → rhs nb = nullptr → rank nb = 0 →
  a ≠ b →
  ordered h t = Some [a; b; t].
Proof.
  intros Hwf Ht Hl Hr Ha Hla Hra Hka Hb Hlb Hrb Hkb Hab.
  assert (Ht0 : t ≠ nullptr) by (apply (live_not_null _ _ Hwf); eauto).
  assert (Ha0 : a ≠ nullptr) by (apply (live_not_null _ _ Hwf); eauto).
  assert (Hb0 : b ≠ nullptr) by (apply (live_not_null _ _ Hwf); eauto).
  assert (Hta : t ≠ a) by (intros ->; congruence).
  assert (Htb : t ≠ b) by (intros ->; congruence).
  assert (Hrank : rank nt = 1).
  { rewrite (wf_rank _ Hwf _ _ Ht), Hl, Hr.
    rewrite (rank_above_live _ _ _ Ha0 Ha), (rank_above_live _ _ _ Hb0 Hb). lia. }
  destruct (ordered_total h t Hwf) as (l & Hord & _); [right; eauto|].
  rewrite Hord. f_equal. unfold ordered in Hord.
  destruct (ordered_loop (2 * size h + 2) h [t] {[nullptr]} []) as [r|] eqn:Hrun;
    [|done].
  injection Hord as <-.
  assert (Hrun8 : ordered_loop 8 h [t] {[nullptr]} []
                  = Some [(0, [a; b]); (1, [t])]).
  { rewrite (ordered_loop_visit _ _ _ _ _ _ nt) by (done || set_solver).
    rewrite Hl, Hr, Hrank. simpl app.
    rewrite (ordered_loop_visit _ _ _ _ _ _ na) by (done || set_solver).
    rewrite Hla, Hra, Hka. simpl app.
    rewrite (ordered_loop_visit _ _ _ _ _ _ nb) by (done || set_solver).
    rewrite Hlb, Hrb, Hkb. simpl app.
    do 4 (rewrite ordered_loop_skip by set_solver). done. }
  by rewrite (ordered_loop_agree _ _ _ _ _ _ _ _ Hrun Hrun8).
Qed.

(* ================================================================== *)
(** ** Building, dropping and rebuilding [1 + 2] *)

Lemma state_wf_proper c held held' :
  held = held' → state_wf c held → state_wf c held'.
Proof. by intros ->. Qed.

Lemma Tree_release_heap p c x n :
  heap (Tree_release p c) !! x = Some n → heap c !! x = Some n.
Proof. apply release_heap. Qed.

Section Sum.

Variable alloc : gmap Id Tree_ → Id.
Variable opnum : Opcode → Z.

(** From any well-formed state, [1 + 2] is built, and it serializes to
    [sum_bytes]. *)
Lemma build_sum_spec c held :
  state_wf c held →
  ∃ t c5, build_sum alloc c = Ok t c5 ∧
          state_wf c5 ({[+ t +]} ⊎ held) ∧
          serialize opnum t (heap c5) = Some (sum_bytes opnum).
Proof.
  intros S0. pose proof S0 as (Hwf0 & _ & _). unfold build_sum.
  (* the two constants *)
  pose proof (state_wf_constant alloc Float32.one c held S0) as S1.
  pose proof (Tree_constant_node alloc Float32.one c Hwf0) as Hk1.
  change (Float32.wrap Float32.one) with Float32.one in Hk1.
  destruct (Tree_constant alloc Float32.one c) as [k1 c1]. simpl in S1, Hk1.
  pose proof S1 as (Hwf1 & _ & _).
  pose proof (state_wf_constant alloc Float32.two c1 _ S1) as S2.
  pose proof (Tree_constant_node alloc Float32.two c1 Hwf1) as Hk2.
  change (Float32.wrap Float32.two) with Float32.two in Hk2.
  assert (Hg12 : grows c1 (Tree_constant alloc Float32.two c1).2)
    by apply Cache_constant_grows.
  destruct (Tree_constant alloc Float32.two c1) as [k2 c2]. simpl in S2, Hk2, Hg12.
  pose proof S2 as (Hwf2 & _ & _).
  assert (Hk1' : heap c2 !! k1
                 = Some (mkTree_ Opcode.CONST 0 Float32.one nullptr nullptr))
    by by apply (proj1 Hg12).
  assert (Hne : k1 ≠ k2) by (intros ->; rewrite Hk2 in Hk1'; discriminate Hk1').
  destruct (state_wf_live _ _ k1 S2) as [_ Hk10]; [multiset_solver|].
  destruct (state_wf_live _ _ k2 S2) as [_ Hk20]; [multiset_solver|].
  (* the sum *)
  destruct (Cache_operation alloc Opcode.ADD k1 k2 c2) as [t c3] eqn:Hc3.
  assert (Hok : Tree_operation alloc Opcode.ADD k1 k2 c2 = Ok t c3).
  { apply Tree_operation_Ok. split; [done|]. split_and!; try done.
    - unfold operand_count. by rewrite !decide_False.
    - by intros ?. }
  rewrite Hok.
  assert (S3 : state_wf c3 ({[+ t +]} ⊎ ({[+ k2 +]} ⊎ ({[+ k1 +]} ⊎ held)))).
  { eapply (state_wf_operation alloc Opcode.ADD k1 k2 c2); try done.
    - simpl. lia.
    - right. multiset_solver.
    - right. multiset_solver. }
  pose proof S3 as (Hwf3 & _ & _).
  assert (Hg23 : grows c2 c3).
  { pose proof (Cache_operation_grows alloc Opcode.ADD k1 k2 c2) as H.
    by rewrite Hc3 in H. }
  assert (Ht3 : ∃ nt, heap c3 !! t = Some nt ∧ key_of nt = (Opcode.ADD, k1, k2)).
  { apply (wf_ops _ Hwf3).
    pose proof (Cache_operation_ops alloc Opcode.ADD k1 k2 c2) as H.
    by rewrite Hc3 in H. }
  destruct Ht3 as (nt & Hnt & Hkt). injection Hkt as Hopt Hlt Hrt.
  (* the temporaries are dropped *)
  assert (S4 : state_wf (Tree_release k2 c3) ({[+ t +]} ⊎ ({[+ k1 +]} ⊎ held))).
  { apply state_wf_release. eapply state_wf_proper; [|exact S3]. multiset_solver. }
  assert (S5 : state_wf (Tree_release k1 (Tree_release k2 c3)) ({[+ t +]} ⊎ held)).
  { apply state_wf_release. eapply state_wf_proper; [|exact S4]. multiset_solver. }
  set (c5 := Tree_release k1 (Tree_release k2 c3)) in *.
  exists t, c5. split; [done|]. split; [done|].
  (* the nodes of the sum *)
  pose proof S5 as (Hwf5 & _ & _). pose proof (wf_heap _ Hwf5) as Hh5.
  assert (Hsub : ∀ x n, heap c5 !! x = Some n → heap c3 !! x = Some n).
  { intros x n Hx. by do 2 apply Tree_release_heap in Hx. }
  assert (Hnt5 : heap c5 !! t = Some nt).
  { destruct (state_wf_live _ _ t S5) as [[n Hn] _]; [multiset_solver|].
    rewrite Hn. f_equal. apply Hsub in Hn. congruence. }
  assert (Hk15 : heap c5 !! k1
                 = Some (mkTree_ Opcode.CONST 0 Float32.one nullptr nullptr)).
  { destruct (wf_lhs _ Hh5 _ _ Hnt5) as [E|[n Hn]]; [congruence|].
    rewrite Hlt in Hn. rewrite Hn. f_equal. apply Hsub in Hn.
    rewrite (proj1 Hg23 _ _ Hk1') in Hn. congruence. }
  assert (Hk25 : heap c5 !! k2
                 = Some (mkTree_ Opcode.CONST 0 Float32.two nullptr nullptr)).
  { destruct (wf_rhs _ Hh5 _ _ Hnt5) as [E|[n Hn]]; [congruence|].
    rewrite Hrt in Hn. rewrite Hn. f_equal. apply Hsub in Hn.
    rewrite (proj1 Hg23 _ _ Hk2) in Hn. congruence. }
  assert (Hord : ordered (heap c5) t = Some [k1; k2; t]).
  { by eapply (ordered_binary (heap c5) t nt k1 k2). }
  (* the stream *)
  assert (Hvt : valid (heap c5) t) by (right; eauto).
  pose proof (ordered_written_operand c5 t _ Hwf5 Hvt Hord) as Htopo.
  destruct (ordered_total _ _ Hh5 Hvt) as (l & Hl & Hnd & Hlive & _).
  assert (l = [k1; k2; t]) as -> by congruence.
  destruct (serialize_loop_spec opnum (Template_of_Tree t) (heap c5) [k1; k2; t]
              Hnd Hlive Htopo [k1; k2; t] []
              (serializeString EmptyString (serializeString EmptyString [TAG])) ∅)
    as (ids & Hloop & _); [done|apply ids_of_nil|].
  unfold serialize, serialize_template. change (tree (Template_of_Tree t)) with t.
  rewrite Hord. change (Some [k1; k2; t] ≫= ?f) with (f [k1; k2; t]). cbv beta.
  change (doc (Template_of_Tree t)) with EmptyString.
  change (name (Template_of_Tree t)) with EmptyString.
  rewrite Hloop. simpl. unfold node_record. rewrite Hk15, Hk25, Hnt5.
  unfold node_payload, node_operands. simpl. rewrite Hopt, Hlt, Hrt. simpl.
  rewrite (decide_False (P := k1 = k2)) by done.
  rewrite !decide_True by done. done.
Qed.

End Sum.

(* ================================================================== *)
(** ** Runs on the sample programs *)

Lemma sample_closed_Ok : sample_closed = Ok closed_root closed_cache.
Proof.
  unfold closed_root, closed_cache.
  destruct sample_closed as [p c|c] eqn:H; [done|].
  vm_compute in H. discriminate H.
Qed.

Lemma closed_state_wf :
  state_wf closed_cache ({[+ closed_root +]} ⊎ ({[+ sample_one.1 +]} ⊎ ∅)).
Proof.
  apply reachable_wf.
  eapply (reach_operation no_hint Opcode.ADD sample_one.1 sample_one.1 sample_one.2).
  - apply reach_constant, reach_start.
  - simpl. lia.
  - right. multiset_solver.
  - right. multiset_solver.
  - apply sample_closed_Ok.
Qed.

(** What [ordered] does not list cannot be reached. *)
Lemma not_listed_not_reached h root l a :
  heap_wf h → is_Some (h !! root) → ordered h root = Some l → a ∉ l →
  ¬ reaches h root a.
Proof.
  intros Hwf Hroot Hl Ha Hr.
  destruct (ordered_total h root Hwf) as (l' & Hl' & _ & _ & _ & Hreach);
    [by right|].
  assert (l' = l) as -> by congruence.
  apply Ha, Hreach. split; [|done]. by apply (live_not_null _ _ Hwf).
Qed.

(** A run of C4: the sample tree [X + 1]. *)
Lemma serialize_spec_witness :
  cache_wf sample_cache ∧
  valid (heap sample_cache) (tree (Template_of_Tree sample_root)) ∧
  (Z.of_nat (size (heap sample_cache)) < 2 ^ 32)%Z ∧
  ∃ nodes out (ids : gmap Id Z),
    ordered (heap sample_cache) sample_root = Some nodes ∧
    serialize sample_opnum sample_root (heap sample_cache) = Some out ∧
    out = stated_encoding sample_opnum (Template_of_Tree sample_root)
            (heap sample_cache) nodes ∧
    (∀ i p, nodes !! i = Some p → ids !! p = Some (Z.of_nat i)).
Proof.
  assert (H1 : valid (heap sample_cache) (tree (Template_of_Tree sample_root))).
  { right. apply sample_root_live. }
  assert (H2 : (Z.of_nat (size (heap sample_cache)) < 2 ^ 32)%Z) by by vm_compute.
  split; [exact sample_cache_wf|]. split; [exact H1|]. split; [exact H2|].
  destruct (serialize_spec sample_opnum (Template_of_Tree sample_root) sample_cache
              sample_cache_wf H1 H2)
    as (nodes & out & ids & Hord & _ & Hser & Hout & Hids & _).
  by exists nodes, out, ids.
Defined.

(** A run of C8 at process start. *)
Lemma constant_serialization_witness :
  cache_wf (Cache_init no_hint) ∧
  serialize_template sample_opnum
    (mkTemplate (Tree_constant no_hint Float32.three (Cache_init no_hint)).1
       "t" EmptyString ∅ ∅)
    (heap (Tree_constant no_hint Float32.three (Cache_init no_hint)).2)
  = Some [84; 34; 116; 34; 34; 34; 0; 0; 0; 0; 0; 0; 0; 8; 64]%Z.
Proof.
  split; [apply Cache_init_wf|].
  exact (proj2 (proj2 (proj2 (constant_serialization no_hint sample_opnum _
                                (Cache_init_wf no_hint))))).
Defined.

(** A run of C6: [1 + 1] remapped by three copies of itself. *)
Lemma remap_noop_witness :
  cache_wf closed_cache ∧ axes_wf closed_cache ∧
  valid (heap closed_cache) closed_root ∧
  (∀ a, a ∈ axes_held closed_cache → ¬ reaches (heap closed_cache) closed_root a) ∧
  ∃ c', remap no_hint closed_root closed_root closed_root closed_root closed_cache
        = Some (closed_root, c').
Proof.
  destruct closed_state_wf as (Hwf & Hax & _).
  assert (Hlive : is_Some (heap closed_cache !! closed_root)).
  { vm_compute. eauto. }
  assert (Hfree : ∀ a, a ∈ axes_held closed_cache →
                       ¬ reaches (heap closed_cache) closed_root a).
  { intros a Ha.
    eapply (not_listed_not_reached _ _ [sample_one.1; closed_root]);
      [apply (wf_heap _ Hwf)|done|by vm_compute|].
    unfold axes_held in Ha.
    assert (a = Tree_X closed_cache ∨ a = Tree_Y closed_cache
            ∨ a = Tree_Z closed_cache) as [ -> | [ -> | -> ] ] by multiset_solver;
      vm_compute; intros Hin;
      repeat (apply elem_of_cons in Hin as [Hin|Hin]; [discriminate Hin|]);
      by apply elem_of_nil in Hin. }
  split; [done|]. split; [done|]. split; [by right|]. split; [done|].
  exact (remap_noop no_hint closed_root closed_root closed_root closed_root
           closed_cache Hwf Hax (or_intror Hlive) Hfree).
Defined.

(** A run of C5: the sample tree [X + 1] with 5 for [X], and the bytes of
    the result. *)
Lemma remap_substitutes_witness :
  let k5 := Tree_constant no_hint Float32.five sample_cache in
  cache_wf k5.2 ∧ axes_wf k5.2 ∧ valid (heap k5.2) sample_root ∧
  (∃ m c', remap no_hint k5.1 (Tree_Y k5.2) (Tree_Z k5.2) sample_root k5.2
           = Some (resolve m sample_root, c') ∧
           m !! sample_root = Some 7 ∧
           serialize sample_opnum 7 (heap c')
           = Some [84; 34; 34; 34; 34;
                   0; 0; 0; 0; 0; 0; 0; 20; 64;
                   0; 0; 0; 0; 0; 0; 0; 240; 63;
                   12; 1; 0; 0; 0; 0; 0; 0; 0]%Z).
Proof.
  intros k5.
  pose proof (state_wf_constant no_hint Float32.five _ _
                (reachable_wf _ _ sample_reachable)) as (Hwf & Hax & _).
  fold k5 in Hwf, Hax.
  assert (Hv : valid (heap k5.2) sample_root).
  { right. vm_compute. eauto. }
  split; [done|]. split; [done|]. split; [done|].
  destruct (proj2 remap_substitutes no_hint k5.1 (Tree_Y k5.2) (Tree_Z k5.2)
              sample_root k5.2 Hwf Hax Hv)
    as (nodes & m & c1 & c' & _ & _ & Hpass & Hremap & _).
  exists m, c'. split; [done|].
  assert (Hm : m !! sample_root = Some 7).
  { vm_compute in Hpass. injection Hpass as <- _. by vm_compute. }
  split; [done|].
  unfold resolve in Hremap. rewrite Hm in Hremap. simpl in Hremap.
  vm_compute in Hremap. injection Hremap as <-. by vm_compute.
Defined.

(** C9.  In every state a program can bring about, [1 + 2] can be built,
    dropped and built again, under any two allocators: the state after
    the drop is well formed (every entry of the cache leads to a live
    node), the second build returns, and both trees serialize to the same
    bytes.  The destructor leaves the heap alone and keeps every entry
    that leads to another node than the one being destroyed; on a [VAR]
    node it does nothing at all. *)
Theorem eviction_correctness :
  (∀ (alloc alloc' : gmap Id Tree_ → Id) (opnum : Opcode → Z) c held,
     reachable c held →
     ∃ t c1, build_sum alloc c = Ok t c1 ∧
       state_wf (Tree_release t c1) held ∧
       ∃ t' c3, build_sum alloc' (Tree_release t c1) = Ok t' c3 ∧
         state_wf c3 ({[+ t' +]} ⊎ held) ∧
         serialize opnum t (heap c1) = Some (sum_bytes opnum) ∧
         serialize opnum t' (heap c3) = Some (sum_bytes opnum)) ∧
  (∀ self n c,
     heap (Tree__dtor self n c) = heap c ∧
     (∀ v q, constants c !! v = Some q → q ≠ self →
             constants (Tree__dtor self n c) !! v = Some q) ∧
     (∀ k q, ops c !! k = Some q → q ≠ self →
             ops (Tree__dtor self n c) !! k = Some q) ∧
     (∀ v q, constants (Tree__dtor self n c) !! v = Some q →
             constants c !! v = Some q) ∧
     (∀ k q, ops (Tree__dtor self n c) !! k = Some q → ops c !! k = Some q)) ∧
  (∀ self n c, op n = Opcode.VAR → Tree__dtor self n c = c).
Proof.
  split_and!.
  - intros alloc alloc' opnum c held Hr. apply reachable_wf in Hr.
    destruct (build_sum_spec alloc opnum c held Hr) as (t & c1 & Hb & S1 & Hser).
    exists t, c1. split; [done|].
    pose proof (state_wf_release t c1 held S1) as S2. split; [done|].
    destruct (build_sum_spec alloc' opnum _ held S2) as (t' & c3 & Hb' & S3 & Hser').
    by exists t', c3.
  - intros self n c. split_and!.
    + apply Tree__dtor_heap.
    + intros v q Hv Hq. by apply Tree__dtor_constants_keep.
    + intros k q Hk Hq. by apply Tree__dtor_ops_keep.
    + apply Tree__dtor_constants.
    + apply Tree__dtor_ops.
  - intros self n c Hop. unfold Tree__dtor. rewrite Hop.
    rewrite decide_False by done. by rewrite decide_False by (by intros ?).
Qed.

(** A run of C9 at process start; the second build is under an allocator
    that takes no address again, and its nodes are new. *)
Lemma eviction_correctness_witness :
  reachable (Cache_init no_hint) ∅ ∧
  ∃ t c1, build_sum no_hint (Cache_init no_hint) = Ok t c1 ∧
    heap (Tree_release t c1) = heap (Cache_init no_hint) ∧
    constants (Tree_release t c1) = ∅ ∧ ops (Tree_release t c1) = ∅ ∧
    ∃ t' c3, build_sum far_hint (Tree_release t c1) = Ok t' c3 ∧ t' ≠ t ∧
      serialize sample_opnum t (heap c1)
      = Some [84; 34; 34; 34; 34;
              0; 0; 0; 0; 0; 0; 0; 240; 63;
              0; 0; 0; 0; 0; 0; 0; 0; 64;
              12; 1; 0; 0; 0; 0; 0; 0; 0]%Z ∧
      serialize sample_opnum t' (heap c3) = serialize sample_opnum t (heap c1).
Proof.
  split; [apply reach_start|].
  destruct (proj1 eviction_correctness no_hint far_hint sample_opnum
              (Cache_init no_hint) ∅ (reach_start no_hint))
    as (t & c1 & Hb & _ & t' & c3 & Hb' & _ & Hs & Hs').
  exists t, c1. split; [done|].
  vm_compute in Hb. injection Hb as <- <-.
  split; [by vm_compute|]. split; [by vm_compute|]. split; [by vm_compute|].
  exists t', c3. split; [done|].
  vm_compute in Hb'. injection Hb' as <- <-.
  split; [by vm_compute|]. split; [exact Hs|].
  by rewrite Hs, Hs'.
Defined.

(* ================================================================== *)
(** ** Hash-consing *)

(** In a well-formed state no two live nodes, variables apart, have the
    same opcode, operands and value. *)
Lemma cache_wf_unique c p q n n' :
  cache_wf c → heap c !! p = Some n → heap c !! q = Some n' →
  op n ≠ Opcode.VAR → key_of n = key_of n' → value n = value n' → p = q.
Proof.
  intros Hwf Hp Hq Hvar Hkey Hval.
  assert (Hop : op n' = op n) by (by injection Hkey).
  destruct (decide (op n = Opcode.CONST)) as [Hc|Hc].
  - pose proof (wf_const_interned _ Hwf _ _ Hp Hc) as H1.
    pose proof (wf_const_interned _ Hwf _ _ Hq (eq_trans Hop Hc)) as H2.
    congruence.
  - assert (Har : 1 ≤ Opcode.args (op n)) by (destruct (op n); simpl; done || lia).
    pose proof (wf_interned _ Hwf _ _ Hp Har) as H1.
    rewrite <- Hop in Har. pose proof (wf_interned _ Hwf _ _ Hq Har) as H2.
    congruence.
Qed.

(** C1.  Construction is hash-consed.  Once [Tree(op, a, b)] has returned
    a handle, a second call with the same opcode and operands returns the
    same handle, in every later state that still has what the first call
    left (whatever the allocator does in between); the same holds for
    [Tree(v)] on every bit pattern [v], a NaN included, and its node is
    entered under the bit pattern ([Tree(v)] has no failing branch).  In
    every state a program can bring about, no two live nodes other than
    variables have the same opcode, operands and value. *)
Theorem construction_is_hash_consed (alloc alloc' : gmap Id Tree_ → Id) :
  (∀ o a b c p c1 c2,
      Tree_operation alloc o a b c = Ok p c1 → grows c1 c2 →
      ∃ c3, Tree_operation alloc' o a b c2 = Ok p c3) ∧
  (∀ v c c2,
      grows (Tree_constant alloc v c).2 c2 →
      (Tree_constant alloc' v c2).1 = (Tree_constant alloc v c).1) ∧
  (∀ v c,
      constants (Tree_constant alloc v c).2 !! Float32.wrap v
      = Some (Tree_constant alloc v c).1) ∧
  (∀ c held p q n n',
      reachable c held → heap c !! p = Some n → heap c !! q = Some n' →
      op n ≠ Opcode.VAR → key_of n = key_of n' → value n = value n' → p = q).
Proof.
  split_and!.
  - intros o a b c p c1 c2 Hok Hg.
    apply Tree_operation_Ok in Hok as (Hc & Hcount & Hfirst & Hpow & Hroot).
    pose proof (Cache_operation_ops alloc o a b c) as Hk.
    pose proof (Cache_operation_grows alloc o a b c) as Hg0.
    rewrite Hc in Hk, Hg0. simpl in Hk, Hg0.
    assert (Hk2 : ops c2 !! (o, a, b) = Some p) by by apply Hg.
    exists (Cache_operation alloc' o a b c2).2.
    apply Tree_operation_Ok. split; [|split_and!; try done].
    + unfold Cache_operation. by rewrite Hk2.
    + intros Ho. eapply grows_integral_constant; [|by apply Hpow].
      by eapply grows_trans.
    + intros Ho. eapply grows_positive_integral_constant; [|by apply Hroot].
      by eapply grows_trans.
  - intros v c c2 (_ & Hg & _). unfold Tree_constant in *.
    pose proof (Cache_constant_entry alloc (Float32.wrap v) c) as Hk.
    apply Hg in Hk. unfold Cache_constant at 1. by rewrite Hk.
  - intros v c. apply Cache_constant_entry.
  - intros c held p q n n' Hr. apply reachable_wf in Hr as (Hwf & _).
    by apply cache_wf_unique.
Qed.

(** A run of C1: [X + Y] is built, then the constant NaN twice, then
    [X + Y] again. *)
Lemma construction_is_hash_consed_witness :
  let c := Cache_init no_hint in
  let r := Tree_operation no_hint Opcode.ADD (Tree_X c) (Tree_Y c) c in
  ∃ p c1, r = Ok p c1 ∧
    let k := Tree_constant no_hint Float32.quiet_nan c1 in
    grows c1 k.2 ∧
    (∃ c3, Tree_operation no_hint Opcode.ADD (Tree_X c) (Tree_Y c) k.2 = Ok p c3) ∧
    (Tree_constant no_hint Float32.quiet_nan k.2).1 = k.1.
Proof.
  intros c r.
  destruct r as [p c1|c1] eqn:Hr; [|by vm_compute in Hr].
  exists p, c1. split; [done|]. intros k.
  assert (Hg : grows c1 k.2) by apply Cache_constant_grows.
  split; [done|]. split.
  - exact (proj1 (construction_is_hash_consed no_hint no_hint) _ _ _ _ _ _ _ Hr Hg).
  - apply (proj1 (proj2 (construction_is_hash_consed no_hint no_hint))).
    apply grows_refl.
Defined.

(* ================================================================== *)
(** ** [serializeString] as a code *)

Lemma byte_of_ascii_inj a b : byte_of_ascii a = byte_of_ascii b → a = b.
Proof.
  unfold byte_of_ascii. intros H. apply N2Z.inj in H.
  rewrite <- (Ascii.ascii_N_embedding a), <- (Ascii.ascii_N_embedding b).
  by rewrite H.
Qed.

Lemma escape_head_not_quote a s r : ∀ r', escape (String a s) ++ r ≠ QUOTE :: r'.
Proof.
  intros r'. simpl. case_decide as Hs; simpl; intros H; injection H as H _.
  - discriminate H.
  - apply Hs. by left.
Qed.

Lemma escape_delimited s1 : ∀ s2 r1 r2,
  escape s1 ++ QUOTE :: r1 = escape s2 ++ QUOTE :: r2 → s1 = s2 ∧ r1 = r2.
Proof.
  induction s1 as [|a s1 IH]; intros [|b s2] r1 r2 H.
  - simpl in H. by injection H as ->.
  - symmetry in H. by apply escape_head_not_quote in H.
  - by apply escape_head_not_quote in H.
  - simpl in H. repeat case_decide; simpl in H.
    + injection H as Hab H. apply byte_of_ascii_inj in Hab as ->.
      apply IH in H as [-> ->]. done.
    + injection H as Hb _. exfalso. naive_solver.
    + injection H as Ha _. exfalso. naive_solver.
    + injection H as Hab H. apply byte_of_ascii_inj in Hab as ->.
      apply IH in H as [-> ->]. done.
Qed.

(** X1.  [serializeString] writes a self-delimiting code: from
    what it appended, followed by anything, the string and the rest are
    determined.  (Quotes and backslashes inside are escaped, so the closing
    quote is the first quote that no backslash announces.) *)
Theorem serializeString_self_delimiting s1 s2 out r1 r2 :
  serializeString s1 out ++ r1 = serializeString s2 out ++ r2 →
  s1 = s2 ∧ r1 = r2.
Proof.
  unfold serializeString. rewrite <- !app_assoc. intros H.
  apply app_inv_head in H. simpl in H. injection H as H.
  by apply escape_delimited in H.
Qed.

Lemma escape_length s : length (escape s) = String.length s + specials s.
Proof.
  induction s as [|a s IH]; [done|]. simpl. rewrite length_app, IH.
  case_decide; simpl; lia.
Qed.

Lemma specials_le s : specials s ≤ String.length s.
Proof. induction s as [|a s IH]; simpl; [done|]. case_decide; lia. Qed.

(** X2.  [serializeString] appends the two quotes, every character
    of the string, and one backslash more for each quote or backslash in
    it: between [n + 2] and [2 n + 2] bytes for a string of [n]
    characters. *)
Theorem serializeString_length s out :
  length (serializeString s out)
  = length out + String.length s + specials s + 2 ∧
  length out + String.length s + 2 ≤ length (serializeString s out)
  ≤ length out + 2 * String.length s + 2.
Proof.
  assert (length (serializeString s out)
          = length out + String.length s + specials s + 2) as ->.
  { unfold serializeString. rewrite !length_app, escape_length. simpl. lia. }
  pose proof (specials_le s). lia.
Qed.

(* ================================================================== *)
(** ** [ordered] and [serialize] look at the graph below the root only *)

Lemma ordered_loop_heap_mono (h h' : gmap Id Tree_) f :
  h ⊆ h' → ∀ todo found ranks r,
  ordered_loop f h todo found ranks = Some r →
  ordered_loop f h' todo found ranks = Some r.
Proof.
  intros Hsub. induction f as [|f IH]; intros todo found ranks r H; [done|].
  destruct todo as [|t todo]; [done|]. simpl in *.
  case_decide; [by apply IH|].
  destruct (h !! t) as [n|] eqn:Ht; [|done].
  rewrite (lookup_weaken _ _ _ _ Ht Hsub). by apply IH.
Qed.

Lemma ordered_loop_fuel_mono h f : ∀ f' todo found ranks r,
  f ≤ f' → ordered_loop f h todo found ranks = Some r →
  ordered_loop f' h todo found ranks = Some r.
Proof.
  induction f as [|f IH]; intros f' todo found ranks r Hle H; [done|].
  destruct f' as [|f']; [lia|].
  destruct todo as [|t todo]; [done|]. simpl in *.
  case_decide; [apply IH; [lia|done]|].
  destruct (h !! t) as [n|]; [|done]. apply IH; [lia|done].
Qed.

Lemma ordered_heap_mono (h h' : gmap Id Tree_) root l :
  h ⊆ h' → ordered h root = Some l → ordered h' root = Some l.
Proof.
  intros Hsub. unfold ordered. intros H.
  apply fmap_Some in H as (ranks & H & ->).
  apply (ordered_loop_heap_mono _ _ _ Hsub) in H.
  apply (ordered_loop_fuel_mono _ _ (2 * size h' + 2)) in H.
  - by rewrite H.
  - apply map_subseteq_size in Hsub. lia.
Qed.

Lemma reaches_before_root h root l :
  NoDup l → (∀ p, p ∈ l ↔ reaches h root p) →
  (∀ i j p q, l !! i = Some p → l !! j = Some q → child h p q → j < i) →
  ∀ q, reaches h root q → ∀ i j, l !! i = Some root → l !! j = Some q → j ≤ i.
Proof.
  intros Hnd Hin Hpos q Hq. revert q Hq.
  apply (rtc_ind_r (λ q, ∀ i j, l !! i = Some root → l !! j = Some q → j ≤ i)).
  - intros i j Hi Hj. by rewrite (NoDup_lookup _ _ _ _ Hnd Hi Hj).
  - intros p q Hp Hpq IH i j Hi Hj.
    assert (p ∈ l) as Hpl by by apply Hin.
    apply list_elem_of_lookup in Hpl as [k Hk].
    specialize (IH _ _ Hi Hk). specialize (Hpos _ _ _ _ Hk Hj Hpq). lia.
Qed.

(** The root comes last. *)
Lemma ordered_root_last h root l :
  heap_wf h → is_Some (h !! root) → ordered h root = Some l →
  last l = Some root.
Proof.
  intros Hwf Hroot Hl.
  destruct (ordered_total h root Hwf (or_intror Hroot))
    as (l' & Hl' & Hnd & Hlive & Hpos & Hin).
  rewrite Hl in Hl'. injection Hl' as <-.
  assert (Hnn : root ≠ nullptr) by by eapply live_not_null.
  assert (Hin' : ∀ p, p ∈ l ↔ reaches h root p) by (intros p; rewrite Hin; tauto).
  assert (Hr : root ∈ l) by (apply Hin'; apply rtc_refl).
  apply list_elem_of_lookup in Hr as [i Hi].
  destruct (last l) as [q|] eqn:Hlast.
  - rewrite last_lookup in Hlast.
    assert (Hq : reaches h root q).
    { apply Hin'. by eapply list_elem_of_lookup_2. }
    pose proof (reaches_before_root h root l Hnd Hin' Hpos q Hq _ _ Hi Hlast).
    apply lookup_lt_Some in Hi as Hlt.
    assert (i = pred (length l)) as -> by lia. congruence.
  - apply last_None in Hlast. subst l. by rewrite lookup_nil in Hi.
Qed.

(** X3.  The list of [ordered()] on a live root ends with the
    root and starts with a node of rank 0 that has no operands. *)
Theorem ordered_ends_with_root h root l :
  heap_wf h → is_Some (h !! root) → ordered h root = Some l →
  last l = Some root ∧
  ∃ t n, head l = Some t ∧ h !! t = Some n ∧
         lhs n = nullptr ∧ rhs n = nullptr ∧ rank n = 0.
Proof.
  intros Hwf Hroot Hl. split; [by eapply ordered_root_last|].
  destruct (ordered_total h root Hwf (or_intror Hroot))
    as (l' & Hl' & Hnd & Hlive & Hpos & Hin).
  rewrite Hl in Hl'. injection Hl' as <-.
  assert (Hnn : root ≠ nullptr) by by eapply live_not_null.
  assert (Hin' : ∀ p, p ∈ l ↔ reaches h root p) by (intros p; rewrite Hin; tauto).
  assert (Hr : root ∈ l) by (apply Hin'; apply rtc_refl).
  destruct l as [|t l]; [by apply elem_of_nil in Hr|].
  destruct (Hlive t) as [n Hn]; [left|].
  exists t, n. split; [done|]. split; [done|].
  assert (Hl0 : lhs n = nullptr).
  { destruct (decide (lhs n = nullptr)) as [|Hne]; [done|].
    assert (Hc : child h t (lhs n)) by (split; [done|]; eauto).
    assert (Hm : lhs n ∈ t :: l).
    { apply Hin'. eapply rtc_r; [|exact Hc]. apply Hin'. left. }
    apply list_elem_of_lookup in Hm as [j Hj].
    specialize (Hpos 0 j t (lhs n) eq_refl Hj Hc). lia. }
  assert (Hr0 : rhs n = nullptr).
  { destruct (decide (rhs n = nullptr)) as [|Hne]; [done|].
    assert (Hc : child h t (rhs n)) by (split; [done|]; eauto).
    assert (Hm : rhs n ∈ t :: l).
    { apply Hin'. eapply rtc_r; [|exact Hc]. apply Hin'. left. }
    apply list_elem_of_lookup in Hm as [j Hj].
    specialize (Hpos 0 j t (rhs n) eq_refl Hj Hc). lia. }
  split; [done|]. split; [done|].
  rewrite (wf_rank _ Hwf _ _ Hn), Hl0, Hr0. by rewrite rank_above_null.
Qed.

Section Serialize_mono.

Variable opnum : Opcode → Z.

Lemma serialize_node_heap_mono t (h h' : gmap Id Tree_) out ids p x :
  h ⊆ h' → serialize_node opnum t h out ids p = Some x →
  serialize_node opnum t h' out ids p = Some x.
Proof.
  intros Hsub. unfold serialize_node. intros H.
  destruct (h !! p) as [n|] eqn:Hp; [|done].
  by rewrite (lookup_weaken _ _ _ _ Hp Hsub).
Qed.

Lemma serialize_loop_heap_mono t (h h' : gmap Id Tree_) nodes :
  h ⊆ h' → ∀ out ids x,
  serialize_loop opnum t h out ids nodes = Some x →
  serialize_loop opnum t h' out ids nodes = Some x.
Proof.
  intros Hsub. induction nodes as [|p nodes IH]; intros out ids x H; [done|].
  simpl in *.
  destruct (serialize_node opnum t h out ids p) as [[out' ids']|] eqn:Hn; [|done].
  rewrite (serialize_node_heap_mono _ _ _ _ _ _ _ Hsub Hn). simpl in *. by apply IH.
Qed.

Lemma serialize_template_heap_mono t (h h' : gmap Id Tree_) out :
  h ⊆ h' → serialize_template opnum t h = Some out →
  serialize_template opnum t h' = Some out.
Proof.
  intros Hsub. unfold serialize_template. intros H.
  destruct (ordered h (tree t)) as [nodes|] eqn:Ho; [|done].
  rewrite (ordered_heap_mono _ _ _ _ Hsub Ho). simpl in *.
  apply fmap_Some in H as (x & H & ->).
  by rewrite (serialize_loop_heap_mono _ _ _ _ Hsub _ _ _ H).
Qed.

End Serialize_mono.

(** X4.  [ordered()] reads the nodes below the root only: on a heap
    that has all the nodes of [h] and more, it returns the same list (so
    building other trees does not change it); and when nodes are taken
    from a heap, it returns the same list as long as the state stays well
    formed with the root valid. *)
Theorem ordered_heap_extension :
  (∀ (h h' : gmap Id Tree_) root l,
     h ⊆ h' → ordered h root = Some l → ordered h' root = Some l) ∧
  (∀ (h h' : gmap Id Tree_) root,
     h ⊆ h' → heap_wf h → valid h root → ordered h' root = ordered h root).
Proof.
  split.
  - apply ordered_heap_mono.
  - intros h h' root Hsub Hwf Hv.
    destruct (ordered_total h root Hwf Hv) as (l & Hl & _).
    rewrite Hl. by eapply ordered_heap_mono.
Qed.

(** X5.  [serialize] reads the nodes below the root only: the bytes
    stay the same on every heap that has all the nodes of [h] and more,
    and on every smaller well-formed state in which the root is valid. *)
Theorem serialize_heap_extension (opnum : Opcode → Z) (t : Template) :
  (∀ (h h' : gmap Id Tree_) out,
     h ⊆ h' → serialize_template opnum t h = Some out →
     serialize_template opnum t h' = Some out) ∧
  (∀ c (h' : gmap Id Tree_),
     heap c ⊆ h' → cache_wf c → valid (heap c) (tree t) →
     serialize_template opnum t h' = serialize_template opnum t (heap c)).
Proof.
  split.
  - intros h h' out. apply serialize_template_heap_mono.
  - intros c h' Hsub Hwf Hv.
    destruct (serialize_total opnum t c Hwf Hv) as (out & Hout).
    rewrite Hout. by eapply serialize_template_heap_mono.
Qed.

(* ================================================================== *)
(** ** The operators *)

Section Operator_proofs.

Variable alloc : gmap Id Tree_ → Id.

Lemma rank_above_grows c c' a :
  grows c c' → valid (heap c) a → rank_above (heap c') a = rank_above (heap c) a.
Proof.
  intros (Hg & _) [->|[n Hn]]; [done|].
  unfold rank_above. case_decide; [done|]. by rewrite Hn, (Hg _ _ Hn).
Qed.

Lemma rank_of_grows c c' a :
  grows c c' → is_Some (heap c !! a) → rank_of (heap c') a = rank_of (heap c) a.
Proof.
  intros (Hg & _) [n Hn]. unfold rank_of. by rewrite Hn, (Hg _ _ Hn).
Qed.

(** The node that a passing [Tree(op, a, b)] returns. *)
Lemma Tree_operation_node o a b c held p c' :
  state_wf c held → 1 ≤ Opcode.args o → handle c held a → handle c held b →
  Tree_operation alloc o a b c = Ok p c' →
  ∃ n, heap c' !! p = Some n ∧ key_of n = (o, a, b) ∧
       rank n = rank_above (heap c) a `max` rank_above (heap c) b ∧
       grows c c' ∧ axes c' = axes c ∧ state_wf c' ({[+ p +]} ⊎ held).
Proof.
  intros Hs Har Ha Hb Hok.
  pose proof (state_wf_operation alloc _ _ _ _ _ _ _ Hs Har Ha Hb Hok) as Hs'.
  destruct Hs as (Hwf & Hax & Hown).
  pose proof (handle_valid _ _ _ Hown Ha) as Hva.
  pose proof (handle_valid _ _ _ Hown Hb) as Hvb.
  apply Tree_operation_Ok in Hok as (Hc & _).
  pose proof (Cache_operation_ops alloc o a b c) as Hk.
  pose proof (Cache_operation_grows alloc o a b c) as Hg.
  pose proof (Cache_operation_axes alloc o a b c) as Haxes.
  rewrite Hc in Hk, Hg, Haxes. simpl in Hk, Hg, Haxes.
  destruct Hs' as (Hwf' & Hrest).
  destruct (wf_ops _ Hwf' _ _ Hk) as (n & Hn & Hkey).
  exists n. split_and!; try done.
  injection Hkey as Ho Hl Hr.
  rewrite (wf_rank _ (wf_heap _ Hwf') _ _ Hn), Hl, Hr.
  by rewrite !(rank_above_grows c c').
Qed.

Lemma Tree_operation_arity o a b c :
  operand_count a b ≠ Opcode.args o → aborted (Tree_operation alloc o a b c).
Proof. intros H. apply Tree_operation_aborted. tauto. Qed.

Lemma Tree_operation_passes o a b c :
  operand_count a b = Opcode.args o → lhs_first a b →
  o ≠ Opcode.POW → o ≠ Opcode.NTH_ROOT →
  ∃ p c', Tree_operation alloc o a b c = Ok p c'.
Proof.
  intros Hc Hf Hp Hr.
  destruct (Tree_operation alloc o a b c) as [p c'|c'] eqn:Hop; [eauto|].
  exfalso.
  assert (aborted (Tree_operation alloc o a b c)) as Hab by by rewrite Hop.
  apply Tree_operation_aborted in Hab. tauto.
Qed.

Lemma rank_above_live_handle c held a :
  state_wf c held → handle c held a → a ≠ nullptr →
  rank_above (heap c) a = S (rank_of (heap c) a).
Proof.
  intros (Hwf & _ & Hown) Ha Hne.
  rewrite rank_above_valid; [by rewrite decide_False|apply Hwf|by eapply handle_valid].
Qed.

Lemma unary_ok o a c held :
  Opcode.args o = 1 → state_wf c held → handle c held a → a ≠ nullptr →
  ∃ p c' n,
    Tree_operation alloc o a nullptr c = Ok p c' ∧
    heap c' !! p = Some n ∧ key_of n = (o, a, nullptr) ∧
    rank n = S (rank_of (heap c) a) ∧
    grows c c' ∧ axes c' = axes c ∧ state_wf c' ({[+ p +]} ⊎ held).
Proof.
  intros Har Hs Ha Hne.
  destruct (Tree_operation_passes o a nullptr c) as (p & c' & Hop).
  { unfold operand_count. rewrite decide_False by done. by rewrite Har. }
  { done. }
  { by intros ->. }
  { by intros ->. }
  destruct (Tree_operation_node o a nullptr c held p c')
    as (n & Hn & Hk & Hrk & Hg & Hax & Hs'); [done|lia|done|by left|done|].
  exists p, c', n. split_and!; try done.
  rewrite Hrk, rank_above_null, (rank_above_live_handle c held) by done. lia.
Qed.

Lemma binary_ok o a b c held :
  Opcode.args o = 2 → o ≠ Opcode.POW → o ≠ Opcode.NTH_ROOT →
  state_wf c held → handle c held a → handle c held b →
  a ≠ nullptr → b ≠ nullptr →
  ∃ p c' n,
    Tree_operation alloc o a b c = Ok p c' ∧
    heap c' !! p = Some n ∧ key_of n = (o, a, b) ∧
    rank n = S (rank_of (heap c) a `max` rank_of (heap c) b) ∧
    grows c c' ∧ axes c' = axes c ∧ state_wf c' ({[+ p +]} ⊎ held).
Proof.
  intros Har Hp Hr Hs Ha Hb Hna Hnb.
  destruct (Tree_operation_passes o a b c) as (p & c' & Hop); try done.
  { unfold operand_count. rewrite !decide_False by done. by rewrite Har. }
  { by intros ?. }
  destruct (Tree_operation_node o a b c held p c')
    as (n & Hn & Hk & Hrk & Hg & Hax & Hs'); [done|lia|done|done|done|].
  exists p, c', n. split_and!; try done.
  rewrite Hrk, !(rank_above_live_handle c held) by done. lia.
Qed.

(** X8.  The unary functions ([square], [sqrt], unary minus, [sin],
    [cos], [tan], [asin], [acos], [atan], [exp]): on an empty tree the
    constructor's assertion fails; on a tree the program holds the call
    returns a node with that opcode, the operand as [lhs] and no [rhs],
    one rank above the operand, and the state stays well formed. *)
Theorem unary_operators o a c held :
  o ∈ Surface.unary → state_wf c held → handle c held a →
  (a = nullptr → aborted (Surface.OP_UNARY alloc o a c)) ∧
  (a ≠ nullptr →
   ∃ p c' n,
     Surface.OP_UNARY alloc o a c = Ok p c' ∧
     heap c' !! p = Some n ∧ key_of n = (o, a, nullptr) ∧
     rank n = S (rank_of (heap c) a) ∧
     grows c c' ∧ state_wf c' ({[+ p +]} ⊎ held)).
Proof.
  intros Ho Hs Ha. unfold Surface.OP_UNARY, Tree_empty.
  assert (Har : Opcode.args o = 1).
  { unfold Surface.unary in Ho. set_solver. }
  split.
  - intros ->. apply Tree_operation_arity. by rewrite Har.
  - intros Hne.
    destruct (unary_ok o a c held Har Hs Ha Hne)
      as (p & c' & n & H1 & H2 & H3 & H4 & H5 & _ & H6).
    by exists p, c', n.
Qed.

(** X9.  The binary functions other than [pow] and [nth_root]
    ([+], [*], [min], [max], [-], [/], [atan2], [mod], [nanfill]): when
    one of the operands is empty the constructor's assertion fails; on two
    trees the program holds the call returns a node with that opcode and
    these operands, one rank above the higher operand, and the state
    stays well formed. *)
Theorem binary_operators o a b c held :
  o ∈ Surface.binary → o ≠ Opcode.POW → o ≠ Opcode.NTH_ROOT →
  state_wf c held → handle c held a → handle c held b →
  (a = nullptr ∨ b = nullptr → aborted (Surface.OP_BINARY alloc o a b c)) ∧
  (a ≠ nullptr → b ≠ nullptr →
   ∃ p c' n,
     Surface.OP_BINARY alloc o a b c = Ok p c' ∧
     heap c' !! p = Some n ∧ key_of n = (o, a, b) ∧
     rank n = S (rank_of (heap c) a `max` rank_of (heap c) b) ∧
     grows c c' ∧ state_wf c' ({[+ p +]} ⊎ held)).
Proof.
  intros Ho Hp Hr Hs Ha Hb. unfold Surface.OP_BINARY.
  assert (Har : Opcode.args o = 2).
  { unfold Surface.binary in Ho. set_solver. }
  split.
  - intros Hnull. apply Tree_operation_arity. rewrite Har. unfold operand_count.
    destruct Hnull as [->| ->]; simpl; case_decide; lia.
  - intros Hna Hnb.
    destruct (binary_ok o a b c held Har Hp Hr Hs Ha Hb Hna Hnb)
      as (p & c' & n & H1 & H2 & H3 & H4 & H5 & _ & H6).
    by exists p, c', n.
Qed.

Lemma handle_grows c c' held p a :
  axes c' = axes c → handle c held a → handle c' ({[+ p +]} ⊎ held) a.
Proof.
  intros Hax [->|Ha]; [by left|right].
  unfold axes_held, Tree_X, Tree_Y, Tree_Z in *. rewrite Hax. multiset_solver.
Qed.

(** X10.  [abs(a)] is [max(a, -a)]: on an empty tree it fails (in the
    negation); on a tree the program holds it returns a [MAX] node whose
    operands are [a] and the [NEG] node of [a], two ranks above [a].  The
    negation outlives the temporary handle on it, as an operand, and the
    state is well formed with the result as the only new handle. *)
Theorem abs_spec a c held :
  state_wf c held → handle c held a →
  (a = nullptr → aborted (Surface.abs alloc a c)) ∧
  (a ≠ nullptr →
   ∃ t c' n m nm,
     Surface.abs alloc a c = Ok t c' ∧
     heap c' !! t = Some n ∧ key_of n = (Opcode.MAX, a, m) ∧
     heap c' !! m = Some nm ∧ key_of nm = (Opcode.NEG, a, nullptr) ∧
     rank n = rank_of (heap c) a + 2 ∧
     state_wf c' ({[+ t +]} ⊎ held)).
Proof.
  intros Hs Ha. split.
  { intros ->. unfold Surface.abs, Surface.neg, Tree_empty.
    pose proof (Tree_operation_arity Opcode.NEG nullptr nullptr c) as Hab.
    destruct (Tree_operation alloc Opcode.NEG nullptr nullptr c); [|done].
    exfalso. by apply Hab. }
  intros Hne.
  destruct (unary_ok Opcode.NEG a c held)
    as (m & c1 & nm & Hm & Hnm & Hkm & Hrm & Hg1 & Hax1 & Hs1); [done..|].
  assert (Ha1 : handle c1 ({[+ m +]} ⊎ held) a) by by apply (handle_grows c).
  assert (Hm1 : handle c1 ({[+ m +]} ⊎ held) m) by (right; multiset_solver).
  assert (Hmn : m ≠ nullptr).
  { eapply live_not_null; [apply wf_heap, Hs1|]. by rewrite Hnm. }
  destruct (binary_ok Opcode.MAX a m c1 ({[+ m +]} ⊎ held))
    as (t & c2 & n & Ht & Hn & Hk & Hr & Hg2 & Hax2 & Hs2); [done..|].
  assert (Hs3 : state_wf (Tree_release m c2) ({[+ t +]} ⊎ held)).
  { apply state_wf_release.
    eapply state_wf_proper; [|exact Hs2]. multiset_solver. }
  destruct (state_wf_live _ _ t Hs3) as ([n3 Hn3] & _); [multiset_solver|].
  pose proof (Tree_release_heap _ _ _ _ Hn3) as Hn3'.
  rewrite Hn in Hn3'. injection Hn3' as <-.
  assert (Hrhs : rhs n = m) by (by injection Hk).
  pose proof (wf_rhs _ (wf_heap _ (proj1 Hs3)) _ _ Hn3) as Hvm.
  rewrite Hrhs in Hvm.
  destruct Hvm as [?|[nm3 Hnm3]]; [done|].
  pose proof (Tree_release_heap _ _ _ _ Hnm3) as Hnm3'.
  rewrite (proj1 Hg2 _ _ Hnm) in Hnm3'. injection Hnm3' as <-.
  exists t, (Tree_release m c2), n, m, nm.
  split_and!; try done.
  - unfold Surface.abs, Surface.neg, Surface.max, Surface.OP_BINARY, Tree_empty.
    by rewrite Hm, Ht.
  - assert (Hla : is_Some (heap c !! a)).
    { destruct (handle_valid c held a) as [?|?]; [apply Hs|done|done|done]. }
    rewrite Hr, (rank_of_grows c c1 a) by done.
    rewrite (rank_of_lookup _ _ _ Hnm), Hrm. lia.
Qed.

End Operator_proofs.

(* ================================================================== *)
(** ** Lifetime of nodes *)

(** Every rank of a heap is below some bound. *)
Lemma rank_bound (h : gmap Id Tree_) : ∃ N, ∀ p n, h !! p = Some n → rank n < N.
Proof.
  induction h as [|p n h Hp _ IH] using map_first_key_ind.
  - exists 0. intros p n. by rewrite lookup_empty.
  - destruct IH as [N HN]. exists (S (rank n `max` N)). intros q m Hq.
    apply lookup_insert_Some in Hq as [[<- <-]|[_ Hq]]; [lia|].
    specialize (HN _ _ Hq). lia.
Qed.

(** A live node has an owner: a handle on it, or a node above it. *)
Lemma live_owned c own q n :
  cache_wf c → owned_wf c own → heap c !! q = Some n →
  q ∈ own ∨ ∃ q' n', heap c !! q' = Some n' ∧ child (heap c) q' q.
Proof.
  intros Hwf Hown Hq.
  destruct (wf_uses_live _ Hwf q) as [k Hk]; [by rewrite Hq|].
  rewrite (own_count _ _ Hown _ _ Hq) in Hk. injection Hk as Hk.
  destruct (decide (q ∈ own)) as [|Hno]; [by left|right].
  apply not_elem_of_multiplicity in Hno.
  assert (Hin : q ∈ edges (heap c)) by (apply elem_of_multiplicity; lia).
  apply edges_elem in Hin as (q' & n' & Hq' & Hc).
  exists q', n'. split; [done|]. split; [|eauto].
  eapply live_not_null; [apply Hwf|]. by rewrite Hq.
Qed.

Lemma live_reached c own :
  cache_wf c → owned_wf c own →
  ∀ q, is_Some (heap c !! q) → ∃ p, p ∈ own ∧ reaches (heap c) p q.
Proof.
  intros Hwf Hown. pose proof (wf_heap _ Hwf) as Hh.
  destruct (rank_bound (heap c)) as [N HN].
  assert (H : ∀ k q n, heap c !! q = Some n → N ≤ rank n + k →
                       ∃ p, p ∈ own ∧ reaches (heap c) p q).
  { induction k as [|k IH]; intros q n Hq Hk.
    - specialize (HN _ _ Hq). lia.
    - destruct (live_owned c own q n Hwf Hown Hq) as [Hin|(q' & n' & Hq' & Hc)].
      + exists q. split; [done|]. apply rtc_refl.
      + pose proof (child_rank _ _ _ Hh Hc) as Hlt.
        rewrite (rank_of_lookup _ _ _ Hq), (rank_of_lookup _ _ _ Hq') in Hlt.
        destruct (IH q' n' Hq') as (p & Hp & Hr); [lia|].
        exists p. split; [done|]. by eapply rtc_r. }
  intros q [n Hq]. apply (H N q n Hq). lia.
Qed.

Lemma reaches_sub (h h' : gmap Id Tree_) p q :
  (∀ x n, h' !! x = Some n → h !! x = Some n) →
  reaches h' p q → reaches h p q.
Proof.
  intros Hsub. induction 1 as [|x y z (Hy & n & Hn & Hc) _ IH]; [apply rtc_refl|].
  eapply rtc_l; [|exact IH]. split; [done|]. exists n. split; [by apply Hsub|done].
Qed.

(** What is reachable from a live node of a sub-heap that is well formed
    is in the sub-heap, unchanged. *)
Lemma reaches_kept (h h' : gmap Id Tree_) p q :
  (∀ x n, h' !! x = Some n → h !! x = Some n) → heap_wf h' →
  is_Some (h' !! p) → reaches h p q → h' !! q = h !! q ∧ is_Some (h' !! q).
Proof.
  intros Hsub Hwf' Hp Hr. revert q Hr.
  apply (rtc_ind_r (λ q, h' !! q = h !! q ∧ is_Some (h' !! q))).
  - destruct Hp as [n Hn]. rewrite Hn, (Hsub _ _ Hn). eauto.
  - intros x y _ (Hy & n & Hn & Hc) [Heq [n' Hn']].
    assert (n' = n) as -> by congruence.
    assert (Hv : valid h' y).
    { destruct Hc as [<-|<-]; [by eapply wf_lhs|by eapply wf_rhs]. }
    destruct Hv as [?|[m Hm]]; [done|].
    rewrite Hm, (Hsub _ _ Hm). eauto.
Qed.

(** X14.  Dropping a handle frees exactly what no remaining handle
    reaches: the nodes that are live afterwards are the nodes that were
    live and can be reached from a handle the program still holds or from
    a canonical variable, and they are unchanged. *)
Theorem release_frees_the_unreachable p c held :
  reachable c ({[+ p +]} ⊎ held) →
  (∀ q n, heap (Tree_release p c) !! q = Some n → heap c !! q = Some n) ∧
  (∀ q, is_Some (heap (Tree_release p c) !! q) ↔
        is_Some (heap c !! q) ∧
        ∃ r, r ∈ axes_held c ⊎ held ∧ reaches (heap c) r q).
Proof.
  intros Hs%reachable_wf.
  pose proof (state_wf_release _ _ _ Hs) as (Hwf' & Hax' & Hown').
  assert (Haxes : axes_held (Tree_release p c) = axes_held c).
  { unfold axes_held, Tree_X, Tree_Y, Tree_Z, Tree_release. by rewrite release_axes. }
  rewrite Haxes in Hown'.
  split; [apply Tree_release_heap|].
  intros q. split.
  - intros Hq. split.
    { destruct Hq as [n Hn]. apply Tree_release_heap in Hn. eauto. }
    destruct (live_reached _ _ Hwf' Hown' q Hq) as (r & Hr & Hreach).
    exists r. split; [done|]. eapply reaches_sub; [|done]. apply Tree_release_heap.
  - intros (_ & r & Hr & Hreach).
    eapply (reaches_kept (heap c)); [apply Tree_release_heap|apply Hwf'| |done].
    by apply (own_live _ _ Hown').
Qed.

(** X15.  In every state a program can bring about nothing dangles:
    whatever can be reached from a handle the program holds, or from a
    canonical variable, is a live node, and every entry of the two tables
    of the cache leads to a live node. *)
Theorem no_dangling_handle c held :
  reachable c held →
  (∀ p q, p ∈ axes_held c ⊎ held → reaches (heap c) p q →
          is_Some (heap c !! q)) ∧
  (∀ v p, constants c !! v = Some p → is_Some (heap c !! p)) ∧
  (∀ k p, ops c !! k = Some p → is_Some (heap c !! p)).
Proof.
  intros (Hwf & _ & Hown)%reachable_wf. split_and!.
  - intros p q Hp Hq. eapply reaches_live; [apply Hwf| |done].
    by apply (own_live _ _ Hown).
  - intros v p Hv. by rewrite (wf_constants _ Hwf _ _ Hv).
  - intros k p Hk. destruct (wf_ops _ Hwf _ _ Hk) as (n & Hn & _). by rewrite Hn.
Qed.

(** X16.  In every state a program can bring about nothing leaks:
    every live node can be reached from a handle the program holds or
    from a canonical variable. *)
Theorem no_leaked_node c held :
  reachable c held →
  ∀ q, is_Some (heap c !! q) →
       ∃ p, p ∈ axes_held c ⊎ held ∧ reaches (heap c) p q.
Proof.
  intros (Hwf & _ & Hown)%reachable_wf. by apply live_reached.
Qed.

Lemma with_uses_id c : with_uses (uses c) c = c.
Proof. by destruct c. Qed.

(** Dropping the handle that was just copied. *)
Lemma release_acquire fuel q c :
  uses_wf (heap c) (uses c) → valid (heap c) q → (q ≠ nullptr → 1 ≤ fuel) →
  release fuel q (with_uses (acquire q (uses c)) c) = c.
Proof.
  intros [_ Hlive] Hv Hfuel. destruct (decide (q = nullptr)) as [->|Hq].
  - rewrite acquire_null, with_uses_id. by destruct fuel.
  - destruct fuel as [|fuel]; [specialize (Hfuel Hq); lia|].
    destruct Hv as [?|Hv]; [done|]. destruct (Hlive q Hv) as [k Hk].
    simpl. rewrite decide_False by done.
    rewrite acquire_lookup_eq by done. rewrite Hk. simpl.
    unfold with_uses at 1. simpl. unfold acquire. rewrite decide_False by done.
    rewrite insert_insert_eq, insert_id by done. apply with_uses_id.
Qed.

Lemma Tree_release_acquire q c :
  cache_wf c → is_Some (heap c !! q) →
  Tree_release q (with_uses (acquire q (uses c)) c) = c.
Proof.
  intros Hwf Hq. unfold Tree_release. apply release_acquire.
  - by apply cache_wf_uses.
  - by right.
  - intros Hne. simpl. destruct Hq as [n Hn].
    rewrite (rank_above_live _ _ _ Hne Hn). lia.
Qed.

Section Round_trip.

Variable alloc : gmap Id Tree_ → Id.

Lemma constant_round_trip v c :
  cache_wf c →
  Tree_release (Cache_constant alloc v c).1 (Cache_constant alloc v c).2 = c.
Proof.
  intros Hwf. unfold Cache_constant.
  destruct (constants c !! v) as [p|] eqn:Hv.
  - simpl. apply Tree_release_acquire; [done|].
    by rewrite (wf_constants _ Hwf _ _ Hv).
  - simpl. set (p := new_addr alloc (heap c)).
    assert (Hp : p ≠ nullptr) by apply new_addr_not_null.
    assert (Hfree : heap c !! p = None) by apply new_addr_free.
    unfold Tree_release. simpl.
    rewrite (rank_above_live _ p (mkTree_ Opcode.CONST 0 v nullptr nullptr))
      by (done || by rewrite lookup_insert_eq).
    simpl. rewrite decide_False by done. rewrite !lookup_insert_eq.
    unfold Tree__dtor, Cache_del_constant. simpl. rewrite lookup_insert_eq.
    rewrite decide_True by done. unfold with_constants. simpl.
    rewrite !delete_insert_eq, !delete_id;
      [by destruct c|done|by apply (wf_uses_dead _ Hwf)|done].
Qed.

Lemma var_round_trip c :
  cache_wf c → Tree_release (Cache_var alloc c).1 (Cache_var alloc c).2 = c.
Proof.
  intros Hwf. unfold Cache_var. simpl. set (p := new_addr alloc (heap c)).
  assert (Hp : p ≠ nullptr) by apply new_addr_not_null.
  assert (Hfree : heap c !! p = None) by apply new_addr_free.
  unfold Tree_release. simpl.
  rewrite (rank_above_live _ p (mkTree_ Opcode.VAR 0 0 nullptr nullptr))
    by (done || by rewrite lookup_insert_eq).
  simpl. rewrite decide_False by done. rewrite !lookup_insert_eq.
  unfold Tree__dtor. simpl.
  rewrite !delete_insert_eq, !delete_id;
    [by destruct c|by apply (wf_uses_dead _ Hwf)|done].
Qed.

Lemma operation_round_trip o l r c :
  cache_wf c → valid (heap c) l → valid (heap c) r → 1 ≤ Opcode.args o →
  Tree_release (Cache_operation alloc o l r c).1 (Cache_operation alloc o l r c).2
  = c.
Proof.
  intros Hwf Hl Hr Har. unfold Cache_operation.
  destruct (ops c !! (o, l, r)) as [p|] eqn:Hk.
  - simpl. apply Tree_release_acquire; [done|].
    destruct (wf_ops _ Hwf _ _ Hk) as (n & Hn & _). by rewrite Hn.
  - simpl. set (p := new_addr alloc (heap c)).
    set (rk := rank_above (heap c) l `max` rank_above (heap c) r).
    assert (Hp : p ≠ nullptr) by apply new_addr_not_null.
    assert (Hfree : heap c !! p = None) by apply new_addr_free.
    assert (Hlp : l ≠ p).
    { intros ->. destruct Hl as [?|[? Hl]]; [done|]. by rewrite Hfree in Hl. }
    assert (Hrp : r ≠ p).
    { intros ->. destruct Hr as [?|[? Hr]]; [done|]. by rewrite Hfree in Hr. }
    unfold Tree_release. simpl.
    rewrite (rank_above_live _ p (mkTree_ o rk 0 l r))
      by (done || by rewrite lookup_insert_eq).
    simpl. rewrite decide_False by done. rewrite !lookup_insert_eq.
    unfold Tree__dtor, Cache_del_operation. simpl.
    rewrite decide_False by (intros ->; simpl in Har; lia).
    rewrite decide_True by (intros ->; simpl in Har; lia).
    simpl. rewrite lookup_insert_eq, decide_True by done.
    unfold with_ops. simpl.
    rewrite !delete_insert_eq.
    rewrite (delete_id (heap c)), (delete_id (ops c)) by done.
    rewrite (delete_id (acquire r (acquire l (uses c)))).
    2:{ rewrite !acquire_lookup_ne by done. by apply (wf_uses_dead _ Hwf). }
    pose proof (cache_wf_uses _ Hwf) as Hu.
    set (cl := with_uses (acquire l (uses c)) c).
    change (mkCache (heap c) (acquire r (acquire l (uses c))) (constants c)
                    (ops c) (axes c))
      with (with_uses (acquire r (uses cl)) cl).
    rewrite (release_acquire rk r cl).
    + unfold cl. apply release_acquire; [done|done|].
      intros Hne. destruct Hl as [?|[n Hn]]; [done|].
      unfold rk. rewrite (rank_above_live _ _ _ Hne Hn). lia.
    + unfold cl. simpl. by apply uses_wf_acquire.
    + done.
    + intros Hne. destruct Hr as [?|[n Hn]]; [done|].
      unfold rk. rewrite (rank_above_live _ _ _ Hne Hn). lia.
Qed.

End Round_trip.

(** X13.  Building a tree and dropping it at once leaves the
    whole process state as it was: the nodes, the counts and both tables
    of the cache.  This holds for a constant, for a variable, and for an
    operation with operands whose assertions pass, whether the node was
    new or found in the cache. *)
Theorem construct_then_drop (alloc : gmap Id Tree_ → Id) c held :
  reachable c held →
  (∀ v, Tree_release (Tree_constant alloc v c).1 (Tree_constant alloc v c).2 = c) ∧
  Tree_release (Tree_var alloc c).1 (Tree_var alloc c).2 = c ∧
  (∀ o a b p c',
     1 ≤ Opcode.args o → handle c held a → handle c held b →
     Tree_operation alloc o a b c = Ok p c' → Tree_release p c' = c).
Proof.
  intros (Hwf & _ & Hown)%reachable_wf. split_and!.
  - intros v. by apply constant_round_trip.
  - by apply var_round_trip.
  - intros o a b p c' Har Ha Hb Hok.
    apply Tree_operation_Ok in Hok as (Hc & _).
    pose proof (operation_round_trip alloc o a b c Hwf
                  (handle_valid _ _ _ Hown Ha) (handle_valid _ _ _ Hown Hb) Har)
      as Hrt.
    by rewrite Hc in Hrt.
Qed.

(* ================================================================== *)
(** ** Handles as expressions *)

Lemma expr_of_fuel h f : ∀ f' p,
  heap_wf h → valid h p → rank_above h p ≤ f → rank_above h p ≤ f' →
  expr_of f h p = expr_of f' h p.
Proof.
  induction f as [|f IH]; intros f' p Hwf Hv Hf Hf'.
  - destruct Hv as [->|[n Hn]]; [by destruct f'|].
    destruct (decide (p = nullptr)) as [->|Hp]; [by destruct f'|].
    rewrite (rank_above_live _ _ _ Hp Hn) in Hf. lia.
  - destruct f' as [|f'].
    + destruct Hv as [->|[n Hn]]; [done|].
      destruct (decide (p = nullptr)) as [->|Hp]; [done|].
      rewrite (rank_above_live _ _ _ Hp Hn) in Hf'. lia.
    + simpl. case_decide as Hp; [done|].
      destruct (h !! p) as [n|] eqn:Hn; [|done].
      rewrite (rank_above_live _ _ _ Hp Hn) in Hf, Hf'.
      pose proof (wf_rank _ Hwf _ _ Hn) as Hrk.
      repeat case_decide; try done.
      f_equal; apply IH; try done; try lia.
      * by eapply wf_lhs.
      * by eapply wf_rhs.
Qed.

Lemma Tree_expr_null h : Tree_expr h nullptr = ENull.
Proof. done. Qed.

Lemma Tree_expr_node h p n :
  heap_wf h → h !! p = Some n →
  Tree_expr h p
  = if decide (op n = Opcode.CONST) then EConst (value n)
    else if decide (op n = Opcode.VAR) then EVar p
    else EOp (op n) (Tree_expr h (lhs n)) (Tree_expr h (rhs n)).
Proof.
  intros Hwf Hn.
  assert (Hp : p ≠ nullptr) by (eapply live_not_null; [done|by rewrite Hn]).
  unfold Tree_expr at 1. rewrite (rank_above_live _ _ _ Hp Hn). simpl.
  rewrite decide_False by done. rewrite Hn.
  pose proof (wf_rank _ Hwf _ _ Hn) as Hrk.
  repeat case_decide; try done.
  f_equal; apply expr_of_fuel; try done; try lia.
  - by eapply wf_lhs.
  - by eapply wf_rhs.
Qed.

(** A handle that owns a node stands for something. *)
Lemma Tree_expr_live h p :
  heap_wf h → is_Some (h !! p) → Tree_expr h p ≠ ENull.
Proof.
  intros Hwf [n Hn]. rewrite (Tree_expr_node _ _ _ Hwf Hn).
  by repeat case_decide.
Qed.

(** The expression of a handle is read below the handle only. *)
Lemma Tree_expr_sub (h h' : gmap Id Tree_) :
  (∀ x n, h !! x = Some n → h' !! x = Some n) → heap_wf h → heap_wf h' →
  ∀ p, valid h p → Tree_expr h' p = Tree_expr h p.
Proof.
  intros Hsub Hwf Hwf'.
  assert (H : ∀ k p, valid h p → rank_above h p ≤ k →
                     Tree_expr h' p = Tree_expr h p).
  { induction k as [|k IH]; intros p Hv Hk.
    - destruct Hv as [->|[n Hn]]; [done|].
      assert (Hp : p ≠ nullptr) by (apply (live_not_null h); [done|by rewrite Hn]).
      rewrite (rank_above_live _ _ _ Hp Hn) in Hk. lia.
    - destruct Hv as [->|[n Hn]]; [done|].
      assert (Hp : p ≠ nullptr) by (apply (live_not_null h); [done|by rewrite Hn]).
      rewrite (rank_above_live _ _ _ Hp Hn) in Hk.
      rewrite (Tree_expr_node _ _ _ Hwf Hn),
              (Tree_expr_node _ _ _ Hwf' (Hsub _ _ Hn)).
      pose proof (wf_rank _ Hwf _ _ Hn) as Hrk.
      repeat case_decide; try done.
      f_equal; apply IH; try lia.
      + by eapply wf_lhs.
      + by eapply wf_rhs. }
  intros p Hv. by eapply H.
Qed.

(** With hash-consing, a handle is determined by its expression. *)
Lemma Tree_expr_inj c :
  cache_wf c →
  ∀ p q, valid (heap c) p → valid (heap c) q →
         Tree_expr (heap c) p = Tree_expr (heap c) q → p = q.
Proof.
  intros Hwf. pose proof (wf_heap _ Hwf) as Hh.
  assert (H : ∀ k p q, valid (heap c) p → valid (heap c) q →
                rank_above (heap c) p ≤ k →
                Tree_expr (heap c) p = Tree_expr (heap c) q → p = q).
  { induction k as [|k IH]; intros p q Hp Hq Hk He.
    - destruct Hp as [->|[n Hn]].
      + destruct Hq as [->|Hq]; [done|].
        symmetry in He. by apply Tree_expr_live in He.
      + assert (Hpn : p ≠ nullptr) by (eapply live_not_null; [done|by rewrite Hn]).
        rewrite (rank_above_live _ _ _ Hpn Hn) in Hk. lia.
    - destruct Hp as [->|[n Hn]].
      { destruct Hq as [->|Hq]; [done|].
        symmetry in He. by apply Tree_expr_live in He. }
      destruct Hq as [->|[n' Hn']].
      { apply Tree_expr_live in He; [done|done|by rewrite Hn]. }
      assert (Hpn : p ≠ nullptr) by (eapply live_not_null; [done|by rewrite Hn]).
      rewrite (rank_above_live _ _ _ Hpn Hn) in Hk.
      rewrite (Tree_expr_node _ _ _ Hh Hn), (Tree_expr_node _ _ _ Hh Hn') in He.
      pose proof (wf_rank _ Hh _ _ Hn) as Hrk.
      repeat case_decide; try done.
      + injection He as Hv.
        pose proof (wf_const_interned _ Hwf _ _ Hn) as Hi1.
        pose proof (wf_const_interned _ Hwf _ _ Hn') as Hi2.
        rewrite Hv in Hi1. rewrite Hi1 in Hi2 by done. by injection Hi2.
      + by injection He.
      + injection He as Ho Hl Hr.
        apply IH in Hl; [|by eapply wf_lhs|by eapply wf_lhs|lia].
        apply IH in Hr; [|by eapply wf_rhs|by eapply wf_rhs|lia].
        assert (Har : 1 ≤ Opcode.args (op n)) by (destruct (op n); simpl; done || lia).
        pose proof (wf_interned _ Hwf _ _ Hn Har) as Hi1.
        rewrite Ho in Har.
        pose proof (wf_interned _ Hwf _ _ Hn' Har) as Hi2.
        unfold key_of in Hi1, Hi2. rewrite Ho, Hl, Hr in Hi1. congruence. }
  intros p q Hp Hq. by eapply H.
Qed.

Lemma remap_seed_axes X_ Y_ Z_ c k :
  (remap_seed X_ Y_ Z_ c).1 !! k
  = if decide (k = Tree_X c) then Some X_
    else if decide (k = Tree_Y c) then Some Y_
    else if decide (k = Tree_Z c) then Some Z_
    else None.
Proof.
  unfold remap_seed, map_insert_new. simpl. rewrite lookup_empty.
  destruct (decide (Tree_Y c = Tree_X c)) as [Hyx|Hyx].
  - rewrite Hyx, lookup_insert_eq.
    destruct (decide (Tree_Z c = Tree_X c)) as [Hzx|Hzx].
    + rewrite Hzx, lookup_insert_eq.
      repeat case_decide; simplify_map_eq; done.
    + rewrite lookup_insert_ne, lookup_empty by done.
      repeat case_decide; simplify_map_eq; done.
  - rewrite lookup_insert_ne, lookup_empty by done.
    destruct (decide (Tree_Z c = Tree_Y c)) as [Hzy|Hzy].
    + rewrite Hzy, lookup_insert_eq.
      repeat case_decide; simplify_map_eq; done.
    + rewrite lookup_insert_ne by done.
      destruct (decide (Tree_Z c = Tree_X c)) as [Hzx|Hzx].
      * rewrite Hzx, lookup_insert_eq.
        repeat case_decide; simplify_map_eq; done.
      * rewrite lookup_insert_ne, lookup_empty by done.
        repeat case_decide; simplify_map_eq; done.
Qed.

Lemma subst_closed σ e : (∀ x, σ x = None ∨ σ x = Some (EVar x)) → subst σ e = e.
Proof.
  intros Hσ. induction e as [| |x|o l IHl r IHr]; simpl; try done.
  - by destruct (Hσ x) as [-> | ->].
  - by rewrite IHl, IHr.
Qed.

Section Remap_expr.

Variable alloc : gmap Id Tree_ → Id.

(** The pass of [remap] maps every node of the tree to a node that
    stands for the substituted expression. *)
Lemma remap_pass_expr X_ Y_ Z_ root c held m c1 :
  state_wf c held →
  X_ ∈ axes_held c ⊎ held → Y_ ∈ axes_held c ⊎ held →
  Z_ ∈ axes_held c ⊎ held → handle c held root →
  remap_pass alloc X_ Y_ Z_ root c = Some (m, c1) →
  cache_wf c1 ∧ grows c c1 ∧ valid (heap c1) (resolve m root) ∧
  Tree_expr (heap c1) (resolve m root)
  = subst (remap_subst c X_ Y_ Z_) (Tree_expr (heap c) root).
Proof.
  intros Hs HX HY HZ Hroot Hpass.
  pose proof (remap_pass_wf alloc _ _ _ _ _ _ _ _ Hs HX HY HZ Hroot Hpass) as Hwf1.
  destruct Hs as (Hwf & Hax & Hown).
  pose proof (wf_heap _ Hwf) as Hh. pose proof (wf_heap _ Hwf1) as Hh1.
  pose proof (handle_valid _ _ _ Hown Hroot) as Hvroot.
  destruct (remap_pass_spec alloc X_ Y_ Z_ root c Hwf Hax Hvroot)
    as (nodes & m' & c1' & Hord & Hpass' & Hdone & Hreach & Hfirst).
  rewrite Hpass in Hpass'. injection Hpass' as <- <-.
  destruct (ordered_total _ _ Hh Hvroot) as (l & Hl & _ & Hlive & _).
  assert (l = nodes) as -> by congruence.
  pose proof (remap_done_null _ _ _ _ _ _ _ Hwf Hax Hdone Hlive) as Hnull.
  pose proof (rd_grows _ _ _ _ _ Hdone) as Hg.
  assert (Hrepl : ∀ v, v ∈ axes_held c ⊎ held →
            valid (heap c1) v ∧ Tree_expr (heap c1) v = Tree_expr (heap c) v).
  { intros v Hv. destruct (own_live _ _ Hown v Hv) as [nv Hnv].
    split; [right; rewrite (proj1 Hg _ _ Hnv); eauto|].
    apply Tree_expr_sub; [apply Hg|done|done|right; eauto]. }
  set (σ := remap_subst c X_ Y_ Z_).
  assert (Hmain : ∀ k pre t rest, length pre = k → nodes = pre ++ t :: rest →
            valid (heap c1) (resolve m t) ∧
            Tree_expr (heap c1) (resolve m t) = subst σ (Tree_expr (heap c) t)).
  { induction k as [k IH] using lt_wf_ind. intros pre t rest Hk Hnodes.
    assert (Ht : t ∈ nodes) by (rewrite Hnodes; set_solver).
    destruct (Hlive t Ht) as [n Hn].
    assert (Hoperand : ∀ q, (q = lhs n ∨ q = rhs n) →
              Tree_expr (heap c1) (resolve m q) = subst σ (Tree_expr (heap c) q)).
    { intros q Hq. destruct (decide (q = nullptr)) as [->|Hq0].
      { unfold resolve. by rewrite Hnull. }
      assert (Hc : child (heap c) t q) by (split; [done|]; naive_solver).
      pose proof (Hfirst _ _ _ _ Hnodes Hc) as Hin.
      apply list_elem_of_split in Hin as (pre1 & pre2 & ->).
      eapply (IH (length pre1)); [|done|].
      - rewrite <- Hk, length_app. simpl. lia.
      - rewrite Hnodes, <- app_assoc. done. }
    rewrite (Tree_expr_node _ _ _ Hh Hn).
    destruct (decide (1 ≤ Opcode.args (op n))) as [Har|Har].
    - destruct (rd_node _ _ _ _ _ Hdone t n Ht Hn Har) as (p & Hp & Hops).
      destruct (wf_ops _ Hwf1 _ _ Hops) as (n' & Hn' & Hkey).
      injection Hkey as Ho Hl' Hr'.
      unfold resolve at 1 2. rewrite Hp. simpl.
      split; [right; eauto|].
      rewrite (Tree_expr_node _ _ _ Hh1 Hn'), Ho.
      rewrite !decide_False by (intros Heq; rewrite Heq in Har; simpl in Har; lia).
      simpl. rewrite Hl', Hr', !Hoperand by auto. done.
    - assert (Hleaf : m !! t = (remap_seed X_ Y_ Z_ c).1 !! t).
      { apply (rd_leaf _ _ _ _ _ Hdone t n Ht Hn). lia. }
      destruct (decide (op n = Opcode.CONST)) as [Hc|Hc].
      + assert (Hna : t ∉ axes_held c).
        { intros Hk'. destruct (axes_held_is_var _ _ Hax Hk') as (n' & Hn' & Hv).
          congruence. }
        unfold resolve. rewrite Hleaf, remap_seed_not_axis by done. simpl.
        split; [right; rewrite (proj1 Hg _ _ Hn); eauto|].
        rewrite (Tree_expr_node _ _ _ Hh1 (proj1 Hg _ _ Hn)).
        by rewrite decide_True.
      + assert (Hv : op n = Opcode.VAR).
        { destruct (op n); simpl in Har; try done; lia. }
        rewrite decide_True by done. simpl.
        unfold resolve. rewrite Hleaf, remap_seed_axes.
        unfold σ, remap_subst.
        assert (Hself : valid (heap c1) t ∧ Tree_expr (heap c1) t = EVar t).
        { split; [right; rewrite (proj1 Hg _ _ Hn); eauto|].
          rewrite (Tree_expr_node _ _ _ Hh1 (proj1 Hg _ _ Hn)).
          rewrite decide_False by done. by rewrite decide_True. }
        repeat case_decide; simpl; try done; by apply Hrepl. }
  split; [done|]. split; [done|].
  destruct Hvroot as [->|Hlr].
  - unfold resolve. rewrite Hnull. simpl. split; [by left|done].
  - assert (Hin : root ∈ nodes).
    { apply Hreach. split; [by apply (live_not_null _ _ Hh)|]. constructor. }
    apply list_elem_of_split in Hin as (pre & rest & Heq).
    by eapply Hmain.
Qed.

End Remap_expr.

(* ================================================================== *)
(** ** [remap] as a substitution *)

Section Remap_result.

Variable alloc : gmap Id Tree_ → Id.

Lemma remap_step_axes t n m c : axes (remap_step alloc t n m c).2 = axes c.
Proof.
  unfold remap_step. case_decide; [|done].
  pose proof (Cache_operation_axes alloc (op n) (default (lhs n) (m !! lhs n))
                (default (rhs n) (m !! rhs n)) c) as Hax.
  destruct (Cache_operation alloc _ _ _ c) as [p c'].
  destruct (m !! t); simpl in *; [|done].
  unfold Tree_release. by rewrite release_axes.
Qed.

Lemma remap_loop_axes h nodes : ∀ m c,
  axes (remap_loop alloc h nodes m c).2 = axes c.
Proof.
  induction nodes as [|t nodes IH]; intros m c; [done|]. simpl.
  destruct (h !! t) as [n|]; [|apply IH].
  pose proof (remap_step_axes t n m c) as Hax.
  destruct (remap_step alloc t n m c) as [m' c']. simpl in Hax.
  by rewrite IH.
Qed.

Lemma release_list_axes (l : list (Id * Id)) c :
  axes (foldr (λ kv c', Tree_release kv.2 c') c l) = axes c.
Proof.
  induction l as [|kv l IH]; [done|]. simpl.
  unfold Tree_release at 1. by rewrite release_axes.
Qed.

Lemma remap_axes X_ Y_ Z_ root c r c' :
  remap alloc X_ Y_ Z_ root c = Some (r, c') → axes c' = axes c.
Proof.
  unfold remap. intros H.
  destruct (remap_pass alloc X_ Y_ Z_ root c) as [[m c1]|] eqn:Hpass; [|done].
  simpl in H. injection H as _ <-.
  rewrite map_fold_release, release_list_axes. simpl.
  unfold remap_pass in Hpass.
  destruct (ordered (heap c) root) as [nodes|]; [|done].
  change (Some nodes ≫= ?f) with (f nodes) in Hpass. cbv beta in Hpass.
  pose proof (remap_loop_axes (heap c) nodes (remap_seed X_ Y_ Z_ c).1
                (remap_seed X_ Y_ Z_ c).2) as Hax.
  destruct (remap_seed X_ Y_ Z_ c) as [m0 c0] eqn:Hseed.
  assert (Hax0 : axes c0 = axes c).
  { unfold remap_seed in Hseed. by injection Hseed as _ <-. }
  simpl in Hax. injection Hpass as Hpass. rewrite Hpass in Hax. simpl in Hax.
  congruence.
Qed.

(** What [remap] returns, and the state it leaves. *)
Lemma remap_result X_ Y_ Z_ root c held :
  state_wf c held →
  X_ ∈ axes_held c ⊎ held → Y_ ∈ axes_held c ⊎ held →
  Z_ ∈ axes_held c ⊎ held → handle c held root →
  ∃ r c1 c',
    remap alloc X_ Y_ Z_ root c = Some (r, c') ∧
    cache_wf c1 ∧ grows c c1 ∧ valid (heap c1) r ∧
    Tree_expr (heap c1) r
    = subst (remap_subst c X_ Y_ Z_) (Tree_expr (heap c) root) ∧
    (∀ x n, heap c' !! x = Some n → heap c1 !! x = Some n) ∧
    state_wf c' (hold r held) ∧ axes c' = axes c.
Proof.
  intros Hs HX HY HZ Hroot.
  pose proof Hs as (Hwf & Hax & Hown).
  pose proof (handle_valid _ _ _ Hown Hroot) as Hvroot.
  destruct (remap_pass_spec alloc X_ Y_ Z_ root c Hwf Hax Hvroot)
    as (nodes & m & c1 & _ & Hpass & _).
  destruct (remap_pass_expr alloc _ _ _ _ _ _ _ _ Hs HX HY HZ Hroot Hpass)
    as (Hwf1 & Hg & Hv & He).
  destruct (remap_of_pass alloc _ _ _ _ _ _ _ Hpass) as (c' & Hremap & Hsub).
  exists (resolve m root), c1, c'. split_and!; try done.
  - exact (state_wf_remap alloc _ _ _ _ _ _ _ _ Hs HX HY HZ Hroot Hremap).
  - by eapply remap_axes.
Qed.

End Remap_result.

Lemma Cache_var_axes alloc c : axes (Cache_var alloc c).2 = axes c.
Proof. done. Qed.

Lemma Cache_init_axes_distinct alloc :
  NoDup [Tree_X (Cache_init alloc); Tree_Y (Cache_init alloc);
         Tree_Z (Cache_init alloc)].
Proof.
  unfold Cache_init, Cache_var, Tree_X, Tree_Y, Tree_Z. simpl.
  set (x := new_addr alloc ∅).
  set (h1 := <[x := _]> ∅).
  set (y := new_addr alloc h1).
  set (h2 := <[y := _]> h1).
  set (z := new_addr alloc h2).
  assert (Hyx : y ≠ x).
  { intros Heq. pose proof (new_addr_free alloc h1) as Hf.
    fold y in Hf. rewrite Heq in Hf. unfold h1 in Hf.
    by rewrite lookup_insert_eq in Hf. }
  assert (Hzy : z ≠ y).
  { intros Heq. pose proof (new_addr_free alloc h2) as Hf.
    fold z in Hf. rewrite Heq in Hf. unfold h2 in Hf.
    by rewrite lookup_insert_eq in Hf. }
  assert (Hzx : z ≠ x).
  { intros Heq. pose proof (new_addr_free alloc h2) as Hf.
    fold z in Hf. rewrite Heq in Hf. unfold h2, h1 in Hf.
    rewrite lookup_insert_ne, lookup_insert_eq in Hf; done. }
  apply NoDup_cons. split; [set_solver|].
  apply NoDup_cons. split; [set_solver|]. apply NoDup_singleton.
Qed.

(** The three canonical variables are three nodes, in every state. *)
Lemma reachable_axes_distinct c held :
  reachable c held → NoDup [Tree_X c; Tree_Y c; Tree_Z c].
Proof.
  unfold Tree_X, Tree_Y, Tree_Z.
  induction 1 as [alloc|alloc v c held _ IH|alloc c held _ IH
                 |alloc o a b c held p c' _ IH _ _ _ Hop
                 |p c held _ IH|alloc X_ Y_ Z_ root c held r c' _ IH _ _ _ _ Hre].
  - apply Cache_init_axes_distinct.
  - unfold Tree_constant. by rewrite Cache_constant_axes.
  - done.
  - apply Tree_operation_Ok in Hop as (Hc & _).
    pose proof (Cache_operation_axes alloc o a b c) as Hax.
    rewrite Hc in Hax. simpl in Hax. by rewrite Hax.
  - unfold Tree_release. by rewrite release_axes.
  - by rewrite (remap_axes _ _ _ _ _ _ _ _ Hre).
Qed.

Lemma hold_valid c r held : state_wf c (hold r held) → valid (heap c) r.
Proof.
  intros (_ & _ & Hown). destruct (decide (r = nullptr)) as [->|Hr]; [by left|].
  right. apply (own_live _ _ Hown). rewrite hold_live by done. multiset_solver.
Qed.

Lemma held_hold r held p : p ∈ held → p ∈ hold r held.
Proof. unfold hold. case_decide; multiset_solver. Qed.

Lemma axis_expr c a :
  cache_wf c → axes_wf c → a ∈ axes_held c → Tree_expr (heap c) a = EVar a.
Proof.
  intros Hwf Hax Ha. destruct (axes_held_is_var _ _ Hax Ha) as (n & Hn & Hv).
  rewrite (Tree_expr_node _ _ _ (wf_heap _ Hwf) Hn).
  rewrite decide_False by congruence. by rewrite decide_True.
Qed.

(** X17.  In every state a program can bring about, two handles that
    stand for the same expression are the same handle: no expression has
    two nodes.  (A variable is an expression of its own for every node.) *)
Theorem equal_expressions_share_a_node c held p q :
  reachable c held → valid (heap c) p → valid (heap c) q →
  Tree_expr (heap c) p = Tree_expr (heap c) q → p = q.
Proof.
  intros (Hwf & _)%reachable_wf. by apply Tree_expr_inj.
Qed.

(** X18.  [remap] returns, and what it returns stands for the
    expression of the tree in which the three replacements have been
    substituted, all at once, for the three canonical variables. *)
Theorem remap_is_substitution (alloc : gmap Id Tree_ → Id) X_ Y_ Z_ root c held :
  reachable c held →
  X_ ∈ axes_held c ⊎ held → Y_ ∈ axes_held c ⊎ held →
  Z_ ∈ axes_held c ⊎ held → handle c held root →
  ∃ r c', remap alloc X_ Y_ Z_ root c = Some (r, c') ∧
          Tree_expr (heap c') r
          = subst (remap_subst c X_ Y_ Z_) (Tree_expr (heap c) root).
Proof.
  intros Hs%reachable_wf HX HY HZ Hroot.
  destruct (remap_result alloc X_ Y_ Z_ root c held Hs HX HY HZ Hroot)
    as (r & c1 & c' & Hremap & Hwf1 & Hg & Hv & He & Hsub & Hs' & Hax).
  exists r, c'. split; [done|]. rewrite <- He. symmetry.
  apply Tree_expr_sub; [done|apply Hs'|apply Hwf1|by eapply hold_valid].
Qed.

(** X19.  Replacing the three canonical variables by themselves gives
    the tree back: the very handle [remap] was called on. *)
Theorem remap_identity (alloc : gmap Id Tree_ → Id) root c held :
  reachable c held → handle c held root →
  ∃ c', remap alloc (Tree_X c) (Tree_Y c) (Tree_Z c) root c = Some (root, c').
Proof.
  intros Hs%reachable_wf Hroot. pose proof Hs as (Hwf & Hax & Hown).
  assert (Hin : ∀ a, a ∈ axes_held c → a ∈ axes_held c ⊎ held) by multiset_solver.
  assert (HX : Tree_X c ∈ axes_held c) by (unfold axes_held; multiset_solver).
  assert (HY : Tree_Y c ∈ axes_held c) by (unfold axes_held; multiset_solver).
  assert (HZ : Tree_Z c ∈ axes_held c) by (unfold axes_held; multiset_solver).
  destruct (remap_result alloc _ _ _ root c held Hs (Hin _ HX) (Hin _ HY)
              (Hin _ HZ) Hroot)
    as (r & c1 & c' & Hremap & Hwf1 & Hg & Hv & He & _).
  exists c'. rewrite Hremap. f_equal. f_equal.
  pose proof (handle_valid _ _ _ Hown Hroot) as Hvroot.
  rewrite subst_closed in He.
  - apply (Tree_expr_inj c1 Hwf1); [done| |].
    + destruct Hvroot as [->|[n Hn]]; [by left|right].
      rewrite (proj1 Hg _ _ Hn). eauto.
    + rewrite He. symmetry.
      apply Tree_expr_sub; [apply Hg|apply Hwf|apply Hwf1|done].
  - intros x. unfold remap_subst.
    repeat case_decide; subst; rewrite ?axis_expr by done; auto.
Qed.

(** X20.  The edge cases of [remap]: the empty tree is mapped to the
    empty tree, and each canonical variable to its replacement, all three
    at once (so [remap(Y, X, Z)] swaps [X] and [Y]). *)
Theorem remap_of_variable (alloc : gmap Id Tree_ → Id) X_ Y_ Z_ c held :
  reachable c held →
  X_ ∈ axes_held c ⊎ held → Y_ ∈ axes_held c ⊎ held →
  Z_ ∈ axes_held c ⊎ held →
  (∃ c', remap alloc X_ Y_ Z_ Tree_empty c = Some (Tree_empty, c')) ∧
  (∃ c', remap alloc X_ Y_ Z_ (Tree_X c) c = Some (X_, c')) ∧
  (∃ c', remap alloc X_ Y_ Z_ (Tree_Y c) c = Some (Y_, c')) ∧
  (∃ c', remap alloc X_ Y_ Z_ (Tree_Z c) c = Some (Z_, c')).
Proof.
  intros Hr HX HY HZ. pose proof (reachable_axes_distinct _ _ Hr) as Hnd.
  apply reachable_wf in Hr as Hs. pose proof Hs as (Hwf & Hax & Hown).
  assert (Hgo : ∀ root v,
            handle c held root →
            valid (heap c) v →
            subst (remap_subst c X_ Y_ Z_) (Tree_expr (heap c) root)
            = Tree_expr (heap c) v →
            ∃ c', remap alloc X_ Y_ Z_ root c = Some (v, c')).
  { intros root v Hroot Hv Heq.
    destruct (remap_result alloc X_ Y_ Z_ root c held Hs HX HY HZ Hroot)
      as (r & c1 & c' & Hremap & Hwf1 & Hg & Hvr & He & _).
    exists c'. rewrite Hremap. f_equal. f_equal.
    apply (Tree_expr_inj c1 Hwf1); [done| |].
    - destruct Hv as [->|[n Hn]]; [by left|right].
      rewrite (proj1 Hg _ _ Hn). eauto.
    - rewrite He, Heq. symmetry.
      apply Tree_expr_sub; [apply Hg|apply Hwf|apply Hwf1|done]. }
  assert (Hlive : ∀ v, v ∈ axes_held c ⊎ held → valid (heap c) v).
  { intros v Hv. right. by apply (own_live _ _ Hown). }
  apply NoDup_cons in Hnd as [Hx Hnd]. apply NoDup_cons in Hnd as [Hy _].
  assert (Hxy : Tree_Y c ≠ Tree_X c) by set_solver.
  assert (Hxz : Tree_Z c ≠ Tree_X c) by set_solver.
  assert (Hyz : Tree_Z c ≠ Tree_Y c) by set_solver.
  split_and!.
  - apply Hgo; [by left|by left|done].
  - apply Hgo; [right; unfold axes_held; multiset_solver|by apply Hlive|].
    rewrite axis_expr by (done || unfold axes_held; multiset_solver).
    simpl. unfold remap_subst. by rewrite decide_True.
  - apply Hgo; [right; unfold axes_held; multiset_solver|by apply Hlive|].
    rewrite axis_expr by (done || unfold axes_held; multiset_solver).
    simpl. unfold remap_subst. rewrite decide_False by done.
    by rewrite decide_True.
  - apply Hgo; [right; unfold axes_held; multiset_solver|by apply Hlive|].
    rewrite axis_expr by (done || unfold axes_held; multiset_solver).
    simpl. unfold remap_subst. rewrite !decide_False by done.
    by rewrite decide_True.
Qed.

(** X21.  [remap] is a [const] member function, and the whole state
    is left as it was but for what is new: every node that was live is
    live and unchanged, every entry of the two tables is kept, the
    canonical variables are the same, and the result is empty or live. *)
Theorem remap_keeps_the_state (alloc : gmap Id Tree_ → Id)
  X_ Y_ Z_ root c held r c' :
  reachable c held →
  X_ ∈ axes_held c ⊎ held → Y_ ∈ axes_held c ⊎ held →
  Z_ ∈ axes_held c ⊎ held → handle c held root →
  remap alloc X_ Y_ Z_ root c = Some (r, c') →
  grows c c' ∧ axes c' = axes c ∧ valid (heap c') r.
Proof.
  intros Hs%reachable_wf HX HY HZ Hroot Hremap.
  pose proof Hs as (Hwf & Hax & Hown).
  destruct (remap_result alloc X_ Y_ Z_ root c held Hs HX HY HZ Hroot)
    as (r' & c1 & c'' & Hremap' & Hwf1 & Hg & Hv & He & Hsub & Hs' & Haxes).
  rewrite Hremap in Hremap'. injection Hremap' as <- <-.
  pose proof Hs' as (Hwf' & _ & Hown').
  assert (Hheld : axes_held c' = axes_held c).
  { unfold axes_held, Tree_X, Tree_Y, Tree_Z. by rewrite Haxes. }
  assert (Hheap : ∀ p n, heap c !! p = Some n → heap c' !! p = Some n).
  { intros p n Hp.
    destruct (live_reached c _ Hwf Hown p) as (s & Hsin & Hreach); [eauto|].
    assert (Hs1 : is_Some (heap c' !! s)).
    { apply (own_live _ _ Hown'). rewrite Hheld.
      apply gmultiset_elem_of_disj_union in Hsin as [?|?].
      - multiset_solver.
      - apply gmultiset_elem_of_disj_union. right. by apply held_hold. }
    destruct (reaches_kept (heap c1) (heap c') s p Hsub (wf_heap _ Hwf') Hs1)
      as [Heq _].
    { eapply reaches_sub; [|exact Hreach]. apply Hg. }
    rewrite Heq. by apply Hg. }
  split_and!; [split_and!|done|by eapply hold_valid].
  - done.
  - intros v p Hv'. pose proof (wf_constants _ Hwf _ _ Hv') as Hn.
    apply Hheap in Hn. by apply (wf_const_interned _ Hwf' _ _ Hn).
  - intros k p Hk. destruct (wf_ops _ Hwf _ _ Hk) as (n & Hn & Hkey).
    pose proof (wf_ops_arity _ Hwf _ _ Hk) as Har.
    apply Hheap in Hn. rewrite <- Hkey.
    apply (wf_interned _ Hwf' _ _ Hn). by rewrite <- Hkey in Har.
Qed.

(* ================================================================== *)
(** ** Edge cases of [serialize] *)

(** X6.  The empty tree: [ordered()] is the empty list and
    [serialize] writes the header and no record, on any heap. *)
Theorem serialize_empty_tree (opnum : Opcode → Z) :
  (∀ h, ordered h Tree_empty = Some []) ∧
  (∀ nm dc vn vd h,
     serialize_template opnum (mkTemplate Tree_empty nm dc vn vd) h
     = Some ([TAG] ++ quoted nm ++ quoted dc)) ∧
  (∀ h, serialize opnum Tree_empty h = Some [TAG; QUOTE; QUOTE; QUOTE; QUOTE]).
Proof.
  split; [apply ordered_null|]. split.
  - intros nm dc vn vd h. unfold serialize_template. simpl.
    unfold Tree_empty. rewrite ordered_null. simpl.
    by rewrite !serializeString_quoted, <- app_assoc.
  - intros h. unfold serialize, serialize_template, Template_of_Tree. simpl.
    unfold Tree_empty. by rewrite ordered_null.
Qed.

(* ================================================================== *)
(** ** The assertions as an invariant *)

Lemma integral_constant_sub (h h' : gmap Id Tree_) b :
  (∀ x n, h !! x = Some n → h' !! x = Some n) →
  integral_constant h b → integral_constant h' b.
Proof. intros Hsub (n & Hn & H). exists n. split; [by apply Hsub|done]. Qed.

Lemma positive_integral_constant_sub (h h' : gmap Id Tree_) b :
  (∀ x n, h !! x = Some n → h' !! x = Some n) →
  positive_integral_constant h b → positive_integral_constant h' b.
Proof. intros Hsub (n & Hn & H). exists n. split; [by apply Hsub|done]. Qed.

Lemma exponent_wf_grow (h h' : gmap Id Tree_) :
  (∀ x n, h !! x = Some n → h' !! x = Some n) → exponent_wf h →
  (∀ q n, h' !! q = Some n → h !! q = Some n ∨
     ((op n = Opcode.POW → integral_constant h (rhs n)) ∧
      (op n = Opcode.NTH_ROOT → positive_integral_constant h (rhs n)))) →
  exponent_wf h'.
Proof.
  intros Hsub He Hnew q n Hq.
  destruct (Hnew q n Hq) as [Hold|[Hp Hr]].
  - destruct (He q n Hold) as [Hp Hr]. split; intros Ho.
    + eapply integral_constant_sub; [done|auto].
    + eapply positive_integral_constant_sub; [done|auto].
  - split; intros Ho.
    + eapply integral_constant_sub; [done|auto].
    + eapply positive_integral_constant_sub; [done|auto].
Qed.

Lemma exponent_wf_shrink (h h' : gmap Id Tree_) :
  (∀ x n, h' !! x = Some n → h !! x = Some n) →
  h !! nullptr = None → heap_wf h' → exponent_wf h → exponent_wf h'.
Proof.
  intros Hsub Hnull Hwf' He q n Hq.
  destruct (He q n (Hsub _ _ Hq)) as [Hp Hr].
  assert (Hkeep : ∀ nr, h !! rhs n = Some nr → h' !! rhs n = Some nr).
  { intros nr Hnr. destruct (wf_rhs _ Hwf' _ _ Hq) as [Heq|[m Hm]].
    - rewrite Heq in Hnr. congruence.
    - rewrite Hm. f_equal. apply Hsub in Hm. congruence. }
  split; intros Ho.
  - destruct (Hp Ho) as (nr & Hnr & H). exists nr. split; [auto|done].
  - destruct (Hr Ho) as (nr & Hnr & H). exists nr. split; [auto|done].
Qed.

Section Exponent.

Variable alloc : gmap Id Tree_ → Id.

Lemma Cache_constant_heap_cases v c q n :
  heap (Cache_constant alloc v c).2 !! q = Some n →
  heap c !! q = Some n ∨ op n = Opcode.CONST.
Proof.
  unfold Cache_constant. destruct (constants c !! v); simpl; [auto|].
  intros [[_ <-]|[_ ?]]%lookup_insert_Some; auto.
Qed.

Lemma Cache_var_heap_cases c q n :
  heap (Cache_var alloc c).2 !! q = Some n →
  heap c !! q = Some n ∨ op n = Opcode.VAR.
Proof.
  unfold Cache_var. simpl.
  intros [[_ <-]|[_ ?]]%lookup_insert_Some; auto.
Qed.

Lemma Cache_operation_heap_cases o l r c q n :
  heap (Cache_operation alloc o l r c).2 !! q = Some n →
  heap c !! q = Some n ∨ key_of n = (o, l, r).
Proof.
  unfold Cache_operation. destruct (ops c !! (o, l, r)); simpl; [auto|].
  intros [[_ <-]|[_ ?]]%lookup_insert_Some; auto.
Qed.

Lemma exponent_wf_constant v c :
  exponent_wf (heap c) → exponent_wf (heap (Cache_constant alloc v c).2).
Proof.
  intros He. eapply exponent_wf_grow; [apply Cache_constant_grows|done|].
  intros q n [?|Ho]%Cache_constant_heap_cases; [by left|right].
  split; intros Ho'; congruence.
Qed.

Lemma exponent_wf_var c :
  exponent_wf (heap c) → exponent_wf (heap (Cache_var alloc c).2).
Proof.
  intros He. eapply exponent_wf_grow; [apply Cache_var_grows|done|].
  intros q n [?|Ho]%Cache_var_heap_cases; [by left|right].
  split; intros Ho'; congruence.
Qed.

Lemma exponent_wf_operation o l r c :
  exponent_wf (heap c) →
  (o = Opcode.POW → integral_constant (heap c) r) →
  (o = Opcode.NTH_ROOT → positive_integral_constant (heap c) r) →
  exponent_wf (heap (Cache_operation alloc o l r c).2).
Proof.
  intros He Hp Hr. eapply exponent_wf_grow; [apply Cache_operation_grows|done|].
  intros q n [?|Hk]%Cache_operation_heap_cases; [by left|right].
  injection Hk as -> _ ->. done.
Qed.

(** A constant is no key of the substitution map. *)
Lemma keys_ok_constant c m q n :
  axes_wf c → keys_ok c m → heap c !! q = Some n → op n = Opcode.CONST →
  m !! q = None.
Proof.
  intros Hax Hk Hq Ho. destruct (m !! q) as [v|] eqn:Hm; [|done].
  destruct (Hk q) as [Ha|(n' & Hn' & Har)]; [eauto|..].
  - destruct (axes_held_is_var _ _ Hax Ha) as (n' & Hn' & Hv). congruence.
  - assert (n' = n) as -> by congruence. rewrite Ho in Har. simpl in Har. lia.
Qed.

Lemma remap_step_exponent c own done_ m c' t n :
  cache_wf c → axes_wf c → exponent_wf (heap c) →
  remap_inv c own done_ m c' →
  heap c !! t = Some n → t ∉ done_ →
  keys_ok c m → exponent_wf (heap c') →
  keys_ok c (remap_step alloc t n m c').1 ∧
  exponent_wf (heap (remap_step alloc t n m c').2).
Proof.
  intros Hwf Hax He0 Hinv Hn Ht Hk He. unfold remap_step.
  case_decide as Har; [|done].
  set (l := default (lhs n) (m !! lhs n)).
  set (r := default (rhs n) (m !! rhs n)).
  assert (Hnone : m !! t = None).
  { destruct (m !! t) as [v|] eqn:Hm; [|done].
    destruct (ri_keys _ _ _ _ _ Hinv t) as [Ha|Hd]; [eauto| |done].
    destruct (axes_held_is_var _ _ Hax Ha) as (n' & Hn' & Hv).
    assert (n' = n) as -> by congruence. rewrite Hv in Har. simpl in Har. lia. }
  pose proof (exponent_wf_operation (op n) l r c' He) as He'.
  destruct (Cache_operation alloc (op n) l r c') as [p c''].
  rewrite Hnone. simpl in *. split.
  - intros k [v Hkv]. destruct (decide (k = t)) as [->|Hne].
    + right. eauto.
    + rewrite lookup_insert_ne in Hkv by done. apply Hk. eauto.
  - destruct (He0 t n Hn) as [Hp Hr].
    pose proof (proj1 (ri_grows _ _ _ _ _ Hinv)) as Hg.
    apply He'.
    + intros Ho. destruct (Hp Ho) as (nr & Hnr & Hc & Hi).
      unfold r. rewrite (keys_ok_constant c m _ _ Hax Hk Hnr Hc). simpl.
      exists nr. split; [by apply Hg|done].
    + intros Ho. destruct (Hr Ho) as (nr & Hnr & Hc & Hi).
      unfold r. rewrite (keys_ok_constant c m _ _ Hax Hk Hnr Hc). simpl.
      exists nr. split; [by apply Hg|done].
Qed.

Lemma remap_loop_exponent c own :
  cache_wf c → axes_wf c → exponent_wf (heap c) →
  ∀ nodes done_ m c',
    remap_inv c own done_ m c' →
    (∀ t, t ∈ done_ → is_Some (heap c !! t)) →
    (∀ t, t ∈ nodes → is_Some (heap c !! t)) →
    NoDup nodes → (∀ t, t ∈ nodes → t ∉ done_) →
    keys_ok c m → exponent_wf (heap c') →
    exponent_wf (heap (remap_loop alloc (heap c) nodes m c').2).
Proof.
  intros Hwf Hax He0. induction nodes as [|t nodes IH];
    intros done_ m c' Hinv Hdone Hlive Hnd Hfresh Hk He; [done|].
  simpl. destruct (Hlive t) as [n Hn]; [left|]. rewrite Hn.
  apply NoDup_cons in Hnd as [Htn Hnd].
  assert (Ht : t ∉ done_) by (apply Hfresh; left).
  pose proof (remap_step_inv alloc c own done_ m c' t n Hwf Hax Hinv Hdone Hn Ht)
    as Hinv'.
  destruct (remap_step_exponent c own done_ m c' t n Hwf Hax He0 Hinv Hn Ht Hk He)
    as [Hk' He'].
  destruct (remap_step alloc t n m c') as [m' c'']. simpl in *.
  apply (IH (done_ ++ [t])); try done.
  - intros x [?|Hx%list_elem_of_singleton]%elem_of_app; [auto|]. subst. eauto.
  - intros x Hx. apply Hlive. by right.
  - intros x Hx [?|Hx'%list_elem_of_singleton]%elem_of_app.
    + apply (Hfresh x); [by right|done].
    + by subst.
Qed.

Lemma remap_exponent X_ Y_ Z_ root c held r c' :
  state_wf c held →
  X_ ∈ axes_held c ⊎ held → Y_ ∈ axes_held c ⊎ held →
  Z_ ∈ axes_held c ⊎ held → handle c held root →
  exponent_wf (heap c) →
  remap alloc X_ Y_ Z_ root c = Some (r, c') →
  exponent_wf (heap c').
Proof.
  intros Hs HX HY HZ Hroot He Hremap.
  pose proof (state_wf_remap alloc _ _ _ _ _ _ _ _ Hs HX HY HZ Hroot Hremap)
    as (Hwf' & _).
  destruct Hs as (Hwf & Hax & Hown).
  pose proof (wf_heap _ Hwf) as Hh.
  pose proof (handle_valid _ _ _ Hown Hroot) as Hvroot.
  destruct (ordered_total _ _ Hh Hvroot) as (nodes & Hnodes & Hnd & Hlive & _).
  unfold remap in Hremap.
  destruct (remap_pass alloc X_ Y_ Z_ root c) as [[m c1]|] eqn:Hpass; [|done].
  simpl in Hremap. injection Hremap as _ <-.
  assert (Hwf1 : cache_wf c1).
  { eapply (remap_pass_wf alloc X_ Y_ Z_ root c held); try done. }
  assert (He1 : exponent_wf (heap c1)).
  { unfold remap_pass in Hpass. rewrite Hnodes in Hpass.
    change (Some nodes ≫= ?f) with (f nodes) in Hpass. cbv beta in Hpass.
    pose proof (remap_seed_inv X_ Y_ Z_ c _ Hwf Hown HX HY HZ) as Hseed.
    assert (Hk0 : keys_ok c (remap_seed X_ Y_ Z_ c).1).
    { intros k [v Hk]. left. by apply remap_seed_lookup in Hk as [? _]. }
    assert (He0 : exponent_wf (heap (remap_seed X_ Y_ Z_ c).2)) by done.
    destruct (remap_seed X_ Y_ Z_ c) as [m0 c0]. simpl in Hseed, Hk0, He0.
    pose proof (remap_loop_exponent c _ Hwf Hax He nodes [] m0 c0 Hseed) as Hloop.
    injection Hpass as Hpass. rewrite Hpass in Hloop. simpl in Hloop.
    apply Hloop; try done.
    - intros t Ht. by apply elem_of_nil in Ht.
    - intros t _ Ht. by apply elem_of_nil in Ht. }
  eapply exponent_wf_shrink; [| |apply Hwf'|exact He1].
  - intros x n. rewrite map_fold_release. intros Hx.
    by apply release_list_heap in Hx.
  - apply (wf_null _ (wf_heap _ Hwf1)).
Qed.

End Exponent.

Lemma Cache_init_vars alloc q n :
  heap (Cache_init alloc) !! q = Some n → op n = Opcode.VAR.
Proof.
  unfold Cache_init, Cache_var. simpl.
  intros [[_ <-]|[_ H]]%lookup_insert_Some; [done|].
  apply lookup_insert_Some in H as [[_ <-]|[_ H]]; [done|].
  apply lookup_insert_Some in H as [[_ <-]|[_ H]]; [done|].
  by rewrite lookup_empty in H.
Qed.

Lemma reachable_exponent_wf c held : reachable c held → exponent_wf (heap c).
Proof.
  induction 1 as [alloc|alloc v c held _ IH|alloc c held _ IH
                 |alloc o a b c held p c' _ IH _ _ _ Hop
                 |p c held Hr IH|alloc X_ Y_ Z_ root c held r c' Hr IH HX HY HZ Hroot Hre].
  - intros q n Hq. apply Cache_init_vars in Hq. split; intros ?; congruence.
  - by apply exponent_wf_constant.
  - by apply exponent_wf_var.
  - apply Tree_operation_Ok in Hop as (Hc & _ & _ & Hp & Hrt).
    pose proof (exponent_wf_operation alloc o a b c IH Hp Hrt) as He.
    by rewrite Hc in He.
  - apply reachable_wf in Hr as Hs.
    pose proof (state_wf_release _ _ _ Hs) as (Hwf' & _).
    eapply exponent_wf_shrink; [apply Tree_release_heap| |apply Hwf'|exact IH].
    apply (wf_null _ (wf_heap _ (proj1 Hs))).
  - apply reachable_wf in Hr as Hs.
    by eapply (remap_exponent alloc X_ Y_ Z_ root c held).
Qed.

(* ================================================================== *)
(** ** The exponents that [pow] and [nth_root] take *)

Lemma decode_nonneg bits neg m e :
  Float32.decode bits = Float32.FFin neg m e → (0 ≤ m)%Z.
Proof.
  unfold Float32.decode.
  set (b := Float32.wrap bits).
  assert (Hf : (0 ≤ Z.land b (2 ^ 23 - 1))%Z).
  { apply Z.land_nonneg. right. lia. }
  repeat case_match; try done; intros Hd; injection Hd as _ <- _; lia.
Qed.

Lemma decode_wrap bits : Float32.decode (Float32.wrap bits) = Float32.decode bits.
Proof.
  unfold Float32.decode. f_equal.
  all: unfold Float32.wrap; by rewrite Z.mod_mod by lia.
Qed.

Lemma round_whole neg m e :
  (0 ≤ m)%Z →
  Float32.eqb (Float32.FFin neg m e) (Float32.round (Float32.FFin neg m e))
  = whole_number (Float32.FFin neg m e).
Proof.
  intros Hm. unfold Float32.round, whole_number.
  destruct (0 <=? e)%Z eqn:He.
  - simpl. apply Z.leb_le in He. rewrite Z.min_id, Z.sub_diag.
    rewrite bool_decide_true by done. rewrite Z.eqb_refl.
    by destruct (m =? 0)%Z.
  - apply Z.leb_gt in He. simpl.
    rewrite Z.min_l by lia.
    replace (e - e)%Z with 0%Z by lia. replace (0 - e)%Z with (- e)%Z by lia.
    rewrite bool_decide_true by done. simpl.
    set (D := (2 ^ (- e))%Z).
    assert (HD : (2 ^ (- e - 1) * 2 = D)%Z).
    { unfold D. replace (- e)%Z with (Z.succ (- e - 1)) at 2 by lia.
      rewrite Z.pow_succ_r by lia. lia. }
    assert (Hh : (0 < 2 ^ (- e - 1))%Z) by (apply Z.pow_pos_nonneg; lia).
    set (half := (2 ^ (- e - 1))%Z) in *.
    assert (HDpos : (0 < D)%Z) by lia.
    rewrite Z.mul_1_r.
    destruct (m mod D =? 0)%Z eqn:Hmod.
    + apply Z.eqb_eq in Hmod.
      assert (Hq : (m = D * (m / D))%Z).
      { pose proof (Z.div_mod m D). lia. }
      assert (Hr : ((m + half) / D = m / D)%Z).
      { rewrite Hq at 1. rewrite Z.mul_comm, Z.div_add_l by lia.
        rewrite (Z.div_small half D) by lia. lia. }
      rewrite Hr.
      assert ((m =? m / D * D)%Z = true) as -> by (apply Z.eqb_eq; lia).
      by destruct ((m =? 0)%Z && (m / D =? 0)%Z).
    + apply Z.eqb_neq in Hmod.
      assert ((m =? 0)%Z = false) as ->.
      { apply Z.eqb_neq. intros ->. by rewrite Z.mod_0_l in Hmod by lia. }
      simpl. apply Z.eqb_neq. intros Heq. apply Hmod.
      rewrite Heq. apply Z.mod_mul. lia.
Qed.

Lemma integral_whole bits :
  Float32.integral bits = whole_number (Float32.decode bits).
Proof.
  unfold Float32.integral.
  destruct (Float32.decode bits) as [|neg|neg m e] eqn:Hd; simpl.
  - done.
  - by rewrite bool_decide_true.
  - apply round_whole. by eapply decode_nonneg.
Qed.

Section Exponent_values.

Variable alloc : gmap Id Tree_ → Id.

Lemma constant_integral v c :
  cache_wf c →
  (integral_constant (heap (Tree_constant alloc v c).2) (Tree_constant alloc v c).1
   ↔ whole_number (Float32.decode v) = true) ∧
  (positive_integral_constant (heap (Tree_constant alloc v c).2)
     (Tree_constant alloc v c).1
   ↔ whole_number (Float32.decode v) = true ∧
     Float32.positive (Float32.decode v) = true).
Proof.
  intros Hwf. pose proof (Tree_constant_node alloc v c Hwf) as Hn.
  unfold integral_constant, positive_integral_constant.
  split; split.
  - intros (n & Hn' & _ & Hi). rewrite Hn in Hn'. injection Hn' as <-.
    cbn [value] in Hi. rewrite integral_whole, decode_wrap in Hi. exact Hi.
  - intros Hw. eexists. split; [exact Hn|]. split; [reflexivity|]. cbn [value].
    rewrite integral_whole, decode_wrap. exact Hw.
  - intros (n & Hn' & _ & Hi & Hp). rewrite Hn in Hn'. injection Hn' as <-.
    cbn [value] in Hi, Hp. rewrite integral_whole in Hi.
    rewrite decode_wrap in Hi, Hp. by split.
  - intros [Hw Hp]. eexists. split; [exact Hn|]. split; [reflexivity|]. cbn [value].
    rewrite integral_whole, decode_wrap. by split.
Qed.

(** X11.  [pow(a, Tree(v))] on a tree the program holds passes the
    assertion exactly when [v] has no fractional part: when it is an
    infinity or a finite integer; a NaN fails.  [nth_root(a, Tree(v))]
    passes exactly when [v] is such a value and positive. *)
Theorem exponent_must_be_whole a v c held :
  reachable c held → handle c held a → a ≠ nullptr →
  ((∃ p c', Surface.pow alloc a (Tree_constant alloc v c).1
              (Tree_constant alloc v c).2 = Ok p c')
   ↔ whole_number (Float32.decode v) = true) ∧
  ((∃ p c', Surface.nth_root alloc a (Tree_constant alloc v c).1
              (Tree_constant alloc v c).2 = Ok p c')
   ↔ whole_number (Float32.decode v) = true ∧
     Float32.positive (Float32.decode v) = true).
Proof.
  intros (Hwf & _ & Hown)%reachable_wf Ha Hne.
  destruct (constant_integral v c Hwf) as [Hi Hp].
  set (k := Tree_constant alloc v c) in *.
  assert (Hk : k.1 ≠ nullptr).
  { apply (live_not_null (heap k.2)).
    - apply wf_heap. by apply Cache_constant_wf.
    - unfold k. rewrite Tree_constant_node by done. eauto. }
  assert (Hcount : ∀ o, Opcode.args o = 2 →
            operand_count a k.1 = Opcode.args o ∧ lhs_first a k.1).
  { intros o ->. unfold operand_count, lhs_first.
    rewrite !decide_False by done. done. }
  unfold Surface.pow, Surface.nth_root, Surface.OP_BINARY.
  split; split.
  - intros (p & c' & Hok). apply Tree_operation_Ok in Hok as (_ & _ & _ & H & _).
    apply Hi. by apply H.
  - intros Hw. destruct (Hcount Opcode.POW eq_refl).
    eexists _, _. apply Tree_operation_Ok. split_and!; try done.
    + apply surjective_pairing.
    + intros _. by apply Hi.
  - intros (p & c' & Hok). apply Tree_operation_Ok in Hok as (_ & _ & _ & _ & H).
    apply Hp. by apply H.
  - intros Hw. destruct (Hcount Opcode.NTH_ROOT eq_refl).
    eexists _, _. apply Tree_operation_Ok. split_and!; try done.
    + apply surjective_pairing.
    + intros _. by apply Hp.
Qed.

End Exponent_values.

(* ================================================================== *)
(** ** Free variables *)

Lemma elem_of_own_grow (A held : gmultiset Id) x v :
  v ∈ A ⊎ held → v ∈ A ⊎ ({[+ x +]} ⊎ held).
Proof. multiset_solver. Qed.

Lemma elem_of_own_new (A held : gmultiset Id) x : x ∈ A ⊎ ({[+ x +]} ⊎ held).
Proof. multiset_solver. Qed.

Lemma axes_in_own c held :
  Tree_X c ∈ axes_held c ⊎ held ∧ Tree_Y c ∈ axes_held c ⊎ held ∧
  Tree_Z c ∈ axes_held c ⊎ held.
Proof. unfold axes_held. split_and!; multiset_solver. Qed.

(** X22.  [Tree::var()] is never shared: it returns a node that was not
    live, so a handle different from every handle of the program and from
    the three canonical variables; the node is a [VAR] leaf of rank 0,
    and [remap] leaves it alone. *)
Theorem var_is_fresh (alloc alloc' : gmap Id Tree_ → Id) X_ Y_ Z_ c held :
  reachable c held →
  X_ ∈ axes_held c ⊎ held → Y_ ∈ axes_held c ⊎ held →
  Z_ ∈ axes_held c ⊎ held →
  let x := (Tree_var alloc c).1 in
  let c1 := (Tree_var alloc c).2 in
  x ≠ nullptr ∧ heap c !! x = None ∧ (x ∉ axes_held c ⊎ held) ∧
  heap c1 !! x = Some (mkTree_ Opcode.VAR 0 0 nullptr nullptr) ∧
  (∀ p n, heap c !! p = Some n → heap c1 !! p = Some n) ∧
  ∃ c2, remap alloc' X_ Y_ Z_ x c1 = Some (x, c2).
Proof.
  intros Hs%reachable_wf HX HY HZ x c1.
  pose proof Hs as (Hwf & Hax & Hown).
  assert (Hx : x ≠ nullptr) by apply new_addr_not_null.
  assert (Hfree : heap c !! x = None) by apply new_addr_free.
  assert (Hnot : x ∉ (axes_held c ⊎ held)).
  { intros Hin. apply (own_live _ _ Hown) in Hin as [n Hn]. congruence. }
  pose proof (state_wf_var alloc c held Hs) as Hs1. fold x c1 in Hs1.
  pose proof Hs1 as (Hwf1 & Hax1 & Hown1).
  pose proof (Cache_var_lookup alloc c) as Hnode.
  pose proof (Cache_var_grows alloc c) as Hg.
  split_and!; try done; [apply Hg|].
  assert (Haxes : axes_held c1 = axes_held c) by done.
  assert (Hin : ∀ v, v ∈ axes_held c ⊎ held →
                     v ∈ axes_held c1 ⊎ ({[+ x +]} ⊎ held)).
  { intros v Hv. rewrite Haxes. by apply elem_of_own_grow. }
  destruct (remap_result alloc' X_ Y_ Z_ x c1 ({[+ x +]} ⊎ held) Hs1
              (Hin _ HX) (Hin _ HY) (Hin _ HZ))
    as (r & c1' & c2 & Hremap & Hwf1' & Hg' & Hv & He & _).
  { right. apply elem_of_own_new. }
  exists c2. rewrite Hremap. f_equal. f_equal.
  assert (Hex : Tree_expr (heap c1) x = EVar x).
  { exact (Tree_expr_node (heap c1) x _ (wf_heap _ Hwf1) Hnode). }
  assert (Hσ : remap_subst c1 X_ Y_ Z_ x = None).
  { unfold remap_subst.
    destruct (axes_in_own c held) as (H1 & H2 & H3).
    change (Tree_X c1) with (Tree_X c). change (Tree_Y c1) with (Tree_Y c).
    change (Tree_Z c1) with (Tree_Z c).
    rewrite !decide_False; [done|..]; intros Heq; apply Hnot; by rewrite Heq. }
  rewrite Hex in He. simpl in He. rewrite Hσ in He. simpl in He.
  apply (Tree_expr_inj c1' Hwf1'); [done| |].
  - right. eexists. apply (proj1 Hg'). exact Hnode.
  - rewrite He. symmetry. rewrite <- Hex.
    apply Tree_expr_sub; [apply Hg'|apply Hwf1|apply Hwf1'|right; eauto].
Qed.

(* ================================================================== *)
(** ** Variables on the wire *)

Lemma var_leaf c a n :
  cache_wf c → heap c !! a = Some n → Opcode.args (op n) = 0 →
  lhs n = nullptr ∧ rhs n = nullptr ∧ rank n = 0.
Proof.
  intros Hwf Hn Hop. pose proof (wf_shape _ Hwf _ _ Hn) as Hs.
  apply assert_args_count in Hs as [Hc _]. rewrite Hop in Hc.
  unfold operand_count in Hc.
  assert (Hl : lhs n = nullptr) by (repeat case_decide; (done || lia)).
  assert (Hr : rhs n = nullptr) by (repeat case_decide; (done || lia)).
  split; [done|]. split; [done|].
  rewrite (wf_rank _ (wf_heap _ Hwf) _ _ Hn), Hl, Hr. by rewrite rank_above_null.
Qed.

Section Forget.

Variable opnum : Opcode → Z.

Lemma serialize_binary_of_variables c t nt o a b na nb :
  cache_wf c →
  heap c !! t = Some nt → key_of nt = (o, a, b) → Opcode.args o = 2 →
  heap c !! a = Some na → op na = Opcode.VAR →
  heap c !! b = Some nb → op nb = Opcode.VAR → a ≠ b →
  serialize opnum t (heap c) = Some (binary_of_variables opnum o).
Proof.
  intros Hwf Hnt Hk Har Hna Hoa Hnb Hob Hne.
  pose proof (wf_heap _ Hwf) as Hh. injection Hk as Hopt Hlt Hrt.
  destruct (var_leaf c a na Hwf Hna) as (Hla & Hra & Hka); [by rewrite Hoa|].
  destruct (var_leaf c b nb Hwf Hnb) as (Hlb & Hrb & Hkb); [by rewrite Hob|].
  assert (Hord : ordered (heap c) t = Some [a; b; t]).
  { by eapply (ordered_binary (heap c) t nt a b). }
  assert (Hvt : valid (heap c) t) by (right; eauto).
  pose proof (ordered_written_operand c t _ Hwf Hvt Hord) as Htopo.
  destruct (ordered_total _ _ Hh Hvt) as (l & Hl & Hnd & Hlive & _).
  assert (l = [a; b; t]) as -> by congruence.
  destruct (serialize_loop_spec opnum (Template_of_Tree t) (heap c) [a; b; t]
              Hnd Hlive Htopo [a; b; t] []
              (serializeString EmptyString (serializeString EmptyString [TAG])) ∅)
    as (ids & Hloop & _); [done|apply ids_of_nil|].
  unfold serialize, serialize_template. change (tree (Template_of_Tree t)) with t.
  rewrite Hord. change (Some [a; b; t] ≫= ?f) with (f [a; b; t]). cbv beta.
  change (doc (Template_of_Tree t)) with EmptyString.
  change (name (Template_of_Tree t)) with EmptyString.
  rewrite Hloop. simpl. unfold node_record. rewrite Hna, Hnb, Hnt.
  unfold node_payload, node_operands. simpl. rewrite Hopt, Hlt, Hrt, Hoa, Hob, Har.
  rewrite !lookup_empty. simpl. rewrite (decide_False (P := a = b)) by done.
  rewrite (decide_False (P := o = Opcode.CONST)) by (by intros ->).
  rewrite (decide_False (P := o = Opcode.VAR)) by (by intros ->).
  rewrite (decide_True (P := b = b)), (decide_True (P := a = a)) by done.
  done.
Qed.

Variable alloc : gmap Id Tree_ → Id.

(** X23.  [serialize()] does not tell variables apart: for two different
    variables [a] and [b] the program holds and a binary function [f]
    other than [pow] and [nth_root], [f(a, b)] and [f(b, a)] are two
    different nodes that serialize to the same bytes (variables are
    written by position, with the names the template has for them, and
    [Tree::serialize()] has none). *)
Theorem serialize_forgets_variables o a b c held :
  reachable c held →
  o ∈ Surface.binary → o ≠ Opcode.POW → o ≠ Opcode.NTH_ROOT →
  a ∈ axes_held c ⊎ held → b ∈ axes_held c ⊎ held → a ≠ b →
  is_var (heap c) a → is_var (heap c) b →
  ∃ t1 c1 t2 c2,
    Surface.OP_BINARY alloc o a b c = Ok t1 c1 ∧
    Surface.OP_BINARY alloc o b a c1 = Ok t2 c2 ∧
    t1 ≠ t2 ∧
    serialize opnum t1 (heap c2) = Some (binary_of_variables opnum o) ∧
    serialize opnum t2 (heap c2) = Some (binary_of_variables opnum o).
Proof.
  intros Hs%reachable_wf Ho Hp Hr Ha Hb Hne (na & Hna & Hoa) (nb & Hnb & Hob).
  assert (Har : Opcode.args o = 2).
  { unfold Surface.binary in Ho. set_solver. }
  pose proof Hs as (Hwf & _ & Hown).
  assert (Ha0 : a ≠ nullptr).
  { apply (live_not_null _ _ (wf_heap _ Hwf)). by rewrite Hna. }
  assert (Hb0 : b ≠ nullptr).
  { apply (live_not_null _ _ (wf_heap _ Hwf)). by rewrite Hnb. }
  destruct (binary_ok alloc o a b c held Har Hp Hr Hs)
    as (t1 & c1 & n1 & H1 & Hn1 & Hk1 & _ & Hg1 & Hax1 & Hs1);
    [by right|by right|done|done|].
  destruct (binary_ok alloc o b a c1 ({[+ t1 +]} ⊎ held) Har Hp Hr Hs1)
    as (t2 & c2 & n2 & H2 & Hn2 & Hk2 & _ & Hg2 & Hax2 & Hs2);
    [apply (handle_grows c); [done|by right]
    |apply (handle_grows c); [done|by right]|done|done|].
  exists t1, c1, t2, c2. unfold Surface.OP_BINARY.
  pose proof (proj1 Hg2 _ _ Hn1) as Hn1'.
  pose proof (proj1 Hg2 _ _ (proj1 Hg1 _ _ Hna)) as Hna'.
  pose proof (proj1 Hg2 _ _ (proj1 Hg1 _ _ Hnb)) as Hnb'.
  split_and!; try done.
  - intros ->. rewrite Hn1' in Hn2. injection Hn2 as <-.
    rewrite Hk1 in Hk2. by injection Hk2.
  - eapply (serialize_binary_of_variables c2 t1 n1 o a b na nb);
      try done; apply Hs2.
  - eapply (serialize_binary_of_variables c2 t2 n2 o b a nb na);
      try done; apply Hs2.
Qed.

End Forget.

(* ================================================================== *)
(** ** The stream determines the template *)

Lemma raw_bytes_inj w : ∀ v v' r r',
  raw_bytes w v ++ r = raw_bytes w v' ++ r' →
  (v mod 256 ^ Z.of_nat w = v' mod 256 ^ Z.of_nat w)%Z ∧ r = r'.
Proof.
  induction w as [|w IH]; intros v v' r r' H.
  - simpl in *. by rewrite !Z.mod_1_r.
  - simpl in H. injection H as H0 H. apply IH in H as [H1 ->]. split; [|done].
    rewrite Nat2Z.inj_succ, Z.pow_succ_r by lia.
    rewrite !(Z.rem_mul_r _ 256) by lia. by rewrite H0, H1.
Qed.

(** The binary64 pattern of a binary32 number: its fields, its range, and
    the number it comes from. *)
Lemma widened_range e f E F :
  (0 ≤ f < 2 ^ 23)%Z → widened e f E F → (0 ≤ E < 2 ^ 11 ∧ 0 ≤ F < 2 ^ 52)%Z.
Proof.
  intros Hf [(-> & -> & ->)|[(-> & -> & -> & ->)
            |[(-> & k & Hk & Hfk & -> & ->)|(He & -> & ->)]]]; try lia.
  split; [lia|]. split; [apply Z.mul_nonneg_nonneg; lia|].
  replace (2 ^ 52)%Z with (2 ^ k * 2 ^ (52 - k))%Z
    by (rewrite <- Z.pow_add_r by lia; f_equal; lia).
  apply Z.mul_lt_mono_pos_r; [apply Z.pow_pos_nonneg; lia|].
  rewrite Z.pow_add_r, Z.pow_1_r in Hfk by lia. lia.
Qed.

Lemma widened_inj e f e' f' E F :
  widened e f E F → widened e' f' E F → e = e' ∧ f = f'.
Proof.
  intros [(-> & -> & ->)|[(-> & -> & -> & ->)
         |[(-> & k & Hk & Hfk & -> & ->)|(He & -> & ->)]]]
         [(-> & H1 & H2)|[(-> & -> & H1 & H2)
         |[(-> & k' & Hk' & Hfk' & H1 & H2)|(He' & H1 & H2)]]];
    try lia.
  assert (k' = k) as -> by lia. split; [done|].
  apply Z.mul_reg_r in H2; [lia|]. apply Z.pow_nonzero; lia.
Qed.

Lemma of_float_fields b :
  (0 ≤ b < 2 ^ 32)%Z →
  ∃ E F, widened ((b / 2 ^ 23) mod 2 ^ 8) (b mod 2 ^ 23) E F ∧
         Float64.of_float b = (b / 2 ^ 31 * 2 ^ 63 + E * 2 ^ 52 + F)%Z.
Proof.
  intros Hb. unfold Float64.of_float, Float32.wrap.
  rewrite (Z.mod_small b (2 ^ 32)) by done. cbv zeta.
  set (e := ((b / 2 ^ 23) mod 2 ^ 8)%Z). set (f := (b mod 2 ^ 23)%Z).
  assert (He : (0 ≤ e < 2 ^ 8)%Z) by (apply Z.mod_pos_bound; lia).
  assert (Hf : (0 ≤ f < 2 ^ 23)%Z) by (apply Z.mod_pos_bound; lia).
  destruct (e =? 255)%Z eqn:H255;
    [apply Z.eqb_eq in H255|apply Z.eqb_neq in H255].
  { exists 2047%Z, (f * 2 ^ 29)%Z. split; [left; done|lia]. }
  destruct (e =? 0)%Z eqn:H0; [apply Z.eqb_eq in H0|apply Z.eqb_neq in H0].
  - destruct (f =? 0)%Z eqn:Hf0; [apply Z.eqb_eq in Hf0|apply Z.eqb_neq in Hf0].
    + exists 0%Z, 0%Z. split; [right; left; done|lia].
    + exists (Z.log2 f + 874)%Z, ((f - 2 ^ Z.log2 f) * 2 ^ (52 - Z.log2 f))%Z.
      split; [|lia]. right; right; left. split; [done|].
      exists (Z.log2 f). pose proof (Z.log2_spec f ltac:(lia)) as Hl.
      pose proof (Z.log2_nonneg f).
      assert (Z.log2 f < 23)%Z by (apply Z.log2_lt_pow2; lia).
      replace (Z.succ (Z.log2 f)) with (Z.log2 f + 1)%Z in Hl by lia.
      split_and!; try done; lia.
  - exists (e + 896)%Z, (f * 2 ^ 29)%Z. split; [|lia].
    right; right; right. split; [lia|done].
Qed.

Lemma sign_bit b : (0 ≤ b < 2 ^ 32)%Z → (0 ≤ b / 2 ^ 31 < 2)%Z.
Proof.
  intros Hb. split; [apply Z.div_pos; lia|apply Z.div_lt_upper_bound; lia].
Qed.

Lemma of_float_range b :
  (0 ≤ b < 2 ^ 32)%Z → (0 ≤ Float64.of_float b < 2 ^ 64)%Z.
Proof.
  intros Hb. destruct (of_float_fields b Hb) as (E & F & Hw & ->).
  apply widened_range in Hw as [HE HF]; [|apply Z.mod_pos_bound; lia].
  pose proof (sign_bit b Hb). lia.
Qed.

Lemma of_float_inj b b' :
  (0 ≤ b < 2 ^ 32)%Z → (0 ≤ b' < 2 ^ 32)%Z →
  Float64.of_float b = Float64.of_float b' → b = b'.
Proof.
  intros Hb Hb' H.
  destruct (of_float_fields b Hb) as (E & F & Hw & HE).
  destruct (of_float_fields b' Hb') as (E' & F' & Hw' & HE').
  rewrite HE, HE' in H.
  pose proof (widened_range _ _ _ _ ltac:(apply Z.mod_pos_bound; lia) Hw) as [? ?].
  pose proof (widened_range _ _ _ _ ltac:(apply Z.mod_pos_bound; lia) Hw') as [? ?].
  pose proof (sign_bit b Hb). pose proof (sign_bit b' Hb').
  assert (b / 2 ^ 31 = b' / 2 ^ 31 ∧ E = E' ∧ F = F')%Z as (Hs & -> & ->) by lia.
  destruct (widened_inj _ _ _ _ _ _ Hw Hw') as [He Hf].
  clear Hw Hw' HE HE' H.
  change (2 ^ 31)%Z with 2147483648%Z in *. change (2 ^ 23)%Z with 8388608%Z in *.
  change (2 ^ 8)%Z with 256%Z in *. change (2 ^ 32)%Z with 4294967296%Z in *.
  Z.div_mod_to_equations. lia.
Qed.

Lemma raw_bytes_value_inj v v' r r' :
  (0 ≤ v < 2 ^ 32)%Z → (0 ≤ v' < 2 ^ 32)%Z →
  raw_bytes sizeof_value (Float64.of_float v) ++ r
  = raw_bytes sizeof_value (Float64.of_float v') ++ r' → v = v' ∧ r = r'.
Proof.
  intros Hv Hv' H. apply raw_bytes_inj in H as [H ->]. split; [|done].
  change (256 ^ Z.of_nat sizeof_value)%Z with (2 ^ 64)%Z in H.
  rewrite !Z.mod_small in H by by apply of_float_range.
  by apply of_float_inj.
Qed.

Lemma raw_bytes_uint32_inj v v' r r' :
  (0 ≤ v < 2 ^ 32)%Z → (0 ≤ v' < 2 ^ 32)%Z →
  raw_bytes 4 v ++ r = raw_bytes 4 v' ++ r' → v = v' ∧ r = r'.
Proof.
  intros Hv Hv' H. apply raw_bytes_inj in H as [H ->]. split; [|done].
  change (256 ^ Z.of_nat 4)%Z with (2 ^ 32)%Z in H.
  by rewrite !Z.mod_small in H.
Qed.

Lemma index_of_elem p l : p ∈ l → l !! index_of p l = Some p.
Proof.
  induction l as [|q l IH]; [by intros ?%elem_of_nil|].
  intros Hp. simpl. case_decide as Hq; [by subst|].
  apply elem_of_cons in Hp as [->|Hp]; [done|]. by apply IH.
Qed.

Section Values.

Variable alloc : gmap Id Tree_ → Id.

Lemma Cache_operation_value o l r c q n :
  heap (Cache_operation alloc o l r c).2 !! q = Some n →
  heap c !! q = Some n ∨ value n = 0%Z.
Proof.
  unfold Cache_operation. destruct (ops c !! (o, l, r)); simpl; [auto|].
  intros [[_ <-]|[_ ?]]%lookup_insert_Some; auto.
Qed.

Lemma remap_step_value t nt m c q n :
  heap (remap_step alloc t nt m c).2 !! q = Some n →
  heap c !! q = Some n ∨ value n = 0%Z.
Proof.
  unfold remap_step. case_decide; [|auto].
  pose proof (Cache_operation_value (op nt) (default (lhs nt) (m !! lhs nt))
                (default (rhs nt) (m !! rhs nt)) c q n) as Hv.
  destruct (Cache_operation alloc _ _ _ c) as [p c'].
  destruct (m !! t); simpl in *; [|done].
  intros Hq. apply Tree_release_heap in Hq. auto.
Qed.

Lemma remap_loop_value h nodes : ∀ m c q n,
  heap (remap_loop alloc h nodes m c).2 !! q = Some n →
  heap c !! q = Some n ∨ value n = 0%Z.
Proof.
  induction nodes as [|t nodes IH]; intros m c q n; [simpl; auto|]. simpl.
  destruct (h !! t) as [nt|]; [|apply IH].
  pose proof (remap_step_value t nt m c q n) as Hs.
  destruct (remap_step alloc t nt m c) as [m' c']. simpl in Hs.
  intros [Hq|Hq]%IH; auto.
Qed.

Lemma remap_value X_ Y_ Z_ root c r c' q n :
  remap alloc X_ Y_ Z_ root c = Some (r, c') →
  heap c' !! q = Some n → heap c !! q = Some n ∨ value n = 0%Z.
Proof.
  unfold remap. intros H.
  destruct (remap_pass alloc X_ Y_ Z_ root c) as [[m c1]|] eqn:Hpass; [|done].
  simpl in H. injection H as _ <-.
  rewrite map_fold_release. intros Hq%release_list_heap. simpl in Hq.
  unfold remap_pass in Hpass.
  destruct (ordered (heap c) root) as [nodes|]; [|done].
  change (Some nodes ≫= ?f) with (f nodes) in Hpass. cbv beta in Hpass.
  pose proof (remap_loop_value (heap c) nodes (remap_seed X_ Y_ Z_ c).1
                (remap_seed X_ Y_ Z_ c).2 q n) as Hl.
  destruct (remap_seed X_ Y_ Z_ c) as [m0 c0] eqn:Hseed.
  assert (Hh0 : heap c0 = heap c).
  { unfold remap_seed in Hseed. by injection Hseed as _ <-. }
  simpl in Hl. injection Hpass as Hpass. rewrite Hpass in Hl. simpl in Hl.
  rewrite Hh0 in Hl. auto.
Qed.

End Values.

Lemma wrap_range v : (0 ≤ Float32.wrap v < 2 ^ 32)%Z.
Proof. unfold Float32.wrap. apply Z.mod_pos_bound. lia. Qed.

Lemma reachable_value_wf c held : reachable c held → value_wf (heap c).
Proof.
  induction 1 as [alloc|alloc v c held _ IH|alloc c held _ IH
                 |alloc o a b c held p c' _ IH _ _ _ Hop
                 |p c held Hr IH|alloc X_ Y_ Z_ root c held r c' Hr IH _ _ _ _ Hre];
    intros q n Hq.
  - unfold Cache_init, Cache_var in Hq. simpl in Hq.
    apply lookup_insert_Some in Hq as [[_ <-]|[_ Hq]]; [simpl; lia|].
    apply lookup_insert_Some in Hq as [[_ <-]|[_ Hq]]; [simpl; lia|].
    apply lookup_insert_Some in Hq as [[_ <-]|[_ Hq]]; [simpl; lia|].
    by rewrite lookup_empty in Hq.
  - unfold Tree_constant, Cache_constant in Hq.
    destruct (constants c !! Float32.wrap v); simpl in Hq; [by eapply IH|].
    apply lookup_insert_Some in Hq as [[_ <-]|[_ Hq]]; [|by eapply IH].
    apply wrap_range.
  - unfold Tree_var, Cache_var in Hq. simpl in Hq.
    apply lookup_insert_Some in Hq as [[_ <-]|[_ Hq]]; [simpl; lia|by eapply IH].
  - apply Tree_operation_Ok in Hop as (Hc & _).
    pose proof (Cache_operation_value alloc o a b c q n) as Hv.
    rewrite Hc in Hv. destruct (Hv Hq) as [Hq'| ->]; [by eapply IH|lia].
  - apply Tree_release_heap in Hq. by eapply IH.
  - destruct (remap_value alloc _ _ _ _ _ _ _ q n Hre Hq) as [Hq'| ->];
      [by eapply IH|lia].
Qed.

Lemma quoted_delimited s1 s2 r1 r2 :
  quoted s1 ++ r1 = quoted s2 ++ r2 → s1 = s2 ∧ r1 = r2.
Proof.
  unfold quoted. rewrite <- !app_assoc. simpl. intros H. injection H as H.
  by apply escape_delimited in H.
Qed.

Lemma index_of_le p l : index_of p l ≤ length l.
Proof. induction l as [|q l IH]; simpl; [done|]. case_decide; lia. Qed.

Lemma args_le_2 o : Opcode.args o ≤ 2.
Proof. destruct o; simpl; lia. Qed.

Lemma uint32_index p l :
  (Z.of_nat (length l) < 2 ^ 32)%Z →
  (0 ≤ uint32 (index_of p l) < 2 ^ 32)%Z ∧
  uint32 (index_of p l) = Z.of_nat (index_of p l).
Proof.
  intros Hl. pose proof (index_of_le p l).
  rewrite uint32_small by lia. lia.
Qed.

Section Parse.

Variable opnum : Opcode → Z.

Lemma payload_parse t t' x y n n' r r' :
  op n = op n' → (0 ≤ value n < 2 ^ 32)%Z → (0 ≤ value n' < 2 ^ 32)%Z →
  node_payload t x n ++ r = node_payload t' y n' ++ r' →
  (op n = Opcode.CONST → value n = value n') ∧
  (op n = Opcode.VAR →
   var_label (var_names t) (var_docs t) x
   = var_label (var_names t') (var_docs t') y) ∧
  r = r'.
Proof.
  intros Ho Hv Hv'. unfold node_payload. rewrite <- Ho.
  destruct (decide (op n = Opcode.CONST)) as [Hc|Hc].
  - intros [H ->]%raw_bytes_value_inj; [|done..].
    split_and!; [done|congruence|done].
  - destruct (decide (op n = Opcode.VAR)) as [Hvar|Hvar].
    + rewrite <- !app_assoc. intros [H1 [H2 ->]%quoted_delimited]%quoted_delimited.
      split_and!; [done| |done]. intros _. unfold var_label. by rewrite H1, H2.
    + simpl. intros ->. done.
Qed.

Lemma operands_parse l l' n n' r r' :
  op n = op n' →
  (Z.of_nat (length l) < 2 ^ 32)%Z → (Z.of_nat (length l') < 2 ^ 32)%Z →
  node_operands l n ++ r = node_operands l' n' ++ r' →
  (1 ≤ Opcode.args (op n) → index_of (lhs n) l = index_of (lhs n') l') ∧
  (Opcode.args (op n) = 2 → index_of (rhs n) l = index_of (rhs n') l') ∧
  r = r'.
Proof.
  intros Ho Hl Hl'. unfold node_operands. rewrite <- Ho.
  pose proof (args_le_2 (op n)) as Hle.
  destruct (uint32_index (lhs n) l Hl) as [Ha Ha'].
  destruct (uint32_index (lhs n') l' Hl') as [Hb Hb'].
  destruct (uint32_index (rhs n) l Hl) as [Hc Hc'].
  destruct (uint32_index (rhs n') l' Hl') as [Hd Hd'].
  destruct (Opcode.args (op n)) as [|[|[|k]]]; [| | |lia].
  - simpl. intros ->. split_and!; [lia|lia|done].
  - unfold sizeof_uint32. intros [H ->]%raw_bytes_uint32_inj; [|done..].
    split_and!; [lia|lia|done].
  - unfold sizeof_uint32. rewrite <- !app_assoc.
    intros [H1 [H2 ->]%raw_bytes_uint32_inj]%raw_bytes_uint32_inj; [|done..].
    split_and!; [lia|lia|done].
Qed.

Lemma record_parse (Hnum : opnum_distinct opnum) t t' h l l' x y n n' r r' :
  h !! x = Some n → h !! y = Some n' →
  (0 ≤ value n < 2 ^ 32)%Z → (0 ≤ value n' < 2 ^ 32)%Z →
  (Z.of_nat (length l) < 2 ^ 32)%Z → (Z.of_nat (length l') < 2 ^ 32)%Z →
  node_record opnum t h l x ++ r = node_record opnum t' h l' y ++ r' →
  op n = op n' ∧
  (op n = Opcode.CONST → value n = value n') ∧
  (op n = Opcode.VAR →
   var_label (var_names t) (var_docs t) x
   = var_label (var_names t') (var_docs t') y) ∧
  (1 ≤ Opcode.args (op n) → index_of (lhs n) l = index_of (lhs n') l') ∧
  (Opcode.args (op n) = 2 → index_of (rhs n) l = index_of (rhs n') l') ∧
  r = r'.
Proof.
  intros Hx Hy Hv Hv' Hl Hl'. unfold node_record. rewrite Hx, Hy.
  rewrite <- !app_assoc. simpl. intros H. injection H as Hb H.
  apply Hnum in Hb.
  apply payload_parse in H as (H1 & H2 & H); [|done..].
  apply operands_parse in H as (H3 & H4 & H); [|done..].
  done.
Qed.

End Parse.

(** The operands of a live node, by the arity of its opcode. *)
Lemma operand_shape c x n :
  cache_wf c → heap c !! x = Some n →
  (1 ≤ Opcode.args (op n) → lhs n ≠ nullptr) ∧
  (Opcode.args (op n) = 2 → rhs n ≠ nullptr) ∧
  (Opcode.args (op n) ≤ 1 → rhs n = nullptr).
Proof.
  intros Hwf Hn. pose proof (wf_shape _ Hwf _ _ Hn) as Hs.
  apply assert_args_count in Hs as [Hc Hf]. unfold operand_count, lhs_first in *.
  repeat case_decide; split_and!; intros; try done; try lia.
  all: try (intros ?; lia). all: try (by apply Hf). all: lia.
Qed.

Section Determine.

Variable opnum : Opcode → Z.
Hypothesis Hnum : opnum_distinct opnum.
Variable c : Cache.
Hypothesis Hwf : cache_wf c.
Hypothesis Hval : value_wf (heap c).
Variables t1 t2 : Template.
Hypothesis Hvn : var_names t1 = var_names t2.
Hypothesis Hvd : var_docs t1 = var_docs t2.
Hypothesis Hlab :
  labels_distinct (var_names t1) (var_docs t1) (heap c) (tree t1) (tree t2).
Variables l1 l2 : list Id.
Hypothesis Hlen1 : (Z.of_nat (length l1) < 2 ^ 32)%Z.
Hypothesis Hlen2 : (Z.of_nat (length l2) < 2 ^ 32)%Z.
Hypothesis Hin1 : ∀ x, x ∈ l1 →
  is_Some (heap c !! x) ∧ reaches (heap c) (tree t1) x.
Hypothesis Hin2 : ∀ x, x ∈ l2 →
  is_Some (heap c !! x) ∧ reaches (heap c) (tree t2) x.
Hypothesis Hfirst1 : ∀ pre t rest q,
  l1 = pre ++ t :: rest → child (heap c) t q → q ∈ pre.
Hypothesis Hfirst2 : ∀ pre t rest q,
  l2 = pre ++ t :: rest → child (heap c) t q → q ∈ pre.

(** An operand of the node at the head of what is left is in what has
    been read, at its index. *)
Lemma operand_read l pre x rest n q :
  (∀ pre t rest q, l = pre ++ t :: rest → child (heap c) t q → q ∈ pre) →
  l = pre ++ x :: rest → heap c !! x = Some n → q ≠ nullptr →
  (lhs n = q ∨ rhs n = q) →
  pre !! index_of q l = Some q.
Proof.
  intros Hfirst Hl Hn Hq Hc.
  assert (Hin : q ∈ pre).
  { eapply Hfirst; [done|]. split; [done|]. eauto. }
  rewrite Hl, index_of_app_l by done. by apply index_of_elem.
Qed.

Lemma records_determine : ∀ rest1 pre1 rest2 pre2,
  l1 = pre1 ++ rest1 → l2 = pre2 ++ rest2 → length pre1 = length pre2 →
  (∀ i x y, pre1 !! i = Some x → pre2 !! i = Some y →
            Tree_expr (heap c) x = Tree_expr (heap c) y) →
  concat (map (node_record opnum t1 (heap c) l1) rest1)
  = concat (map (node_record opnum t2 (heap c) l2) rest2) →
  length rest1 = length rest2 ∧
  ∀ i x y, l1 !! i = Some x → l2 !! i = Some y →
           Tree_expr (heap c) x = Tree_expr (heap c) y.
Proof.
  pose proof (wf_heap _ Hwf) as Hh.
  induction rest1 as [|x r1 IH]; intros pre1 rest2 pre2 Hl1 Hl2 Hlen Hpre Hcat.
  - destruct rest2 as [|y r2].
    + rewrite app_nil_r in Hl1, Hl2. subst. done.
    + exfalso. simpl in Hcat.
      destruct (Hin2 y) as [[n' Hn'] _]; [rewrite Hl2; set_solver|].
      unfold node_record in Hcat. by rewrite Hn' in Hcat.
  - destruct rest2 as [|y r2].
    { exfalso. simpl in Hcat.
      destruct (Hin1 x) as [[n Hn] _]; [rewrite Hl1; set_solver|].
      unfold node_record in Hcat. by rewrite Hn in Hcat. }
    simpl in Hcat.
    destruct (Hin1 x) as [[n Hn] Hrx]; [rewrite Hl1; set_solver|].
    destruct (Hin2 y) as [[n' Hn'] Hry]; [rewrite Hl2; set_solver|].
    pose proof (record_parse opnum Hnum t1 t2 (heap c) l1 l2 x y n n' _ _ Hn Hn'
                  (Hval _ _ Hn) (Hval _ _ Hn') Hlen1 Hlen2 Hcat)
      as (Ho & Hc & Hv & Hl & Hr & Hrest).
    destruct (operand_shape c x n Hwf Hn) as (Hs1 & Hs2 & Hs3).
    destruct (operand_shape c y n' Hwf Hn') as (Hs1' & Hs2' & Hs3').
    rewrite <- Ho in Hs1', Hs2', Hs3'.
    assert (He : Tree_expr (heap c) x = Tree_expr (heap c) y).
    { rewrite (Tree_expr_node _ _ _ Hh Hn), (Tree_expr_node _ _ _ Hh Hn'), <- Ho.
      destruct (decide (op n = Opcode.CONST)) as [Hcn|Hcn]; [by rewrite Hc|].
      destruct (decide (op n = Opcode.VAR)) as [Hvar|Hvar].
      - f_equal. apply Hlab; [by exists n|exists n'; split; [done|congruence]
                              |by left|by right|].
        rewrite Hv by done. by rewrite Hvn, Hvd.
      - assert (Har : 1 ≤ Opcode.args (op n)).
        { destruct (op n); simpl; done || lia. }
        f_equal.
        + eapply (Hpre (index_of (lhs n) l1)).
          * eapply operand_read; [exact Hfirst1|done|done|by apply Hs1|by left].
          * rewrite Hl by done.
            eapply operand_read; [exact Hfirst2|done|done|by apply Hs1'|by left].
        + destruct (decide (Opcode.args (op n) = 2)) as [H2|H2].
          * eapply (Hpre (index_of (rhs n) l1)).
            -- eapply operand_read; [exact Hfirst1|done|done|by apply Hs2|by right].
            -- rewrite Hr by done.
               eapply operand_read;
                 [exact Hfirst2|done|done|by apply Hs2'|by right].
          * pose proof (args_le_2 (op n)).
            rewrite Hs3, Hs3' by lia. done. }
    destruct (IH (pre1 ++ [x]) r2 (pre2 ++ [y])) as [Hlr Hall].
    + by rewrite <- app_assoc.
    + by rewrite <- app_assoc.
    + rewrite !length_app. simpl. lia.
    + intros i a b Ha Hb.
      apply lookup_app_Some in Ha as [Ha|[Hi Ha]].
      * apply lookup_app_Some in Hb as [Hb|[Hi' Hb]]; [by eapply Hpre|].
        apply lookup_lt_Some in Ha. lia.
      * apply lookup_app_Some in Hb as [Hb|[Hi' Hb]].
        { apply lookup_lt_Some in Hb. lia. }
        rewrite Hlen in Ha.
        destruct (i - length pre2) as [|k]; [|done].
        simpl in Ha, Hb. congruence.
    + done.
    + split; [simpl; lia|done].
Qed.

End Determine.

Lemma serialize_template_encoding (opnum : Opcode → Z) t c :
  cache_wf c → valid (heap c) (tree t) →
  ∃ l, ordered (heap c) (tree t) = Some l ∧
       serialize_template opnum t (heap c)
       = Some (template_header t
               ++ concat (map (node_record opnum t (heap c) l) l)).
Proof.
  intros Hwf Hroot. pose proof (wf_heap _ Hwf) as Hh.
  destruct (ordered_total _ _ Hh Hroot) as (l & Hl & Hnd & Hlive & _).
  pose proof (ordered_written_operand c _ l Hwf Hroot Hl) as Htopo.
  destruct (serialize_loop_spec opnum t (heap c) l Hnd Hlive Htopo l []
              (serializeString (doc t) (serializeString (name t) [TAG])) ∅)
    as (ids & Hloop & _); [done|apply ids_of_nil|].
  exists l. split; [done|]. unfold serialize_template. rewrite Hl.
  change (Some l ≫= ?f) with (f l). cbv beta. rewrite Hloop.
  rewrite !serializeString_quoted. unfold template_header.
  change (fst <$> Some (?a, ?b)) with (Some a). by rewrite <- !app_assoc.
Qed.

(** X24.  The stream determines the template: in a state a program can
    bring about, with distinct enumerators and fewer than 2^32 nodes, two
    templates with the same names for the variables, names that tell the
    variables below the two roots apart, serialize to the same bytes only
    if they have the same root, the same name and the same documentation.
    (For trees without variables this is [Tree::serialize()].) *)
Theorem serialize_is_injective (opnum : Opcode → Z) vn vd nm1 dc1 nm2 dc2
  p q c held :
  reachable c held → opnum_distinct opnum →
  (Z.of_nat (size (heap c)) < 2 ^ 32)%Z →
  valid (heap c) p → valid (heap c) q →
  labels_distinct vn vd (heap c) p q →
  serialize_template opnum (mkTemplate p nm1 dc1 vn vd) (heap c)
  = serialize_template opnum (mkTemplate q nm2 dc2 vn vd) (heap c) →
  p = q ∧ nm1 = nm2 ∧ dc1 = dc2.
Proof.
  intros Hr Hnum Hsize Hp Hq Hlab Heq.
  pose proof (reachable_value_wf _ _ Hr) as Hval.
  apply reachable_wf in Hr as (Hwf & _). pose proof (wf_heap _ Hwf) as Hh.
  set (t1 := mkTemplate p nm1 dc1 vn vd) in *.
  set (t2 := mkTemplate q nm2 dc2 vn vd) in *.
  destruct (serialize_template_encoding opnum t1 c Hwf Hp) as (l1 & Hl1 & Hs1).
  destruct (serialize_template_encoding opnum t2 c Hwf Hq) as (l2 & Hl2 & Hs2).
  rewrite Hs1, Hs2 in Heq. apply (inj Some) in Heq.
  unfold template_header in Heq. rewrite <- !app_assoc in Heq.
  apply app_inv_head in Heq.
  apply quoted_delimited in Heq as [Hnm Heq].
  apply quoted_delimited in Heq as [Hdc Heq].
  split; [|done].
  destruct (ordered_total _ _ Hh Hp) as (l1' & Hl1' & Hnd1 & Hlive1 & _ & Hin1).
  destruct (ordered_total _ _ Hh Hq) as (l2' & Hl2' & Hnd2 & Hlive2 & _ & Hin2).
  assert (l1' = l1) as -> by (simpl in Hl1; congruence).
  assert (l2' = l2) as -> by (simpl in Hl2; congruence).
  pose proof (ordered_length _ _ _ Hh Hp Hl1) as Hlen1.
  pose proof (ordered_length _ _ _ Hh Hq Hl2) as Hlen2.
  destruct (records_determine opnum Hnum c Hwf Hval t1 t2 eq_refl eq_refl Hlab
              l1 l2) with (rest1 := l1) (pre1 := @nil nat) (rest2 := l2)
              (pre2 := @nil nat) as [Hlen Hall]; try done; try lia.
  - intros x Hx. split; [by apply Hlive1|]. by apply Hin1.
  - intros x Hx. split; [by apply Hlive2|]. by apply Hin2.
  - by apply (ordered_operands_first _ _ _ Hh Hp).
  - by apply (ordered_operands_first _ _ _ Hh Hq).
  - destruct Hp as [->|Hp].
    + assert (l1 = []) as -> by (rewrite ordered_null in Hl1; congruence).
      destruct l2 as [|y l2]; [|done].
      destruct Hq as [->|Hq]; [done|].
      assert (q ∈ []) as Hbad; [|by apply elem_of_nil in Hbad].
      apply Hin2. split; [by eapply live_not_null|apply rtc_refl].
    + destruct Hq as [->|Hq].
      { assert (l2 = []) as -> by (rewrite ordered_null in Hl2; congruence).
        destruct l1 as [|x l1]; [|done].
        assert (p ∈ []) as Hbad; [|by apply elem_of_nil in Hbad].
        apply Hin1. split; [by eapply live_not_null|apply rtc_refl]. }
      pose proof (ordered_root_last _ _ _ Hh Hp Hl1) as Hlast1.
      pose proof (ordered_root_last _ _ _ Hh Hq Hl2) as Hlast2.
      rewrite last_lookup in Hlast1, Hlast2. rewrite Hlen in Hlast1.
      apply (Tree_expr_inj c Hwf); [by right|by right|].
      by eapply Hall.
Qed.

(* ================================================================== *)
(** ** [remap] shares what it does not touch *)

Lemma remap_subst_axis c X_ Y_ Z_ x :
  x ∉ axes_held c → remap_subst c X_ Y_ Z_ x = None.
Proof.
  intros Hx. destruct (axes_in_own c ∅) as (H1 & H2 & H3).
  unfold remap_subst.
  rewrite !decide_False; [done|..]; intros ->; apply Hx; multiset_solver.
Qed.

(** Substitution leaves alone a tree below which there is no canonical
    variable. *)
Lemma subst_free c X_ Y_ Z_ :
  cache_wf c →
  ∀ k t, valid (heap c) t → rank_above (heap c) t ≤ k →
    (∀ a, a ∈ axes_held c → ¬ reaches (heap c) t a) →
    subst (remap_subst c X_ Y_ Z_) (Tree_expr (heap c) t) = Tree_expr (heap c) t.
Proof.
  intros Hwf. pose proof (wf_heap _ Hwf) as Hh.
  induction k as [|k IH]; intros t Hv Hk Hfree.
  - destruct Hv as [->|[n Hn]]; [done|].
    assert (Hp : t ≠ nullptr) by (apply (live_not_null (heap c)); [done|by rewrite Hn]).
    rewrite (rank_above_live _ _ _ Hp Hn) in Hk. lia.
  - destruct Hv as [->|[n Hn]]; [done|].
    assert (Hp : t ≠ nullptr) by (apply (live_not_null (heap c)); [done|by rewrite Hn]).
    rewrite (rank_above_live _ _ _ Hp Hn) in Hk.
    rewrite (Tree_expr_node _ _ _ Hh Hn).
    pose proof (wf_rank _ Hh _ _ Hn) as Hrk.
    assert (Hchild : ∀ q, (lhs n = q ∨ rhs n = q) → valid (heap c) q →
              rank_above (heap c) q ≤ k →
              subst (remap_subst c X_ Y_ Z_) (Tree_expr (heap c) q)
              = Tree_expr (heap c) q).
    { intros q Hq Hvq Hkq. destruct (decide (q = nullptr)) as [->|Hq0]; [done|].
      apply IH; [done|done|]. intros a Ha Hr. apply (Hfree a Ha).
      eapply rtc_l; [|exact Hr]. split; [done|]. eauto. }
    repeat case_decide; simpl; try done.
    + rewrite remap_subst_axis; [done|]. intros Ha. apply (Hfree t Ha), rtc_refl.
    + rewrite !Hchild; try done; try (by left); try (by right); try lia.
      * by eapply wf_rhs.
      * by eapply wf_lhs.
Qed.

Lemma Tree_expr_op h r o a b :
  heap_wf h → valid h r → Tree_expr h r = EOp o a b →
  ∃ n, h !! r = Some n ∧ op n = o ∧
       Tree_expr h (lhs n) = a ∧ Tree_expr h (rhs n) = b.
Proof.
  intros Hwf [->|[n Hn]] He; [done|].
  rewrite (Tree_expr_node _ _ _ Hwf Hn) in He.
  repeat case_decide; try done. injection He as <- <- <-. eauto.
Qed.

Lemma reaches_into (h h' : gmap Id Tree_) p q :
  (∀ x n, h' !! x = Some n → h !! x = Some n) → heap_wf h' →
  is_Some (h' !! p) → reaches h p q → reaches h' p q.
Proof.
  intros Hsub Hwf' Hp Hr. induction Hr as [|x y z (Hy & n & Hn & Hc) Hyz IH];
    [apply rtc_refl|].
  destruct Hp as [n' Hn']. assert (n' = n) as ->.
  { apply Hsub in Hn'. congruence. }
  assert (Hvy : valid h' y).
  { destruct Hc as [<-|<-]; [by eapply wf_lhs|by eapply wf_rhs]. }
  destruct Hvy as [?|Hly]; [done|].
  eapply rtc_l; [|by apply IH]. split; [done|]. eauto.
Qed.

Section Sharing.

Variable alloc : gmap Id Tree_ → Id.

(** X25.  [remap] rebuilds nothing that it need not: every node of the
    tree below which there is no canonical variable is a node of the
    result, the very same node. *)
Theorem remap_shares_what_is_untouched X_ Y_ Z_ root c held r c' t :
  reachable c held →
  X_ ∈ axes_held c ⊎ held → Y_ ∈ axes_held c ⊎ held →
  Z_ ∈ axes_held c ⊎ held → handle c held root →
  remap alloc X_ Y_ Z_ root c = Some (r, c') →
  reaches (heap c) root t → is_Some (heap c !! t) →
  (∀ a, a ∈ axes_held c → ¬ reaches (heap c) t a) →
  reaches (heap c') r t ∧ heap c' !! t = heap c !! t.
Proof.
  intros Hs%reachable_wf HX HY HZ Hroot Hremap Hreach Hlive Hfree.
  pose proof Hs as (Hwf & Hax & Hown).
  pose proof (wf_heap _ Hwf) as Hh.
  destruct (remap_result alloc X_ Y_ Z_ root c held Hs HX HY HZ Hroot)
    as (r' & c1 & c'' & Hremap' & Hwf1 & Hg & Hv & He & Hsub & Hs' & _).
  rewrite Hremap in Hremap'. injection Hremap' as <- <-.
  pose proof (wf_heap _ Hwf1) as Hh1.
  assert (Hsub1 : ∀ q, valid (heap c) q →
            Tree_expr (heap c1) q = Tree_expr (heap c) q).
  { intros q Hq. apply Tree_expr_sub; [apply Hg|done..]. }
  assert (Hrepl : ∀ v, v ∈ axes_held c ⊎ held → Tree_expr (heap c) v ≠ ENull).
  { intros v Hv'. apply Tree_expr_live; [done|]. by apply (own_live _ _ Hown). }
  assert (Hnn : ∀ k q, valid (heap c) q → rank_above (heap c) q ≤ k →
            q ≠ nullptr → subst (remap_subst c X_ Y_ Z_) (Tree_expr (heap c) q) ≠ ENull).
  { intros k q [->|[n Hn]] _ Hq; [done|].
    rewrite (Tree_expr_node _ _ _ Hh Hn).
    repeat case_decide; simpl; try done.
    unfold remap_subst. repeat case_decide; simpl; try done; by apply Hrepl. }
  assert (Hmain : ∀ root, reaches (heap c) root t → ∀ r,
            valid (heap c) root → valid (heap c1) r →
            Tree_expr (heap c1) r = subst (remap_subst c X_ Y_ Z_) (Tree_expr (heap c) root) →
            reaches (heap c1) r t).
  { clear Hreach He Hv Hroot Hremap Hs'. intros root0 Hreach. revert root0 Hreach.
    apply (rtc_ind_l (λ x, ∀ r0, valid (heap c) x → valid (heap c1) r0 →
             Tree_expr (heap c1) r0
             = subst (remap_subst c X_ Y_ Z_) (Tree_expr (heap c) x) →
             reaches (heap c1) r0 t)).
    - intros r0 Hvx Hvr He.
      rewrite (subst_free c X_ Y_ Z_ Hwf _ t Hvx (le_n _) Hfree) in He.
      rewrite <- (Hsub1 t Hvx) in He.
      apply (Tree_expr_inj c1 Hwf1) in He; [subst; apply rtc_refl|done|].
      destruct Hvx as [->|[nx Hnx]]; [by left|right].
      rewrite (proj1 Hg _ _ Hnx). eauto.
    - intros x y (Hy & n & Hn & Hc) Hyz IH r0 Hvx Hvr He.
      rewrite (Tree_expr_node _ _ _ Hh Hn) in He.
      assert (Har : 1 ≤ Opcode.args (op n)).
      { destruct (operand_shape c x n Hwf Hn) as (_ & _ & H3).
        destruct (decide (1 ≤ Opcode.args (op n))) as [|Hno]; [done|].
        exfalso. destruct (var_leaf c x n Hwf Hn) as (Hl & Hrr & _); [lia|].
        destruct Hc; congruence. }
      rewrite !decide_False in He
        by (intros Heq; rewrite Heq in Har; simpl in Har; lia).
      simpl in He.
      apply Tree_expr_op in He as (nr & Hnr & Ho & Hel & Her); [|done|done].
      assert (Hvy : valid (heap c) y).
      { destruct Hc as [<-|<-]; [by eapply wf_lhs|by eapply wf_rhs]. }
      assert (Hstep : ∀ q, (lhs nr = q ∧ lhs n = y ∨ rhs nr = q ∧ rhs n = y) →
                Tree_expr (heap c1) q = subst (remap_subst c X_ Y_ Z_) (Tree_expr (heap c) y) →
                reaches (heap c1) r0 t).
      { intros q Hq Heq.
        assert (Hq0 : q ≠ nullptr).
        { intros ->. symmetry in Heq. revert Heq.
          by apply (Hnn (rank_above (heap c) y) y). }
        assert (Hvq : valid (heap c1) q).
        { destruct Hq as [[<- _]|[<- _]]; [by eapply wf_lhs|by eapply wf_rhs]. }
        eapply rtc_l; [|by apply (IH q)].
        split; [done|]. exists nr. split; [done|]. tauto. }
      destruct Hc as [Hc|Hc].
      + apply (Hstep (lhs nr)); [by left|]. by rewrite Hel, Hc.
      + apply (Hstep (rhs nr)); [by right|]. by rewrite Her, Hc. }
  pose proof (handle_valid _ _ _ Hown Hroot) as Hvroot.
  pose proof (Hmain root Hreach r Hvroot Hv He) as Hr1.
  pose proof Hs' as (Hwf' & _).
  assert (Hrl : is_Some (heap c' !! r)).
  { destruct (hold_valid _ _ _ Hs') as [->|?]; [|done].
    exfalso. destruct Hlive as [nt Hnt].
    assert (Ht0 : t ≠ nullptr).
    { apply (live_not_null (heap c)); [done|by rewrite Hnt]. }
    apply rtc_inv in Hr1 as [?|(y & (Hy & n0 & Hn0 & _) & _)]; [done|].
    by rewrite (wf_null _ Hh1) in Hn0. }
  split.
  - eapply reaches_into; [exact Hsub|apply Hwf'|done|done].
  - destruct (reaches_kept (heap c1) (heap c') r t Hsub (wf_heap _ Hwf') Hrl Hr1)
      as [Heq _].
    rewrite Heq. destruct Hlive as [nt Hnt]. by rewrite Hnt, (proj1 Hg _ _ Hnt).
Qed.

End Sharing.

(* ================================================================== *)
(** ** Two calls of [remap] *)

Lemma subst_subst σ σ' σ'' e :
  (∀ x, σ'' x = match σ x with
                | Some e' => Some (subst σ' e')
                | None => σ' x
                end) →
  subst σ' (subst σ e) = subst σ'' e.
Proof.
  intros Hσ. induction e as [| |x|o l IHl r IHr]; simpl; try done.
  - rewrite Hσ. by destruct (σ x).
  - by rewrite IHl, IHr.
Qed.

Lemma subst_ext σ σ' e : (∀ x, σ x = σ' x) → subst σ e = subst σ' e.
Proof.
  intros Hσ. induction e as [| |x|o l IHl r IHr]; simpl; try done.
  - by rewrite Hσ.
  - by rewrite IHl, IHr.
Qed.

Lemma grows_valid c c' p : grows c c' → valid (heap c) p → valid (heap c') p.
Proof.
  intros Hg [->|[n Hn]]; [by left|right]. rewrite (proj1 Hg _ _ Hn). eauto.
Qed.

Lemma Tree_expr_grows c c' p :
  cache_wf c → cache_wf c' → grows c c' → valid (heap c) p →
  Tree_expr (heap c') p = Tree_expr (heap c) p.
Proof.
  intros Hwf Hwf' Hg Hp. apply Tree_expr_sub; [apply Hg|apply Hwf|apply Hwf'|done].
Qed.

(** The substitution of [remap] is the same in a later state. *)
Lemma remap_subst_grows c c' X_ Y_ Z_ x :
  cache_wf c → cache_wf c' → grows c c' → axes c' = axes c →
  valid (heap c) X_ → valid (heap c) Y_ → valid (heap c) Z_ →
  remap_subst c' X_ Y_ Z_ x = remap_subst c X_ Y_ Z_ x.
Proof.
  intros Hwf Hwf' Hg Hax HX HY HZ. unfold remap_subst, Tree_X, Tree_Y, Tree_Z.
  rewrite Hax, !(Tree_expr_grows c c') by done. done.
Qed.

Section Remap_full.

Variable alloc : gmap Id Tree_ → Id.

(** [remap], with the state it leaves, in one statement. *)
Lemma remap_full X_ Y_ Z_ root c held :
  state_wf c held →
  X_ ∈ axes_held c ⊎ held → Y_ ∈ axes_held c ⊎ held →
  Z_ ∈ axes_held c ⊎ held → handle c held root →
  ∃ r c',
    remap alloc X_ Y_ Z_ root c = Some (r, c') ∧
    state_wf c' (hold r held) ∧ grows c c' ∧ axes c' = axes c ∧
    valid (heap c') r ∧
    Tree_expr (heap c') r
    = subst (remap_subst c X_ Y_ Z_) (Tree_expr (heap c) root).
Proof.
  intros Hs HX HY HZ Hroot. pose proof Hs as (Hwf & Hax & Hown).
  destruct (remap_result alloc X_ Y_ Z_ root c held Hs HX HY HZ Hroot)
    as (r & c1 & c' & Hremap & Hwf1 & Hg & Hv & He & Hsub & Hs' & Haxes).
  exists r, c'. pose proof Hs' as (Hwf' & _ & Hown').
  assert (Hheld : axes_held c' = axes_held c).
  { unfold axes_held, Tree_X, Tree_Y, Tree_Z. by rewrite Haxes. }
  assert (Hheap : ∀ p n, heap c !! p = Some n → heap c' !! p = Some n).
  { intros p n Hp.
    destruct (live_reached c _ Hwf Hown p) as (s & Hsin & Hreach); [eauto|].
    assert (Hs1 : is_Some (heap c' !! s)).
    { apply (own_live _ _ Hown'). rewrite Hheld.
      apply gmultiset_elem_of_disj_union in Hsin as [?|?].
      - multiset_solver.
      - apply gmultiset_elem_of_disj_union. right. by apply held_hold. }
    destruct (reaches_kept (heap c1) (heap c') s p Hsub (wf_heap _ Hwf') Hs1)
      as [Heq _].
    { eapply reaches_sub; [|exact Hreach]. apply Hg. }
    rewrite Heq. by apply Hg. }
  assert (Hvr : valid (heap c') r) by by eapply hold_valid.
  split_and!; try done.
  - split_and!; [done| |].
    + intros v p Hv'. pose proof (wf_constants _ Hwf _ _ Hv') as Hn.
      apply Hheap in Hn. by apply (wf_const_interned _ Hwf' _ _ Hn).
    + intros k p Hk. destruct (wf_ops _ Hwf _ _ Hk) as (n & Hn & Hkey).
      pose proof (wf_ops_arity _ Hwf _ _ Hk) as Har.
      apply Hheap in Hn. rewrite <- Hkey.
      apply (wf_interned _ Hwf' _ _ Hn). by rewrite <- Hkey in Har.
  - rewrite <- He. symmetry.
    apply Tree_expr_sub; [done|apply Hwf'|apply Hwf1|done].
Qed.

End Remap_full.

Lemma own_hold c c' held r x :
  axes c' = axes c → x ∈ axes_held c ⊎ held → x ∈ axes_held c' ⊎ hold r held.
Proof.
  intros Hax Hx.
  assert (axes_held c' = axes_held c) as ->.
  { unfold axes_held, Tree_X, Tree_Y, Tree_Z. by rewrite Hax. }
  apply gmultiset_elem_of_disj_union in Hx as [?|?];
    apply gmultiset_elem_of_disj_union; [by left|right; by apply held_hold].
Qed.

Lemma handle_hold c held r : handle c (hold r held) r.
Proof.
  destruct (decide (r = nullptr)) as [->|Hr]; [by left|right].
  rewrite hold_live by done. multiset_solver.
Qed.

Lemma live_hold c held r :
  r ≠ nullptr → r ∈ axes_held c ⊎ hold r held.
Proof. intros Hr. rewrite hold_live by done. multiset_solver. Qed.

Lemma subst_live σ e :
  (∀ x e', σ x = Some e' → e' ≠ ENull) → e ≠ ENull → subst σ e ≠ ENull.
Proof.
  intros Hσ. destruct e as [| |x|o l r]; simpl; try done.
  intros _. destruct (σ x) as [e'|] eqn:Hx; simpl; [by eapply Hσ|done].
Qed.

Lemma remap_subst_live c held X_ Y_ Z_ x e :
  state_wf c held →
  X_ ∈ axes_held c ⊎ held → Y_ ∈ axes_held c ⊎ held →
  Z_ ∈ axes_held c ⊎ held →
  remap_subst c X_ Y_ Z_ x = Some e → e ≠ ENull.
Proof.
  intros (Hwf & _ & Hown) HX HY HZ. unfold remap_subst.
  repeat case_decide; intros He; try done; injection He as <-;
    (apply Tree_expr_live; [apply Hwf|by apply (own_live _ _ Hown)]).
Qed.

Section Compose.

Variable alloc : gmap Id Tree_ → Id.

(** A replacement that has been remapped is a tree. *)
Lemma remap_full_live X_ Y_ Z_ root c held :
  state_wf c held →
  X_ ∈ axes_held c ⊎ held → Y_ ∈ axes_held c ⊎ held →
  Z_ ∈ axes_held c ⊎ held → root ∈ axes_held c ⊎ held →
  ∃ r c',
    remap alloc X_ Y_ Z_ root c = Some (r, c') ∧
    state_wf c' (hold r held) ∧ grows c c' ∧ axes c' = axes c ∧
    r ∈ axes_held c' ⊎ hold r held ∧
    Tree_expr (heap c') r
    = subst (remap_subst c X_ Y_ Z_) (Tree_expr (heap c) root).
Proof.
  intros Hs HX HY HZ Hroot.
  destruct (remap_full alloc X_ Y_ Z_ root c held Hs HX HY HZ (or_intror Hroot))
    as (r & c' & Hre & Hs' & Hg & Hax & Hv & He).
  exists r, c'. split_and!; try done.
  apply live_hold. intros ->. rewrite Tree_expr_null in He. symmetry in He.
  revert He. apply subst_live.
  - intros x e. by apply (remap_subst_live c held).
  - pose proof Hs as (Hwf & _ & Hown).
    apply Tree_expr_live; [apply Hwf|by apply (own_live _ _ Hown)].
Qed.

End Compose.

Section Composition.

Variable alloc : gmap Id Tree_ → Id.

(** X26.  Two calls of [remap] compose as substitutions do: remapping
    the result of [t.remap(A, B, C)] by [A', B', C'] gives the very node
    that remapping [t] by the three remapped replacements gives. *)
Theorem remap_composes A B C A' B' C' t c held :
  reachable c held →
  A ∈ axes_held c ⊎ held → B ∈ axes_held c ⊎ held → C ∈ axes_held c ⊎ held →
  A' ∈ axes_held c ⊎ held → B' ∈ axes_held c ⊎ held →
  C' ∈ axes_held c ⊎ held → handle c held t →
  ∃ r1 c1 r2 c2 a c3 b c4 k c5 r3 c6,
    remap alloc A B C t c = Some (r1, c1) ∧
    remap alloc A' B' C' r1 c1 = Some (r2, c2) ∧
    remap alloc A' B' C' A c2 = Some (a, c3) ∧
    remap alloc A' B' C' B c3 = Some (b, c4) ∧
    remap alloc A' B' C' C c4 = Some (k, c5) ∧
    remap alloc a b k t c5 = Some (r3, c6) ∧
    r3 = r2.
Proof.
  intros Hs%reachable_wf HA HB HC HA' HB' HC' Ht.
  pose proof Hs as (Hwf & _ & Hown).
  (* t.remap(A, B, C) *)
  destruct (remap_full alloc A B C t c held Hs HA HB HC Ht)
    as (r1 & c1 & Hre1 & Hs1 & Hg1 & Hax1 & Hv1 & He1).
  pose proof Hs1 as (Hwf1 & _).
  set (held1 := hold r1 held) in *.
  assert (Hin1 : ∀ x, x ∈ axes_held c ⊎ held → x ∈ axes_held c1 ⊎ held1).
  { intros x Hx. by apply (own_hold c c1). }
  (* its result by A', B', C' *)
  destruct (remap_full alloc A' B' C' r1 c1 held1 Hs1 (Hin1 _ HA') (Hin1 _ HB')
              (Hin1 _ HC') (handle_hold c1 held r1))
    as (r2 & c2 & Hre2 & Hs2 & Hg2 & Hax2 & Hv2 & He2).
  pose proof Hs2 as (Hwf2 & _).
  set (held2 := hold r2 held1) in *.
  assert (Hin2 : ∀ x, x ∈ axes_held c ⊎ held → x ∈ axes_held c2 ⊎ held2).
  { intros x Hx. apply (own_hold c1 c2); [done|by apply Hin1]. }
  (* the three replacements by A', B', C' *)
  destruct (remap_full_live alloc A' B' C' A c2 held2 Hs2 (Hin2 _ HA')
              (Hin2 _ HB') (Hin2 _ HC') (Hin2 _ HA))
    as (a & c3 & Hre3 & Hs3 & Hg3 & Hax3 & Ha & He3).
  pose proof Hs3 as (Hwf3 & _).
  set (held3 := hold a held2) in *.
  assert (Hin3 : ∀ x, x ∈ axes_held c ⊎ held → x ∈ axes_held c3 ⊎ held3).
  { intros x Hx. apply (own_hold c2 c3); [done|by apply Hin2]. }
  destruct (remap_full_live alloc A' B' C' B c3 held3 Hs3 (Hin3 _ HA')
              (Hin3 _ HB') (Hin3 _ HC') (Hin3 _ HB))
    as (b & c4 & Hre4 & Hs4 & Hg4 & Hax4 & Hb & He4).
  pose proof Hs4 as (Hwf4 & _).
  set (held4 := hold b held3) in *.
  assert (Hin4 : ∀ x, x ∈ axes_held c ⊎ held → x ∈ axes_held c4 ⊎ held4).
  { intros x Hx. apply (own_hold c3 c4); [done|by apply Hin3]. }
  destruct (remap_full_live alloc A' B' C' C c4 held4 Hs4 (Hin4 _ HA')
              (Hin4 _ HB') (Hin4 _ HC') (Hin4 _ HC))
    as (k & c5 & Hre5 & Hs5 & Hg5 & Hax5 & Hk & He5).
  pose proof Hs5 as (Hwf5 & _).
  set (held5 := hold k held4) in *.
  (* t by the remapped replacements *)
  assert (Ha5 : a ∈ axes_held c5 ⊎ held5).
  { apply (own_hold c4 c5); [done|]. by apply (own_hold c3 c4). }
  assert (Hb5 : b ∈ axes_held c5 ⊎ held5) by by apply (own_hold c4 c5).
  assert (Ht5 : handle c5 held5 t).
  { destruct Ht as [->|Ht]; [by left|right].
    apply (own_hold c4 c5); [done|by apply Hin4]. }
  destruct (remap_full alloc a b k t c5 held5 Hs5 Ha5 Hb5 Hk Ht5)
    as (r3 & c6 & Hre6 & Hs6 & Hg6 & Hax6 & Hv6 & He6).
  pose proof Hs6 as (Hwf6 & _).
  exists r1, c1, r2, c2, a, c3, b, c4, k, c5, r3, c6.
  split_and!; try done.
  (* the two results stand for the same expression *)
  assert (Hv : ∀ x, x ∈ axes_held c ⊎ held → valid (heap c) x).
  { intros x Hx. right. by apply (own_live _ _ Hown). }
  assert (Hvt : valid (heap c) t) by by eapply handle_valid.
  pose proof (grows_trans _ _ _ Hg1 Hg2) as Hg02.
  pose proof (grows_trans _ _ _ Hg02 Hg3) as Hg03.
  pose proof (grows_trans _ _ _ Hg03 Hg4) as Hg04.
  pose proof (grows_trans _ _ _ Hg04 Hg5) as Hg05.
  pose proof (grows_trans _ _ _ (grows_trans _ _ _ (grows_trans _ _ _ Hg3 Hg4) Hg5)
                Hg6) as Hg26.
  assert (Hσ' : ∀ c', cache_wf c' → grows c c' → axes c' = axes c →
            ∀ x, remap_subst c' A' B' C' x = remap_subst c A' B' C' x).
  { intros c' Hwf' Hg' Hax' x. apply remap_subst_grows; auto. }
  assert (Himg : ∀ R r cR cR',
            R ∈ axes_held c ⊎ held → cache_wf cR → grows c cR →
            axes cR = axes c → cache_wf cR' → grows cR' c5 →
            valid (heap cR') r →
            Tree_expr (heap cR') r
            = subst (remap_subst cR A' B' C') (Tree_expr (heap cR) R) →
            Tree_expr (heap c5) r
            = subst (remap_subst c A' B' C') (Tree_expr (heap c) R)).
  { intros R r cR cR' HR HwfR HgR HaxR HwfR' HgR' Hvr HeR.
    rewrite (Tree_expr_grows cR' c5) by done. rewrite HeR.
    rewrite (Tree_expr_grows c cR) by auto.
    apply subst_ext. by apply Hσ'. }
  assert (Hval : ∀ c' held' r, state_wf c' held' → r ∈ axes_held c' ⊎ held' →
            valid (heap c') r).
  { intros c' held' r (_ & _ & Hown') Hr. right. by apply (own_live _ _ Hown'). }
  apply (Tree_expr_inj c6 Hwf6); [done|by apply (grows_valid c2)|].
  rewrite He6, (Tree_expr_grows c2 c6) by done. rewrite He2, He1.
  rewrite (Tree_expr_grows c c5) by done.
  rewrite (subst_ext (remap_subst c1 A' B' C') (remap_subst c A' B' C'))
    by (by apply Hσ').
  symmetry. apply subst_subst. intros x.
  unfold remap_subst at 1 2.
  assert (HX : Tree_X c5 = Tree_X c).
  { unfold Tree_X. congruence. }
  assert (HY : Tree_Y c5 = Tree_Y c).
  { unfold Tree_Y. congruence. }
  assert (HZ : Tree_Z c5 = Tree_Z c).
  { unfold Tree_Z. congruence. }
  rewrite HX, HY, HZ.
  repeat case_decide; try (f_equal).
  - exact (Himg A a c2 c3 HA Hwf2 Hg02 (eq_trans Hax2 Hax1) Hwf3
             (grows_trans _ _ _ Hg4 Hg5) (Hval _ _ _ Hs3 Ha) He3).
  - exact (Himg B b c3 c4 HB Hwf3 Hg03 (eq_trans Hax3 (eq_trans Hax2 Hax1)) Hwf4
             Hg5 (Hval _ _ _ Hs4 Hb) He4).
  - exact (Himg C k c4 c5 HC Hwf4 Hg04
             (eq_trans Hax4 (eq_trans Hax3 (eq_trans Hax2 Hax1))) Hwf5
             (grows_refl _) (Hval _ _ _ Hs5 Hk) He5).
  - symmetry. apply remap_subst_axis. unfold axes_held. multiset_solver.
Qed.

End Composition.

(* ================================================================== *)
(** ** The names of the variables *)

Lemma node_record_label (opnum : Opcode → Z) t t' h l p :
  (∀ n, h !! p = Some n → op n = Opcode.VAR →
        var_label (var_names t') (var_docs t') p
        = var_label (var_names t) (var_docs t) p) →
  node_record opnum t' h l p = node_record opnum t h l p.
Proof.
  intros Hlab. unfold node_record. destruct (h !! p) as [n|] eqn:Hn; [|done].
  f_equal. f_equal. unfold node_payload.
  case_decide; [done|]. case_decide as Hv; [|done].
  specialize (Hlab n eq_refl Hv). unfold var_label in Hlab.
  injection Hlab as -> ->. done.
Qed.

(** X27.  [serialize] reads the template's two maps at the variables
    below the root and nowhere else, and a variable without an entry is
    written as one with empty strings: two templates with the same root,
    name and documentation whose maps give the same strings (or none and
    an empty one) to every such variable serialize to the same bytes. *)
Theorem serialize_reads_the_names_of_its_variables (opnum : Opcode → Z)
  (t t' : Template) c held :
  reachable c held → handle c held (tree t) →
  tree t' = tree t → name t' = name t → doc t' = doc t →
  (∀ a, is_var (heap c) a → reaches (heap c) (tree t) a →
        var_label (var_names t') (var_docs t') a
        = var_label (var_names t) (var_docs t) a) →
  serialize_template opnum t' (heap c) = serialize_template opnum t (heap c).
Proof.
  intros (Hwf & _ & Hown)%reachable_wf Ht Htree Hname Hdoc Hlab.
  pose proof (handle_valid _ _ _ Hown Ht) as Hv.
  pose proof (wf_heap _ Hwf) as Hh.
  destruct (serialize_template_encoding opnum t c Hwf Hv) as (l & Hl & Hs).
  destruct (serialize_template_encoding opnum t' c Hwf) as (l' & Hl' & Hs');
    [by rewrite Htree|].
  rewrite Htree in Hl'. assert (l' = l) as -> by congruence.
  rewrite Hs, Hs'. f_equal. unfold template_header. rewrite Hname, Hdoc.
  f_equal. f_equal. apply map_ext_in. intros p Hp%list_elem_of_In.
  apply node_record_label. intros n Hn Hop. apply Hlab; [by exists n|].
  destruct (ordered_total _ _ Hh Hv) as (l2 & Hl2 & _ & _ & _ & Hin).
  assert (l2 = l) as -> by congruence. by apply Hin.
Qed.

(* ================================================================== *)
(** ** Runs of the properties above *)

(** A string with a backslash, followed by two bytes. *)
Lemma serializeString_self_delimiting_witness :
  ∃ s r, serializeString "a\b" [TAG] ++ [1; 2]%Z = serializeString s [TAG] ++ r ∧
         "a\b"%string = s ∧ [1; 2]%Z = r.
Proof.
  exists "a\b"%string, [1; 2]%Z. split; [reflexivity|].
  exact (serializeString_self_delimiting "a\b" "a\b" [TAG] [1; 2]%Z [1; 2]%Z
           eq_refl).
Defined.

Lemma start_reachable : reachable start ∅.
Proof. apply reach_start. Qed.

Lemma start_wf : state_wf start ∅.
Proof. apply Cache_init_state_wf. Qed.

Lemma start_X : handle start ∅ (Tree_X start).
Proof. right. apply axes_in_own. Qed.

Lemma start_Y : handle start ∅ (Tree_Y start).
Proof. right. apply axes_in_own. Qed.

Lemma sample_state_wf : state_wf sample_cache sample_held.
Proof. apply reachable_wf, sample_reachable. Qed.

Lemma sample_root_held : sample_root ∈ axes_held sample_cache ⊎ sample_held.
Proof. unfold sample_held. multiset_solver. Qed.

Lemma sample_root_handle : handle sample_cache sample_held sample_root.
Proof. right. apply sample_root_held. Qed.

(** [ordered()] of [X + 1]. *)
Lemma ordered_ends_with_root_witness :
  heap_wf (heap sample_cache) ∧ is_Some (heap sample_cache !! sample_root) ∧
  ordered (heap sample_cache) sample_root
  = Some [Tree_X sample_cache; sample_one.1; sample_root] ∧
  last [Tree_X sample_cache; sample_one.1; sample_root] = Some sample_root.
Proof.
  pose proof (wf_heap _ sample_cache_wf) as Hh.
  pose proof sample_root_live as Hl.
  assert (Ho : ordered (heap sample_cache) sample_root
               = Some [Tree_X sample_cache; sample_one.1; sample_root])
    by by vm_compute.
  split; [done|]. split; [done|]. split; [done|].
  exact (proj1 (ordered_ends_with_root _ _ _ Hh Hl Ho)).
Defined.

Lemma start_sub_sample : heap start ⊆ heap sample_cache.
Proof.
  apply map_subseteq_spec. intros p n Hp.
  pose proof (Cache_constant_grows no_hint (Float32.wrap Float32.one) start) as [H1 _].
  pose proof (Cache_operation_grows no_hint Opcode.ADD (Tree_X sample_one.2)
                sample_one.1 sample_one.2) as [H2 _].
  apply H1 in Hp. apply H2 in Hp.
  pose proof sample_built_Ok as Hb. unfold sample_built in Hb.
  apply Tree_operation_Ok in Hb as (Hc & _). by rewrite Hc in Hp.
Qed.

(** [ordered()] of [X], before and after [X + 1] is built. *)
Lemma ordered_heap_extension_witness :
  heap start ⊆ heap sample_cache ∧
  ordered (heap start) (Tree_X start) = Some [Tree_X start] ∧
  ordered (heap sample_cache) (Tree_X start) = Some [Tree_X start].
Proof.
  assert (Ho : ordered (heap start) (Tree_X start) = Some [Tree_X start])
    by by vm_compute.
  split; [exact start_sub_sample|]. split; [done|].
  exact (proj1 ordered_heap_extension _ _ _ _ start_sub_sample Ho).
Defined.

(** The bytes of [X], before and after [X + 1] is built. *)
Lemma serialize_heap_extension_witness :
  heap start ⊆ heap sample_cache ∧
  serialize sample_opnum (Tree_X start) (heap start)
  = Some [84; 34; 34; 34; 34; 1; 34; 34; 34; 34]%Z ∧
  serialize sample_opnum (Tree_X start) (heap sample_cache)
  = Some [84; 34; 34; 34; 34; 1; 34; 34; 34; 34]%Z.
Proof.
  assert (Ho : serialize sample_opnum (Tree_X start) (heap start)
               = Some [84; 34; 34; 34; 34; 1; 34; 34; 34; 34]%Z)
    by by vm_compute.
  split; [exact start_sub_sample|]. split; [done|].
  exact (proj1 (serialize_heap_extension sample_opnum
                  (Template_of_Tree (Tree_X start))) _ _ _ start_sub_sample Ho).
Defined.

(** [sin(X)] and [sin(Tree())] at process start. *)
Lemma unary_operators_witness :
  Opcode.SIN ∈ Surface.unary ∧ state_wf start ∅ ∧ handle start ∅ (Tree_X start) ∧
  aborted (Surface.sin no_hint Tree_empty start) ∧
  ∃ p c' n, Surface.sin no_hint (Tree_X start) start = Ok p c' ∧
            heap c' !! p = Some n ∧
            key_of n = (Opcode.SIN, Tree_X start, nullptr) ∧ rank n = 1.
Proof.
  assert (Hin : Opcode.SIN ∈ Surface.unary) by (unfold Surface.unary; set_solver).
  split; [done|]. split; [exact start_wf|]. split; [exact start_X|]. split.
  - exact (proj1 (unary_operators no_hint Opcode.SIN Tree_empty start ∅ Hin
                    start_wf (or_introl eq_refl)) eq_refl).
  - destruct (proj2 (unary_operators no_hint Opcode.SIN (Tree_X start) start ∅ Hin
                       start_wf start_X))
      as (p & c' & n & H1 & H2 & H3 & H4 & _); [by vm_compute|].
    exists p, c', n. split_and!; try done; try (rewrite H4; by vm_compute).
Defined.

(** [X + Y] and [X + Tree()] at process start. *)
Lemma binary_operators_witness :
  Opcode.ADD ∈ Surface.binary ∧ state_wf start ∅ ∧
  handle start ∅ (Tree_X start) ∧ handle start ∅ (Tree_Y start) ∧
  aborted (Surface.add no_hint (Tree_X start) Tree_empty start) ∧
  ∃ p c' n, Surface.add no_hint (Tree_X start) (Tree_Y start) start = Ok p c' ∧
            heap c' !! p = Some n ∧
            key_of n = (Opcode.ADD, Tree_X start, Tree_Y start) ∧ rank n = 1.
Proof.
  assert (Hin : Opcode.ADD ∈ Surface.binary) by (unfold Surface.binary; set_solver).
  split; [done|]. split; [exact start_wf|]. split; [exact start_X|].
  split; [exact start_Y|]. split.
  - refine (proj1 (binary_operators no_hint Opcode.ADD (Tree_X start) Tree_empty
                     start ∅ Hin _ _ start_wf start_X (or_introl eq_refl))
                  (or_intror eq_refl)); done.
  - destruct (proj2 (binary_operators no_hint Opcode.ADD (Tree_X start)
                       (Tree_Y start) start ∅ Hin ltac:(done) ltac:(done)
                       start_wf start_X start_Y))
      as (p & c' & n & H1 & H2 & H3 & H4 & _); [by vm_compute|by vm_compute|].
    exists p, c', n. split_and!; try done; try (rewrite H4; by vm_compute).
Defined.

(** [abs(X)] at process start. *)
Lemma abs_spec_witness :
  state_wf start ∅ ∧ handle start ∅ (Tree_X start) ∧
  ∃ t c' n, Surface.abs no_hint (Tree_X start) start = Ok t c' ∧
            heap c' !! t = Some n ∧ op n = Opcode.MAX ∧ rank n = 2.
Proof.
  split; [exact start_wf|]. split; [exact start_X|].
  destruct (proj2 (abs_spec no_hint (Tree_X start) start ∅ start_wf start_X))
    as (t & c' & n & m & nm & H1 & H2 & H3 & _ & _ & H4 & _); [by vm_compute|].
  exists t, c', n. split_and!; try done; try (by injection H3);
    try (rewrite H4; by vm_compute).
Defined.

Lemma sample_one_held : sample_one.1 ∈ axes_held sample_cache ⊎ sample_held.
Proof. unfold sample_held. multiset_solver. Qed.

(** Dropping the handle on [X + 1] while the constant is still held: the
    sum goes, the constant stays. *)
Lemma release_frees_the_unreachable_witness :
  reachable sample_cache ({[+ sample_root +]} ⊎ ({[+ sample_one.1 +]} ⊎ ∅)) ∧
  heap (Tree_release sample_root sample_cache) !! sample_root = None ∧
  is_Some (heap (Tree_release sample_root sample_cache) !! sample_one.1).
Proof.
  split; [exact sample_reachable|]. split; [by vm_compute|].
  apply (proj2 (release_frees_the_unreachable sample_root sample_cache _
                  sample_reachable)).
  split; [vm_compute; eauto|].
  exists sample_one.1. split; [multiset_solver|apply rtc_refl].
Defined.

(** The constant below [X + 1] is live. *)
Lemma no_dangling_handle_witness :
  reachable sample_cache sample_held ∧
  reaches (heap sample_cache) sample_root sample_one.1 ∧
  is_Some (heap sample_cache !! sample_one.1).
Proof.
  assert (Hr : reaches (heap sample_cache) sample_root sample_one.1).
  { apply rtc_once. split; [by vm_compute|].
    destruct sample_root_live as [n Hn]. exists n. split; [done|].
    right. vm_compute in Hn. injection Hn as <-. by vm_compute. }
  split; [exact sample_reachable|]. split; [done|].
  exact (proj1 (no_dangling_handle _ _ sample_reachable) _ _ sample_root_held Hr).
Defined.

(** Every node of the sample state is below a handle. *)
Lemma no_leaked_node_witness :
  reachable sample_cache sample_held ∧
  is_Some (heap sample_cache !! sample_one.1) ∧
  ∃ p, p ∈ axes_held sample_cache ⊎ sample_held ∧
       reaches (heap sample_cache) p sample_one.1.
Proof.
  assert (Hl : is_Some (heap sample_cache !! sample_one.1))
    by (vm_compute; eauto).
  split; [exact sample_reachable|]. split; [done|].
  exact (no_leaked_node _ _ sample_reachable _ Hl).
Defined.

(** A constant, a variable and [X + Y], built and dropped at process
    start. *)
Lemma construct_then_drop_witness :
  reachable start ∅ ∧
  Tree_release (Tree_constant no_hint Float32.one start).1
               (Tree_constant no_hint Float32.one start).2 = start ∧
  Tree_release (Tree_var no_hint start).1 (Tree_var no_hint start).2 = start ∧
  ∃ p c', Tree_operation no_hint Opcode.ADD (Tree_X start) (Tree_Y start) start
          = Ok p c' ∧ Tree_release p c' = start.
Proof.
  destruct (construct_then_drop no_hint start ∅ start_reachable)
    as (Hk & Hv & Ho).
  split; [exact start_reachable|]. split; [apply Hk|]. split; [exact Hv|].
  destruct (Tree_operation no_hint Opcode.ADD (Tree_X start) (Tree_Y start) start)
    as [p c'|c'] eqn:Hop; [|by vm_compute in Hop].
  exists p, c'. split; [done|].
  apply (Ho Opcode.ADD (Tree_X start) (Tree_Y start));
    [simpl; lia|exact start_X|exact start_Y|done].
Defined.

(** The expression of [X + 1]. *)
Lemma equal_expressions_share_a_node_witness :
  reachable sample_cache sample_held ∧
  Tree_expr (heap sample_cache) sample_root
  = EOp Opcode.ADD (EVar (Tree_X sample_cache)) (EConst Float32.one) ∧
  sample_root = sample_root.
Proof.
  split; [exact sample_reachable|]. split; [by vm_compute|].
  exact (equal_expressions_share_a_node sample_cache sample_held _ _
           sample_reachable (or_intror sample_root_live)
           (or_intror sample_root_live) eq_refl).
Defined.

(** [pow(X, 2)] passes, [pow(X, 2.5)] and [pow(X, NaN)] fail, and
    [pow(X, inf)] passes. *)
Lemma exponent_must_be_whole_witness :
  reachable start ∅ ∧ handle start ∅ (Tree_X start) ∧ Tree_X start ≠ nullptr ∧
  (∃ p c', Surface.pow no_hint (Tree_X start)
             (Tree_constant no_hint Float32.two start).1
             (Tree_constant no_hint Float32.two start).2 = Ok p c') ∧
  (∃ p c', Surface.pow no_hint (Tree_X start)
             (Tree_constant no_hint Float32.infinity start).1
             (Tree_constant no_hint Float32.infinity start).2 = Ok p c') ∧
  (¬ ∃ p c', Surface.pow no_hint (Tree_X start)
               (Tree_constant no_hint Float32.two_and_a_half start).1
               (Tree_constant no_hint Float32.two_and_a_half start).2 = Ok p c') ∧
  (¬ ∃ p c', Surface.pow no_hint (Tree_X start)
               (Tree_constant no_hint Float32.quiet_nan start).1
               (Tree_constant no_hint Float32.quiet_nan start).2 = Ok p c').
Proof.
  assert (Hx : Tree_X start ≠ nullptr) by by vm_compute.
  split; [exact start_reachable|]. split; [exact start_X|]. split; [done|].
  split_and!.
  - apply (proj1 (exponent_must_be_whole no_hint _ Float32.two _ _
                    start_reachable start_X Hx)). by vm_compute.
  - apply (proj1 (exponent_must_be_whole no_hint _ Float32.infinity _ _
                    start_reachable start_X Hx)). by vm_compute.
  - intros H.
    apply (proj1 (exponent_must_be_whole no_hint _ Float32.two_and_a_half _ _
                    start_reachable start_X Hx)) in H. by vm_compute in H.
  - intros H.
    apply (proj1 (exponent_must_be_whole no_hint _ Float32.quiet_nan _ _
                    start_reachable start_X Hx)) in H. by vm_compute in H.
Defined.

(** The sample state with the constant 5 besides. *)
Lemma five_reachable :
  reachable (Tree_constant no_hint Float32.five sample_cache).2
    ({[+ (Tree_constant no_hint Float32.five sample_cache).1 +]} ⊎ sample_held).
Proof. apply reach_constant, sample_reachable. Qed.

(** [X + 1] with 5 for [X] stands for [5 + 1]. *)
Lemma remap_is_substitution_witness :
  let k5 := Tree_constant no_hint Float32.five sample_cache in
  let held := {[+ k5.1 +]} ⊎ sample_held in
  reachable k5.2 held ∧
  k5.1 ∈ axes_held k5.2 ⊎ held ∧ Tree_Y k5.2 ∈ axes_held k5.2 ⊎ held ∧
  Tree_Z k5.2 ∈ axes_held k5.2 ⊎ held ∧ handle k5.2 held sample_root ∧
  ∃ r c', remap no_hint k5.1 (Tree_Y k5.2) (Tree_Z k5.2) sample_root k5.2
          = Some (r, c') ∧
          Tree_expr (heap c') r
          = EOp Opcode.ADD (EConst Float32.five) (EConst Float32.one).
Proof.
  intros k5 held.
  assert (H5 : k5.1 ∈ axes_held k5.2 ⊎ held) by (unfold held; multiset_solver).
  destruct (axes_in_own k5.2 held) as (_ & HY & HZ).
  assert (Hroot : handle k5.2 held sample_root).
  { right. unfold held, sample_held. multiset_solver. }
  split; [exact five_reachable|]. split; [done|]. split; [done|].
  split; [done|]. split; [done|].
  destruct (remap_is_substitution no_hint k5.1 (Tree_Y k5.2) (Tree_Z k5.2)
              sample_root k5.2 held five_reachable H5 HY HZ Hroot)
    as (r & c' & Hremap & He).
  exists r, c'. split; [done|]. rewrite He. by vm_compute.
Defined.

(** [X + 1] with [X], [Y], [Z] for themselves. *)
Lemma remap_identity_witness :
  reachable sample_cache sample_held ∧
  handle sample_cache sample_held sample_root ∧
  ∃ c', remap no_hint (Tree_X sample_cache) (Tree_Y sample_cache)
          (Tree_Z sample_cache) sample_root sample_cache
        = Some (sample_root, c').
Proof.
  split; [exact sample_reachable|]. split; [exact sample_root_handle|].
  exact (remap_identity no_hint _ _ _ sample_reachable sample_root_handle).
Defined.

(** [X.remap(Y, X, Z)] is [Y], and [Y.remap(Y, X, Z)] is [X]. *)
Lemma remap_of_variable_witness :
  reachable start ∅ ∧
  Tree_Y start ∈ axes_held start ⊎ ∅ ∧ Tree_X start ∈ axes_held start ⊎ ∅ ∧
  Tree_Z start ∈ axes_held start ⊎ ∅ ∧
  (∃ c', remap no_hint (Tree_Y start) (Tree_X start) (Tree_Z start)
           (Tree_X start) start = Some (Tree_Y start, c')) ∧
  (∃ c', remap no_hint (Tree_Y start) (Tree_X start) (Tree_Z start)
           (Tree_Y start) start = Some (Tree_X start, c')).
Proof.
  destruct (axes_in_own start ∅) as (HX & HY & HZ).
  split; [exact start_reachable|]. split; [done|]. split; [done|]. split; [done|].
  destruct (remap_of_variable no_hint (Tree_Y start) (Tree_X start) (Tree_Z start)
              start ∅ start_reachable HY HX HZ) as (_ & H1 & H2 & _).
  by split.
Defined.

(** The sample state after [X + 1] has been remapped with [Y] for [X]. *)
Lemma remap_keeps_the_state_witness :
  reachable sample_cache sample_held ∧
  Tree_Y sample_cache ∈ axes_held sample_cache ⊎ sample_held ∧
  Tree_Z sample_cache ∈ axes_held sample_cache ⊎ sample_held ∧
  handle sample_cache sample_held sample_root ∧
  ∃ r c', remap no_hint (Tree_Y sample_cache) (Tree_Y sample_cache)
            (Tree_Z sample_cache) sample_root sample_cache = Some (r, c') ∧
          grows sample_cache c' ∧ axes c' = axes sample_cache ∧
          valid (heap c') r.
Proof.
  destruct (axes_in_own sample_cache sample_held) as (_ & HY & HZ).
  split; [exact sample_reachable|]. split; [done|]. split; [done|].
  split; [exact sample_root_handle|].
  destruct (remap no_hint (Tree_Y sample_cache) (Tree_Y sample_cache)
              (Tree_Z sample_cache) sample_root sample_cache)
    as [[r c']|] eqn:Hre; [|by vm_compute in Hre].
  exists r, c'. split; [done|].
  exact (remap_keeps_the_state no_hint _ _ _ _ _ _ _ _ sample_reachable HY HY HZ
           sample_root_handle Hre).
Defined.

(** A fresh variable at process start. *)
Lemma var_is_fresh_witness :
  reachable start ∅ ∧
  Tree_X start ∈ axes_held start ⊎ ∅ ∧ Tree_Y start ∈ axes_held start ⊎ ∅ ∧
  Tree_Z start ∈ axes_held start ⊎ ∅ ∧
  (Tree_var no_hint start).1 ≠ Tree_X start ∧
  ∃ c2, remap no_hint (Tree_Y start) (Tree_X start) (Tree_Z start)
          (Tree_var no_hint start).1 (Tree_var no_hint start).2
        = Some ((Tree_var no_hint start).1, c2).
Proof.
  destruct (axes_in_own start ∅) as (HX & HY & HZ).
  split; [exact start_reachable|]. split; [done|]. split; [done|]. split; [done|].
  split; [by vm_compute|].
  exact (proj2 (proj2 (proj2 (proj2 (proj2
           (var_is_fresh no_hint no_hint (Tree_Y start) (Tree_X start)
              (Tree_Z start) start ∅ start_reachable HY HX HZ)))))).
Defined.

(** [X - Y] and [Y - X] at process start. *)
Lemma serialize_forgets_variables_witness :
  reachable start ∅ ∧ Opcode.SUB ∈ Surface.binary ∧
  Tree_X start ∈ axes_held start ⊎ ∅ ∧ Tree_Y start ∈ axes_held start ⊎ ∅ ∧
  Tree_X start ≠ Tree_Y start ∧
  is_var (heap start) (Tree_X start) ∧ is_var (heap start) (Tree_Y start) ∧
  ∃ t1 c1 t2 c2,
    Surface.sub no_hint (Tree_X start) (Tree_Y start) start = Ok t1 c1 ∧
    Surface.sub no_hint (Tree_Y start) (Tree_X start) c1 = Ok t2 c2 ∧
    t1 ≠ t2 ∧
    serialize sample_opnum t1 (heap c2)
    = Some [84; 34; 34; 34; 34; 1; 34; 34; 34; 34; 1; 34; 34; 34; 34;
            16; 1; 0; 0; 0; 0; 0; 0; 0]%Z ∧
    serialize sample_opnum t2 (heap c2) = serialize sample_opnum t1 (heap c2).
Proof.
  destruct (axes_in_own start ∅) as (HX & HY & _).
  assert (Hin : Opcode.SUB ∈ Surface.binary) by (unfold Surface.binary; set_solver).
  assert (Hne : Tree_X start ≠ Tree_Y start) by by vm_compute.
  destruct (Cache_init_state_wf no_hint) as (_ & (Hvx & Hvy & _) & _).
  split; [exact start_reachable|]. split; [done|]. split; [done|].
  split; [done|]. split; [done|]. split; [done|]. split; [done|].
  destruct (serialize_forgets_variables sample_opnum no_hint Opcode.SUB
              (Tree_X start) (Tree_Y start) start ∅ start_reachable Hin
              ltac:(done) ltac:(done) HX HY Hne Hvx Hvy)
    as (t1 & c1 & t2 & c2 & H1 & H2 & H3 & H4 & H5).
  exists t1, c1, t2, c2. split_and!; try done.
  by rewrite H4, H5.
Defined.

Lemma sample_opnum_distinct : opnum_distinct sample_opnum.
Proof. intros o o'. destruct o, o'; vm_compute; congruence. Qed.

Lemma reaches_leaf h p n a :
  h !! p = Some n → lhs n = nullptr → rhs n = nullptr → reaches h p a → a = p.
Proof.
  intros Hn Hl Hr Hreach. destruct Hreach as [|x y z (Hy & n' & Hn' & Hc) _];
    [done|].
  assert (n' = n) as -> by congruence. destruct Hc; congruence.
Qed.

(** The template of [X], named, at process start. *)
Lemma serialize_is_injective_witness :
  let vn : gmap Id string := {[ Tree_X start := "x"%string ]} in
  reachable start ∅ ∧ opnum_distinct sample_opnum ∧
  (Z.of_nat (size (heap start)) < 2 ^ 32)%Z ∧
  valid (heap start) (Tree_X start) ∧
  labels_distinct vn ∅ (heap start) (Tree_X start) (Tree_X start) ∧
  serialize_template sample_opnum
    (mkTemplate (Tree_X start) "a" "b" vn ∅) (heap start)
  = Some [84; 34; 97; 34; 34; 98; 34; 1; 34; 120; 34; 34; 34]%Z ∧
  (Tree_X start = Tree_X start ∧ "a"%string = "a"%string ∧ "b"%string = "b"%string).
Proof.
  intros vn.
  assert (Hv : valid (heap start) (Tree_X start)) by (right; vm_compute; eauto).
  assert (Hsz : (Z.of_nat (size (heap start)) < 2 ^ 32)%Z) by by vm_compute.
  assert (Hlab : labels_distinct vn ∅ (heap start) (Tree_X start) (Tree_X start)).
  { assert (Hleaf : ∀ a, reaches (heap start) (Tree_X start) a
                         ∨ reaches (heap start) (Tree_X start) a →
                         a = Tree_X start).
    { intros a Ha.
      eapply (reaches_leaf (heap start) (Tree_X start)
                (mkTree_ Opcode.VAR 0 0 nullptr nullptr));
        [by vm_compute|done|done|tauto]. }
    intros a b _ _ Ha Hb _. by rewrite (Hleaf a Ha), (Hleaf b Hb). }
  split; [exact start_reachable|]. split; [exact sample_opnum_distinct|].
  split; [done|]. split; [done|]. split; [done|]. split; [by vm_compute|].
  exact (serialize_is_injective sample_opnum vn ∅ "a" "b" "a" "b"
           (Tree_X start) (Tree_X start) start ∅ start_reachable
           sample_opnum_distinct Hsz Hv Hv Hlab eq_refl).
Defined.

(** [X + 1] with 5 for [X]: the constant 1 is a node of the result. *)
Lemma remap_shares_what_is_untouched_witness :
  let k5 := Tree_constant no_hint Float32.five sample_cache in
  let held := {[+ k5.1 +]} ⊎ sample_held in
  reachable k5.2 held ∧
  handle k5.2 held sample_root ∧
  reaches (heap k5.2) sample_root sample_one.1 ∧
  (∀ a, a ∈ axes_held k5.2 → ¬ reaches (heap k5.2) sample_one.1 a) ∧
  ∃ r c', remap no_hint k5.1 (Tree_Y k5.2) (Tree_Z k5.2) sample_root k5.2
          = Some (r, c') ∧
          reaches (heap c') r sample_one.1.
Proof.
  intros k5 held.
  assert (H5 : k5.1 ∈ axes_held k5.2 ⊎ held) by (unfold held; multiset_solver).
  destruct (axes_in_own k5.2 held) as (_ & HY & HZ).
  assert (Hroot : handle k5.2 held sample_root).
  { right. unfold held, sample_held. multiset_solver. }
  assert (Hone : heap k5.2 !! sample_one.1
                 = Some (mkTree_ Opcode.CONST 0 Float32.one nullptr nullptr))
    by by vm_compute.
  assert (Hr : reaches (heap k5.2) sample_root sample_one.1).
  { apply rtc_once. split; [by vm_compute|].
    assert (Hn : is_Some (heap k5.2 !! sample_root)) by (vm_compute; eauto).
    destruct Hn as [n Hn]. exists n. split; [done|].
    right. vm_compute in Hn. injection Hn as <-. by vm_compute. }
  assert (Hfree : ∀ a, a ∈ axes_held k5.2 → ¬ reaches (heap k5.2) sample_one.1 a).
  { intros a Ha Hra.
    apply (reaches_leaf _ _ _ _ Hone eq_refl eq_refl) in Hra. subst a.
    unfold axes_held in Ha.
    assert (sample_one.1 = Tree_X k5.2 ∨ sample_one.1 = Tree_Y k5.2
            ∨ sample_one.1 = Tree_Z k5.2) as [ H | [ H | H ] ] by multiset_solver;
      by vm_compute in H. }
  split; [exact five_reachable|]. split; [done|]. split; [done|]. split; [done|].
  destruct (remap no_hint k5.1 (Tree_Y k5.2) (Tree_Z k5.2) sample_root k5.2)
    as [[r c']|] eqn:Hre; [|by vm_compute in Hre].
  exists r, c'. split; [done|].
  exact (proj1 (remap_shares_what_is_untouched no_hint _ _ _ _ _ _ _ _ _
                  five_reachable H5 HY HZ Hroot Hre Hr
                  (ex_intro _ _ Hone) Hfree)).
Defined.

(** [X] with [X] and [Y] swapped, twice. *)
Lemma remap_composes_witness :
  let X := Tree_X start in
  let Y := Tree_Y start in
  let Z := Tree_Z start in
  reachable start ∅ ∧
  X ∈ axes_held start ⊎ ∅ ∧ Y ∈ axes_held start ⊎ ∅ ∧ Z ∈ axes_held start ⊎ ∅ ∧
  handle start ∅ X ∧
  ∃ r1 c1 r2 c2 a c3 b c4 k c5 r3 c6,
    remap no_hint Y X Z X start = Some (r1, c1) ∧
    remap no_hint Y X Z r1 c1 = Some (r2, c2) ∧
    remap no_hint Y X Z Y c2 = Some (a, c3) ∧
    remap no_hint Y X Z X c3 = Some (b, c4) ∧
    remap no_hint Y X Z Z c4 = Some (k, c5) ∧
    remap no_hint a b k X c5 = Some (r3, c6) ∧
    r3 = r2.
Proof.
  intros X Y Z.
  destruct (axes_in_own start ∅) as (HX & HY & HZ).
  split; [exact start_reachable|]. split; [done|]. split; [done|].
  split; [done|]. split; [exact start_X|].
  exact (remap_composes no_hint Y X Z Y X Z X start ∅ start_reachable
           HY HX HZ HY HX HZ start_X).
Defined.

(** [X] in a template without entries and in one that names [Y]. *)
Lemma serialize_reads_the_names_of_its_variables_witness :
  let t := mkTemplate (Tree_X start) "a" "b" ∅ ∅ in
  let t' := mkTemplate (Tree_X start) "a" "b" {[ Tree_Y start := "y"%string ]} ∅ in
  reachable start ∅ ∧ handle start ∅ (tree t) ∧
  (∀ a, is_var (heap start) a → reaches (heap start) (tree t) a →
        var_label (var_names t') (var_docs t') a
        = var_label (var_names t) (var_docs t) a) ∧
  serialize_template sample_opnum t' (heap start)
  = serialize_template sample_opnum t (heap start).
Proof.
  intros t t'.
  assert (Hlab : ∀ a, is_var (heap start) a → reaches (heap start) (tree t) a →
            var_label (var_names t') (var_docs t') a
            = var_label (var_names t) (var_docs t) a).
  { intros a _ Ha.
    apply (reaches_leaf (heap start) (Tree_X start)
             (mkTree_ Opcode.VAR 0 0 nullptr nullptr)) in Ha;
      [|by vm_compute|done|done].
    subst a. by vm_compute. }
  split; [exact start_reachable|]. split; [exact start_X|]. split; [done|].
  exact (serialize_reads_the_names_of_its_variables sample_opnum t t' start ∅
           start_reachable start_X eq_refl eq_refl eq_refl Hlab).
Defined.

(* ================================================================== *)
(** ** Missing operands *)

Section Missing_operand.

Variable opnum : Opcode → Z.

(** A round of the loop that returns has found the ids of the operands it
    writes; the empty handle never has one. *)
Lemma serialize_node_present t h out ids p out' ids' :
  h !! nullptr = None → ids !! nullptr = None →
  serialize_node opnum t h out ids p = Some (out', ids') →
  ids' !! nullptr = None ∧
  ∀ n q, h !! p = Some n → written_operand n q → q ≠ nullptr.
Proof.
  intros Hnull Hids Hs. unfold serialize_node in Hs.
  destruct (h !! p) as [n|] eqn:Hn; [|done]. simpl in Hs.
  assert (Hp : p ≠ nullptr) by (intros ->; congruence).
  set (ids1 := match ids !! p with
               | Some _ => ids
               | None => <[p := uint32 (size ids)]> ids
               end) in Hs.
  assert (Hids1 : ids1 !! nullptr = None).
  { unfold ids1. destruct (ids !! p); [done|]. by rewrite lookup_insert_ne. }
  assert (Hq : ∀ q, is_Some (ids1 !! q) → q ≠ nullptr).
  { intros q [i Hi] ->. congruence. }
  unfold written_operand.
  destruct (Opcode.args (op n)) as [|[|[|k]]] eqn:Har.
  - simplify_eq. split; [done|]. intros n' q ? [[? _]|[? _]]; simplify_eq; lia.
  - destruct (ids1 !! lhs n) as [l|] eqn:Hl; [|done]. simpl in Hs. simplify_eq.
    split; [done|]. intros n' q ? [[? _]|[_ ->]]; simplify_eq; [lia|].
    apply Hq. by rewrite Hl.
  - destruct (ids1 !! rhs n) as [r|] eqn:Hr; [|done]. simpl in Hs.
    destruct (ids1 !! lhs n) as [l|] eqn:Hl; [|done]. simpl in Hs. simplify_eq.
    split; [done|]. intros n' q ? [[_ [-> | ->]]|[? _]]; simplify_eq.
    + apply Hq. by rewrite Hl.
    + apply Hq. by rewrite Hr.
    + lia.
  - simplify_eq. split; [done|]. intros n' q ? [[? _]|[? _]]; simplify_eq; lia.
Qed.

Lemma serialize_loop_present t h nodes : ∀ out ids res,
  h !! nullptr = None → ids !! nullptr = None →
  serialize_loop opnum t h out ids nodes = Some res →
  ∀ p n q, p ∈ nodes → h !! p = Some n → written_operand n q → q ≠ nullptr.
Proof.
  induction nodes as [|t0 rest IH]; intros out ids res Hnull Hids Hs p n q Hp;
    [by apply elem_of_nil in Hp|].
  simpl in Hs.
  destruct (serialize_node opnum t h out ids t0) as [[out1 ids1]|] eqn:Hnode;
    [|done].
  destruct (serialize_node_present _ _ _ _ _ _ _ Hnull Hids Hnode) as [Hids1 Hq].
  apply elem_of_cons in Hp as [->|Hp]; [apply Hq|].
  by eapply IH.
Qed.

(** Operands that are present come earlier in [ordered]. *)
Lemma ordered_present_operand h root l :
  heap_wf h → valid h root → ordered h root = Some l →
  (∀ p n q, reaches h root p → h !! p = Some n → written_operand n q →
            q ≠ nullptr) →
  ∀ i p n q, l !! i = Some p → h !! p = Some n → written_operand n q →
             ∃ j, l !! j = Some q ∧ j < i.
Proof.
  intros Hh Hroot Hl Hall i p n q Hi Hn Hq.
  destruct (ordered_total _ _ Hh Hroot) as (l' & Hl' & Hnd & Hlive & Htopo & Hreach).
  assert (l' = l) as -> by congruence.
  pose proof (list_elem_of_lookup_2 _ _ _ Hi) as Hp.
  apply Hreach in Hp as [Hr0 Hr].
  assert (Hc : child h p q).
  { split; [by eapply Hall|]. exists n. split; [done|].
    destruct Hq as [[_ [-> | ->]]|[_ ->]]; auto. }
  assert (Hin : q ∈ l).
  { apply Hreach. split; [done|]. by eapply rtc_r. }
  apply list_elem_of_lookup_1 in Hin as [j Hj]. exists j. split; [done|].
  by eapply Htopo.
Qed.

Lemma serialize_returns_iff t h :
  heap_wf h → valid h (tree t) →
  is_Some (serialize_template opnum t h) ↔
  ∀ p n q, reaches h (tree t) p → h !! p = Some n → written_operand n q →
           q ≠ nullptr.
Proof.
  intros Hh Hroot.
  destruct (ordered_total _ _ Hh Hroot) as (l & Hl & Hnd & Hlive & Htopo & Hreach).
  split.
  - intros [out Hout] p n q Hp Hn Hq.
    unfold serialize_template in Hout. rewrite Hl in Hout.
    change (Some l ≫= ?f) with (f l) in Hout. cbv beta in Hout.
    destruct (serialize_loop opnum t h
                (serializeString (doc t) (serializeString (name t) [TAG])) ∅ l)
      as [res|] eqn:Hloop; [|done].
    eapply (serialize_loop_present t h l _ ∅ res); try done.
    + apply (wf_null _ Hh).
    + apply Hreach. split; [|done]. intros Hr. rewrite Hr in Hp.
      apply rtc_inv in Hp as [<-|(y & [_ (m & Hm & _)] & _)];
        pose proof (wf_null _ Hh); congruence.
  - intros Hall.
    pose proof (ordered_present_operand h _ l Hh Hroot Hl Hall) as Hops.
    destruct (serialize_loop_spec opnum t h l Hnd Hlive Hops l []
                (serializeString (doc t) (serializeString (name t) [TAG])) ∅)
      as (ids & Hloop & _); [done|apply ids_of_nil|].
    unfold serialize_template. rewrite Hl.
    change (Some l ≫= ?f) with (f l). cbv beta. by rewrite Hloop.
Qed.

(** What [(X + 1).remap(Tree(), Y, Z)] returns: a sum without [lhs], whose
    [rhs] is the constant of the sample; [serialize] of it throws. *)
Lemma sample_emptied_run :
  ∃ r c' n, sample_emptied = Some (r, c') ∧ heap c' !! r = Some n ∧
            op n = Opcode.ADD ∧ lhs n = nullptr ∧ rhs n = sample_one.1 ∧
            serialize opnum r (heap c') = None.
Proof.
  assert (Hrun : match sample_emptied with
                 | Some (r, c') =>
                     Some ((λ n, (op n, lhs n, rhs n)) <$> heap c' !! r,
                           serialize opnum r (heap c'))
                 | None => None
                 end = Some (Some (Opcode.ADD, nullptr, sample_one.1), None))
    by (vm_compute; reflexivity).
  destruct sample_emptied as [[r c']|]; [|done].
  injection Hrun as Hn Hs.
  destruct (heap c' !! r) as [n|] eqn:Hlive; [|done]. injection Hn as Ho Hl Hr.
  by exists r, c', n.
Qed.

End Missing_operand.

(** X7.  [serialize] throws exactly on a missing operand.  On a
    well-formed heap, [serialize] of a valid handle returns if and only if
    every node under the root has the operands whose ids are written for
    its opcode ([lhs] for one operand, [rhs] and [lhs] for two): the empty
    handle has no id, and [ids.at] throws on it.  So [serialize] returns
    in every state that is reached by constructing, by dropping handles
    and by remapping with replacements that are not empty.  With an empty
    replacement it need not: [remap] takes it without a check, and
    [(X + 1).remap(Tree(), Y, Z)] returns a sum without [lhs], on which
    [serialize] throws. *)
Theorem serialize_throws_on_a_missing_operand (opnum : Opcode → Z) :
  (∀ t h, heap_wf h → valid h (tree t) →
     (is_Some (serialize_template opnum t h) ↔
      ∀ p n q, reaches h (tree t) p → h !! p = Some n →
               written_operand n q → q ≠ nullptr)) ∧
  (∀ t c held, reachable c held → handle c held (tree t) →
     is_Some (serialize_template opnum t (heap c))) ∧
  (reachable sample_cache sample_held ∧
   handle sample_cache sample_held sample_root ∧
   ∃ r c' n, sample_emptied = Some (r, c') ∧ heap c' !! r = Some n ∧
             op n = Opcode.ADD ∧ lhs n = nullptr ∧ rhs n = sample_one.1 ∧
             serialize opnum r (heap c') = None).
Proof.
  split; [apply serialize_returns_iff|]. split.
  - intros t c held (Hwf & _ & Hown)%reachable_wf Ht.
    apply serialize_total; [done|by eapply handle_valid].
  - split; [apply sample_reachable|]. split; [apply sample_root_handle|].
    apply sample_emptied_run.
Qed.

(** [serialize] of [X + 1], whose nodes have their operands. *)
Lemma serialize_throws_on_a_missing_operand_witness :
  heap_wf (heap sample_cache) ∧ valid (heap sample_cache) sample_root ∧
  reachable sample_cache sample_held ∧
  handle sample_cache sample_held sample_root ∧
  is_Some (serialize sample_opnum sample_root (heap sample_cache)) ∧
  ∀ p n q, reaches (heap sample_cache) sample_root p →
           heap sample_cache !! p = Some n → written_operand n q →
           q ≠ nullptr.
Proof.
  pose proof (wf_heap _ sample_cache_wf) as Hh.
  pose proof (or_intror sample_root_live : valid (heap sample_cache) sample_root)
    as Hv.
  pose proof (proj1 (proj2 (serialize_throws_on_a_missing_operand sample_opnum))
                (Template_of_Tree sample_root) _ _
                sample_reachable sample_root_handle) as Hs.
  split; [done|]. split; [done|]. split; [exact sample_reachable|].
  split; [exact sample_root_handle|]. split; [exact Hs|].
  exact (proj1 (proj1 (serialize_throws_on_a_missing_operand sample_opnum)
                  (Template_of_Tree sample_root) _ Hh Hv) Hs).
Defined.

(** X12.  [remap] runs none of the assertions of the constructor: it
    calls the cache directly.  As long as its replacements are not empty,
    nothing is lost: in every state that is reached by constructing, by
    dropping handles and by remapping with replacements that the program
    holds, every live node passes the three assertions (its operands are
    those its opcode takes, the exponent of a [POW] node is an integral
    constant, the degree of an [NTH_ROOT] node is a positive integral
    constant), the nodes that such a [remap] builds included.  With an
    empty replacement it is not so: [(X + 1).remap(Tree(), Y, Z)] returns
    a live sum without [lhs], which the first assertion refuses. *)
Theorem remap_bypasses_the_assertions :
  (∀ c held p n, reachable c held → heap c !! p = Some n →
                 asserted (heap c) n) ∧
  (∀ alloc X_ Y_ Z_ root c held r c' p n,
     reachable c held →
     X_ ∈ axes_held c ⊎ held → Y_ ∈ axes_held c ⊎ held →
     Z_ ∈ axes_held c ⊎ held → handle c held root →
     remap alloc X_ Y_ Z_ root c = Some (r, c') →
     heap c' !! p = Some n → asserted (heap c') n) ∧
  (reachable sample_cache sample_held ∧
   handle sample_cache sample_held sample_root ∧
   ∃ r c' n, sample_emptied = Some (r, c') ∧ heap c' !! r = Some n ∧
             op n = Opcode.ADD ∧ lhs n = nullptr ∧ rhs n = sample_one.1 ∧
             assert_args (op n) (lhs n) (rhs n) = false ∧
             ¬ asserted (heap c') n).
Proof.
  assert (Hall : ∀ c held p n, reachable c held → heap c !! p = Some n →
                               asserted (heap c) n).
  { intros c held p n Hr Hp. split.
    - apply reachable_wf in Hr as (Hwf & _). by eapply wf_shape.
    - by eapply reachable_exponent_wf. }
  split; [exact Hall|]. split.
  - intros alloc X_ Y_ Z_ root c held r c' p n Hr HX HY HZ Hroot Hre Hp.
    apply (Hall c' (hold r held) p n); [|done].
    by eapply (reach_remap alloc X_ Y_ Z_ root c held).
  - split; [apply sample_reachable|]. split; [apply sample_root_handle|].
    destruct (sample_emptied_run sample_opnum)
      as (r & c' & n & Hre & Hn & Ho & Hl & Hrh & _).
    assert (Ha : assert_args (op n) (lhs n) (rhs n) = false)
      by by rewrite Ho, Hl.
    exists r, c', n. split_and!; try done.
    intros [Hargs _]. congruence.
Qed.

(** The nodes of [X + 1], and of [1 + 1] that [remap] builds from it with
    the constant for [X]. *)
Lemma remap_bypasses_the_assertions_witness :
  reachable sample_cache sample_held ∧
  (∃ n, heap sample_cache !! sample_root = Some n ∧
        asserted (heap sample_cache) n) ∧
  ∃ r c' n, remap no_hint sample_one.1 (Tree_Y sample_cache)
              (Tree_Z sample_cache) sample_root sample_cache = Some (r, c') ∧
            heap c' !! r = Some n ∧ asserted (heap c') n.
Proof.
  split; [exact sample_reachable|]. split.
  - destruct sample_root_live as [n Hn]. exists n. split; [done|].
    exact (proj1 remap_bypasses_the_assertions _ _ _ _ sample_reachable Hn).
  - assert (Hrun : match remap no_hint sample_one.1 (Tree_Y sample_cache)
                           (Tree_Z sample_cache) sample_root sample_cache with
                   | Some (r, c') => bool_decide (is_Some (heap c' !! r))
                   | None => false
                   end = true) by (vm_compute; reflexivity).
    destruct (remap no_hint sample_one.1 (Tree_Y sample_cache)
                (Tree_Z sample_cache) sample_root sample_cache)
      as [[r c']|] eqn:Hre; [|done].
    apply bool_decide_eq_true in Hrun as [n Hn].
    exists r, c', n. split; [done|]. split; [done|].
    assert (H1 : sample_one.1 ∈ axes_held sample_cache ⊎ sample_held)
      by (unfold sample_held; multiset_solver).
    assert (H2 : Tree_Y sample_cache ∈ axes_held sample_cache ⊎ sample_held)
      by apply axes_in_own.
    assert (H3 : Tree_Z sample_cache ∈ axes_held sample_cache ⊎ sample_held)
      by apply axes_in_own.
    exact (proj1 (proj2 remap_bypasses_the_assertions) no_hint _ _ _ _ _ _ _ _ _ _
             sample_reachable H1 H2 H3 sample_root_handle Hre Hn).
Defined.
